(** * A shallow embedding of the QVM core (Yogirajpp/qvm)

    The development follows the JavaScript sources:
    - [src/utils/complex-math.js]      : [ComplexNumber]
    - [src/utils/quantum-gates.js]     : [GATES]
    - [src/core/state-vector.js]       : [StateVector]
    - [src/core/qubit-registry.js]     : [QubitRegistry]
    - [src/core/measurement-engine.js] : [MeasurementEngine]
    - [src/core/gate-executor.js]      : [GateExecutor]
    - [src/types/qbc.js]               : [QBC]
    - [src/core/bytecode-interpreter.js] : [BytecodeInterpreter]

    Conventions of the embedding.
    - A JavaScript number that holds an amplitude component, a probability
      or a norm is a [number]: a real ([Num x], arithmetic without rounding)
      or [NaN].  [NaN] is kept because the sources produce it by reading a
      property of a primitive ([undefined]) and doing arithmetic with it.
    - A JavaScript number that holds an index, an address, an opcode or a
      classical value is a [Z]; the 32-bit operators ([<<], [>>], [&], [|],
      [^], [~]) are written with their [ToInt32] wrap-around.
    - Methods that mutate [this] are state transformers [S -> res A * S]:
      the state that is returned next to a [Throw] is the state the object
      is left in when the exception propagates.
    - An exception carries the fixed text of its message; the values that
      the sources interpolate into it are left out. *)

From Stdlib Require Import ZArith Reals Lra Lia List String Bool.
From stdpp Require Import base list strings gmap.
From coqutil Require Import Z.bitblast.

Local Open Scope Z_scope.

(** ** Exceptions and the state-and-exception monad *)

Inductive exn : Type :=
| Error (msg : string)
| TypeError (msg : string)
| RangeError (msg : string).

Inductive res (A : Type) : Type :=
| Ok (a : A)
| Throw (e : exn).
Arguments Ok {A} a.
Arguments Throw {A} e.

Definition is_ok {A} (r : res A) : bool :=
  match r with Ok _ => true | Throw _ => false end.

Definition rbind {A B} (r : res A) (k : A -> res B) : res B :=
  match r with Ok a => k a | Throw e => Throw e end.

Definition M (S A : Type) : Type := S -> res A * S.

Definition ret {S A} (a : A) : M S A := fun s => (Ok a, s).
Definition throw {S A} (e : exn) : M S A := fun s => (Throw e, s).
Definition bind {S A B} (m : M S A) (k : A -> M S B) : M S B :=
  fun s => match m s with
           | (Ok a, s') => k a s'
           | (Throw e, s') => (Throw e, s')
           end.
Definition get {S} : M S S := fun s => (Ok s, s).
Definition put {S} (s : S) : M S unit := fun _ => (Ok tt, s).
Definition modify {S} (f : S -> S) : M S unit := fun s => (Ok tt, f s).
Definition lift_res {S A} (r : res A) : M S A := fun s => (r, s).

Declare Scope js_scope.
Delimit Scope js_scope with js.
Notation "'let*' x ':=' m 'in' k" := (bind m (fun x => k))
  (at level 10, x pattern, m at level 100, k at level 200) : js_scope.
Notation "m ';;' k" := (bind m (fun _ => k))
  (at level 100, k at level 200, right associativity) : js_scope.
Notation "'let?' x ':=' r 'in' k" := (rbind r (fun x => k))
  (at level 10, x pattern, r at level 100, k at level 200) : js_scope.

(** ** JavaScript numbers used as reals *)

Inductive number : Type :=
| Num (x : R)
| NaN.

Definition nadd (a b : number) : number :=
  match a, b with Num x, Num y => Num (x + y) | _, _ => NaN end.
Definition nsub (a b : number) : number :=
  match a, b with Num x, Num y => Num (x - y) | _, _ => NaN end.
Definition nmul (a b : number) : number :=
  match a, b with Num x, Num y => Num (x * y) | _, _ => NaN end.

(** [a / b].  Every division of the modelled sources is guarded by a test
    that the divisor is not [0]; for a zero divisor (an infinity or NaN in
    JavaScript) the model answers [NaN]. *)
Definition ndiv (a b : number) : number :=
  match a, b with
  | Num x, Num y => if Req_dec_T y 0 then NaN else Num (x / y)
  | _, _ => NaN
  end.

(** Comparisons are [false] as soon as an operand is NaN. *)
Definition nlt (a b : number) : bool :=
  match a, b with
  | Num x, Num y => if Rlt_dec x y then true else false
  | _, _ => false
  end.
Definition ngt (a b : number) : bool := nlt b a.
Definition nle (a b : number) : bool :=
  match a, b with
  | Num x, Num y => if Rle_dec x y then true else false
  | _, _ => false
  end.
(** [a === b] on numbers. *)
Definition nseq (a b : number) : bool :=
  match a, b with
  | Num x, Num y => if Req_dec_T x y then true else false
  | _, _ => false
  end.

Definition Math_abs (a : number) : number :=
  match a with Num x => Num (Rabs x) | NaN => NaN end.
Definition Math_sqrt (a : number) : number :=
  match a with
  | Num x => if Rle_dec 0 x then Num (sqrt x) else NaN
  | NaN => NaN
  end.

(** The default tolerance [1e-10]. *)
Definition eps10 : R := (/ 10000000000)%R.

(** ** The 32-bit integer operators *)

Definition ToInt32 (z : Z) : Z :=
  let m := z mod 2 ^ 32 in
  if m <? 2 ^ 31 then m else m - 2 ^ 32.

Definition js_shl (a k : Z) : Z := ToInt32 (Z.shiftl (ToInt32 a) (k mod 32)).
Definition js_sar (a k : Z) : Z := Z.shiftr (ToInt32 a) (k mod 32).
Definition js_and (a b : Z) : Z := Z.land (ToInt32 a) (ToInt32 b).
Definition js_or (a b : Z) : Z := Z.lor (ToInt32 a) (ToInt32 b).
Definition js_xor (a b : Z) : Z := Z.lxor (ToInt32 a) (ToInt32 b).
Definition js_not (a : Z) : Z := Z.lnot (ToInt32 a).

(** ** Arrays

    [arr_get] is [a[i]]: [None] is [undefined].  [arr_set] is [a[i] = v]
    for an index inside the array.  A store to a negative index does not
    change the elements; a store at or past the length would grow the
    array, which the kernels below never do: they only store at indices
    obtained by changing validated bit positions of an index that is
    below the length, and the length is [2^qubitCount]. *)

Definition arr_get {A} (a : list A) (i : Z) : option A :=
  if 0 <=? i then a !! Z.to_nat i else None.

Definition arr_set {A} (a : list A) (i : Z) (v : A) : list A :=
  if 0 <=? i then <[Z.to_nat i := v]> a else a.

(** The loop [for (let i = 0; i < n; i++)], as the list of the values of [i]. *)
Definition upto (n : nat) : list Z := map Z.of_nat (seq 0 n).

(** ** [ComplexNumber] (src/utils/complex-math.js) *)

Module ComplexNumber.

Record t : Type := mk { real : number; imag : number }.

(** A value passed where the sources expect a [ComplexNumber]: either an
    object with [real] and [imag], or a primitive number. *)
Inductive arg : Type :=
| Obj (c : t)
| Prim (x : number).

(** [other.real] and [other.imag]: on a primitive the property is
    [undefined], and [undefined] in arithmetic is NaN. *)
Definition arg_real (o : arg) : number :=
  match o with Obj c => real c | Prim _ => NaN end.
Definition arg_imag (o : arg) : number :=
  match o with Obj c => imag c | Prim _ => NaN end.

Definition add (this other : t) : t :=
  mk (nadd (real this) (real other)) (nadd (imag this) (imag other)).

Definition subtract (this other : t) : t :=
  mk (nsub (real this) (real other)) (nsub (imag this) (imag other)).

Definition multiply (this other : t) : t :=
  mk (nsub (nmul (real this) (real other)) (nmul (imag this) (imag other)))
     (nadd (nmul (real this) (imag other)) (nmul (imag this) (real other))).

Definition divide (this : t) (other : arg) : res t :=
  let denominator :=
    nadd (nmul (arg_real other) (arg_real other))
         (nmul (arg_imag other) (arg_imag other)) in
  if nseq denominator (Num 0) then Throw (Error "Division by zero")
  else Ok (mk (ndiv (nadd (nmul (real this) (arg_real other))
                          (nmul (imag this) (arg_imag other))) denominator)
              (ndiv (nsub (nmul (imag this) (arg_real other))
                          (nmul (real this) (arg_imag other))) denominator)).

Definition conjugate (this : t) : t :=
  mk (real this) (nsub (Num 0) (imag this)).

Definition magnitudeSquared (this : t) : number :=
  nadd (nmul (real this) (real this)) (nmul (imag this) (imag this)).

Definition magnitude (this : t) : number := Math_sqrt (magnitudeSquared this).

(** [equals(other, epsilon = 1e-10)]: equality up to a tolerance. *)
Definition equals (this other : t) (epsilon : number) : bool :=
  nlt (Math_abs (nsub (real this) (real other))) epsilon
  && nlt (Math_abs (nsub (imag this) (imag other))) epsilon.

(** [isZero(epsilon = 1e-10)], always called with the default tolerance. *)
Definition isZero (this : t) : bool :=
  nlt (Math_abs (real this)) (Num eps10) && nlt (Math_abs (imag this)) (Num eps10).

End ComplexNumber.

Definition Cx : Type := ComplexNumber.t.
(** [new ComplexNumber(x, y)] for real literals. *)
Definition cx (x y : R) : Cx := ComplexNumber.mk (Num x) (Num y).
Definition czero : Cx := cx 0 0.

(** ** The gate catalogue (src/utils/quantum-gates.js) *)

Definition matrix : Type := list (list Cx).

(** [m[r][c]]; [undefined] outside the rows or columns. *)
Definition mat_get (m : matrix) (r c : Z) : option Cx :=
  match arr_get m r with
  | Some row => arr_get row c
  | None => None
  end.

Module GATES.
Definition X : matrix := [[cx 0 0; cx 1 0]; [cx 1 0; cx 0 0]].
Definition Z : matrix := [[cx 1 0; cx 0 0]; [cx 0 0; cx (-1) 0]].
Definition I : matrix := [[cx 1 0; cx 0 0]; [cx 0 0; cx 1 0]].
Definition CNOT : matrix :=
  [[cx 1 0; cx 0 0; cx 0 0; cx 0 0];
   [cx 0 0; cx 1 0; cx 0 0; cx 0 0];
   [cx 0 0; cx 0 0; cx 0 0; cx 1 0];
   [cx 0 0; cx 0 0; cx 1 0; cx 0 0]].
End GATES.

(** ** [StateVector] (src/core/state-vector.js) *)

Module StateVector.

Record options_t : Type := mkOptions { precision : number; maxQubits : Z }.

Record metrics_t : Type :=
  mkMetrics { gateOperations : Z; stateVectorSize : Z; memoryUsage : Z }.

Record t : Type := mk {
  qubitCount : Z;
  options : options_t;
  stateVector : list Cx;
  probabilityCache : list (Z * number);
  metrics : metrics_t }.

Definition set_stateVector (v : list Cx) (this : t) : t :=
  mk (qubitCount this) (options this) v (probabilityCache this) (metrics this).
Definition set_qubitCount (n : Z) (this : t) : t :=
  mk n (options this) (stateVector this) (probabilityCache this) (metrics this).
Definition set_probabilityCache (c : list (Z * number)) (this : t) : t :=
  mk (qubitCount this) (options this) (stateVector this) c (metrics this).
Definition set_metrics (m : metrics_t) (this : t) : t :=
  mk (qubitCount this) (options this) (stateVector this) (probabilityCache this) m.

(** [x > Math.pow(2, m)] for an integer [x]. *)
Definition gt_pow2 (x m : Z) : bool :=
  if 0 <=? m then 2 ^ m <? x else 0 <? x.

(** [a[i]] used as the receiver of a method call. *)
Definition elt (a : list Cx) (i : Z) : res Cx :=
  match arr_get a i with
  | Some c => Ok c
  | None => Throw (TypeError "Cannot read properties of undefined")
  end.

Definition entry (m : matrix) (r c : Z) : res Cx :=
  match mat_get m r c with
  | Some x => Ok x
  | None => Throw (TypeError "Cannot read properties of undefined")
  end.

(** The pairs [(i, a[i])] visited by [for (let i = 0; i < a.length; i++)]. *)
Definition indexed (a : list Cx) : list (Z * Cx) := zip (upto (length a)) a.

Definition updateMemoryUsage : M t unit :=
  modify (fun this =>
    set_metrics (mkMetrics (gateOperations (metrics this))
                           (stateVectorSize (metrics this))
                           (Z.of_nat (length (stateVector this)) * 16)) this).

Definition invalidateProbabilityCache : M t unit :=
  modify (set_probabilityCache []).

Definition incrGateOperations : M t unit :=
  modify (fun this =>
    set_metrics (mkMetrics (gateOperations (metrics this) + 1)
                           (stateVectorSize (metrics this))
                           (memoryUsage (metrics this))) this).

(** [initializeStateVector(qubitCount)] for a count from 0 on, where
    [Math.pow(2, qubitCount)] is the integer [2 ^ qubitCount].  The limit
    of the language on the length of an array (fewer than [2^32]
    elements) is not modelled. *)
Definition initializeStateVector (opts : options_t) (qubitCount : Z) : res (list Cx) :=
  let stateSize := 2 ^ qubitCount in
  if gt_pow2 stateSize (maxQubits opts)
  then Throw (Error "Cannot initialize state vector")
  else Ok (cx 1 0 :: repeat czero (Z.to_nat stateSize - 1)).

(** [new StateVector(initialQubitCount, options)] *)
Definition constructor (initialQubitCount : Z) (opts : options_t) : res t :=
  (let? v := initializeStateVector opts initialQubitCount in
   Ok (mk initialQubitCount opts v []
          (mkMetrics 0 (2 ^ initialQubitCount) (Z.of_nat (length v) * 16))))%js.

Definition validateQubitIndex (qubitIndex : Z) : M t unit :=
  (let* this := get in
   if (qubitIndex <? 0) || (qubitCount this <=? qubitIndex)
   then throw (Error "Qubit index out of bounds")
   else ret tt)%js.

(** Shape check only: the unitarity test runs in development mode and
    only logs a warning. *)
Definition validateGateMatrix (gateMatrix : matrix) (size : nat) : M t unit :=
  if bool_decide (length gateMatrix = size)
     && forallb (fun row : list Cx => bool_decide (length row = size)) gateMatrix
  then ret tt
  else throw (Error "Gate matrix must be a square array of the given size").

(** The loop of [normalize]: [stateVector[i] = stateVector[i].divide(norm)],
    in place, so that an exception leaves the elements already divided. *)
Fixpoint divide_in_place (l : list Cx) (d : ComplexNumber.arg) : res unit * list Cx :=
  match l with
  | [] => (Ok tt, [])
  | a :: l' =>
      match ComplexNumber.divide a d with
      | Ok a' => let (r, l'') := divide_in_place l' d in (r, a' :: l'')
      | Throw e => (Throw e, a :: l')
      end
  end.

Definition normSquared (v : list Cx) : number :=
  fold_left (fun acc a => nadd acc (ComplexNumber.magnitudeSquared a)) v (Num 0).

Definition normalize : M t unit :=
  (let* this := get in
   let norm := Math_sqrt (normSquared (stateVector this)) in
   if ngt (Math_abs (nsub norm (Num 1))) (precision (options this))
   then
     (* [norm] is a primitive number, [divide] expects a ComplexNumber *)
     let (r, v) := divide_in_place (stateVector this) (ComplexNumber.Prim norm) in
     modify (set_stateVector v) ;; lift_res r
   else ret tt)%js.

Definition expandStateVector : M t unit :=
  (invalidateProbabilityCache ;;
   let* this := get in
   let oldSize := Z.of_nat (length (stateVector this)) in
   let newSize := oldSize * 2 in
   if gt_pow2 newSize (maxQubits (options this))
   then throw (Error "Cannot expand state vector")
   else
     modify (fun this =>
       set_metrics (mkMetrics (gateOperations (metrics this)) newSize
                              (memoryUsage (metrics this)))
         (set_qubitCount (qubitCount this + 1)
            (set_stateVector
               (stateVector this ++ repeat czero (length (stateVector this))) this))) ;;
     updateMemoryUsage)%js.

(** One iteration of the loop of [applySingleQubitGate]. *)
Definition single_step (sv : list Cx) (qubitIndex : Z) (gateMatrix : matrix)
    (acc : res (list Cx)) (i : Z) : res (list Cx) :=
  (let? newStateVector := acc in
   let bitValue := js_and (js_sar i qubitIndex) 1 in
   let flippedIndex := js_xor i (js_shl 1 qubitIndex) in
   if bitValue =? 0 then
     let? n_i := elt newStateVector i in
     let? a_i := elt sv i in
     let? g00 := entry gateMatrix 0 0 in
     let newStateVector := arr_set newStateVector i
                             (ComplexNumber.add n_i (ComplexNumber.multiply a_i g00)) in
     let? n_f := elt newStateVector flippedIndex in
     let? g10 := entry gateMatrix 1 0 in
     Ok (arr_set newStateVector flippedIndex
           (ComplexNumber.add n_f (ComplexNumber.multiply a_i g10)))
   else
     let? n_f := elt newStateVector flippedIndex in
     let? a_i := elt sv i in
     let? g01 := entry gateMatrix 0 1 in
     let newStateVector := arr_set newStateVector flippedIndex
                             (ComplexNumber.add n_f (ComplexNumber.multiply a_i g01)) in
     let? n_i := elt newStateVector i in
     let? g11 := entry gateMatrix 1 1 in
     Ok (arr_set newStateVector i
           (ComplexNumber.add n_i (ComplexNumber.multiply a_i g11))))%js.

Definition single_kernel (sv : list Cx) (qubitIndex : Z) (gateMatrix : matrix)
  : res (list Cx) :=
  fold_left (single_step sv qubitIndex gateMatrix) (upto (length sv))
            (Ok (repeat czero (length sv))).

Definition applySingleQubitGate (qubitIndex : Z) (gateMatrix : matrix) : M t unit :=
  (validateQubitIndex qubitIndex ;;
   validateGateMatrix gateMatrix 2 ;;
   invalidateProbabilityCache ;;
   let* this := get in
   let* newStateVector := lift_res (single_kernel (stateVector this) qubitIndex gateMatrix) in
   modify (set_stateVector newStateVector) ;;
   normalize ;;
   incrGateOperations ;;
   updateMemoryUsage)%js.

(** The index computed in the inner loop of [applyTwoQubitGate]. *)
Definition two_newIndex (i c t j : Z) : Z :=
  let newControlBit := js_and (js_sar j 1) 1 in
  let newTargetBit := js_and j 1 in
  let newIndex := i in
  let newIndex := js_and newIndex (js_not (js_shl 1 c)) in
  let newIndex := js_and newIndex (js_not (js_shl 1 t)) in
  let newIndex := js_or newIndex (js_shl newControlBit c) in
  js_or newIndex (js_shl newTargetBit t).

Definition two_inner (sv : list Cx) (c t : Z) (gateMatrix : matrix) (i : Z)
    (acc : res (list Cx)) (j : Z) : res (list Cx) :=
  (let? newStateVector := acc in
   let controlBit := js_and (js_sar i c) 1 in
   let targetBit := js_and (js_sar i t) 1 in
   let basisIndex := js_or (js_shl controlBit 1) targetBit in
   let newIndex := two_newIndex i c t j in
   let? n := elt newStateVector newIndex in
   let? a_i := elt sv i in
   let? g := entry gateMatrix j basisIndex in
   Ok (arr_set newStateVector newIndex
         (ComplexNumber.add n (ComplexNumber.multiply a_i g))))%js.

Definition two_step (sv : list Cx) (c t : Z) (gateMatrix : matrix)
    (acc : res (list Cx)) (i : Z) : res (list Cx) :=
  fold_left (two_inner sv c t gateMatrix i) (upto 4) acc.

Definition two_kernel (sv : list Cx) (c t : Z) (gateMatrix : matrix) : res (list Cx) :=
  fold_left (two_step sv c t gateMatrix) (upto (length sv))
            (Ok (repeat czero (length sv))).

Definition applyTwoQubitGate (controlQubitIndex targetQubitIndex : Z)
    (gateMatrix : matrix) : M t unit :=
  (validateQubitIndex controlQubitIndex ;;
   validateQubitIndex targetQubitIndex ;;
   validateGateMatrix gateMatrix 4 ;;
   invalidateProbabilityCache ;;
   if controlQubitIndex =? targetQubitIndex
   then throw (Error "Control and target qubits must be different")
   else
     let* this := get in
     let* newStateVector :=
       lift_res (two_kernel (stateVector this) controlQubitIndex targetQubitIndex gateMatrix) in
     modify (set_stateVector newStateVector) ;;
     normalize ;;
     incrGateOperations ;;
     updateMemoryUsage)%js.

(** One iteration of the loop of [applyCNOT]. *)
Definition cnot_step (c t : Z) (newStateVector : list Cx) (ia : Z * Cx) : list Cx :=
  let (i, a_i) := ia in
  if js_and (js_sar i c) 1 =? 0
  then arr_set newStateVector i a_i
  else arr_set newStateVector (js_xor i (js_shl 1 t)) a_i.

Definition cnot_kernel (sv : list Cx) (c t : Z) : list Cx :=
  fold_left (cnot_step c t) (indexed sv) (repeat czero (length sv)).

Definition applyCNOT (controlQubitIndex targetQubitIndex : Z) : M t unit :=
  (validateQubitIndex controlQubitIndex ;;
   validateQubitIndex targetQubitIndex ;;
   invalidateProbabilityCache ;;
   if controlQubitIndex =? targetQubitIndex
   then throw (Error "Control and target qubits must be different")
   else
     modify (fun this =>
       set_stateVector
         (cnot_kernel (stateVector this) controlQubitIndex targetQubitIndex) this) ;;
     incrGateOperations ;;
     updateMemoryUsage)%js.

(** The first loop of [measureQubit]: [(prob0, prob1)]. *)
Definition measure_probs (sv : list Cx) (qubitIndex : Z) : number * number :=
  fold_left
    (fun (p : number * number) (ia : Z * Cx) =>
       let (i, a) := ia in
       let bitValue := js_and (js_sar i qubitIndex) 1 in
       let prob := ComplexNumber.magnitudeSquared a in
       if bitValue =? 0 then (nadd (fst p) prob, snd p)
       else (fst p, nadd (snd p) prob))
    (indexed sv) (Num 0, Num 0).

(** The second loop: the projected vector and the running [normFactor]. *)
Definition measure_project (sv : list Cx) (qubitIndex outcome : Z) : list Cx * number :=
  fold_left
    (fun (st : list Cx * number) (ia : Z * Cx) =>
       let (i, a) := ia in
       let bitValue := js_and (js_sar i qubitIndex) 1 in
       if bitValue =? outcome
       then (arr_set (fst st) i a, nadd (snd st) (ComplexNumber.magnitudeSquared a))
       else st)
    (indexed sv) (repeat czero (length sv), Num 0).

(** The third loop: divide what is not [isZero] by the primitive
    [normFactor]. *)
Fixpoint measure_renorm (v : list Cx) (normFactor : number) : res (list Cx) :=
  match v with
  | [] => Ok []
  | a :: v' =>
      (let? a' := (if ComplexNumber.isZero a then Ok a
                   else ComplexNumber.divide a (ComplexNumber.Prim normFactor)) in
       let? v'' := measure_renorm v' normFactor in
       Ok (a' :: v''))%js
  end.

(** [measureQubit(qubitIndex)]; [random] is the value of [Math.random()]. *)
Definition measureQubit (random : R) (qubitIndex : Z) : M t Z :=
  (validateQubitIndex qubitIndex ;;
   invalidateProbabilityCache ;;
   let* this := get in
   let (prob0, prob1) := measure_probs (stateVector this) qubitIndex in
   let outcome := if nlt (Num random) prob0 then 0 else 1 in
   let (projected, normFactor) := measure_project (stateVector this) qubitIndex outcome in
   let normFactor := Math_sqrt normFactor in
   let* newStateVector := lift_res (measure_renorm projected normFactor) in
   modify (set_stateVector newStateVector) ;;
   updateMemoryUsage ;;
   ret outcome)%js.

(** [getAmplitude(basisState)]: the element of the array, which is
    [undefined] ([None]) for a negative index. *)
Definition getAmplitude (basisState : Z) : M t (option Cx) :=
  (let* this := get in
   if Z.of_nat (length (stateVector this)) <=? basisState
   then throw (Error "Basis state index out of bounds")
   else ret (arr_get (stateVector this) basisState))%js.

Definition getStateVector : M t (list Cx) :=
  (let* this := get in ret (stateVector this))%js.

Definition getQubitCount : M t Z :=
  (let* this := get in ret (qubitCount this))%js.

Definition setStateVector (newStateVector : list Cx) : M t unit :=
  (let* this := get in
   let expectedSize := 2 ^ qubitCount this in
   if negb (Z.of_nat (length newStateVector) =? expectedSize)
   then throw (Error "Invalid state vector size")
   else
     modify (set_stateVector newStateVector) ;;
     normalize ;;
     invalidateProbabilityCache ;;
     updateMemoryUsage)%js.

Definition reset : M t unit :=
  (let* this := get in
   let* v := lift_res (initializeStateVector (options this) (qubitCount this)) in
   modify (set_stateVector v) ;;
   invalidateProbabilityCache ;;
   modify (fun this =>
     set_metrics (mkMetrics 0 (stateVectorSize (metrics this))
                            (memoryUsage (metrics this))) this) ;;
   updateMemoryUsage)%js.

(** The methods of the class; calling any other name on a [StateVector]
    is a [TypeError]. *)
Definition methods : list string :=
  ["setStateVector"; "constructor"; "initializeStateVector"; "expandStateVector";
   "applySingleQubitGate"; "applyTwoQubitGate"; "applyCNOT"; "measureQubit";
   "normalize"; "getAmplitude"; "getProbability"; "invalidateProbabilityCache";
   "getStateVector"; "getQubitCount"; "reset"; "updateMemoryUsage";
   "validateQubitIndex"; "validateGateMatrix"]%string.

End StateVector.

(** ** Vocabulary of the statements *)

(** The amplitude at index [i] ([0] outside the vector). *)
Definition amp (v : list Cx) (i : Z) : Cx := default czero (arr_get v i).

(** [normalize] leaves [v] alone: [Math.abs(norm - 1) > precision] is false. *)
Definition within_precision (precision : number) (v : list Cx) : Prop :=
  ngt (Math_abs (nsub (Math_sqrt (StateVector.normSquared v)) (Num 1))) precision = false.

(** Every component of every amplitude is a real (no NaN). *)
Definition finite_cx (c : Cx) : Prop :=
  exists x y : R, c = cx x y.
Definition finite_vector (v : list Cx) : Prop := Forall finite_cx v.

(** A 2x2 gate matrix and its entry in row [r], column [c] ([true] is 1). *)
Definition mat2 (U00 U01 U10 U11 : Cx) : matrix := [[U00; U01]; [U10; U11]].
Definition mat2_at (U00 U01 U10 U11 : Cx) (r c : bool) : Cx :=
  match r, c with
  | false, false => U00
  | false, true => U01
  | true, false => U10
  | true, true => U11
  end.

(** What the accumulator of [applySingleQubitGate] holds at index [x]
    once the indices below [m] have been visited. *)
Definition single_partial (sv : list Cx) (k : Z) (U : bool -> bool -> Cx) (m x : Z) : Cx :=
  let b := Z.testbit x k in
  ComplexNumber.add
    (if x <? m then ComplexNumber.multiply (amp sv x) (U b b) else czero)
    (if Z.lxor x (2 ^ k) <? m
     then ComplexNumber.multiply (amp sv (Z.lxor x (2 ^ k))) (U b (negb b))
     else czero).

(** The amplitude [ComplexNumber(NaN, NaN)]. *)
Definition cnan : Cx := ComplexNumber.mk NaN NaN.

(** The vector the specification of [applySingleQubitGate(k, U)] describes:
    for every pair of indices [(i, i xor 2^k)] with bit [k] of [i] equal to
    0, the pair of amplitudes [(a_i, a_j)] is replaced by
    [(U00*a_i + U01*a_j, U10*a_i + U11*a_j)]. *)
Definition pair_transform (sv : list Cx) (k : Z) (U00 U01 U10 U11 : Cx) : list Cx :=
  map (fun x : Z =>
         let y := Z.lxor x (2 ^ k) in
         if Z.testbit x k
         then ComplexNumber.add (ComplexNumber.multiply U10 (amp sv y))
                                (ComplexNumber.multiply U11 (amp sv x))
         else ComplexNumber.add (ComplexNumber.multiply U00 (amp sv x))
                                (ComplexNumber.multiply U01 (amp sv y)))
      (upto (length sv)).

(** The object [applySingleQubitGate] leaves behind when it stores the
    vector [v] and [normalize] has nothing to do. *)
Definition after_gate (this : StateVector.t) (v : list Cx) : StateVector.t :=
  StateVector.mk (StateVector.qubitCount this) (StateVector.options this) v []
    (StateVector.mkMetrics
       (StateVector.gateOperations (StateVector.metrics this) + 1)
       (StateVector.stateVectorSize (StateVector.metrics this))
       (Z.of_nat (length v) * 16)).

(** A one-qubit register in the basis state |0>, with the default options. *)
Definition ket0 : StateVector.t :=
  StateVector.mk 1 (StateVector.mkOptions (Num eps10) 32) [cx 1 0; cx 0 0] []
    (StateVector.mkMetrics 0 2 32).

(** [x] with bit [c] set to [bc] and bit [t] set to [bt]: the index
    [applyTwoQubitGate] builds by clearing both bits and or-ing the new
    ones in. *)
Definition setbits (x c t : Z) (bc bt : bool) : Z :=
  Z.lor (Z.lor (Z.land (Z.land x (Z.lnot (2 ^ c))) (Z.lnot (2 ^ t)))
               (Z.shiftl (Z.b2z bc) c))
        (Z.shiftl (Z.b2z bt) t).

(** The row or column of a 4x4 gate for the pair (control bit, target
    bit): control is the high bit. *)
Definition idx2 (a b : bool) : Z := 2 * Z.b2z a + Z.b2z b.

(** [x] and [m] agree on every bit other than [c] and [t]. *)
Definition agree (c t x m : Z) : bool :=
  setbits x c t false false =? setbits m c t false false.

Definition two_term (sv : list Cx) (c t : Z) (M : Z -> Z -> Cx) (m x : Z)
    (bc bt : bool) : Cx :=
  let s := setbits x c t bc bt in
  if s <? m
  then ComplexNumber.multiply (amp sv s)
         (M (idx2 (Z.testbit x c) (Z.testbit x t)) (idx2 bc bt))
  else czero.

(** What the accumulator of [applyTwoQubitGate] holds at index [x] once
    the indices below [m] have been visited. *)
Definition two_partial (sv : list Cx) (c t : Z) (M : Z -> Z -> Cx) (m x : Z) : Cx :=
  ComplexNumber.add
    (ComplexNumber.add
       (ComplexNumber.add (two_term sv c t M m x false false)
                          (two_term sv c t M m x false true))
       (two_term sv c t M m x true false))
    (two_term sv c t M m x true true).

(** A scatter-add pass: [a[t] = a[t].add(v)] for each [(t, v)] in turn. *)
Definition scatter (ups : list (Z * Cx)) (l : list Cx) : list Cx :=
  fold_left (fun (acc : list Cx) (u : Z * Cx) =>
               arr_set acc (fst u) (ComplexNumber.add (amp acc (fst u)) (snd u)))
            ups l.

(** The index whose amplitude CNOT moves to [x]. *)
Definition cnot_source (c t x : Z) : Z :=
  if Z.testbit x c then Z.lxor x (2 ^ t) else x.

(** The vector the specification of [applyCNOT(c, t)] describes: the
    amplitudes at [i] and [i xor 2^t] are exchanged for every [i] with bit
    [c] set. *)
Definition cnot_transform (sv : list Cx) (c t : Z) : list Cx :=
  map (fun x : Z => amp sv (cnot_source c t x)) (upto (length sv)).

(** The entries of a 4x4 matrix, [czero] outside. *)
Definition mat_at (gm : matrix) (r c : Z) : Cx := default czero (mat_get gm r c).

(** The four scatter-adds of one outer iteration [i = m] of
    [applyTwoQubitGate], for [j = 0, 1, 2, 3]. *)
Definition two_updates (sv : list Cx) (c t : Z) (M : Z -> Z -> Cx) (m : Z)
  : list (Z * Cx) :=
  map (fun j : Z =>
         (setbits m c t (Z.testbit j 1) (Z.testbit j 0),
          ComplexNumber.multiply (amp sv m)
            (M j (idx2 (Z.testbit m c) (Z.testbit m t)))))
      [0; 1; 2; 3].

(** A [size] x [size] array of arrays. *)
Definition square (gm : matrix) (size : nat) : Prop :=
  length gm = size /\ Forall (fun row : list Cx => length row = size) gm.

(** Two qubits, basis state |01> (qubit 0 is 1): the amplitude 1 at index 1. *)
Definition two_qubits_index1 : StateVector.t :=
  StateVector.mk 2 (StateVector.mkOptions (Num eps10) 32)
    [cx 0 0; cx 1 0; cx 0 0; cx 0 0] []
    (StateVector.mkMetrics 0 4 64).

(** ** Vocabulary for measurements *)

(** The sum of the squared magnitudes of the amplitudes whose bit [k] is
    [b], in index order. *)
Definition marginal (sv : list Cx) (k : Z) (b : bool) : number :=
  fold_left (fun (acc : number) (ia : Z * Cx) =>
               if eqb (Z.testbit (fst ia) k) b
               then nadd acc (ComplexNumber.magnitudeSquared (snd ia))
               else acc)
            (StateVector.indexed sv) (Num 0).

(** The vector [measureQubit] stores for the given outcome: zero on the
    half that was not selected; on the selected half an amplitude that
    [isZero] accepts is kept, and any other is divided by the primitive
    [normFactor], which makes it (NaN, NaN). *)
Definition collapsed (sv : list Cx) (k : Z) (outcome : Z) : list Cx :=
  map (fun x : Z =>
         if Z.b2z (Z.testbit x k) =? outcome
         then (if ComplexNumber.isZero (amp sv x) then amp sv x else cnan)
         else czero)
      (upto (length sv)).

(** The object [measureQubit] leaves behind. *)
Definition after_measure (this : StateVector.t) (v : list Cx) : StateVector.t :=
  StateVector.mk (StateVector.qubitCount this) (StateVector.options this) v []
    (StateVector.mkMetrics
       (StateVector.gateOperations (StateVector.metrics this))
       (StateVector.stateVectorSize (StateVector.metrics this))
       (Z.of_nat (length v) * 16)).

(** The amplitude [a] divided by the square root of the probability [p],
    as the specification of [measureQubit] renormalises. *)
Definition renormalised (a : Cx) (p : number) : Cx :=
  ComplexNumber.mk (ndiv (ComplexNumber.real a) (Math_sqrt p))
                   (ndiv (ComplexNumber.imag a) (Math_sqrt p)).

(** A normalised two-qubit vector with one amplitude, [1e-11], below the
    tolerance of [isZero]. *)
Definition tiny : R := (/ 100000000000)%R.
Definition with_tiny_amplitude : StateVector.t :=
  StateVector.mk 2 (StateVector.mkOptions (Num eps10) 32)
    [cx tiny 0; cx (3 / 5) 0; cx (4 / 5) 0; cx 0 0] []
    (StateVector.mkMetrics 0 4 64).

(** The state-vector invariant of the specification: the squared
    magnitudes sum to a number within [eps] of 1. *)
Definition normalised_within (eps : R) (v : list Cx) : Prop :=
  match StateVector.normSquared v with
  | Num s => (Rabs (s - 1) <= eps)%R
  | NaN => False
  end.

(** ** The virtual machine: shared objects and external sources

    The registry, the measurement engine and the gate executor all hold a
    reference to the same [StateVector] object; the engine and the executor
    hold a reference to the same registry.  The model keeps the objects in
    one record and the methods are state transformers over it. *)

(** A key handed to [Map.prototype.get]: a handle (a string) or a number. *)
Inductive key : Type :=
| KStr (s : string)
| KNum (z : Z).

(** [Map] objects keyed by handles, in insertion order. *)
Definition Map_get {V} (m : list (string * V)) (k : key) : option V :=
  match k with
  | KStr s => snd <$> List.find (fun e => String.eqb (fst e) s) m
  | KNum _ => None
  end.

Fixpoint Map_set {V} (m : list (string * V)) (s : string) (v : V) : list (string * V) :=
  match m with
  | [] => [(s, v)]
  | (s', v') :: m' =>
      if String.eqb s' s then (s', v) :: m' else (s', v') :: Map_set m' s v
  end.

(** [map.delete(s)] *)
Definition Map_delete {V} (m : list (string * V)) (s : string) : list (string * V) :=
  List.filter (fun e => negb (String.eqb (fst e) s)) m.

(** [Set] objects of handles, in insertion order: [set.has(x)],
    [set.add(x)], [set.delete(x)] and [new Set(iterable)]. *)
Definition Set_has (s : list string) (x : string) : bool := existsb (String.eqb x) s.
Definition Set_add (s : list string) (x : string) : list string :=
  if Set_has s x then s else s ++ [x].
Definition Set_delete (s : list string) (x : string) : list string :=
  List.filter (fun y => negb (String.eqb y x)) s.
Definition Set_from (l : list string) : list string := fold_left Set_add l [].

(** The values returned by successive calls of [uuidv4()],
    [Math.random()] and [Date.now()], with the number of calls made. *)
Record sources : Type := mkSources {
  uuidv4 : nat -> string;
  uuid_calls : nat;
  Math_random : nat -> R;
  random_calls : nat;
  Date_now : nat -> Z;
  now_calls : nat }.

Record registry : Type := mkRegistry {
  qubits : list (string * Z);
  (* each handle refers to a Set object of [groupSets] *)
  entanglementGroups : list (string * nat);
  groupSets : list (list string);
  nextQubitIndex : Z;
  registry_maxQubits : Z }.

Record engine : Type := mkEngine {
  measurementResults : list (string * Z);
  measurementHistory : list (string * Z * Z);
  totalMeasurements : Z;
  outcomeCounts : Z * Z }.

Record executor : Type := mkExecutor {
  totalGatesExecuted : Z;
  gateTypeCount : list (string * Z) }.

Record VM : Type := mkVM {
  vm_stateVector : StateVector.t;
  vm_registry : registry;
  vm_engine : engine;
  vm_executor : executor;
  vm_sources : sources }.

Definition set_vm_stateVector (s : StateVector.t) (w : VM) : VM :=
  mkVM s (vm_registry w) (vm_engine w) (vm_executor w) (vm_sources w).
Definition set_vm_registry (r : registry) (w : VM) : VM :=
  mkVM (vm_stateVector w) r (vm_engine w) (vm_executor w) (vm_sources w).
Definition set_vm_engine (e : engine) (w : VM) : VM :=
  mkVM (vm_stateVector w) (vm_registry w) e (vm_executor w) (vm_sources w).
Definition set_vm_executor (e : executor) (w : VM) : VM :=
  mkVM (vm_stateVector w) (vm_registry w) (vm_engine w) e (vm_sources w).
Definition set_vm_sources (s : sources) (w : VM) : VM :=
  mkVM (vm_stateVector w) (vm_registry w) (vm_engine w) (vm_executor w) s.

(** A method call on the shared state vector. *)
Definition on_stateVector {A} (m : M StateVector.t A) : M VM A :=
  fun w => let (r, s) := m (vm_stateVector w) in (r, set_vm_stateVector s w).

Definition call_uuidv4 : M VM string :=
  fun w =>
    let s := vm_sources w in
    (Ok (uuidv4 s (uuid_calls s)),
     set_vm_sources (mkSources (uuidv4 s) (S (uuid_calls s)) (Math_random s)
                               (random_calls s) (Date_now s) (now_calls s)) w).

Definition after_random (w : VM) : VM :=
  let s := vm_sources w in
  set_vm_sources (mkSources (uuidv4 s) (uuid_calls s) (Math_random s)
                            (S (random_calls s)) (Date_now s) (now_calls s)) w.

Definition call_Math_random : M VM R :=
  fun w => (Ok (Math_random (vm_sources w) (random_calls (vm_sources w))), after_random w).

Definition call_Date_now : M VM Z :=
  fun w =>
    let s := vm_sources w in
    (Ok (Date_now s (now_calls s)),
     set_vm_sources (mkSources (uuidv4 s) (uuid_calls s) (Math_random s)
                               (random_calls s) (Date_now s) (S (now_calls s))) w).

(** ** [QubitRegistry] (src/core/qubit-registry.js) *)

Module QubitRegistry.

Definition modify_registry (f : registry -> registry) : M VM unit :=
  modify (fun w => set_vm_registry (f (vm_registry w)) w).

Definition allocateQubit : M VM string :=
  (let* w := get in
   let this := vm_registry w in
   if registry_maxQubits this <=? Z.of_nat (length (qubits this))
   then throw (Error "Cannot allocate more than maxQubits qubits")
   else
     let* qubitId := call_uuidv4 in
     let qubitIndex := nextQubitIndex this in
     modify_registry (fun this =>
       mkRegistry (Map_set (qubits this) qubitId qubitIndex)
                  (entanglementGroups this) (groupSets this)
                  (nextQubitIndex this + 1) (registry_maxQubits this)) ;;
     on_stateVector StateVector.expandStateVector ;;
     modify_registry (fun this =>
       mkRegistry (qubits this)
                  (Map_set (entanglementGroups this) qubitId (length (groupSets this)))
                  (groupSets this ++ [[qubitId]])
                  (nextQubitIndex this) (registry_maxQubits this)) ;;
     ret qubitId)%js.

(** The loop of [allocateQubits]: [count] further calls. *)
Fixpoint allocate_loop (count : nat) (qubitIds : list string) : M VM (list string) :=
  match count with
  | O => ret qubitIds
  | S count' =>
      (let* qubitId := allocateQubit in
       allocate_loop count' (qubitIds ++ [qubitId]))%js
  end.

Definition allocateQubits (count : Z) : M VM (list string) :=
  if count <=? 0
  then throw (Error "Must allocate a positive number of qubits")
  else allocate_loop (Z.to_nat count) [].

Definition getQubitIndex (qubitId : key) : M VM Z :=
  (let* w := get in
   match Map_get (qubits (vm_registry w)) qubitId with
   | Some index => ret index
   | None => throw (Error "Qubit not found")
   end)%js.

Definition getAllQubits : M VM (list string) :=
  (let* w := get in ret (map fst (qubits (vm_registry w))))%js.

Definition getQubitCount : M VM Z :=
  (let* w := get in ret (Z.of_nat (length (qubits (vm_registry w)))))%js.

Definition reset : M VM unit :=
  modify_registry (fun this => mkRegistry [] [] (groupSets this) 0 (registry_maxQubits this)).

(** The [Set] object at an address of [groupSets]. *)
Definition group_at (this : registry) (address : nat) : list string :=
  default [] (groupSets this !! address).

(** The loop of [deallocateQubit] over [entanglementGroups.entries()]:
    the handle is deleted from every [Set] that an entry refers to. *)
Definition delete_from_groups (qubitId : string) (entries : list (string * nat))
    (sets : list (list string)) : list (list string) :=
  fold_left (fun sets (e : string * nat) =>
               alter (fun group => Set_delete group qubitId) (snd e) sets)
            entries sets.

Definition deallocateQubit (qubitId : string) : M VM bool :=
  (let* w := get in
   let this := vm_registry w in
   match Map_get (qubits this) (KStr qubitId) with
   | None => ret false
   | Some _ =>
       match Map_get (entanglementGroups this) (KStr qubitId) with
       | None => throw (TypeError "Cannot read properties of undefined (reading 'size')")
       | Some _ =>
           modify_registry (fun this =>
             mkRegistry (Map_delete (qubits this) qubitId)
                        (Map_delete (entanglementGroups this) qubitId)
                        (delete_from_groups qubitId (entanglementGroups this)
                                            (groupSets this))
                        (nextQubitIndex this) (registry_maxQubits this)) ;;
           ret true
       end
   end)%js.

Definition recordEntanglement (qubitId1 qubitId2 : string) : M VM unit :=
  (let* w := get in
   let this := vm_registry w in
   match Map_get (entanglementGroups this) (KStr qubitId1),
         Map_get (entanglementGroups this) (KStr qubitId2) with
   | Some group1, Some group2 =>
       let mergedGroup := Set_from (group_at this group1 ++ group_at this group2) in
       let address := length (groupSets this) in
       modify_registry (fun this =>
         mkRegistry (qubits this)
                    (fold_left (fun groups qubitId => Map_set groups qubitId address)
                               mergedGroup (entanglementGroups this))
                    (groupSets this ++ [mergedGroup])
                    (nextQubitIndex this) (registry_maxQubits this))
   | _, _ => throw (Error "One or both qubits not found")
   end)%js.

Definition areEntangled (qubitId1 qubitId2 : string) : M VM bool :=
  (let* w := get in
   let this := vm_registry w in
   match Map_get (entanglementGroups this) (KStr qubitId1) with
   | None => ret false
   | Some group1 => ret (Set_has (group_at this group1) qubitId2)
   end)%js.

Definition getEntangledQubits (qubitId : string) : M VM (list string) :=
  (let* w := get in
   let this := vm_registry w in
   match Map_get (entanglementGroups this) (KStr qubitId) with
   | None => throw (Error "Qubit not found")
   | Some group =>
       ret (List.filter (fun id => negb (String.eqb id qubitId)) (group_at this group))
   end)%js.

End QubitRegistry.

(** ** [MeasurementEngine] (src/core/measurement-engine.js) *)

Module MeasurementEngine.

Definition modify_engine (f : engine -> engine) : M VM unit :=
  modify (fun w => set_vm_engine (f (vm_engine w)) w).

(** One iteration of the loop of [getProbability]. *)
Definition getProbability_step (qubitIndex outcome : Z) (acc : M VM number) (i : Z)
  : M VM number :=
  (let* probability := acc in
   let bitValue := js_and (js_sar i qubitIndex) 1 in
   if bitValue =? outcome
   then
     let* amplitude := on_stateVector (StateVector.getAmplitude i) in
     match amplitude with
     | Some amplitude =>
         ret (nadd probability (ComplexNumber.magnitudeSquared amplitude))
     | None =>
         throw (TypeError
                  "Cannot read properties of undefined (reading 'magnitudeSquared')")
     end
   else ret probability)%js.

Definition getProbability (qubitId : key) (outcome : Z) : M VM number :=
  (if negb (outcome =? 0) && negb (outcome =? 1)
   then throw (Error "Outcome must be 0 or 1")
   else
     let* qubitIndex := QubitRegistry.getQubitIndex qubitId in
     let* qubitCount := on_stateVector StateVector.getQubitCount in
     fold_left (getProbability_step qubitIndex outcome)
               (upto (Z.to_nat (2 ^ qubitCount))) (ret (Num 0)))%js.

(** [this.stateVector.measureQubit(qubitIndex)]: the method calls
    [Math.random()] itself, after [validateQubitIndex], so that an index
    that is refused costs no draw. *)
Definition stateVector_measureQubit (qubitIndex : Z) : M VM Z :=
  (on_stateVector (StateVector.validateQubitIndex qubitIndex) ;;
   let* random := call_Math_random in
   on_stateVector (StateVector.measureQubit random qubitIndex))%js.

Definition measureQubit (qubitId : key) (nonCollapsing : bool) : M VM Z :=
  (let* qubitIndex := QubitRegistry.getQubitIndex qubitId in
   if nonCollapsing then
     let* prob0 := getProbability qubitId 0 in
     let* prob1 := getProbability qubitId 1 in
     let* random := call_Math_random in
     let result := if nlt (Num random) prob0 then 0 else 1 in
     ret result
   else
     let* result := stateVector_measureQubit qubitIndex in
     let* timestamp := call_Date_now in
     match qubitId with
     | KStr id =>
         modify_engine (fun this =>
           mkEngine (Map_set (measurementResults this) id result)
                    (measurementHistory this ++ [(id, result, timestamp)])
                    (totalMeasurements this + 1)
                    (if result =? 0
                     then (fst (outcomeCounts this) + 1, snd (outcomeCounts this))
                     else (fst (outcomeCounts this), snd (outcomeCounts this) + 1))) ;;
         ret result
     | KNum _ =>
         (* unreachable: [getQubitIndex] has thrown for a number *)
         ret result
     end)%js.

(** The loop of [measureQubits]. *)
Fixpoint measureQubits_loop (qubitIds : list string) (nonCollapsing : bool)
    (results : list (string * Z)) : M VM (list (string * Z)) :=
  match qubitIds with
  | [] => ret results
  | qubitId :: rest =>
      (let* result := measureQubit (KStr qubitId) nonCollapsing in
       measureQubits_loop rest nonCollapsing (Map_set results qubitId result))%js
  end.

Definition measureQubits (qubitIds : list string) (nonCollapsing : bool)
  : M VM (list (string * Z)) :=
  measureQubits_loop qubitIds nonCollapsing [].

(** [Array.prototype.sort(compareFn)] with a comparator that may throw.
    The sequence of comparator calls is left to the engine by the
    language; the model sorts by insertion.  Whatever the engine, the
    comparator is not called on fewer than two elements and is called at
    least once on two or more. *)
Fixpoint insert_sorted {A} (compareFn : A -> A -> M VM Z) (x : A) (l : list A)
  : M VM (list A) :=
  match l with
  | [] => ret [x]
  | y :: l' =>
      (let* c := compareFn x y in
       if c <=? 0 then ret (x :: y :: l')
       else let* l'' := insert_sorted compareFn x l' in ret (y :: l''))%js
  end.

Fixpoint Array_sort {A} (compareFn : A -> A -> M VM Z) (l : list A) : M VM (list A) :=
  match l with
  | [] => ret []
  | x :: l' =>
      (let* sorted := Array_sort compareFn l' in
       insert_sorted compareFn x sorted)%js
  end.

(** [qubitIds.entries()]: the pairs [index, value] of the array. *)
Definition Array_entries (qubitIds : list string) : list (Z * string) :=
  zip (upto (length qubitIds)) qubitIds.

(** The loop that builds the bit string; [qubitId] is the first component
    of each pair. *)
Fixpoint bitString_loop (measurements : list (string * Z))
    (sortedPairs : list (Z * string)) (bitString : string) : M VM string :=
  match sortedPairs with
  | [] => ret bitString
  | (qubitId, _) :: rest =>
      match Map_get measurements (KNum qubitId) with
      | Some m =>
          bitString_loop measurements rest
            (bitString ++ (if (m =? 0)%Z then "0" else "1"))%string
      | None => throw (TypeError "Cannot read properties of undefined (reading 'toString')")
      end
  end.

Definition measureAllQubits : M VM string :=
  (let* qubitIds := QubitRegistry.getAllQubits in
   let* measurements := measureQubits qubitIds false in
   let* sortedPairs :=
     Array_sort (fun a b : Z * string =>
                   let* ia := QubitRegistry.getQubitIndex (KNum (fst a)) in
                   let* ib := QubitRegistry.getQubitIndex (KNum (fst b)) in
                   ret (ia - ib))
                (Array_entries qubitIds) in
   bitString_loop measurements sortedPairs "")%js.

(** The loop of [measurementsToInteger], from index [i] with [result]
    so far. *)
Fixpoint measurementsToInteger_loop (measurementResults : list (string * Z))
    (qubitIds : list string) (i : Z) (result : Z) : res Z :=
  match qubitIds with
  | [] => Ok result
  | qubitId :: rest =>
      match Map_get measurementResults (KStr qubitId) with
      | None => Throw (Error "Qubit has not been measured")
      | Some measurement =>
          measurementsToInteger_loop measurementResults rest (i + 1)
            (js_or result (js_shl measurement i))
      end
  end.

Definition measurementsToInteger (qubitIds : list string) : M VM Z :=
  (let* w := get in
   lift_res (measurementsToInteger_loop (measurementResults (vm_engine w)) qubitIds 0 0))%js.

Definition reset : M VM unit :=
  modify_engine (fun _ => mkEngine [] [] 0 (0, 0)).

End MeasurementEngine.

(** ** [GateExecutor] (src/core/gate-executor.js) *)

Module GateExecutor.

Definition updateMetrics (gateName : string) : M VM unit :=
  modify (fun w =>
    let this := vm_executor w in
    let currentCount := default 0 (Map_get (gateTypeCount this) (KStr gateName)) in
    set_vm_executor
      (mkExecutor (totalGatesExecuted this + 1)
                  (Map_set (gateTypeCount this) gateName (currentCount + 1))) w).

(** [this.stateVector[name](a, b)] for a method of two bit positions:
    a name that the class does not define is not a function. *)
Definition stateVector_call2 (name : string) (a b : Z) : M VM unit :=
  if bool_decide (name ∈ StateVector.methods)
  then
    (if String.eqb name "applyCNOT"
     then on_stateVector (StateVector.applyCNOT a b)
     else throw (TypeError "wrong number of arguments"))
  else throw (TypeError "this.stateVector.applySWAP is not a function").

Definition applyCNOT (controlQubitId targetQubitId : string) : M VM unit :=
  (let* controlIndex := QubitRegistry.getQubitIndex (KStr controlQubitId) in
   let* targetIndex := QubitRegistry.getQubitIndex (KStr targetQubitId) in
   QubitRegistry.recordEntanglement controlQubitId targetQubitId ;;
   stateVector_call2 "applyCNOT" controlIndex targetIndex ;;
   updateMetrics "CNOT")%js.

(** [[a[i], a[j]] = [a[j], a[i]]] on the local copy of the state vector.
    An index outside the array would read [undefined] and store it; the
    model does not follow that ([None]). *)
Definition swap_at (a : list Cx) (i j : Z) : option (list Cx) :=
  match arr_get a i, arr_get a j with
  | Some x, Some y => Some (arr_set (arr_set a i y) j x)
  | _, _ => None
  end.

(** One iteration of the loop of [applyToffoli]. *)
Definition toffoli_step (control1Index control2Index targetIndex : Z)
    (acc : option (list Cx)) (i : Z) : option (list Cx) :=
  match acc with
  | None => None
  | Some newStateVector =>
      if negb (js_and i (js_shl 1 control1Index) =? 0)
         && negb (js_and i (js_shl 1 control2Index) =? 0)
      then
        let flippedIndex := js_xor i (js_shl 1 targetIndex) in
        swap_at newStateVector i flippedIndex
      else Some newStateVector
  end.

Definition toffoli_kernel (sv : list Cx) (stateSize : Z)
    (control1Index control2Index targetIndex : Z) : option (list Cx) :=
  fold_left (toffoli_step control1Index control2Index targetIndex)
            (upto (Z.to_nat stateSize)) (Some sv).

Definition applyToffoli (control1QubitId control2QubitId targetQubitId : string)
  : VM -> option (res unit * VM) :=
  fun w =>
    match (let* control1Index := QubitRegistry.getQubitIndex (KStr control1QubitId) in
           let* control2Index := QubitRegistry.getQubitIndex (KStr control2QubitId) in
           let* targetIndex := QubitRegistry.getQubitIndex (KStr targetQubitId) in
           QubitRegistry.recordEntanglement control1QubitId targetQubitId ;;
           QubitRegistry.recordEntanglement control2QubitId targetQubitId ;;
           let* qubitCount := on_stateVector StateVector.getQubitCount in
           let* sv := on_stateVector StateVector.getStateVector in
           ret (control1Index, control2Index, targetIndex, 2 ^ qubitCount, sv))%js w with
    | (Throw e, w') => Some (Throw e, w')
    | (Ok (control1Index, control2Index, targetIndex, stateSize, sv), w') =>
        match toffoli_kernel sv stateSize control1Index control2Index targetIndex with
        | None => None
        | Some newStateVector =>
            Some ((on_stateVector (StateVector.setStateVector newStateVector) ;;
                   updateMetrics "Toffoli")%js w')
        end
    end.

(** [a[i] = v] on the local copy of the state vector, for an index inside
    the array.  A store at or past the length would grow the array; the
    model does not follow that ([None]). *)
Definition store_at (a : list Cx) (i : Z) (v : Cx) : option (list Cx) :=
  if (0 <=? i) && (i <? Z.of_nat (length a)) then Some (arr_set a i v) else None.

(** One iteration of the loop of [applyControlledGate].  An amplitude or
    a matrix entry that is [undefined] would make [multiply] throw a
    [TypeError]; the model does not follow that ([None]). *)
Definition controlled_step (controlIndex targetIndex : Z) (gateMatrix : matrix)
    (acc : option (list Cx)) (i : Z) : option (list Cx) :=
  match acc with
  | None => None
  | Some newStateVector =>
      if negb (js_and i (js_shl 1 controlIndex) =? 0)
      then
        let targetBit := js_and (js_sar i targetIndex) 1 in
        let flippedIndex := js_xor i (js_shl 1 targetIndex) in
        match arr_get newStateVector i with
        | None => None
        | Some originalAmp =>
            if targetBit =? 0
            then
              match mat_get gateMatrix 0 0, mat_get gateMatrix 1 0 with
              | Some g00, Some g10 =>
                  match store_at newStateVector i
                                 (ComplexNumber.multiply originalAmp g00) with
                  | Some newStateVector =>
                      store_at newStateVector flippedIndex
                               (ComplexNumber.multiply originalAmp g10)
                  | None => None
                  end
              | _, _ => None
              end
            else
              match mat_get gateMatrix 0 1, mat_get gateMatrix 1 1 with
              | Some g01, Some g11 =>
                  match store_at newStateVector flippedIndex
                                 (ComplexNumber.multiply originalAmp g01) with
                  | Some newStateVector =>
                      store_at newStateVector i
                               (ComplexNumber.multiply originalAmp g11)
                  | None => None
                  end
              | _, _ => None
              end
        end
      else Some newStateVector
  end.

Definition controlled_kernel (sv : list Cx) (stateSize : Z)
    (controlIndex targetIndex : Z) (gateMatrix : matrix) : option (list Cx) :=
  fold_left (controlled_step controlIndex targetIndex gateMatrix)
            (upto (Z.to_nat stateSize)) (Some sv).

Definition applyControlledGate (controlQubitId targetQubitId : string)
    (gateMatrix : matrix) : VM -> option (res unit * VM) :=
  fun w =>
    match (let* controlIndex := QubitRegistry.getQubitIndex (KStr controlQubitId) in
           let* targetIndex := QubitRegistry.getQubitIndex (KStr targetQubitId) in
           QubitRegistry.recordEntanglement controlQubitId targetQubitId ;;
           let* qubitCount := on_stateVector StateVector.getQubitCount in
           let* sv := on_stateVector StateVector.getStateVector in
           ret (controlIndex, targetIndex, 2 ^ qubitCount, sv))%js w with
    | (Throw e, w') => Some (Throw e, w')
    | (Ok (controlIndex, targetIndex, stateSize, sv), w') =>
        match controlled_kernel sv stateSize controlIndex targetIndex gateMatrix with
        | None => None
        | Some newStateVector =>
            Some ((on_stateVector (StateVector.setStateVector newStateVector) ;;
                   on_stateVector StateVector.normalize ;;
                   updateMetrics "ControlledCustom")%js w')
        end
    end.

Definition applySWAP (qubitId1 qubitId2 : string) : M VM unit :=
  (let* index1 := QubitRegistry.getQubitIndex (KStr qubitId1) in
   let* index2 := QubitRegistry.getQubitIndex (KStr qubitId2) in
   stateVector_call2 "applySWAP" index1 index2 ;;
   updateMetrics "SWAP")%js.

End GateExecutor.

(** ** The facade (src/index.js) *)

(** [initialize(config)]: the state vector takes [maxQubits] and
    [precision] from the configuration; the registry reads its own limit
    from the environment variable [QVM_MAX_QUBITS] (32 when it is unset). *)
Definition initialize (config_maxQubits : Z) (config_precision : number)
    (env_QVM_MAX_QUBITS : option Z) (src : sources) : res VM :=
  (let? sv := StateVector.constructor 0
                (StateVector.mkOptions config_precision config_maxQubits) in
   Ok (mkVM sv
            (mkRegistry [] [] [] 0
               (match env_QVM_MAX_QUBITS with
                | Some m => if m =? 0 then 32 else m
                | None => 32
                end))
            (mkEngine [] [] 0 (0, 0))
            (mkExecutor 0 [])
            src))%js.

(** ** Concrete machines for the examples *)

Definition example_sources : sources :=
  mkSources (fun n => match n with O => "q0" | S O => "q1" | S (S O) => "q2" | _ => "q3" end)
            0 (fun _ => (1 / 2)%R) 0 (fun n => Z.of_nat n) 0.

(** [initialize({})] with no environment variable set. *)
Definition default_vm : res VM := initialize 32 (Num eps10) None example_sources.

(** [initialize({maxQubits: 2})] with [QVM_MAX_QUBITS=2]. *)
Definition vm_max2 : res VM := initialize 2 (Num eps10) (Some 2) example_sources.

(** [initialize({maxQubits: 2})] with no environment variable set: only
    the state vector is limited to 2 qubits. *)
Definition vm_config_max2 : res VM := initialize 2 (Num eps10) None example_sources.

(** Running a method on the machine an initialisation produced. *)
Definition run_on {A} (w : res VM) (m : M VM A) : res (res A * VM) :=
  match w with
  | Ok w => Ok (m w)
  | Throw e => Throw e
  end.

(** The machine [initialize] builds: no qubit, the one-amplitude vector. *)
Definition initial_vm (config_maxQubits registry_max : Z) : VM :=
  mkVM (StateVector.mk 0 (StateVector.mkOptions (Num eps10) config_maxQubits)
          [cx 1 0] [] (StateVector.mkMetrics 0 1 16))
       (mkRegistry [] [] [] 0 registry_max)
       (mkEngine [] [] 0 (0, 0))
       (mkExecutor 0 [])
       example_sources.

(** The machine after [n] successful or failed calls of [allocateQubit]. *)
Fixpoint after_allocations (n : nat) (w : VM) : VM :=
  match n with
  | O => w
  | S n' => snd (QubitRegistry.allocateQubit (after_allocations n' w))
  end.

(** ** The QBC instruction codec (src/types/qbc.js, src/types/quantum-types.js) *)

(** A value held in [instruction.params]: [undefined], an integral
    number, or a number that is a single-precision float, given by its
    IEEE-754 bit pattern (what [readFloatLE] returns for those four
    bytes).  NaN has one pattern, [0x7FC00000]. *)
Inductive jsval : Type :=
| Undefined
| Int (z : Z)
| F32 (bits : Z).

Module F32.

Definition is_nan (bits : Z) : bool :=
  ((bits / 2 ^ 23) mod 256 =? 255) && negb (bits mod 2 ^ 23 =? 0).
Definition nan_bits : Z := 0x7FC00000.
Definition canon (bits : Z) : Z :=
  let b := bits mod 2 ^ 32 in if is_nan b then nan_bits else b.

(** The integer part (toward zero) of a finite single; [None] for NaN and
    the infinities. *)
Definition trunc (bits : Z) : option Z :=
  let s := (bits / 2 ^ 31) mod 2 in
  let e := (bits / 2 ^ 23) mod 256 in
  let f := bits mod 2 ^ 23 in
  if e =? 255 then None
  else
    let m := if e =? 0 then f else f + 2 ^ 23 in
    let x := (if e =? 0 then 1 else e) - 150 in
    let mag := if 0 <=? x then m * 2 ^ x else m / 2 ^ (- x) in
    Some (if s =? 1 then - mag else mag).

Definition is_negative (bits : Z) : bool :=
  ((bits / 2 ^ 31) mod 2 =? 1) && negb (bits mod 2 ^ 31 =? 0) && negb (is_nan bits).
Definition is_infinite (bits : Z) : bool :=
  ((bits / 2 ^ 23) mod 256 =? 255) && (bits mod 2 ^ 23 =? 0).

(** The single nearest to an integer (ties to even). *)
Definition of_Z (z : Z) : Z :=
  if z =? 0 then 0
  else
    let s := if z <? 0 then 2 ^ 31 else 0 in
    let a := Z.abs z in
    let len := Z.log2 a + 1 in
    if len <=? 24 then s + (len + 126) * 2 ^ 23 + (a * 2 ^ (24 - len) - 2 ^ 23)
    else
      let shift := len - 24 in
      let q := a / 2 ^ shift in
      let r := a mod 2 ^ shift in
      let half := 2 ^ (shift - 1) in
      let q := if (half <? r) || ((r =? half) && Z.odd q) then q + 1 else q in
      let (q, e) := if q =? 2 ^ 24 then (2 ^ 23, shift + 151) else (q, shift + 150) in
      if 255 <=? e then s + 255 * 2 ^ 23
      else s + e * 2 ^ 23 + (q - 2 ^ 23).

End F32.

Module Buffer.

(** A [Buffer] is the list of its bytes. *)
Definition t : Type := list Z.

Definition alloc (size : Z) : t := repeat 0 (Z.to_nat size).

(** The integer a typed array stores for a value: the number truncated,
    modulo 256; 0 for [undefined], NaN and the infinities. *)
Definition ToUint8 (v : jsval) : Z :=
  match v with
  | Undefined => 0
  | Int z => z mod 256
  | F32 b => match F32.trunc (F32.canon b) with Some z => z mod 256 | None => 0 end
  end.

(** [buffer[offset] = v]; a store outside the buffer is ignored. *)
Definition store (buffer : t) (offset : Z) (v : jsval) : t :=
  arr_set buffer offset (ToUint8 v).

(** [buffer[offset]] *)
Definition load (buffer : t) (offset : Z) : jsval :=
  match arr_get buffer offset with
  | Some b => Int b
  | None => Undefined
  end.

Definition in_bounds (buffer : t) (offset size : Z) : bool :=
  (0 <=? offset) && (offset + size <=? Z.of_nat (length buffer)).

(** The error of an access of [size] bytes outside the buffer:
    ERR_BUFFER_OUT_OF_BOUNDS when the buffer is shorter than [size],
    ERR_OUT_OF_RANGE for the offset otherwise (the quotation marks around
    the name of the argument are left out of the texts). *)
Definition boundsError (buffer : t) (size : Z) : exn :=
  if Z.of_nat (length buffer) <? size
  then RangeError "Attempt to access memory outside buffer bounds"
  else RangeError "The value of offset is out of range".

(** ERR_OUT_OF_RANGE for the value of a write. *)
Definition valueError : exn := RangeError "The value of value is out of range".

Definition le_bytes (u : Z) : list Z :=
  [u mod 256; (u / 2 ^ 8) mod 256; (u / 2 ^ 16) mod 256; (u / 2 ^ 24) mod 256].

Definition put4 (buffer : t) (offset : Z) (u : Z) : t :=
  let b := le_bytes u in
  arr_set (arr_set (arr_set (arr_set buffer offset (nth 0 b 0))
                            (offset + 1) (nth 1 b 0))
                   (offset + 2) (nth 2 b 0))
          (offset + 3) (nth 3 b 0).

Definition combine4 (b0 b1 b2 b3 : Z) : Z :=
  b0 + b1 * 2 ^ 8 + b2 * 2 ^ 16 + b3 * 2 ^ 24.

Definition get4 (buffer : t) (offset : Z) : Z :=
  combine4 (default 0 (arr_get buffer offset))
           (default 0 (arr_get buffer (offset + 1)))
           (default 0 (arr_get buffer (offset + 2)))
           (default 0 (arr_get buffer (offset + 3))).

(** [writeUInt32LE] and [writeInt32LE]: the value is converted to a
    number ([undefined] is NaN) and must not lie outside [min, max]; a
    fractional part is dropped, and NaN is stored as 0. *)
Definition writeIntLE (min max : Z) (buffer : t) (value : jsval) (offset : Z) : res t :=
  match value with
  | Undefined =>
      if in_bounds buffer offset 4 then Ok (put4 buffer offset 0)
      else Throw (boundsError buffer 4)
  | Int z =>
      if (z <? min) || (max <? z) then Throw valueError
      else if in_bounds buffer offset 4 then Ok (put4 buffer offset (z mod 2 ^ 32))
      else Throw (boundsError buffer 4)
  | F32 b =>
      let b := F32.canon b in
      if F32.is_infinite b then Throw valueError
      else
        match F32.trunc b with
        | None => (* NaN *)
            if in_bounds buffer offset 4 then Ok (put4 buffer offset 0)
            else Throw (boundsError buffer 4)
        | Some z =>
            if (z <? min) || (max <? z) || ((min =? 0) && F32.is_negative b)
            then Throw valueError
            else if in_bounds buffer offset 4 then Ok (put4 buffer offset (z mod 2 ^ 32))
            else Throw (boundsError buffer 4)
        end
  end.

Definition writeUInt32LE : t -> jsval -> Z -> res t := writeIntLE 0 (2 ^ 32 - 1).
Definition writeInt32LE : t -> jsval -> Z -> res t := writeIntLE (- 2 ^ 31) (2 ^ 31 - 1).

(** [writeFloatLE]: the value converted to a number and rounded to single
    precision ([undefined] is NaN). *)
Definition writeFloatLE (buffer : t) (value : jsval) (offset : Z) : res t :=
  let bits :=
    match value with
    | Undefined => F32.nan_bits
    | Int z => F32.of_Z z
    | F32 b => F32.canon b
    end in
  if in_bounds buffer offset 4 then Ok (put4 buffer offset bits)
  else Throw (boundsError buffer 4).

Definition readUInt32LE (buffer : t) (offset : Z) : res jsval :=
  if in_bounds buffer offset 4 then Ok (Int (get4 buffer offset))
  else Throw (boundsError buffer 4).

Definition readInt32LE (buffer : t) (offset : Z) : res jsval :=
  if in_bounds buffer offset 4 then Ok (Int (ToInt32 (get4 buffer offset)))
  else Throw (boundsError buffer 4).

Definition readFloatLE (buffer : t) (offset : Z) : res jsval :=
  if in_bounds buffer offset 4 then Ok (F32 (F32.canon (get4 buffer offset)))
  else Throw (boundsError buffer 4).

(** [writeUInt16LE] and [readUInt16LE], for integral values. *)
Definition writeUInt16LE (buffer : t) (value : Z) (offset : Z) : res t :=
  if (value <? 0) || (65535 <? value) then Throw valueError
  else if in_bounds buffer offset 2
       then Ok (arr_set (arr_set buffer offset (value mod 256))
                        (offset + 1) ((value / 2 ^ 8) mod 256))
       else Throw (boundsError buffer 2).

Definition readUInt16LE (buffer : t) (offset : Z) : res Z :=
  if in_bounds buffer offset 2
  then Ok (default 0 (arr_get buffer offset) + default 0 (arr_get buffer (offset + 1)) * 2 ^ 8)
  else Throw (boundsError buffer 2).

(** [source.copy(target, targetStart)], and [target.write(string, targetStart)]
    for the bytes of the string: the bytes that fit are stored. *)
Definition copy (source target : t) (targetStart : Z) : t :=
  fold_left (fun (acc : t) (ib : Z * Z) => arr_set acc (targetStart + fst ib) (snd ib))
            (zip (upto (length source)) source) target.

End Buffer.

Module QBCOpcode.
Definition ALLOCATE_QUBIT : Z := 0x01.
Definition DEALLOCATE_QUBIT : Z := 0x02.
Definition GATE_X : Z := 0x10.
Definition GATE_Y : Z := 0x11.
Definition GATE_Z : Z := 0x12.
Definition GATE_H : Z := 0x13.
Definition GATE_S : Z := 0x14.
Definition GATE_T : Z := 0x15.
Definition GATE_RX : Z := 0x20.
Definition GATE_RY : Z := 0x21.
Definition GATE_RZ : Z := 0x22.
Definition GATE_PHASE : Z := 0x23.
Definition GATE_CNOT : Z := 0x30.
Definition GATE_CZ : Z := 0x31.
Definition GATE_SWAP : Z := 0x32.
Definition GATE_ISWAP : Z := 0x33.
Definition GATE_TOFFOLI : Z := 0x40.
Definition GATE_FREDKIN : Z := 0x41.
Definition MEASURE_QUBIT : Z := 0x50.
Definition MEASURE_ALL : Z := 0x51.
Definition CONDITIONAL_JUMP : Z := 0x60.
Definition JUMP : Z := 0x61.
Definition STORE_CLASSICAL : Z := 0x70.
Definition LOAD_CLASSICAL : Z := 0x71.
Definition ADD_CLASSICAL : Z := 0x80.
Definition SUB_CLASSICAL : Z := 0x81.
Definition MUL_CLASSICAL : Z := 0x82.
Definition DIV_CLASSICAL : Z := 0x83.
Definition AND_CLASSICAL : Z := 0x90.
Definition OR_CLASSICAL : Z := 0x91.
Definition XOR_CLASSICAL : Z := 0x92.
Definition NOT_CLASSICAL : Z := 0x93.
Definition CMP_EQ_CLASSICAL : Z := 0xA0.
Definition CMP_NEQ_CLASSICAL : Z := 0xA1.
Definition CMP_LT_CLASSICAL : Z := 0xA2.
Definition CMP_GT_CLASSICAL : Z := 0xA3.
Definition END : Z := 0xFF.

(** [Object.values(QBCOpcode)] *)
Definition values : list Z :=
  [ALLOCATE_QUBIT; DEALLOCATE_QUBIT; GATE_X; GATE_Y; GATE_Z; GATE_H; GATE_S; GATE_T;
   GATE_RX; GATE_RY; GATE_RZ; GATE_PHASE; GATE_CNOT; GATE_CZ; GATE_SWAP; GATE_ISWAP;
   GATE_TOFFOLI; GATE_FREDKIN; MEASURE_QUBIT; MEASURE_ALL; CONDITIONAL_JUMP; JUMP;
   STORE_CLASSICAL; LOAD_CLASSICAL; ADD_CLASSICAL; SUB_CLASSICAL; MUL_CLASSICAL;
   DIV_CLASSICAL; AND_CLASSICAL; OR_CLASSICAL; XOR_CLASSICAL; NOT_CLASSICAL;
   CMP_EQ_CLASSICAL; CMP_NEQ_CLASSICAL; CMP_LT_CLASSICAL; CMP_GT_CLASSICAL; END].
End QBCOpcode.

Module QBC.

Record instruction : Type := mkInstruction { op : Z; params : list jsval }.

(** [params[i]] *)
Definition param (params : list jsval) (i : nat) : jsval := nth i params Undefined.

(** The groups of [case] labels that the three [switch (op)] statements of
    the codec share. *)
Inductive group : Type :=
| QubitManagement       (* ALLOCATE_QUBIT, DEALLOCATE_QUBIT *)
| SingleQubitGate       (* GATE_X .. GATE_T *)
| RotationGate          (* GATE_RX, GATE_RY, GATE_RZ, GATE_PHASE *)
| TwoQubitGate          (* GATE_CNOT, GATE_CZ, GATE_SWAP, GATE_ISWAP *)
| ThreeQubitGate        (* GATE_TOFFOLI, GATE_FREDKIN *)
| Measurement           (* MEASURE_QUBIT *)
| ConditionalJump
| Jump
| StoreClassical
| LoadClassical
| BinaryOperation       (* ADD .. XOR, CMP_EQ .. CMP_GT *)
| UnaryOperation        (* NOT_CLASSICAL *)
| NoParameters.         (* END, MEASURE_ALL *)

Definition switch (op : Z) : option group :=
  match op with
  | 0x01 | 0x02 => Some QubitManagement
  | 0x10 | 0x11 | 0x12 | 0x13 | 0x14 | 0x15 => Some SingleQubitGate
  | 0x20 | 0x21 | 0x22 | 0x23 => Some RotationGate
  | 0x30 | 0x31 | 0x32 | 0x33 => Some TwoQubitGate
  | 0x40 | 0x41 => Some ThreeQubitGate
  | 0x50 => Some Measurement
  | 0x60 => Some ConditionalJump
  | 0x61 => Some Jump
  | 0x70 => Some StoreClassical
  | 0x71 => Some LoadClassical
  | 0x80 | 0x81 | 0x82 | 0x83 | 0x90 | 0x91 | 0x92
  | 0xA0 | 0xA1 | 0xA2 | 0xA3 => Some BinaryOperation
  | 0x93 => Some UnaryOperation
  | 0xFF | 0x51 => Some NoParameters
  | _ => None
  end.

Definition getParameterSize (op : Z) : res Z :=
  match switch op with
  | Some QubitManagement => Ok 1
  | Some SingleQubitGate => Ok 1
  | Some RotationGate => Ok 5
  | Some TwoQubitGate => Ok 2
  | Some ThreeQubitGate => Ok 3
  | Some Measurement => Ok 2
  | Some ConditionalJump => Ok 5
  | Some Jump => Ok 4
  | Some StoreClassical => Ok 5
  | Some LoadClassical => Ok 2
  | Some BinaryOperation => Ok 3
  | Some UnaryOperation => Ok 2
  | Some NoParameters => Ok 0
  | None => Throw (Error "Unknown opcode")
  end.

Definition encodeInstruction (instruction : instruction) : res Buffer.t :=
  let op := op instruction in
  let params := params instruction in
  if negb (bool_decide (op ∈ QBCOpcode.values)) then Throw (Error "Invalid opcode")
  else
    (let? paramSize := getParameterSize op in
     let buffer := Buffer.alloc (1 + paramSize) in
     let buffer := Buffer.store buffer 0 (Int op) in
     let offset := 1 in
     match switch op with
     | Some QubitManagement
     | Some SingleQubitGate =>
         Ok (Buffer.store buffer offset (param params 0))
     | Some RotationGate =>
         let buffer := Buffer.store buffer offset (param params 0) in
         Buffer.writeFloatLE buffer (param params 1) (offset + 1)
     | Some TwoQubitGate
     | Some Measurement
     | Some LoadClassical
     | Some UnaryOperation =>
         let buffer := Buffer.store buffer offset (param params 0) in
         Ok (Buffer.store buffer (offset + 1) (param params 1))
     | Some ThreeQubitGate
     | Some BinaryOperation =>
         let buffer := Buffer.store buffer offset (param params 0) in
         let buffer := Buffer.store buffer (offset + 1) (param params 1) in
         Ok (Buffer.store buffer (offset + 2) (param params 2))
     | Some ConditionalJump =>
         let buffer := Buffer.store buffer offset (param params 0) in
         Buffer.writeUInt32LE buffer (param params 1) (offset + 1)
     | Some Jump =>
         Buffer.writeUInt32LE buffer (param params 0) offset
     | Some StoreClassical =>
         let buffer := Buffer.store buffer offset (param params 0) in
         Buffer.writeInt32LE buffer (param params 1) (offset + 1)
     | Some NoParameters => Ok buffer
     | None => Throw (Error "Unknown opcode")
     end)%js.

(** The decoded [{instruction: {op, params}, bytesRead}]. *)
Definition decodeInstruction (buffer : Buffer.t) (offset : Z) : res (instruction * Z) :=
  match Buffer.load buffer offset with
  | Int op =>
      match switch op with
      | Some QubitManagement
      | Some SingleQubitGate =>
          Ok (mkInstruction op [Buffer.load buffer (offset + 1)], 2)
      | Some RotationGate =>
          (let? angle := Buffer.readFloatLE buffer (offset + 2) in
           Ok (mkInstruction op [Buffer.load buffer (offset + 1); angle], 6))%js
      | Some TwoQubitGate
      | Some Measurement
      | Some LoadClassical
      | Some UnaryOperation =>
          Ok (mkInstruction op [Buffer.load buffer (offset + 1);
                                Buffer.load buffer (offset + 2)], 3)
      | Some ThreeQubitGate
      | Some BinaryOperation =>
          Ok (mkInstruction op [Buffer.load buffer (offset + 1);
                                Buffer.load buffer (offset + 2);
                                Buffer.load buffer (offset + 3)], 4)
      | Some ConditionalJump =>
          (let? target := Buffer.readUInt32LE buffer (offset + 2) in
           Ok (mkInstruction op [Buffer.load buffer (offset + 1); target], 6))%js
      | Some Jump =>
          (let? target := Buffer.readUInt32LE buffer (offset + 1) in
           Ok (mkInstruction op [target], 5))%js
      | Some StoreClassical =>
          (let? value := Buffer.readInt32LE buffer (offset + 2) in
           Ok (mkInstruction op [Buffer.load buffer (offset + 1); value], 6))%js
      | Some NoParameters => Ok (mkInstruction op [], 1)
      | None => Throw (Error "Unknown opcode")
      end
  | _ => Throw (Error "Unknown opcode")
  end.

(** ** The QBC image: [createQBC] and [parseQBC]

    The metadata object is represented by [metadataBuffer], the UTF-8 bytes
    of [JSON.stringify(metadata)]; [parseQBC] decodes them with
    [JSON.parse] inside a [try], so they cannot make it throw, and the
    parsed metadata is not part of the model. *)

Definition QBC_VERSION : Z := 1.
(** ['QBC\0'] *)
Definition QBC_MAGIC : list Z := [0x51; 0x42; 0x43; 0x00].

(** [instructions.map(encodeInstruction)] *)
Fixpoint encode_all (instructions : list instruction) : res (list Buffer.t) :=
  match instructions with
  | [] => Ok []
  | i :: rest =>
      (let? b := encodeInstruction i in
       let? bs := encode_all rest in
       Ok (b :: bs))%js
  end.

(** The loop that copies the instruction buffers: the buffer and the
    offset after the last copy. *)
Fixpoint copy_all (instructionBuffers : list Buffer.t) (buffer : Buffer.t) (offset : Z)
  : Buffer.t * Z :=
  match instructionBuffers with
  | [] => (buffer, offset)
  | instrBuffer :: rest =>
      copy_all rest (Buffer.copy instrBuffer buffer offset)
               (offset + Z.of_nat (length instrBuffer))
  end.

Definition createQBC (instructions : list instruction) (maxQubits : Z)
    (metadataBuffer : Buffer.t) : res Buffer.t :=
  (let headerSize := 20 in
   let? instructionBuffers := encode_all instructions in
   let dataSize :=
     fold_left (fun sum (buf : Buffer.t) => sum + Z.of_nat (length buf))
               instructionBuffers 0 in
   let metadataSize := Z.of_nat (length metadataBuffer) in
   let totalSize := headerSize + dataSize + metadataSize in
   let buffer := Buffer.alloc totalSize in
   let buffer := Buffer.copy QBC_MAGIC buffer 0 in
   let? buffer := Buffer.writeUInt16LE buffer QBC_VERSION 4 in
   let? buffer := Buffer.writeUInt16LE buffer maxQubits 6 in
   let? buffer := Buffer.writeUInt32LE buffer (Int (Z.of_nat (length instructions))) 8 in
   let? buffer := Buffer.writeUInt32LE buffer (Int dataSize) 12 in
   let? buffer := Buffer.writeUInt32LE buffer (Int metadataSize) 16 in
   let (buffer, offset) := copy_all instructionBuffers buffer headerSize in
   Ok (Buffer.copy metadataBuffer buffer offset))%js.

Record header : Type := mkHeader {
  version : Z;
  header_qubits : Z;
  instructionCount : Z;
  dataSize : Z;
  metadataSize : Z }.

Record parsed : Type := mkParsed {
  parsed_header : header;
  parsed_instructions : list instruction }.

(** The loop of [parseQBC]: [count] further instructions from [offset]. *)
Fixpoint decode_all (count : nat) (buffer : Buffer.t) (offset : Z)
    (instructions : list instruction) : res (list instruction) :=
  match count with
  | O => Ok instructions
  | S count =>
      (let? decoded := decodeInstruction buffer offset in
       decode_all count buffer (offset + snd decoded) (instructions ++ [fst decoded]))%js
  end.

(** [buffer.readUInt32LE(offset)] as an integer. *)
Definition readUInt32LE_Z (buffer : Buffer.t) (offset : Z) : res Z :=
  if Buffer.in_bounds buffer offset 4 then Ok (Buffer.get4 buffer offset)
  else Throw (RangeError "Attempt to access memory outside buffer bounds").

Definition parseQBC (buffer : Buffer.t) : res parsed :=
  (* buffer.toString('utf8', 0, 4) !== QBC_MAGIC *)
  if negb (bool_decide (take 4 buffer = QBC_MAGIC))
  then Throw (Error "Invalid QBC magic number")
  else
    (let? version := Buffer.readUInt16LE buffer 4 in
     if negb (version =? QBC_VERSION) then Throw (Error "Unsupported QBC version")
     else
       let? qubits := Buffer.readUInt16LE buffer 6 in
       let? instructionCount := readUInt32LE_Z buffer 8 in
       let? dataSize := readUInt32LE_Z buffer 12 in
       let? metadataSize := readUInt32LE_Z buffer 16 in
       let? instructions := decode_all (Z.to_nat instructionCount) buffer 20 [] in
       Ok (mkParsed (mkHeader version qubits instructionCount dataSize metadataSize)
                    instructions))%js.

(** The operands of the instruction table: a byte (qubit reference or
    classical address), a single-precision angle, an unsigned 32-bit jump
    target, a signed 32-bit value. *)
Inductive operand : Type := Byte | Angle | Target | Value.

Definition fits (k : operand) (v : jsval) : Prop :=
  match k, v with
  | Byte, Int z => 0 <= z < 256
  | Angle, F32 b => 0 <= b < 2 ^ 32 /\ F32.canon b = b
  | Target, Int z => 0 <= z < 2 ^ 32
  | Value, Int z => - 2 ^ 31 <= z < 2 ^ 31
  | _, _ => False
  end.

Definition operands (g : group) : list operand :=
  match g with
  | QubitManagement | SingleQubitGate => [Byte]
  | RotationGate => [Byte; Angle]
  | TwoQubitGate | Measurement | LoadClassical | UnaryOperation => [Byte; Byte]
  | ThreeQubitGate | BinaryOperation => [Byte; Byte; Byte]
  | ConditionalJump => [Byte; Target]
  | Jump => [Target]
  | StoreClassical => [Byte; Value]
  | NoParameters => []
  end.

(** An instruction that the [switch (op)] of the codec handles, with the
    operands its [case] writes and reads. *)
Definition table_instruction (i : instruction) : Prop :=
  exists g, switch (op i) = Some g /\ Forall2 fits (operands g) (params i).

(** The instruction table of the format, one row for each listed opcode:
    the operands that follow the opcode byte.  A qubit reference or a
    classical address is a byte, an angle a 32-bit float, a jump target and
    a stored value are 32-bit integers. *)
Definition instruction_table : list (Z * list operand) :=
  [(QBCOpcode.ALLOCATE_QUBIT, [Byte]);
   (QBCOpcode.DEALLOCATE_QUBIT, [Byte]);
   (QBCOpcode.GATE_X, [Byte]);
   (QBCOpcode.GATE_Y, [Byte]);
   (QBCOpcode.GATE_Z, [Byte]);
   (QBCOpcode.GATE_H, [Byte]);
   (QBCOpcode.GATE_S, [Byte]);
   (QBCOpcode.GATE_T, [Byte]);
   (QBCOpcode.GATE_RX, [Byte; Angle]);
   (QBCOpcode.GATE_RY, [Byte; Angle]);
   (QBCOpcode.GATE_RZ, [Byte; Angle]);
   (QBCOpcode.GATE_PHASE, [Byte; Angle]);
   (QBCOpcode.GATE_CNOT, [Byte; Byte]);
   (QBCOpcode.GATE_CZ, [Byte; Byte]);
   (QBCOpcode.GATE_SWAP, [Byte; Byte]);
   (QBCOpcode.GATE_ISWAP, [Byte; Byte]);
   (QBCOpcode.GATE_TOFFOLI, [Byte; Byte; Byte]);
   (QBCOpcode.GATE_FREDKIN, [Byte; Byte; Byte]);
   (QBCOpcode.MEASURE_QUBIT, [Byte; Byte]);
   (QBCOpcode.MEASURE_ALL, []);
   (QBCOpcode.CONDITIONAL_JUMP, [Byte; Target]);
   (QBCOpcode.JUMP, [Target]);
   (QBCOpcode.STORE_CLASSICAL, [Byte; Value]);
   (QBCOpcode.LOAD_CLASSICAL, [Byte; Byte]);
   (QBCOpcode.ADD_CLASSICAL, [Byte; Byte; Byte]);
   (QBCOpcode.SUB_CLASSICAL, [Byte; Byte; Byte]);
   (QBCOpcode.MUL_CLASSICAL, [Byte; Byte; Byte]);
   (QBCOpcode.DIV_CLASSICAL, [Byte; Byte; Byte]);
   (QBCOpcode.AND_CLASSICAL, [Byte; Byte; Byte]);
   (QBCOpcode.OR_CLASSICAL, [Byte; Byte; Byte]);
   (QBCOpcode.XOR_CLASSICAL, [Byte; Byte; Byte]);
   (QBCOpcode.NOT_CLASSICAL, [Byte; Byte]);
   (QBCOpcode.CMP_EQ_CLASSICAL, [Byte; Byte; Byte]);
   (QBCOpcode.CMP_NEQ_CLASSICAL, [Byte; Byte; Byte]);
   (QBCOpcode.CMP_LT_CLASSICAL, [Byte; Byte; Byte]);
   (QBCOpcode.CMP_GT_CLASSICAL, [Byte; Byte; Byte]);
   (QBCOpcode.END, [])].

(** An instruction with a listed opcode and operand values that fit the
    row of its opcode. *)
Definition listed_instruction (i : instruction) : Prop :=
  exists row : list operand,
    In (op i, row) instruction_table /\ Forall2 fits row (params i).

End QBC.

(** The instruction [GATE_RX q3, 1.0]. *)
Definition rx_instruction : QBC.instruction :=
  QBC.mkInstruction QBCOpcode.GATE_RX [Int 3; F32 0x3F800000].
(** ** [BytecodeInterpreter] (src/core/bytecode-interpreter.js)

    The classical part of the interpreter: the fetch-decode-execute loop,
    the classical memory, the ALU, the comparisons and the jumps.

    - A value of the classical memory is a [Z].  The sources compute with
      JavaScript numbers (binary64 floats): a sum, a difference or a
      product of two integers is the exact result rounded to the nearest
      number ([round_to_double]), which is the exact result up to
      [Number.MAX_SAFE_INTEGER] and keeps 53 significant bits above.  For a
      dividend up to [Number.MAX_SAFE_INTEGER], [Math.floor(a / b)] is the
      floor of the exact quotient: the division rounds by less than
      [1 / |b|], the least distance of a quotient that is no integer from
      the next integer.  A result that overflows to [Infinity] and a
      division of a larger dividend are not followed ([beyond]).
    - The instructions that call the registry, the gate executor and the
      measurement engine are not followed either ([beyond]).
    - The hooks keep their initial value [null], and [execute] is called
      without a timeout.
    - [classicalMemory] is a [Map] keyed by what [this.bytecode[this.pc++]]
      gives: a byte, or [undefined] ([None]) past the end of the buffer. *)

Declare Scope interp_scope.
Delimit Scope interp_scope with interp.

Module BytecodeInterpreter.

Record metrics_t : Type := mkMetrics {
  instructionsExecuted : Z;
  classicalOps : Z;
  quantumOps : Z;
  jumpOps : Z }.

Record t : Type := mk {
  pc : Z;
  bytecode : Buffer.t;
  running : bool;
  error : option exn;
  classicalMemory : gmap (option Z) Z;
  metrics : metrics_t }.

Definition set_pc (v : Z) (s : t) : t :=
  mk v (bytecode s) (running s) (error s) (classicalMemory s) (metrics s).
Definition set_bytecode (v : Buffer.t) (s : t) : t :=
  mk (pc s) v (running s) (error s) (classicalMemory s) (metrics s).
Definition set_running (v : bool) (s : t) : t :=
  mk (pc s) (bytecode s) v (error s) (classicalMemory s) (metrics s).
Definition set_error (v : option exn) (s : t) : t :=
  mk (pc s) (bytecode s) (running s) v (classicalMemory s) (metrics s).
Definition set_classicalMemory (v : gmap (option Z) Z) (s : t) : t :=
  mk (pc s) (bytecode s) (running s) (error s) v (metrics s).
Definition set_metrics (v : metrics_t) (s : t) : t :=
  mk (pc s) (bytecode s) (running s) (error s) (classicalMemory s) v.

(** [this.metrics.classicalOps++], [this.metrics.jumpOps++],
    [this.metrics.instructionsExecuted++] *)
Definition incr_classicalOps (s : t) : t :=
  let m := metrics s in
  set_metrics (mkMetrics (instructionsExecuted m) (classicalOps m + 1)
                         (quantumOps m) (jumpOps m)) s.
Definition incr_jumpOps (s : t) : t :=
  let m := metrics s in
  set_metrics (mkMetrics (instructionsExecuted m) (classicalOps m)
                         (quantumOps m) (jumpOps m + 1)) s.
Definition incr_instructionsExecuted (s : t) : t :=
  let m := metrics s in
  set_metrics (mkMetrics (instructionsExecuted m + 1) (classicalOps m)
                         (quantumOps m) (jumpOps m)) s.

Definition constructor : t := mk 0 [] false None ∅ (mkMetrics 0 0 0 0).

(** A method of the interpreter: it returns or throws, leaving the object
    in a new state, or it leaves the part that is followed ([None]). *)
Definition Interp (A : Type) : Type := t -> option (res A * t).

Definition pure {A} (a : A) : Interp A := fun s => Some (Ok a, s).
Definition raise {A} (e : exn) : Interp A := fun s => Some (Throw e, s).
Definition beyond {A} : Interp A := fun _ => None.
Definition andThen {A B} (m : Interp A) (k : A -> Interp B) : Interp B :=
  fun s => match m s with
           | Some (Ok a, s') => k a s'
           | Some (Throw e, s') => Some (Throw e, s')
           | None => None
           end.
Definition read {A} (f : t -> A) : Interp A := fun s => Some (Ok (f s), s).
Definition update (f : t -> t) : Interp unit := fun s => Some (Ok tt, f s).

Notation "'let*' x ':=' m 'in' k" := (andThen m (fun x => k))
  (at level 10, x pattern, m at level 100, k at level 200) : interp_scope.
Notation "m ';;' k" := (andThen m (fun _ => k))
  (at level 100, k at level 200, right associativity) : interp_scope.

Local Open Scope interp_scope.

Definition MAX_SAFE_INTEGER : Z := 2 ^ 53 - 1.

(** The integer [z] rounded to the nearest number, ties to the even
    significand: an integer of magnitude below [2^53] is a number; above,
    the 53 leading bits are kept. *)
Definition round_to_double (z : Z) : Z :=
  let m := Z.abs z in
  if m <? 2 ^ 53 then z
  else
    let e := Z.log2 m - 52 in
    let q := m / 2 ^ e in
    let r := m mod 2 ^ e in
    let q' := if (2 ^ (e - 1) <? r) || ((r =? 2 ^ (e - 1)) && Z.odd q)
              then q + 1 else q in
    Z.sgn z * (q' * 2 ^ e).

(** The number that an arithmetic operator gives for the exact result
    [z]; from [2^1024] on the rounded result is [Infinity]. *)
Definition number (z : Z) : Interp Z :=
  if Z.abs (round_to_double z) <? 2 ^ 1024 then pure (round_to_double z) else beyond.

(** [this.bytecode[this.pc++]] *)
Definition fetch : Interp (option Z) :=
  fun s => Some (Ok (arr_get (bytecode s) (pc s)), set_pc (pc s + 1) s).

(** [this.bytecode.readUInt32LE(this.pc)] and
    [this.bytecode.readInt32LE(this.pc)] *)
Definition integer (r : res jsval) : Interp Z :=
  match r with
  | Ok (Int z) => pure z
  | Ok _ => beyond
  | Throw e => raise e
  end.
Definition readUInt32LE_pc : Interp Z :=
  fun s => integer (Buffer.readUInt32LE (bytecode s) (pc s)) s.
Definition readInt32LE_pc : Interp Z :=
  fun s => integer (Buffer.readInt32LE (bytecode s) (pc s)) s.

Definition classicalMemory_get (addr : option Z) : Interp (option Z) :=
  read (fun s => classicalMemory s !! addr).
Definition classicalMemory_set (addr : option Z) (value : Z) : Interp unit :=
  update (fun s => set_classicalMemory (<[addr := value]> (classicalMemory s)) s).

Definition executeConditionalJump : Interp unit :=
  let* conditionAddr := fetch in
  let* targetAddr := readUInt32LE_pc in
  update (fun s => set_pc (pc s + 4) s);;
  let* condition := classicalMemory_get conditionAddr in
  match condition with
  | None => raise (Error "Condition not set")
  | Some c => if c =? 0 then pure tt else update (set_pc targetAddr)
  end.

Definition executeJump : Interp unit :=
  let* targetAddr := readUInt32LE_pc in
  update (fun s => set_pc (pc s + 4) s);;
  update (set_pc targetAddr).

Definition executeStoreClassical : Interp unit :=
  let* addr := fetch in
  let* value := readInt32LE_pc in
  update (fun s => set_pc (pc s + 4) s);;
  classicalMemory_set addr value.

Definition executeLoadClassical : Interp unit :=
  let* sourceAddr := fetch in
  let* destAddr := fetch in
  let* value := classicalMemory_get sourceAddr in
  match value with
  | None => raise (Error "No value at classical memory address")
  | Some v => classicalMemory_set destAddr v
  end.

Inductive operation : Type := ADD | SUB | MUL | DIV | AND | OR | XOR | NOT.

Definition executeClassicalOperation (operation : operation) : Interp unit :=
  let* aAddr := fetch in
  let* bAddr := fetch in
  let* resultAddr := fetch in
  let* a := classicalMemory_get aAddr in
  let* b := classicalMemory_get bAddr in
  match a, b with
  | Some a, Some b =>
      let* result :=
        match operation with
        | ADD => number (a + b)
        | SUB => number (a - b)
        | MUL => number (a * b)
        | DIV =>
            if b =? 0 then raise (Error "Division by zero")
            else if Z.abs a <=? MAX_SAFE_INTEGER
                 then pure (a / b) (* Math.floor(a / b) *)
                 else beyond
        | AND => pure (js_and a b)
        | OR => pure (js_or a b)
        | XOR => pure (js_xor a b)
        | NOT => pure (js_not a)
        end in
      classicalMemory_set resultAddr result
  | _, _ => raise (Error "Operand values not set")
  end.

Inductive comparison : Type := EQ | NEQ | LT | GT.

Definition executeClassicalComparison (comparison : comparison) : Interp unit :=
  let* aAddr := fetch in
  let* bAddr := fetch in
  let* resultAddr := fetch in
  let* a := classicalMemory_get aAddr in
  let* b := classicalMemory_get bAddr in
  match a, b with
  | Some a, Some b =>
      let result :=
        match comparison with
        | EQ => if a =? b then 1 else 0
        | NEQ => if a =? b then 0 else 1
        | LT => if a <? b then 1 else 0
        | GT => if b <? a then 1 else 0
        end in
      classicalMemory_set resultAddr result
  | _, _ => raise (Error "Operand values not set")
  end.

(** The [switch (opcode)] of [executeNextInstruction]. *)
Definition dispatch (opcode : Z) : Interp unit :=
  match opcode with
  | 0x01 | 0x02                                (* ALLOCATE_QUBIT, DEALLOCATE_QUBIT *)
  | 0x10 | 0x11 | 0x12 | 0x13 | 0x14 | 0x15    (* GATE_X .. GATE_T *)
  | 0x20 | 0x21 | 0x22                         (* GATE_RX, GATE_RY, GATE_RZ *)
  | 0x30 | 0x31 | 0x32                         (* GATE_CNOT, GATE_CZ, GATE_SWAP *)
  | 0x40                                       (* GATE_TOFFOLI *)
  | 0x50 => beyond                             (* MEASURE_QUBIT *)
  | 0x60 => executeConditionalJump;; update incr_jumpOps
  | 0x61 => executeJump;; update incr_jumpOps
  | 0x70 => executeStoreClassical;; update incr_classicalOps
  | 0x71 => executeLoadClassical;; update incr_classicalOps
  | 0x80 => executeClassicalOperation ADD;; update incr_classicalOps
  | 0x81 => executeClassicalOperation SUB;; update incr_classicalOps
  | 0x82 => executeClassicalOperation MUL;; update incr_classicalOps
  | 0x83 => executeClassicalOperation DIV;; update incr_classicalOps
  | 0x90 => executeClassicalOperation AND;; update incr_classicalOps
  | 0x91 => executeClassicalOperation OR;; update incr_classicalOps
  | 0x92 => executeClassicalOperation XOR;; update incr_classicalOps
  | 0x93 => executeClassicalOperation NOT;; update incr_classicalOps
  | 0xA0 => executeClassicalComparison EQ;; update incr_classicalOps
  | 0xA1 => executeClassicalComparison NEQ;; update incr_classicalOps
  | 0xA2 => executeClassicalComparison LT;; update incr_classicalOps
  | 0xA3 => executeClassicalComparison GT;; update incr_classicalOps
  | 0xFF => update (set_running false)         (* END *)
  | _ => raise (Error "Unknown opcode")
  end.

(** The opcode for which [dispatch] calls
    [executeClassicalOperation(operation)]. *)
Definition opcode (operation : operation) : Z :=
  match operation with
  | ADD => QBCOpcode.ADD_CLASSICAL
  | SUB => QBCOpcode.SUB_CLASSICAL
  | MUL => QBCOpcode.MUL_CLASSICAL
  | DIV => QBCOpcode.DIV_CLASSICAL
  | AND => QBCOpcode.AND_CLASSICAL
  | OR => QBCOpcode.OR_CLASSICAL
  | XOR => QBCOpcode.XOR_CLASSICAL
  | NOT => QBCOpcode.NOT_CLASSICAL
  end.

Definition executeNextInstruction : Interp unit :=
  fun s =>
    if Z.of_nat (length (bytecode s)) <=? pc s then Some (Ok tt, set_running false s)
    else
      (let* opcode := fetch in
       match opcode with
       | Some opcode => dispatch opcode
       | None => raise (TypeError "Cannot read properties of undefined")
       end;;
       update incr_instructionsExecuted) s.

(** The [while] loop of [execute].  Every turn that does not throw adds
    one to [instructionsExecuted], so the loop makes at most
    [maxInstructions - instructionsExecuted] turns: [turns] is that bound,
    and the last case is not reached when it is. *)
Fixpoint loop (maxInstructions : Z) (turns : nat) : Interp unit :=
  fun s =>
    if running s && (pc s <? Z.of_nat (length (bytecode s)))
       && (instructionsExecuted (metrics s) <? maxInstructions)
    then
      match turns with
      | S turns => (executeNextInstruction;; loop maxInstructions turns) s
      | O => None
      end
    else Some (Ok tt, s).

(** [try { while ... } catch (error) { this.error = error; this.running = false }] *)
Definition try_loop (maxInstructions : Z) (s : t) : option t :=
  match loop maxInstructions
             (Z.to_nat (maxInstructions - instructionsExecuted (metrics s))) s with
  | Some (Ok _, s') => Some s'
  | Some (Throw e, s') => Some (set_running false (set_error (Some e) s'))
  | None => None
  end.

Definition message (e : exn) : string :=
  match e with Error m | TypeError m | RangeError m => m end.

(** The object returned by [execute], without [measurements] (the
    measurement engine's record) and [metrics.executionTime]. *)
Record result : Type := mkResult {
  success : bool;
  result_error : option string;
  result_classicalMemory : gmap (option Z) Z;
  result_metrics : metrics_t }.

Definition result_of (s : t) : result :=
  mkResult (match error s with Some _ => false | None => true end) (message <$> error s)
           (classicalMemory s) (metrics s).

(** [execute(options)]; [maxInstructions] is [options.maxInstructions]. *)
Definition execute (maxInstructions : option Z) : Interp result :=
  fun s =>
    if Z.of_nat (length (bytecode s)) =? 0 then raise (Error "No bytecode loaded") s
    else
      let s := set_running true s in
      let s := set_pc 0 s in
      let s := set_error None s in
      let s := set_metrics (mkMetrics 0 0 0 0) s in
      let maxInstructions :=
        match maxInstructions with
        | Some n => if n =? 0 then MAX_SAFE_INTEGER else n
        | None => MAX_SAFE_INTEGER
        end in
      match try_loop maxInstructions s with
      | Some s' => Some (Ok (result_of s'), s')
      | None => None
      end.

Definition getOpcodeOperandSize (opcode : Z) : Z :=
  match opcode with
  | 0x01 | 0x02 => 1
  | 0x10 | 0x11 | 0x12 | 0x13 | 0x14 | 0x15 => 1
  | 0x20 | 0x21 | 0x22 => 5
  | 0x30 | 0x31 | 0x32 => 2
  | 0x40 => 3
  | 0x50 => 2
  | 0x60 => 5
  | 0x61 => 4
  | 0x70 => 5
  | 0x71 => 2
  | 0x80 | 0x81 | 0x82 | 0x83 | 0x90 | 0x91 | 0x92
  | 0xA0 | 0xA1 | 0xA2 | 0xA3 => 3
  | 0x93 => 2
  | 0xFF => 0
  | _ => 0
  end.

(** The loop of [scanJumpTargets].  The map [jumpTargets] it fills is
    not read anywhere, so only the exception that [readUInt32LE] may throw
    is kept.  [pc] starts at 0 and every turn adds at least one to it, so
    the loop makes at most [bytecode.length] turns: [turns] is that bound,
    and the case [O] is not reached when it is. *)
Fixpoint scanJumpTargets_loop (turns : nat) (bytecode : Buffer.t) (pc : Z) : res unit :=
  if pc <? Z.of_nat (length bytecode) then
    match turns with
    | O => Ok tt
    | S turns =>
        let opcode := arr_get bytecode pc in
        let pc := pc + 1 in
        match opcode with
        | Some opcode =>
            if (opcode =? QBCOpcode.JUMP) || (opcode =? QBCOpcode.CONDITIONAL_JUMP)
            then
              (let? targetAddr := Buffer.readUInt32LE bytecode pc in
               scanJumpTargets_loop turns bytecode (pc + 4))%js
            else scanJumpTargets_loop turns bytecode (pc + getOpcodeOperandSize opcode)
        | None => scanJumpTargets_loop turns bytecode pc
        end
    end
  else Ok tt.

Definition scanJumpTargets (bytecode : Buffer.t) : res unit :=
  scanJumpTargets_loop (length bytecode) bytecode 0.

(** [loadBytecode(bytecode)] for a [Buffer]. *)
Definition loadBytecode (bytecode : Buffer.t) : Interp unit :=
  fun s =>
    let s := set_bytecode bytecode s in
    let s := set_pc 0 s in
    let s := set_error None s in
    let s := set_classicalMemory ∅ s in
    Some (scanJumpTargets bytecode, s).

Definition reset : Interp unit :=
  fun s =>
    let s := set_pc 0 s in
    let s := set_running false s in
    let s := set_error None s in
    let s := set_classicalMemory ∅ s in
    Some (Ok tt, set_metrics (mkMetrics 0 0 0 0) s).

(** The state in which an ALU instruction leaves the interpreter when it
    stores [result] at [resultAddr]. *)
Definition stored (resultAddr result : Z) (s : t) : t :=
  incr_instructionsExecuted
    (incr_classicalOps
       (set_classicalMemory (<[Some resultAddr := result]> (classicalMemory s))
          (set_pc (pc s + 4) s))).

(** The state in which [execute] leaves the interpreter when the ALU
    instruction at [pc] throws [e]. *)
Definition aborted (e : exn) (s : t) : t :=
  set_running false (set_error (Some e) (set_pc (pc s + 4) s)).

(** [STORE 0, -7; STORE 1, 2; DIV 0, 1 -> 2; END] *)
Definition program_div : Buffer.t :=
  [0x70; 0; 0xF9; 0xFF; 0xFF; 0xFF;
   0x70; 1; 2; 0; 0; 0;
   0x83; 0; 1; 2;
   0xFF].

(** [STORE 0, 1; STORE 1, 0; DIV 0, 1 -> 2; STORE 3, 9; END] *)
Definition program_div_zero : Buffer.t :=
  [0x70; 0; 1; 0; 0; 0;
   0x70; 1; 0; 0; 0; 0;
   0x83; 0; 1; 2;
   0x70; 3; 9; 0; 0; 0;
   0xFF].

(** [STORE 0, 2147483647; STORE 1, 1; ADD 0, 1 -> 2; END] *)
Definition program_add : Buffer.t :=
  [0x70; 0; 0xFF; 0xFF; 0xFF; 0x7F;
   0x70; 1; 1; 0; 0; 0;
   0x80; 0; 1; 2;
   0xFF].

(** [program_div] and [program_div_zero] when the two [STORE]
    instructions have run and [pc] is at the [DIV] instruction. *)
Definition at_div : t :=
  mk 12 program_div true None (<[Some 1 := 2]> (<[Some 0 := -7]> ∅))
     (mkMetrics 2 2 0 0).
Definition at_div_zero : t :=
  mk 12 program_div_zero true None (<[Some 1 := 0]> (<[Some 0 := 1]> ∅))
     (mkMetrics 2 2 0 0).

(** [MUL 0, 1 -> 2; END] with [65536] at the addresses [0] and [1]. *)
Definition at_mul : t :=
  mk 0 [0x82; 0; 1; 2; 0xFF] true None (<[Some 1 := 65536]> (<[Some 0 := 65536]> ∅))
     (mkMetrics 0 0 0 0).

(** The same instruction with [2147483647] at the addresses [0] and [1]. *)
Definition at_mul_max : t :=
  mk 0 [0x82; 0; 1; 2; 0xFF] true None
     (<[Some 1 := 2147483647]> (<[Some 0 := 2147483647]> ∅))
     (mkMetrics 0 0 0 0).

(** The interpreter with [program] as its bytecode. *)
Definition loaded (program : Buffer.t) : t := set_bytecode program constructor.

(** The program [JUMP 0], which never ends. *)
Definition endless_program : Buffer.t := [0x61; 0; 0; 0; 0].

End BytecodeInterpreter.

(** ** Vocabulary for the further properties *)

(** The object [expandStateVector] leaves behind: the old amplitudes,
    followed by as many zeros. *)
Definition expanded (this : StateVector.t) : StateVector.t :=
  let sv := StateVector.stateVector this in
  StateVector.mk (StateVector.qubitCount this + 1) (StateVector.options this)
    (sv ++ repeat czero (length sv)) []
    (StateVector.mkMetrics
       (StateVector.gateOperations (StateVector.metrics this))
       (Z.of_nat (length sv) * 2)
       (Z.of_nat (length (sv ++ repeat czero (length sv))) * 16)).

(** The vector in which the amplitudes at [x] and [x xor 2^k] are
    exchanged, for every [x]. *)
Definition flip_transform (sv : list Cx) (k : Z) : list Cx :=
  map (fun x : Z => amp sv (Z.lxor x (2 ^ k))) (upto (length sv)).

(** One qubit with the amplitudes 3/5 and 4/5. *)
Definition ket_3_4 : StateVector.t :=
  StateVector.mk 1 (StateVector.mkOptions (Num eps10) 32) [cx (3 / 5) 0; cx (4 / 5) 0] []
    (StateVector.mkMetrics 0 2 32).

(** One qubit, at the limit of one qubit. *)
Definition ket0_full : StateVector.t :=
  StateVector.mk 1 (StateVector.mkOptions (Num eps10) 1) [cx 1 0; cx 0 0] []
    (StateVector.mkMetrics 0 2 32).

(** The object [setStateVector(v)] leaves behind when [normalize] has
    nothing to do. *)
Definition after_set (this : StateVector.t) (v : list Cx) : StateVector.t :=
  StateVector.mk (StateVector.qubitCount this) (StateVector.options this) v []
    (StateVector.mkMetrics
       (StateVector.gateOperations (StateVector.metrics this))
       (StateVector.stateVectorSize (StateVector.metrics this))
       (Z.of_nat (length v) * 16)).

(** The basis state |0...0> on [n] qubits. *)
Definition basis0 (n : Z) : list Cx := cx 1 0 :: repeat czero (Z.to_nat (2 ^ n) - 1).

(** What the local copy of [applyToffoli] holds at index [x] once the
    indices below [m] have been visited: a pair [(x, x xor 2^t)] with both
    control bits set is exchanged when exactly one of its two indices has
    been visited. *)
Definition toffoli_partial (sv : list Cx) (c1 c2 t m x : Z) : Cx :=
  if Z.testbit x c1 && Z.testbit x c2
     && xorb (x <? m) (Z.lxor x (2 ^ t) <? m)
  then amp sv (Z.lxor x (2 ^ t))
  else amp sv x.

(** Three qubits in the basis state |011> (qubits 0 and 1 are 1). *)
Definition three_qubits_index3 : StateVector.t :=
  StateVector.mk 3 (StateVector.mkOptions (Num eps10) 32)
    [cx 0 0; cx 0 0; cx 0 0; cx 1 0; cx 0 0; cx 0 0; cx 0 0; cx 0 0] []
    (StateVector.mkMetrics 0 8 128).

(** The machine with three live handles [q0], [q1], [q2] and that state. *)
Definition vm_three_qubits : VM :=
  set_vm_stateVector three_qubits_index3 (after_allocations 3 (initial_vm 32 32)).

(** The integer whose binary digits are [bits], least significant first. *)
Definition bits_value (bits : list Z) : Z :=
  fold_right (fun bit value => bit + 2 * value) 0 bits.

(** The results recorded for the handles [qubitIds], in that order. *)
Definition recorded (measurementResults : list (string * Z)) (qubitIds : list string)
  : list Z :=
  map (fun qubitId => default 0 (Map_get measurementResults (KStr qubitId))) qubitIds.

(** A machine on which [q0], [q1] and [q2] have been measured as 1, 0, 1. *)
Definition vm_measured : VM :=
  set_vm_engine (mkEngine [("q0", 1); ("q1", 0); ("q2", 1)]%string [] 3 (1, 2))
                (after_allocations 3 (initial_vm 32 32)).

(** No two handles of the registry have the same index, and every index
    is below [nextQubitIndex]. *)
Definition indices_distinct (this : registry) : Prop :=
  List.NoDup (map snd (qubits this)) /\
  Forall (fun e : string * Z => snd e < nextQubitIndex this) (qubits this).

(** What the local copy of [applyControlledGate] holds at index [x] once
    the indices below [m] have been visited.  For [x] with the control bit
    set, [lo] and [hi] are the two indices of its pair, with the target bit
    clear and set. *)
Definition controlled_partial (sv : list Cx) (c t : Z) (g00 g01 g10 g11 : Cx)
    (m x : Z) : Cx :=
  if Z.testbit x c then
    let lo := if Z.testbit x t then Z.lxor x (2 ^ t) else x in
    let hi := if Z.testbit x t then x else Z.lxor x (2 ^ t) in
    if hi <? m
    then ComplexNumber.multiply (ComplexNumber.multiply (amp sv lo) g10)
                                (if Z.testbit x t then g11 else g01)
    else if lo <? m
         then ComplexNumber.multiply (amp sv lo) (if Z.testbit x t then g10 else g00)
         else amp sv x
  else amp sv x.

(** The vector [applyControlledGate] passes to [setStateVector]: where
    the control bit is set, both amplitudes of a pair are computed from
    the amplitude whose target bit is clear. *)
Definition controlled_image (sv : list Cx) (c t : Z) (g01 g10 g11 : Cx) : list Cx :=
  map (fun x : Z =>
         if Z.testbit x c
         then
           ComplexNumber.multiply
             (ComplexNumber.multiply
                (amp sv (if Z.testbit x t then Z.lxor x (2 ^ t) else x)) g10)
             (if Z.testbit x t then g11 else g01)
         else amp sv x)
      (upto (length sv)).

(** The counters of the measurement engine agree with its history: one
    entry and one outcome count per measurement. *)
Definition engine_consistent (e : engine) : Prop :=
  totalMeasurements e = fst (outcomeCounts e) + snd (outcomeCounts e) /\
  totalMeasurements e = Z.of_nat (length (measurementHistory e)).

(** ** The facade, continued: [executeQBC] and [reset] (src/index.js)

    The machine of the facade with its interpreter.  The machine is taken
    as initialised; the circuit builders ([activeCircuits]) are not part of
    the model. *)

Record QVM : Type := mkQVM {
  qvm_vm : VM;
  qvm_interpreter : BytecodeInterpreter.t }.

(** The object [executeQBC] resolves to. *)
Record executeQBC_result : Type := mkExecuteQBCResult {
  qbc_success : bool;
  qbc_error : option string;
  qbc_stateVector : list Cx;
  qbc_measurements : list (string * Z);
  qbc_classicalMemory : gmap (option Z) Z;
  qbc_metrics : BytecodeInterpreter.metrics_t;
  qbc_stateVectorSize : Z;
  qbc_gateOperations : Z;
  qbc_gateTypeCount : list (string * Z) }.

(** [executeQBC(bytecode, options)] for a [Buffer]; [maxInstructions] is
    [options.maxInstructions].  The whole image, header included, is
    handed to [loadBytecode]. *)
Definition executeQBC (buffer : Buffer.t) (maxInstructions : option Z)
  : QVM -> option (res executeQBC_result * QVM) :=
  fun q =>
    match QBC.parseQBC buffer with
    | Throw e => Some (Throw e, q)
    | Ok _ =>
        match BytecodeInterpreter.loadBytecode buffer (qvm_interpreter q) with
        | None => None
        | Some (Throw e, i) => Some (Throw e, mkQVM (qvm_vm q) i)
        | Some (Ok _, i) =>
            match BytecodeInterpreter.execute maxInstructions i with
            | None => None
            | Some (Throw e, i) => Some (Throw e, mkQVM (qvm_vm q) i)
            | Some (Ok executionResult, i) =>
                let w := qvm_vm q in
                Some (Ok (mkExecuteQBCResult
                            (BytecodeInterpreter.success executionResult)
                            (BytecodeInterpreter.result_error executionResult)
                            (StateVector.stateVector (vm_stateVector w))
                            (measurementResults (vm_engine w))
                            (BytecodeInterpreter.result_classicalMemory executionResult)
                            (BytecodeInterpreter.result_metrics executionResult)
                            (StateVector.stateVectorSize
                               (StateVector.metrics (vm_stateVector w)))
                            (StateVector.gateOperations
                               (StateVector.metrics (vm_stateVector w)))
                            (gateTypeCount (vm_executor w))),
                      mkQVM w i)
            end
        end
    end.

(** [reset()] of the facade. *)
Definition QVM_reset : QVM -> option (res unit * QVM) :=
  fun q =>
    match (on_stateVector StateVector.reset ;;
           QubitRegistry.reset ;;
           MeasurementEngine.reset)%js (qvm_vm q) with
    | (Throw e, w) => Some (Throw e, mkQVM w (qvm_interpreter q))
    | (Ok _, w) =>
        match BytecodeInterpreter.reset (qvm_interpreter q) with
        | Some (r, i) => Some (r, mkQVM w i)
        | None => None
        end
    end.

(** The program [ALLOCATE_QUBIT 0; END]. *)
Definition small_program : list QBC.instruction :=
  [QBC.mkInstruction QBCOpcode.ALLOCATE_QUBIT [Int 0];
   QBC.mkInstruction QBCOpcode.END []].

(** The bytes of [JSON.stringify({})]. *)
Definition empty_metadata : Buffer.t := [0x7B; 0x7D].

(** The image [createQBC([ALLOCATE_QUBIT 0, END], {maxQubits: 1})] with
    the metadata [{}]. *)
Definition small_image : Buffer.t :=
  [0x51; 0x42; 0x43; 0x00; 1; 0; 1; 0; 2; 0; 0; 0; 3; 0; 0; 0; 2; 0; 0; 0;
   0x01; 0; 0xFF; 0x7B; 0x7D].

(** The program [STORE 0, 5; END] alone, without a header. *)
Definition bare_program : Buffer.t := [0x70; 0; 5; 0; 0; 0; 0xFF].

Definition initial_qvm : QVM := mkQVM (initial_vm 32 32) BytecodeInterpreter.constructor.

(** The instruction [GATE_FREDKIN q0, q1, q2]. *)
Definition fredkin_instruction : QBC.instruction :=
  QBC.mkInstruction QBCOpcode.GATE_FREDKIN [Int 0; Int 1; Int 2].

(** * Properties *)

(** ** Arithmetic of [number] and [ComplexNumber] *)

Ltac num_eq :=
  match goal with
  | |- Num _ = Num _ => f_equal; lra
  | |- ComplexNumber.mk _ _ = ComplexNumber.mk _ _ => f_equal; num_eq
  | |- _ => reflexivity
  end.

Ltac nsolve :=
  repeat match goal with
         | c : Cx |- _ => destruct c
         | c : ComplexNumber.t |- _ => destruct c
         | x : number |- _ => destruct x
         end;
  cbn; num_eq.

Lemma nadd_comm a b : nadd a b = nadd b a.
Proof. nsolve. Qed.

Lemma nadd_assoc a b c : nadd a (nadd b c) = nadd (nadd a b) c.
Proof. nsolve. Qed.

Lemma nadd_0_l a : nadd (Num 0) a = a.
Proof. nsolve. Qed.

Lemma nadd_0_r a : nadd a (Num 0) = a.
Proof. nsolve. Qed.

Lemma cadd_comm (a b : Cx) : ComplexNumber.add a b = ComplexNumber.add b a.
Proof. unfold ComplexNumber.add; nsolve. Qed.

Lemma cadd_assoc (a b c : Cx) :
  ComplexNumber.add a (ComplexNumber.add b c) = ComplexNumber.add (ComplexNumber.add a b) c.
Proof. unfold ComplexNumber.add; nsolve. Qed.

Lemma cadd_0_l (a : Cx) : ComplexNumber.add czero a = a.
Proof. unfold ComplexNumber.add, czero, cx; nsolve. Qed.

Lemma cadd_0_r (a : Cx) : ComplexNumber.add a czero = a.
Proof. unfold ComplexNumber.add, czero, cx; nsolve. Qed.

Lemma cmul_comm (a b : Cx) : ComplexNumber.multiply a b = ComplexNumber.multiply b a.
Proof. unfold ComplexNumber.multiply; nsolve. Qed.

(** ** The 32-bit operators on small non-negative integers *)

Lemma ToInt32_small z : - 2 ^ 31 <= z < 2 ^ 31 -> ToInt32 z = z.
Proof.
  intros H. unfold ToInt32. cbv zeta.
  destruct (Z.ltb_spec (z mod 2 ^ 32) (2 ^ 31)) as [Hlt | Hge];
    Z.div_mod_to_equations; lia.
Qed.

Lemma pow2_le_31 k : 0 <= k < 31 -> 0 < 2 ^ k < 2 ^ 31.
Proof.
  intros H. split; [apply Z.pow_pos_nonneg; lia|].
  apply Z.pow_lt_mono_r; lia.
Qed.

Lemma pow2_index_bound n : 0 <= n <= 31 -> 0 < 2 ^ n <= 2 ^ 31.
Proof.
  intros H. split; [apply Z.pow_pos_nonneg; lia|].
  apply Z.pow_le_mono_r; lia.
Qed.

Lemma js_shl_1 k : 0 <= k < 31 -> js_shl 1 k = 2 ^ k.
Proof.
  intros H. unfold js_shl.
  rewrite (ToInt32_small 1) by lia.
  rewrite Z.mod_small by lia.
  rewrite Z.shiftl_1_l.
  apply ToInt32_small. pose proof (pow2_le_31 k H). lia.
Qed.

Lemma testbit_high z n i : 0 <= z < 2 ^ n -> 0 <= n <= i -> Z.testbit z i = false.
Proof.
  intros Hz Hi.
  rewrite <- (Z.mod_small z (2 ^ n)) by lia.
  apply Z.mod_pow2_bits_high; lia.
Qed.

Lemma below_pow2_by_bits z n :
  0 <= n -> 0 <= z -> (forall i, n <= i -> Z.testbit z i = false) -> z < 2 ^ n.
Proof.
  intros Hn Hz Hbits.
  assert (E : z = z mod 2 ^ n).
  { apply Z.bits_inj'; intros i Hi.
    destruct (Z.lt_ge_cases i n) as [Hlt | Hge].
    - rewrite Z.mod_pow2_bits_low by lia. reflexivity.
    - rewrite Z.mod_pow2_bits_high by lia. apply Hbits; lia. }
  rewrite E. apply Z.mod_pos_bound. apply Z.pow_pos_nonneg; lia.
Qed.

Lemma js_bit i k :
  0 <= i < 2 ^ 31 -> 0 <= k < 31 ->
  js_and (js_sar i k) 1 = Z.b2z (Z.testbit i k).
Proof.
  intros Hi Hk. unfold js_and, js_sar.
  rewrite (ToInt32_small i) by lia.
  rewrite Z.mod_small by lia.
  assert (Hs : 0 <= Z.shiftr i k <= i).
  { split; [apply Z.shiftr_nonneg; lia|].
    rewrite Z.shiftr_div_pow2 by lia.
    apply Z.div_le_upper_bound; [apply Z.pow_pos_nonneg; lia|].
    pose proof (Z.pow_pos_nonneg 2 k). nia. }
  rewrite (ToInt32_small (Z.shiftr i k)) by lia.
  rewrite (ToInt32_small 1) by lia.
  change 1 with (Z.ones 1) at 1. rewrite Z.land_ones by lia.
  change (2 ^ 1) with 2. rewrite <- Z.bit0_mod.
  rewrite Z.shiftr_spec by lia. reflexivity.
Qed.

(** Toggling bit [k] of an index below [2^n]. *)
Lemma flip_range x n k :
  0 <= x < 2 ^ n -> 0 <= k < n -> 0 <= Z.lxor x (2 ^ k) < 2 ^ n.
Proof.
  intros Hx Hk.
  assert (H0 : 0 <= Z.lxor x (2 ^ k)).
  { apply Z.lxor_nonneg. pose proof (Z.pow_pos_nonneg 2 k). lia. }
  split; [exact H0|].
  apply below_pow2_by_bits; [lia | exact H0 |].
  intros i Hi. rewrite Z.lxor_spec.
  rewrite (testbit_high x n i) by lia.
  rewrite Z.pow2_bits_false by lia. reflexivity.
Qed.

Lemma flip_bit x k : 0 <= k -> Z.testbit (Z.lxor x (2 ^ k)) k = negb (Z.testbit x k).
Proof.
  intros Hk. rewrite Z.lxor_spec, Z.pow2_bits_true by lia.
  destruct (Z.testbit x k); reflexivity.
Qed.

Lemma flip_flip x k : Z.lxor (Z.lxor x (2 ^ k)) (2 ^ k) = x.
Proof. rewrite Z.lxor_assoc, Z.lxor_nilpotent, Z.lxor_0_r. reflexivity. Qed.

Lemma flip_neq x k : 0 <= k -> Z.lxor x (2 ^ k) <> x.
Proof.
  intros Hk E. pose proof (flip_bit x k Hk) as Hb. rewrite E in Hb.
  destruct (Z.testbit x k); discriminate.
Qed.

Lemma js_flip i k :
  0 <= i < 2 ^ 31 -> 0 <= k < 31 -> js_xor i (js_shl 1 k) = Z.lxor i (2 ^ k).
Proof.
  intros Hi Hk. rewrite js_shl_1 by lia. unfold js_xor.
  pose proof (pow2_le_31 k Hk).
  rewrite !ToInt32_small by lia. reflexivity.
Qed.

(** ** Arrays *)

Lemma amp_arr_set_eq (l : list Cx) i v :
  0 <= i < Z.of_nat (length l) -> amp (arr_set l i v) i = v.
Proof.
  intros H. unfold amp, arr_get, arr_set.
  destruct (Z.leb_spec 0 i); [|lia].
  rewrite list_lookup_insert_eq by lia. reflexivity.
Qed.

Lemma amp_arr_set_ne (l : list Cx) i j v :
  i <> j -> amp (arr_set l i v) j = amp l j.
Proof.
  intros H. unfold amp, arr_get, arr_set.
  destruct (Z.leb_spec 0 i); [|reflexivity].
  destruct (Z.leb_spec 0 j); [|reflexivity].
  rewrite list_lookup_insert_ne by lia. reflexivity.
Qed.

Lemma length_arr_set (l : list Cx) i v : length (arr_set l i v) = length l.
Proof. unfold arr_set. destruct (0 <=? i); [apply length_insert | reflexivity]. Qed.

Lemma arr_get_amp (l : list Cx) i :
  0 <= i < Z.of_nat (length l) -> arr_get l i = Some (amp l i).
Proof.
  intros H. unfold amp, arr_get.
  destruct (Z.leb_spec 0 i); [|lia].
  destruct (lookup_lt_is_Some_2 l (Z.to_nat i)) as [c Hc]; [lia|].
  rewrite Hc. reflexivity.
Qed.

Lemma elt_amp (l : list Cx) i :
  0 <= i < Z.of_nat (length l) -> StateVector.elt l i = Ok (amp l i).
Proof. intros H. unfold StateVector.elt. rewrite arr_get_amp by lia. reflexivity. Qed.

Lemma amp_repeat_zero (m : nat) i : amp (repeat czero m) i = czero.
Proof.
  unfold amp, arr_get. destruct (0 <=? i); [|reflexivity].
  destruct (repeat czero m !! Z.to_nat i) eqn:E; [|reflexivity].
  apply list_elem_of_lookup_2 in E. apply list_elem_of_In, repeat_spec in E.
  subst. reflexivity.
Qed.

Lemma upto_S m : upto (S m) = upto m ++ [Z.of_nat m].
Proof. unfold upto. rewrite seq_S, map_app. reflexivity. Qed.

Lemma list_eq_amp (l1 l2 : list Cx) :
  length l1 = length l2 ->
  (forall i, 0 <= i < Z.of_nat (length l1) -> amp l1 i = amp l2 i) ->
  l1 = l2.
Proof.
  intros Hlen H. apply list_eq. intros j.
  destruct (Nat.lt_ge_cases j (length l1)) as [Hlt | Hge].
  - specialize (H (Z.of_nat j) ltac:(lia)).
    rewrite <- (Nat2Z.id j).
    pose proof (arr_get_amp l1 (Z.of_nat j) ltac:(lia)) as E1.
    pose proof (arr_get_amp l2 (Z.of_nat j) ltac:(lia)) as E2.
    unfold arr_get in E1, E2.
    destruct (Z.leb_spec 0 (Z.of_nat j)); [|lia].
    rewrite E1, E2, H. reflexivity.
  - rewrite !lookup_ge_None_2 by lia. reflexivity.
Qed.

(** ** The kernel of [applySingleQubitGate] *)

Section SingleQubitKernel.
Variables (sv : list Cx) (n k : Z) (U00 U01 U10 U11 : Cx).
Hypothesis Hn : 0 <= n <= 31.
Hypothesis Hk : 0 <= k < n.
Hypothesis Hlen : Z.of_nat (length sv) = 2 ^ n.

Lemma single_step_effect (l : list Cx) (i : Z) :
  length l = length sv -> 0 <= i < 2 ^ n ->
  exists l',
    StateVector.single_step sv k (mat2 U00 U01 U10 U11) (Ok l) i = Ok l' /\
    length l' = length sv /\
    amp l' i = ComplexNumber.add (amp l i)
                 (ComplexNumber.multiply (amp sv i)
                    (mat2_at U00 U01 U10 U11 (Z.testbit i k) (Z.testbit i k))) /\
    amp l' (Z.lxor i (2 ^ k)) =
      ComplexNumber.add (amp l (Z.lxor i (2 ^ k)))
        (ComplexNumber.multiply (amp sv i)
           (mat2_at U00 U01 U10 U11 (negb (Z.testbit i k)) (Z.testbit i k))) /\
    (forall x, x <> i -> x <> Z.lxor i (2 ^ k) -> amp l' x = amp l x).
Proof.
  intros Hl Hi.
  pose proof (pow2_index_bound n Hn) as Hp.
  pose proof (flip_range i n k Hi Hk) as Hf.
  pose proof (flip_neq i k ltac:(lia)) as Hne.
  unfold StateVector.single_step. cbn [rbind].
  rewrite js_bit, js_flip by lia.
  destruct (Z.testbit i k) eqn:Hb; cbn [Z.b2z Z.eqb negb mat2_at].
  - rewrite (elt_amp l) by lia. cbn [rbind].
    rewrite (elt_amp sv) by lia. cbn [rbind].
    change (StateVector.entry (mat2 U00 U01 U10 U11) 0 1) with (Ok U01). cbn [rbind].
    rewrite elt_amp by (rewrite length_arr_set; lia). cbn [rbind].
    change (StateVector.entry (mat2 U00 U01 U10 U11) 1 1) with (Ok U11). cbn [rbind].
    eexists. split; [reflexivity|].
    rewrite !length_arr_set. split; [exact Hl|].
    split; [|split].
    + rewrite amp_arr_set_eq by (rewrite length_arr_set; lia).
      rewrite amp_arr_set_ne by exact Hne. reflexivity.
    + rewrite amp_arr_set_ne by congruence.
      rewrite amp_arr_set_eq by lia. reflexivity.
    + intros x Hx1 Hx2. rewrite !amp_arr_set_ne by congruence. reflexivity.
  - rewrite (elt_amp l) by lia. cbn [rbind].
    rewrite (elt_amp sv) by lia. cbn [rbind].
    change (StateVector.entry (mat2 U00 U01 U10 U11) 0 0) with (Ok U00). cbn [rbind].
    rewrite elt_amp by (rewrite length_arr_set; lia). cbn [rbind].
    change (StateVector.entry (mat2 U00 U01 U10 U11) 1 0) with (Ok U10). cbn [rbind].
    eexists. split; [reflexivity|].
    rewrite !length_arr_set. split; [exact Hl|].
    split; [|split].
    + rewrite amp_arr_set_ne by congruence.
      rewrite amp_arr_set_eq by lia. reflexivity.
    + rewrite amp_arr_set_eq by (rewrite length_arr_set; lia).
      rewrite amp_arr_set_ne by congruence. reflexivity.
    + intros x Hx1 Hx2. rewrite !amp_arr_set_ne by congruence. reflexivity.
Qed.

Lemma single_kernel_prefix (m : nat) :
  (m <= length sv)%nat ->
  exists l,
    fold_left (StateVector.single_step sv k (mat2 U00 U01 U10 U11)) (upto m)
              (Ok (repeat czero (length sv))) = Ok l /\
    length l = length sv /\
    forall x, 0 <= x < 2 ^ n ->
      amp l x = single_partial sv k (mat2_at U00 U01 U10 U11) (Z.of_nat m) x.
Proof.
  induction m as [|m IH]; intros Hm.
  - eexists. split; [reflexivity|]. split; [apply repeat_length|].
    intros x Hx. rewrite amp_repeat_zero. unfold single_partial. cbv zeta.
    pose proof (flip_range x n k Hx Hk).
    destruct (Z.ltb_spec x (Z.of_nat 0)); [lia|].
    destruct (Z.ltb_spec (Z.lxor x (2 ^ k)) (Z.of_nat 0)); [lia|].
    symmetry. apply cadd_0_l.
  - destruct IH as (l & Hfold & Hl & Hamp); [lia|].
    rewrite upto_S, fold_left_app, Hfold. cbn [fold_left].
    destruct (single_step_effect l (Z.of_nat m) Hl ltac:(lia))
      as (l' & Hstep & Hl' & Hi & Hf & Hother).
    exists l'. split; [exact Hstep|]. split; [exact Hl'|].
    intros x Hx.
    pose proof (flip_range x n k Hx Hk) as Hfx.
    pose proof (flip_neq x k ltac:(lia)) as Hnx.
    unfold single_partial. cbv zeta.
    destruct (Z.eq_dec x (Z.of_nat m)) as [-> | Hxm].
    + rewrite Hi, Hamp by lia. unfold single_partial. cbv zeta.
      destruct (Z.ltb_spec (Z.of_nat m) (Z.of_nat m)); [lia|].
      destruct (Z.ltb_spec (Z.of_nat m) (Z.of_nat (S m))); [|lia].
      destruct (Z.ltb_spec (Z.lxor (Z.of_nat m) (2 ^ k)) (Z.of_nat m));
        destruct (Z.ltb_spec (Z.lxor (Z.of_nat m) (2 ^ k)) (Z.of_nat (S m))); try lia;
        rewrite cadd_0_l; [apply cadd_comm | rewrite cadd_0_l, cadd_0_r; reflexivity].
    + destruct (Z.eq_dec x (Z.lxor (Z.of_nat m) (2 ^ k))) as [E | Hxf].
      * assert (Efx : Z.lxor x (2 ^ k) = Z.of_nat m) by (rewrite E; apply flip_flip).
        assert (Eb : Z.testbit x k = negb (Z.testbit (Z.of_nat m) k))
          by (rewrite E; apply flip_bit; lia).
        rewrite E at 1. rewrite Hf. rewrite <- E. rewrite Hamp by lia.
        unfold single_partial. cbv zeta. rewrite Efx, Eb, negb_involutive.
        destruct (Z.ltb_spec (Z.of_nat m) (Z.of_nat m)); [lia|].
        destruct (Z.ltb_spec (Z.of_nat m) (Z.of_nat (S m))); [|lia].
        destruct (Z.ltb_spec x (Z.of_nat m));
          destruct (Z.ltb_spec x (Z.of_nat (S m))); try lia;
          rewrite cadd_0_r; reflexivity.
      * rewrite Hother by assumption. rewrite Hamp by lia.
        unfold single_partial. cbv zeta.
        assert (Hfm : Z.lxor x (2 ^ k) <> Z.of_nat m).
        { intros E. apply Hxf. rewrite <- E. symmetry. apply flip_flip. }
        destruct (Z.ltb_spec x (Z.of_nat m));
          destruct (Z.ltb_spec x (Z.of_nat (S m))); try lia;
          destruct (Z.ltb_spec (Z.lxor x (2 ^ k)) (Z.of_nat m));
          destruct (Z.ltb_spec (Z.lxor x (2 ^ k)) (Z.of_nat (S m))); try lia;
          reflexivity.
Qed.

Lemma single_kernel_amp :
  exists l,
    StateVector.single_kernel sv k (mat2 U00 U01 U10 U11) = Ok l /\
    length l = length sv /\
    forall x, 0 <= x < 2 ^ n ->
      amp l x =
        ComplexNumber.add
          (ComplexNumber.multiply (amp sv x)
             (mat2_at U00 U01 U10 U11 (Z.testbit x k) (Z.testbit x k)))
          (ComplexNumber.multiply (amp sv (Z.lxor x (2 ^ k)))
             (mat2_at U00 U01 U10 U11 (Z.testbit x k) (negb (Z.testbit x k)))).
Proof.
  destruct (single_kernel_prefix (length sv) ltac:(lia)) as (l & Hfold & Hl & Hamp).
  exists l. split; [exact Hfold|]. split; [exact Hl|].
  intros x Hx. rewrite Hamp by exact Hx. unfold single_partial. cbv zeta.
  pose proof (flip_range x n k Hx Hk).
  destruct (Z.ltb_spec x (Z.of_nat (length sv))); [|lia].
  destruct (Z.ltb_spec (Z.lxor x (2 ^ k)) (Z.of_nat (length sv))); [|lia].
  reflexivity.
Qed.

End SingleQubitKernel.

(** ** [normalize] *)

Lemma divide_by_primitive (a : Cx) (x : number) :
  ComplexNumber.divide a (ComplexNumber.Prim x) = Ok cnan.
Proof. destruct a as [[r|] [i|]]; reflexivity. Qed.

Lemma divide_in_place_primitive (l : list Cx) (x : number) :
  StateVector.divide_in_place l (ComplexNumber.Prim x) = (Ok tt, map (fun _ => cnan) l).
Proof.
  induction l as [|a l IH]; [reflexivity|].
  cbn [StateVector.divide_in_place]. rewrite divide_by_primitive, IH. reflexivity.
Qed.

Lemma normalize_run (this : StateVector.t) :
  StateVector.normalize this =
    if ngt (Math_abs (nsub (Math_sqrt (StateVector.normSquared (StateVector.stateVector this)))
                           (Num 1)))
           (StateVector.precision (StateVector.options this))
    then (Ok tt, StateVector.set_stateVector
                   (map (fun _ => cnan) (StateVector.stateVector this)) this)
    else (Ok tt, this).
Proof.
  unfold StateVector.normalize, bind, get.
  destruct (ngt _ _); [|reflexivity].
  rewrite divide_in_place_primitive. reflexivity.
Qed.

Lemma normalize_within (this : StateVector.t) :
  within_precision (StateVector.precision (StateVector.options this))
                   (StateVector.stateVector this) ->
  StateVector.normalize this = (Ok tt, this).
Proof. intros H. rewrite normalize_run. unfold within_precision in H. rewrite H. reflexivity. Qed.

Lemma Math_sqrt_square x : (0 <= x)%R -> Math_sqrt (Num (x * x)) = Num x.
Proof.
  intros Hx. unfold Math_sqrt.
  destruct (Rle_dec 0 (x * x)) as [_ | Hn].
  - rewrite sqrt_square by exact Hx. reflexivity.
  - exfalso. apply Hn. apply Rmult_le_pos; exact Hx.
Qed.

Lemma Math_sqrt_1 : Math_sqrt (Num 1) = Num 1.
Proof.
  unfold Math_sqrt. destruct (Rle_dec 0 1) as [_ | Hn]; [|exfalso; lra].
  rewrite sqrt_1. reflexivity.
Qed.

Lemma Num_eq x y : x = y -> Num x = Num y.
Proof. intros ->. reflexivity. Qed.

Lemma within_precision_norm1 (prec : R) (v : list Cx) (s : R) :
  StateVector.normSquared v = Num s -> s = 1%R -> (0 <= prec)%R ->
  within_precision (Num prec) v.
Proof.
  intros Hs -> Hp. unfold within_precision. rewrite Hs, Math_sqrt_1. cbn.
  destruct (Rlt_dec prec (Rabs (1 - 1))) as [Hlt | _]; [|reflexivity].
  replace (1 - 1)%R with 0%R in Hlt by lra. rewrite Rabs_R0 in Hlt. lra.
Qed.

Lemma eps10_pos : (0 < eps10)%R.
Proof. unfold eps10. apply Rinv_0_lt_compat. lra. Qed.

(** ** C1: the single-qubit gate kernel *)

Lemma validateQubitIndex_ok (this : StateVector.t) (k : Z) :
  0 <= k < StateVector.qubitCount this ->
  StateVector.validateQubitIndex k this = (Ok tt, this).
Proof.
  intros H. unfold StateVector.validateQubitIndex, bind, get.
  destruct (Z.ltb_spec k 0); [lia|].
  destruct (Z.leb_spec (StateVector.qubitCount this) k); [lia|]. reflexivity.
Qed.

Lemma pair_transform_length sv k U00 U01 U10 U11 :
  length (pair_transform sv k U00 U01 U10 U11) = length sv.
Proof. unfold pair_transform, upto. rewrite !length_map, length_seq. reflexivity. Qed.

Lemma amp_pair_transform sv k U00 U01 U10 U11 x :
  0 <= x < Z.of_nat (length sv) ->
  amp (pair_transform sv k U00 U01 U10 U11) x =
    if Z.testbit x k
    then ComplexNumber.add (ComplexNumber.multiply U10 (amp sv (Z.lxor x (2 ^ k))))
                           (ComplexNumber.multiply U11 (amp sv x))
    else ComplexNumber.add (ComplexNumber.multiply U00 (amp sv x))
                           (ComplexNumber.multiply U01 (amp sv (Z.lxor x (2 ^ k)))).
Proof.
  intros Hx. unfold amp at 1, arr_get, pair_transform, upto.
  destruct (Z.leb_spec 0 x); [|lia].
  rewrite !list_lookup_fmap, lookup_seq_lt by lia.
  cbn [fmap option_fmap option_map default]. rewrite Nat.add_0_l, Z2Nat.id by lia.
  reflexivity.
Qed.

Lemma single_kernel_pair_transform sv n k U00 U01 U10 U11 :
  0 <= n <= 31 -> 0 <= k < n -> Z.of_nat (length sv) = 2 ^ n ->
  StateVector.single_kernel sv k (mat2 U00 U01 U10 U11) =
    Ok (pair_transform sv k U00 U01 U10 U11).
Proof.
  intros Hn Hk Hlen.
  destruct (single_kernel_amp sv n k U00 U01 U10 U11 Hn Hk Hlen) as (l & Hrun & Hl & Hamp).
  rewrite Hrun. f_equal. apply list_eq_amp.
  - rewrite pair_transform_length. exact Hl.
  - intros i Hi. rewrite Hamp, amp_pair_transform by lia.
    destruct (Z.testbit i k); cbn [mat2_at negb].
    + rewrite cadd_comm. f_equal; apply cmul_comm.
    + f_equal; apply cmul_comm.
Qed.

(** C1, as the code has it.  For a state vector of [2^n] amplitudes ([n <= 31], the
    largest array of amplitudes the 32-bit index arithmetic addresses),
    a bit position [k < n] and a 2x2 matrix [U] such that the norm of the
    transformed vector is within the precision of 1,
    [applySingleQubitGate(k, U)] succeeds, empties the probability cache,
    counts one gate operation and stores the vector in which every pair
    [(a_i, a_j)], [j = i xor 2^k], bit [k] of [i] equal to 0, is replaced
    by [(U00*a_i + U01*a_j, U10*a_i + U11*a_j)]. *)
Theorem applySingleQubitGate_pairs
    (this : StateVector.t) (n k : Z) (U00 U01 U10 U11 : Cx) :
  0 <= n <= 31 ->
  StateVector.qubitCount this = n ->
  Z.of_nat (length (StateVector.stateVector this)) = 2 ^ n ->
  0 <= k < n ->
  within_precision (StateVector.precision (StateVector.options this))
    (pair_transform (StateVector.stateVector this) k U00 U01 U10 U11) ->
  StateVector.applySingleQubitGate k (mat2 U00 U01 U10 U11) this =
    (Ok tt, after_gate this (pair_transform (StateVector.stateVector this) k U00 U01 U10 U11))
  /\ forall i, 0 <= i < 2 ^ n -> Z.testbit i k = false ->
       let j := Z.lxor i (2 ^ k) in
       let a_i := amp (StateVector.stateVector this) i in
       let a_j := amp (StateVector.stateVector this) j in
       let v := pair_transform (StateVector.stateVector this) k U00 U01 U10 U11 in
       amp v i = ComplexNumber.add (ComplexNumber.multiply U00 a_i)
                                   (ComplexNumber.multiply U01 a_j) /\
       amp v j = ComplexNumber.add (ComplexNumber.multiply U10 a_i)
                                   (ComplexNumber.multiply U11 a_j).
Proof.
  intros Hn Hq Hlen Hk Hnorm. split.
  - unfold StateVector.applySingleQubitGate, bind.
    rewrite validateQubitIndex_ok by lia.
    change (StateVector.validateGateMatrix (mat2 U00 U01 U10 U11) 2 this)
      with (@Ok unit tt, this).
    cbv beta iota delta [StateVector.invalidateProbabilityCache modify get lift_res].
    cbn [StateVector.stateVector StateVector.set_probabilityCache].
    rewrite (single_kernel_pair_transform _ n) by assumption.
    rewrite normalize_within by exact Hnorm.
    reflexivity.
  - intros i Hi Hb j a_i a_j v. subst j a_i a_j v.
    pose proof (flip_range i n k Hi Hk) as Hf.
    rewrite !amp_pair_transform by lia.
    rewrite Hb, flip_bit, Hb, flip_flip by lia. cbn [negb]. split; reflexivity.
Qed.

Lemma normSquared_two (a b : Cx) :
  StateVector.normSquared [a; b] =
    nadd (nadd (Num 0) (ComplexNumber.magnitudeSquared a)) (ComplexNumber.magnitudeSquared b).
Proof. reflexivity. Qed.

(** Witness: the X gate on a one-qubit register in |0>. *)
Lemma applySingleQubitGate_pairs_witness :
  StateVector.applySingleQubitGate 0 (mat2 (cx 0 0) (cx 1 0) (cx 1 0) (cx 0 0)) ket0 =
    (Ok tt, after_gate ket0
              (pair_transform (StateVector.stateVector ket0) 0
                 (cx 0 0) (cx 1 0) (cx 1 0) (cx 0 0))).
Proof.
  refine (proj1 (applySingleQubitGate_pairs ket0 1 0 (cx 0 0) (cx 1 0) (cx 1 0) (cx 0 0)
                   _ _ _ _ _)).
  - lia.
  - reflexivity.
  - reflexivity.
  - lia.
  - eapply within_precision_norm1.
    + vm_compute. reflexivity.
    + lra.
    + pose proof eps10_pos. lra.
Defined.

Lemma exceeds_precision (prec s r : R) (v : list Cx) :
  StateVector.normSquared v = Num s -> s = (r * r)%R -> (0 <= r)%R ->
  (prec < Rabs (r - 1))%R ->
  ngt (Math_abs (nsub (Math_sqrt (StateVector.normSquared v)) (Num 1))) (Num prec) = true.
Proof.
  intros Hs -> Hr Hp. rewrite Hs, Math_sqrt_square by exact Hr. cbn.
  destruct (Rlt_dec prec (Rabs (r - 1))); [reflexivity | contradiction].
Qed.

Lemma eps10_lt_1 : (eps10 < 1)%R.
Proof.
  unfold eps10. pose proof (Rinv_lt_contravar 1 10000000000 ltac:(lra) ltac:(lra)) as H.
  rewrite Rinv_1 in H. exact H.
Qed.

(** C1 as stated fails: on |0> the matrix 2*I is not turned into the pair
    [(2, 0)]; [normalize] runs on the result and every amplitude ends up
    as (NaN, NaN). *)
Lemma applySingleQubitGate_pairs_counterexample :
  let U00 := cx 2 0 in let U01 := cx 0 0 in
  let U10 := cx 0 0 in let U11 := cx 2 0 in
  let run := StateVector.applySingleQubitGate 0 (mat2 U00 U01 U10 U11) ket0 in
  let a_0 := amp (StateVector.stateVector ket0) 0 in
  let a_1 := amp (StateVector.stateVector ket0) 1 in
  fst run = Ok tt /\
  StateVector.stateVector (snd run) = [cnan; cnan] /\
  amp (StateVector.stateVector (snd run)) 0 <>
    ComplexNumber.add (ComplexNumber.multiply U00 a_0) (ComplexNumber.multiply U01 a_1).
Proof.
  intros U00 U01 U10 U11 run a_0 a_1.
  assert (E : run = (Ok tt, after_gate ket0 [cnan; cnan])).
  { subst run. unfold StateVector.applySingleQubitGate, bind.
    rewrite validateQubitIndex_ok by (cbn; lia).
    change (StateVector.validateGateMatrix (mat2 U00 U01 U10 U11) 2 ket0)
      with (@Ok unit tt, ket0).
    cbv beta iota delta [StateVector.invalidateProbabilityCache modify get lift_res].
    cbn [StateVector.stateVector StateVector.set_probabilityCache].
    rewrite (single_kernel_pair_transform _ 1) by (cbn; lia).
    rewrite normalize_run.
    cbn [StateVector.stateVector StateVector.set_stateVector StateVector.options
         StateVector.precision ket0].
    erewrite (exceeds_precision eps10 _ 2).
    - reflexivity.
    - vm_compute. reflexivity.
    - lra.
    - lra.
    - replace (2 - 1)%R with 1%R by lra. rewrite Rabs_R1. exact eps10_lt_1. }
  rewrite E. cbn [fst snd after_gate StateVector.stateVector].
  split; [reflexivity|]. split; [reflexivity|].
  intros H. vm_compute in H. discriminate H.
Qed.

(** ** Bit-level facts for the two-qubit kernels *)

Lemma testbit_b2z (b : bool) k : Z.testbit (Z.b2z b) k = (k =? 0) && b.
Proof.
  destruct b; cbn [Z.b2z].
  - change 1 with (2 ^ 0). rewrite Z.pow2_bits_eqb by lia.
    rewrite andb_true_r, Z.eqb_sym. reflexivity.
  - rewrite Z.bits_0, andb_false_r. reflexivity.
Qed.

Lemma setbits_spec x c t bc bt i :
  0 <= c -> 0 <= t -> c <> t -> 0 <= i ->
  Z.testbit (setbits x c t bc bt) i =
    if i =? c then bc else if i =? t then bt else Z.testbit x i.
Proof.
  intros Hc Ht Hct Hi. unfold setbits.
  rewrite !Z.lor_spec, !Z.land_spec, !Z.lnot_spec by lia.
  rewrite !Z.shiftl_spec by lia. rewrite !testbit_b2z.
  rewrite !Z.pow2_bits_eqb by lia.
  destruct (Z.eqb_spec i c) as [-> | Hic].
  - rewrite Z.eqb_refl, Z.sub_diag. cbn [Z.eqb].
    destruct (Z.eqb_spec t c); [lia|].
    destruct (Z.eqb_spec (c - t) 0); [lia|].
    destruct bc, (Z.testbit x c); reflexivity.
  - destruct (Z.eqb_spec c i); [lia|].
    destruct (Z.eqb_spec (i - c) 0); [lia|].
    destruct (Z.eqb_spec i t) as [-> | Hit].
    + rewrite Z.eqb_refl, Z.sub_diag. cbn [Z.eqb].
      destruct bt, (Z.testbit x t); reflexivity.
    + destruct (Z.eqb_spec t i); [lia|].
      destruct (Z.eqb_spec (i - t) 0); [lia|].
      destruct (Z.testbit x i); reflexivity.
Qed.

Lemma setbits_nonneg x c t bc bt : 0 <= x -> 0 <= setbits x c t bc bt.
Proof.
  intros Hx. unfold setbits.
  rewrite !Z.lor_nonneg, !Z.land_nonneg, !Z.shiftl_nonneg.
  destruct bc, bt; cbn; lia.
Qed.

Lemma setbits_range x n c t bc bt :
  0 <= x < 2 ^ n -> 0 <= c < n -> 0 <= t < n -> c <> t ->
  0 <= setbits x c t bc bt < 2 ^ n.
Proof.
  intros Hx Hc Ht Hct.
  pose proof (setbits_nonneg x c t bc bt ltac:(lia)) as H0.
  split; [exact H0|].
  apply below_pow2_by_bits; [lia | exact H0 |].
  intros i Hi. rewrite setbits_spec by lia.
  destruct (Z.eqb_spec i c); [lia|]. destruct (Z.eqb_spec i t); [lia|].
  apply (testbit_high x n); lia.
Qed.

(** [setbits x c t bc bt = m] exactly when [x] and [m] agree outside
    [c] and [t] and the bits of [m] there are [bc] and [bt]. *)
Lemma setbits_eq_iff x m c t bc bt :
  0 <= x -> 0 <= m -> 0 <= c -> 0 <= t -> c <> t ->
  setbits x c t bc bt = m <->
  agree c t x m = true /\ Z.testbit m c = bc /\ Z.testbit m t = bt.
Proof.
  intros Hx Hm Hc Ht Hct. unfold agree. rewrite Z.eqb_eq. split.
  - intros <-. split; [|split].
    + apply Z.bits_inj'. intros i Hi. rewrite !setbits_spec by lia.
      destruct (i =? c), (i =? t); reflexivity.
    + rewrite setbits_spec by lia. rewrite Z.eqb_refl. reflexivity.
    + rewrite setbits_spec by lia.
      destruct (Z.eqb_spec t c); [lia|]. rewrite Z.eqb_refl. reflexivity.
  - intros (Hag & Hbc & Hbt). apply Z.bits_inj'. intros i Hi.
    assert (Hi' : Z.testbit (setbits x c t false false) i =
                  Z.testbit (setbits m c t false false) i) by (rewrite Hag; reflexivity).
    rewrite !setbits_spec in Hi' by lia. rewrite setbits_spec by lia.
    destruct (Z.eqb_spec i c) as [E | ?]; [rewrite E; congruence|].
    destruct (Z.eqb_spec i t) as [E | ?]; [rewrite E; congruence|].
    exact Hi'.
Qed.

Lemma agree_sym c t x m : agree c t x m = agree c t m x.
Proof. unfold agree. apply Z.eqb_sym. Qed.

Lemma agree_setbits c t x bc bt :
  0 <= x -> 0 <= c -> 0 <= t -> c <> t ->
  agree c t x (setbits x c t bc bt) = true.
Proof.
  intros Hx Hc Ht Hct.
  pose proof (setbits_nonneg x c t bc bt Hx).
  apply (setbits_eq_iff x (setbits x c t bc bt) c t bc bt); lia.
Qed.

Lemma setbits_self x c t :
  0 <= x -> 0 <= c -> 0 <= t -> c <> t ->
  setbits x c t (Z.testbit x c) (Z.testbit x t) = x.
Proof.
  intros Hx Hc Ht Hct. apply Z.bits_inj'. intros i Hi.
  rewrite setbits_spec by lia.
  destruct (Z.eqb_spec i c) as [-> | ?]; [reflexivity|].
  destruct (Z.eqb_spec i t) as [-> | ?]; reflexivity.
Qed.

Lemma cnot_source_setbits c t x :
  0 <= x -> 0 <= c -> 0 <= t -> c <> t ->
  cnot_source c t x =
    setbits x c t (Z.testbit x c) (xorb (Z.testbit x t) (Z.testbit x c)).
Proof.
  intros Hx Hc Ht Hct. unfold cnot_source. apply Z.bits_inj'. intros i Hi.
  rewrite setbits_spec by lia.
  destruct (Z.testbit x c) eqn:Ec.
  - rewrite Z.lxor_spec, Z.pow2_bits_eqb by lia.
    destruct (Z.eqb_spec i c) as [-> | ?].
    + destruct (Z.eqb_spec t c); [lia|]. rewrite Ec. reflexivity.
    + destruct (Z.eqb_spec i t) as [-> | ?].
      * rewrite Z.eqb_refl. reflexivity.
      * destruct (Z.eqb_spec t i); [lia|]. rewrite xorb_false_r. reflexivity.
  - rewrite xorb_false_r.
    destruct (Z.eqb_spec i c) as [-> | ?]; [exact Ec|].
    destruct (Z.eqb_spec i t) as [-> | ?]; reflexivity.
Qed.

Lemma cnot_source_range c t x n :
  0 <= x < 2 ^ n -> 0 <= c < n -> 0 <= t < n -> c <> t ->
  0 <= cnot_source c t x < 2 ^ n.
Proof.
  intros Hx Hc Ht Hct. rewrite cnot_source_setbits by lia.
  apply setbits_range; lia.
Qed.

Lemma cnot_source_involutive c t x :
  0 <= c -> 0 <= t -> c <> t ->
  cnot_source c t (cnot_source c t x) = x.
Proof.
  intros Hc Ht Hct. unfold cnot_source.
  destruct (Z.testbit x c) eqn:Ec.
  - rewrite Z.lxor_spec, Z.pow2_bits_false, Ec by lia. cbn [xorb].
    apply flip_flip.
  - rewrite Ec. reflexivity.
Qed.

Lemma small_land n x y : 0 <= n -> 0 <= x < 2 ^ n -> 0 <= Z.land x y < 2 ^ n.
Proof.
  intros Hn Hx.
  assert (H0 : 0 <= Z.land x y) by (apply Z.land_nonneg; lia).
  split; [exact H0|]. apply below_pow2_by_bits; [lia | exact H0 |].
  intros i Hi. rewrite Z.land_spec, (testbit_high x n i) by lia. reflexivity.
Qed.

Lemma small_lor n x y :
  0 <= n -> 0 <= x < 2 ^ n -> 0 <= y < 2 ^ n -> 0 <= Z.lor x y < 2 ^ n.
Proof.
  intros Hn Hx Hy.
  assert (H0 : 0 <= Z.lor x y) by (apply Z.lor_nonneg; lia).
  split; [exact H0|]. apply below_pow2_by_bits; [lia | exact H0 |].
  intros i Hi.
  rewrite Z.lor_spec, (testbit_high x n i), (testbit_high y n i) by lia. reflexivity.
Qed.

Lemma small_shl_b2z n (b : bool) c :
  0 <= c < n -> 0 <= Z.shiftl (Z.b2z b) c < 2 ^ n.
Proof.
  intros Hc. rewrite Z.shiftl_mul_pow2 by lia.
  pose proof (Z.pow_lt_mono_r 2 c n ltac:(lia) ltac:(lia) ltac:(lia)).
  pose proof (Z.pow_pos_nonneg 2 c ltac:(lia) ltac:(lia)).
  destruct b; cbn [Z.b2z]; lia.
Qed.

Lemma js_shl_b2z (b : bool) c :
  0 <= c < 31 -> js_shl (Z.b2z b) c = Z.shiftl (Z.b2z b) c.
Proof.
  intros Hc. unfold js_shl.
  rewrite (ToInt32_small (Z.b2z b)) by (destruct b; cbn; lia).
  rewrite Z.mod_small by lia.
  pose proof (small_shl_b2z 31 b c ltac:(lia)).
  apply ToInt32_small. lia.
Qed.

Lemma js_not_pow2 c : 0 <= c < 31 -> js_not (js_shl 1 c) = Z.lnot (2 ^ c).
Proof.
  intros Hc. rewrite js_shl_1 by lia. unfold js_not.
  pose proof (pow2_le_31 c Hc). rewrite ToInt32_small by lia. reflexivity.
Qed.

Lemma js_and_mask x c :
  0 <= x < 2 ^ 31 -> 0 <= c < 31 ->
  js_and x (Z.lnot (2 ^ c)) = Z.land x (Z.lnot (2 ^ c)).
Proof.
  intros Hx Hc. unfold js_and. pose proof (pow2_le_31 c Hc).
  rewrite (ToInt32_small x) by lia.
  rewrite (ToInt32_small (Z.lnot (2 ^ c))) by (unfold Z.lnot; lia).
  reflexivity.
Qed.

Lemma js_or_small x y :
  0 <= x < 2 ^ 31 -> 0 <= y < 2 ^ 31 -> js_or x y = Z.lor x y.
Proof. intros Hx Hy. unfold js_or. rewrite !ToInt32_small by lia. reflexivity. Qed.

Lemma two_newIndex_setbits i n c t j :
  0 <= n <= 31 -> 0 <= i < 2 ^ n -> 0 <= c < n -> 0 <= t < n -> 0 <= j < 4 ->
  StateVector.two_newIndex i c t j = setbits i c t (Z.testbit j 1) (Z.testbit j 0).
Proof.
  intros Hn Hi Hc Ht Hj.
  pose proof (pow2_index_bound n Hn) as Hp.
  unfold StateVector.two_newIndex. cbv zeta.
  replace (js_and (js_sar j 1) 1) with (Z.b2z (Z.testbit j 1))
    by (assert (Ej : j = 0 \/ j = 1 \/ j = 2 \/ j = 3) by lia;
        destruct Ej as [-> | [-> | [-> | ->]]]; reflexivity).
  replace (js_and j 1) with (Z.b2z (Z.testbit j 0))
    by (assert (Ej : j = 0 \/ j = 1 \/ j = 2 \/ j = 3) by lia;
        destruct Ej as [-> | [-> | [-> | ->]]]; reflexivity).
  rewrite !js_not_pow2, !js_shl_b2z by lia.
  pose proof (small_land n i (Z.lnot (2 ^ c)) ltac:(lia) Hi) as H1.
  pose proof (small_land n _ (Z.lnot (2 ^ t)) ltac:(lia) H1) as H2.
  pose proof (small_shl_b2z n (Z.testbit j 1) c Hc) as H3.
  pose proof (small_shl_b2z n (Z.testbit j 0) t Ht) as H4.
  pose proof (small_lor n _ _ ltac:(lia) H2 H3) as H5.
  rewrite (js_and_mask i c) by lia.
  rewrite js_and_mask by lia.
  rewrite (js_or_small (Z.land _ _)) by lia.
  rewrite js_or_small by lia.
  reflexivity.
Qed.

Lemma js_basisIndex (bc bt : bool) :
  js_or (js_shl (Z.b2z bc) 1) (Z.b2z bt) = idx2 bc bt.
Proof. destruct bc, bt; reflexivity. Qed.

(** ** Scatter-add passes *)

Lemma length_scatter ups l : length (scatter ups l) = length l.
Proof.
  unfold scatter. revert l. induction ups as [|u ups IH]; intros l; [reflexivity|].
  cbn [fold_left]. rewrite IH. apply length_arr_set.
Qed.

Lemma amp_scatter_miss ups l x :
  ~ In x (map fst ups) -> amp (scatter ups l) x = amp l x.
Proof.
  unfold scatter. revert l. induction ups as [|u ups IH]; intros l Hx; [reflexivity|].
  cbn [fold_left]. cbn [map In] in Hx.
  rewrite IH by tauto. apply amp_arr_set_ne. tauto.
Qed.

Lemma amp_scatter_hit ups l x v :
  List.NoDup (map fst ups) ->
  (forall u, In u ups -> 0 <= fst u < Z.of_nat (length l)) ->
  In (x, v) ups ->
  amp (scatter ups l) x = ComplexNumber.add (amp l x) v.
Proof.
  revert l. induction ups as [|u ups IH]; intros l Hnd Hr Hin; [destruct Hin|].
  cbn [map] in Hnd. apply NoDup_cons_iff in Hnd. destruct Hnd as [Hnotin Hnd].
  change (scatter (u :: ups) l)
    with (scatter ups (arr_set l (fst u) (ComplexNumber.add (amp l (fst u)) (snd u)))).
  destruct Hin as [-> | Hin].
  - cbn [fst snd] in *. rewrite amp_scatter_miss by exact Hnotin.
    apply amp_arr_set_eq. apply (Hr (x, v)). left. reflexivity.
  - rewrite (IH _ Hnd).
    + rewrite amp_arr_set_ne; [reflexivity|].
      intros E. apply Hnotin. rewrite E. apply (in_map fst _ _ Hin).
    + intros u' Hu'. rewrite length_arr_set. apply Hr. right. exact Hu'.
    + exact Hin.
Qed.

(** ** The kernel of [applyTwoQubitGate] *)

Lemma entry_mat_at gm r c :
  square gm 4 -> 0 <= r < 4 -> 0 <= c < 4 ->
  StateVector.entry gm r c = Ok (mat_at gm r c).
Proof.
  intros [Hlen Hrows] Hr Hc. unfold StateVector.entry, mat_at, mat_get, arr_get.
  destruct (Z.leb_spec 0 r); [|lia].
  destruct (lookup_lt_is_Some_2 gm (Z.to_nat r)) as [row Hrow]; [lia|].
  rewrite Hrow.
  pose proof (proj1 (Forall_lookup _ gm) Hrows _ _ Hrow) as Hl. cbn beta in Hl.
  destruct (Z.leb_spec 0 c); [|lia].
  destruct (lookup_lt_is_Some_2 row (Z.to_nat c)) as [e He]; [lia|].
  rewrite He. reflexivity.
Qed.

Lemma setbits_inj_bits m c t a b a' b' :
  0 <= m -> 0 <= c -> 0 <= t -> c <> t ->
  setbits m c t a b = setbits m c t a' b' -> a = a' /\ b = b'.
Proof.
  intros Hm Hc Ht Hct E. split.
  - apply (f_equal (fun z => Z.testbit z c)) in E.
    rewrite !setbits_spec, Z.eqb_refl in E by lia. exact E.
  - apply (f_equal (fun z => Z.testbit z t)) in E.
    rewrite !setbits_spec, Z.eqb_refl in E by lia.
    destruct (Z.eqb_spec t c); [lia | exact E].
Qed.

Section TwoQubitKernel.
Variables (sv : list Cx) (n c t : Z) (gm : matrix).
Hypothesis Hn : 0 <= n <= 31.
Hypothesis Hc : 0 <= c < n.
Hypothesis Ht : 0 <= t < n.
Hypothesis Hct : c <> t.
Hypothesis Hlen : Z.of_nat (length sv) = 2 ^ n.
Hypothesis Hgm : square gm 4.

Lemma two_inner_run (l : list Cx) (m j : Z) :
  length l = length sv -> 0 <= m < 2 ^ n -> 0 <= j < 4 ->
  StateVector.two_inner sv c t gm m (Ok l) j =
    Ok (arr_set l (setbits m c t (Z.testbit j 1) (Z.testbit j 0))
          (ComplexNumber.add (amp l (setbits m c t (Z.testbit j 1) (Z.testbit j 0)))
             (ComplexNumber.multiply (amp sv m)
                (mat_at gm j (idx2 (Z.testbit m c) (Z.testbit m t)))))).
Proof.
  intros Hl Hm Hj.
  pose proof (pow2_index_bound n Hn) as Hp.
  pose proof (setbits_range m n c t (Z.testbit j 1) (Z.testbit j 0) Hm Hc Ht Hct) as HT.
  unfold StateVector.two_inner. cbn [rbind]. cbv zeta.
  rewrite (two_newIndex_setbits m n) by lia.
  rewrite !js_bit, js_basisIndex by lia.
  rewrite (elt_amp l) by lia. cbn [rbind].
  rewrite (elt_amp sv) by lia. cbn [rbind].
  rewrite entry_mat_at; [reflexivity | exact Hgm | lia |].
  unfold idx2. destruct (Z.testbit m c), (Z.testbit m t); cbn; lia.
Qed.

Lemma two_step_run (l : list Cx) (m : Z) :
  length l = length sv -> 0 <= m < 2 ^ n ->
  StateVector.two_step sv c t gm (Ok l) m =
    Ok (scatter (two_updates sv c t (mat_at gm) m) l).
Proof.
  intros Hl Hm. unfold StateVector.two_step.
  change (upto 4) with [0; 1; 2; 3]. cbn [fold_left].
  rewrite two_inner_run by (assumption || lia).
  rewrite two_inner_run by (rewrite ?length_arr_set; assumption || lia).
  rewrite two_inner_run by (rewrite ?length_arr_set; assumption || lia).
  rewrite two_inner_run by (rewrite ?length_arr_set; assumption || lia).
  reflexivity.
Qed.

Lemma two_updates_NoDup (m : Z) :
  0 <= m -> List.NoDup (map fst (two_updates sv c t (mat_at gm) m)).
Proof.
  intros Hm. unfold two_updates. cbn [map fst].
  change (Z.testbit 0 1) with false. change (Z.testbit 0 0) with false.
  change (Z.testbit 1 1) with false. change (Z.testbit 1 0) with true.
  change (Z.testbit 2 1) with true. change (Z.testbit 2 0) with false.
  change (Z.testbit 3 1) with true. change (Z.testbit 3 0) with true.
  repeat constructor; cbn [In]; intros H;
    repeat match goal with
           | H : _ \/ _ |- _ => destruct H as [H | H]
           | H : False |- _ => destruct H
           | H : setbits _ _ _ _ _ = setbits _ _ _ _ _ |- _ =>
               apply setbits_inj_bits in H; [destruct H; discriminate | lia ..]
           end.
Qed.

Lemma two_updates_range (l : list Cx) (m : Z) :
  length l = length sv -> 0 <= m < 2 ^ n ->
  forall u, In u (two_updates sv c t (mat_at gm) m) ->
            0 <= fst u < Z.of_nat (length l).
Proof.
  intros Hl Hm u Hu. unfold two_updates in Hu. apply in_map_iff in Hu.
  destruct Hu as (j & <- & _). cbn [fst]. rewrite Hl, Hlen.
  apply setbits_range; assumption.
Qed.

Lemma two_updates_hit (m x : Z) :
  0 <= m -> 0 <= x -> agree c t x m = true ->
  In (x, ComplexNumber.multiply (amp sv m)
           (mat_at gm (idx2 (Z.testbit x c) (Z.testbit x t))
                      (idx2 (Z.testbit m c) (Z.testbit m t))))
     (two_updates sv c t (mat_at gm) m).
Proof.
  intros Hm Hx Hag.
  assert (E : setbits m c t (Z.testbit x c) (Z.testbit x t) = x).
  { apply setbits_eq_iff; try lia. rewrite agree_sym. auto. }
  unfold two_updates. cbn [map In].
  destruct (Z.testbit x c), (Z.testbit x t); rewrite <- E;
    repeat (first [left; reflexivity | right]).
Qed.

Lemma two_updates_miss (m x : Z) :
  0 <= m -> 0 <= x -> agree c t x m = false ->
  ~ In x (map fst (two_updates sv c t (mat_at gm) m)).
Proof.
  intros Hm Hx Hag Hin. unfold two_updates in Hin. rewrite map_map in Hin.
  apply in_map_iff in Hin. destruct Hin as (j & E & _). cbn [fst] in E.
  apply setbits_eq_iff in E; try lia. destruct E as (E & _).
  rewrite agree_sym in E. congruence.
Qed.

Lemma two_term_at (M : Z -> Z -> Cx) (m x : Z) (bc bt : bool) :
  setbits x c t bc bt = m ->
  two_term sv c t M m x bc bt = czero /\
  two_term sv c t M (m + 1) x bc bt =
    ComplexNumber.multiply (amp sv m) (M (idx2 (Z.testbit x c) (Z.testbit x t)) (idx2 bc bt)).
Proof.
  intros E. unfold two_term. cbv zeta. rewrite E.
  destruct (Z.ltb_spec m m); [lia|]. destruct (Z.ltb_spec m (m + 1)); [|lia].
  split; reflexivity.
Qed.

Lemma two_term_other (M : Z -> Z -> Cx) (m x : Z) (bc bt : bool) :
  setbits x c t bc bt <> m ->
  two_term sv c t M (m + 1) x bc bt = two_term sv c t M m x bc bt.
Proof.
  intros E. unfold two_term. cbv zeta.
  destruct (Z.ltb_spec (setbits x c t bc bt) m);
    destruct (Z.ltb_spec (setbits x c t bc bt) (m + 1)); try lia; reflexivity.
Qed.

Lemma cadd_swap (a b d : Cx) :
  ComplexNumber.add (ComplexNumber.add a b) d = ComplexNumber.add (ComplexNumber.add a d) b.
Proof. rewrite <- !cadd_assoc. f_equal. apply cadd_comm. Qed.

Lemma two_partial_succ (M : Z -> Z -> Cx) (m x : Z) :
  0 <= m -> 0 <= x ->
  two_partial sv c t M (m + 1) x =
    if agree c t x m
    then ComplexNumber.add (two_partial sv c t M m x)
           (ComplexNumber.multiply (amp sv m)
              (M (idx2 (Z.testbit x c) (Z.testbit x t))
                 (idx2 (Z.testbit m c) (Z.testbit m t))))
    else two_partial sv c t M m x.
Proof.
  intros Hm Hx. unfold two_partial.
  destruct (agree c t x m) eqn:Hag.
  - assert (Hyes : setbits x c t (Z.testbit m c) (Z.testbit m t) = m)
      by (apply setbits_eq_iff; try lia; auto).
    assert (Hno : forall bc bt, (bc, bt) <> (Z.testbit m c, Z.testbit m t) ->
                                setbits x c t bc bt <> m).
    { intros bc bt Hne E. apply setbits_eq_iff in E; try lia.
      destruct E as (_ & E1 & E2). apply Hne. congruence. }
    destruct (two_term_at M m x _ _ Hyes) as [Hz Hv].
    destruct (Z.testbit m c), (Z.testbit m t);
      rewrite Hv;
      repeat match goal with
             | |- context [two_term sv c t M (m + 1) x ?a ?b] =>
                 rewrite (two_term_other M m x a b) by (apply Hno; congruence)
             end;
      rewrite Hz.
    + rewrite cadd_0_r. reflexivity.
    + rewrite cadd_0_r. apply cadd_swap.
    + rewrite cadd_0_r.
      set (A := two_term sv c t M m x false false).
      set (C := two_term sv c t M m x true false).
      set (D := two_term sv c t M m x true true).
      set (v := ComplexNumber.multiply _ _).
      rewrite (cadd_swap (ComplexNumber.add A C) D v), (cadd_swap A C v).
      reflexivity.
    + rewrite cadd_0_l.
      set (B := two_term sv c t M m x false true).
      set (C := two_term sv c t M m x true false).
      set (D := two_term sv c t M m x true true).
      set (v := ComplexNumber.multiply _ _).
      rewrite (cadd_swap (ComplexNumber.add B C) D v), (cadd_swap B C v).
      rewrite (cadd_comm B v). reflexivity.
  - assert (Hno : forall bc bt, setbits x c t bc bt <> m).
    { intros bc bt E. apply setbits_eq_iff in E; try lia.
      destruct E as (E & _). congruence. }
    rewrite !two_term_other by apply Hno. reflexivity.
Qed.

Lemma two_kernel_prefix (m : nat) :
  (m <= length sv)%nat ->
  exists l,
    fold_left (StateVector.two_step sv c t gm) (upto m)
              (Ok (repeat czero (length sv))) = Ok l /\
    length l = length sv /\
    forall x, 0 <= x < 2 ^ n ->
      amp l x = two_partial sv c t (mat_at gm) (Z.of_nat m) x.
Proof.
  induction m as [|m IH]; intros Hm.
  - eexists. split; [reflexivity|]. split; [apply repeat_length|].
    intros x Hx. rewrite amp_repeat_zero. unfold two_partial, two_term. cbv zeta.
    assert (Hs : forall bc bt, (setbits x c t bc bt <? Z.of_nat 0) = false).
    { intros bc bt. pose proof (setbits_nonneg x c t bc bt ltac:(lia)).
      apply Z.ltb_ge. lia. }
    rewrite !Hs, !cadd_0_l. reflexivity.
  - destruct IH as (l & Hfold & Hl & Hamp); [lia|].
    rewrite upto_S, fold_left_app, Hfold. cbn [fold_left].
    rewrite two_step_run by (assumption || lia).
    eexists. split; [reflexivity|]. split; [rewrite length_scatter; exact Hl|].
    intros x Hx. rewrite Nat2Z.inj_succ, <- Z.add_1_r.
    rewrite two_partial_succ by lia.
    destruct (agree c t x (Z.of_nat m)) eqn:Hag.
    + rewrite (amp_scatter_hit _ _ x _ (two_updates_NoDup (Z.of_nat m) ltac:(lia))
                 (two_updates_range l (Z.of_nat m) Hl ltac:(lia))
                 (two_updates_hit (Z.of_nat m) x ltac:(lia) ltac:(lia) Hag)).
      rewrite Hamp by lia. reflexivity.
    + rewrite amp_scatter_miss by (apply two_updates_miss; (lia || assumption)).
      apply Hamp. lia.
Qed.

Lemma two_kernel_amp :
  exists l,
    StateVector.two_kernel sv c t gm = Ok l /\
    length l = length sv /\
    forall x, 0 <= x < 2 ^ n ->
      amp l x = two_partial sv c t (mat_at gm) (2 ^ n) x.
Proof.
  destruct (two_kernel_prefix (length sv) ltac:(lia)) as (l & Hfold & Hl & Hamp).
  exists l. split; [exact Hfold|]. split; [exact Hl|].
  intros x Hx. rewrite Hamp by exact Hx. rewrite Hlen. reflexivity.
Qed.

End TwoQubitKernel.

(** ** The CNOT matrix in the generic kernel *)

Lemma CNOT_entries (a b a' b' : bool) :
  mat_at GATES.CNOT (idx2 a b) (idx2 a' b') =
    if eqb a a' && eqb (xorb b a) b' then cx 1 0 else cx 0 0.
Proof. destruct a, b, a', b'; reflexivity. Qed.

Lemma CNOT_square : square GATES.CNOT 4.
Proof. split; [reflexivity|]. repeat constructor. Qed.

Lemma cmul_1_r (a : Cx) : finite_cx a -> ComplexNumber.multiply a (cx 1 0) = a.
Proof. intros (x & y & ->). unfold ComplexNumber.multiply, cx. cbn. num_eq. Qed.

Lemma cmul_0_r (a : Cx) : finite_cx a -> ComplexNumber.multiply a (cx 0 0) = czero.
Proof. intros (x & y & ->). unfold ComplexNumber.multiply, czero, cx. cbn. num_eq. Qed.

Lemma finite_czero : finite_cx czero.
Proof. exists 0%R, 0%R. reflexivity. Qed.

Lemma amp_finite (sv : list Cx) (i : Z) : finite_vector sv -> finite_cx (amp sv i).
Proof.
  intros Hf. unfold amp, arr_get.
  destruct (0 <=? i); [|apply finite_czero].
  destruct (sv !! Z.to_nat i) eqn:E; [|apply finite_czero].
  cbn [default]. exact (proj1 (Forall_lookup _ sv) Hf _ _ E).
Qed.

Lemma two_partial_CNOT (sv : list Cx) (n c t x : Z) :
  finite_vector sv ->
  0 <= x < 2 ^ n -> 0 <= c < n -> 0 <= t < n -> c <> t ->
  two_partial sv c t (mat_at GATES.CNOT) (2 ^ n) x = amp sv (cnot_source c t x).
Proof.
  intros Hf Hx Hc Ht Hct.
  rewrite cnot_source_setbits by lia.
  unfold two_partial, two_term. cbv zeta.
  assert (Hs : forall bc bt, (setbits x c t bc bt <? 2 ^ n) = true).
  { intros bc bt. apply Z.ltb_lt. apply setbits_range; assumption. }
  rewrite !Hs, !CNOT_entries.
  destruct (Z.testbit x c), (Z.testbit x t); cbn [eqb xorb andb];
    rewrite ?cmul_1_r, ?cmul_0_r by (apply amp_finite; exact Hf);
    rewrite ?cadd_0_l, ?cadd_0_r; reflexivity.
Qed.

(** ** The kernel of [applyCNOT] *)

Lemma sv_lookup_amp (sv : list Cx) (j : nat) :
  (j < length sv)%nat -> sv !! j = Some (amp sv (Z.of_nat j)).
Proof.
  intros Hj. pose proof (arr_get_amp sv (Z.of_nat j) ltac:(lia)) as E.
  unfold arr_get in E. destruct (Z.leb_spec 0 (Z.of_nat j)); [|lia].
  rewrite Nat2Z.id in E. exact E.
Qed.

Lemma indexed_upto (sv : list Cx) :
  StateVector.indexed sv = map (fun i => (i, amp sv i)) (upto (length sv)).
Proof.
  unfold StateVector.indexed, upto. apply list_eq. intros j.
  rewrite lookup_zip_with, !list_lookup_fmap.
  destruct (Nat.lt_ge_cases j (length sv)) as [Hlt | Hge].
  - rewrite lookup_seq_lt by lia. rewrite sv_lookup_amp by lia. reflexivity.
  - rewrite lookup_seq_ge by lia. reflexivity.
Qed.

Lemma fold_left_over_map {A B C : Type} (f : A -> B -> A) (g : C -> B) (l : list C) (a : A) :
  fold_left f (map g l) a = fold_left (fun acc x => f acc (g x)) l a.
Proof. revert a. induction l as [|x l IH]; intros a; [reflexivity | apply IH]. Qed.

Lemma in_upto (N : nat) (x : Z) : In x (upto N) <-> 0 <= x < Z.of_nat N.
Proof.
  unfold upto. rewrite in_map_iff. split.
  - intros (j & <- & Hj). apply in_seq in Hj. lia.
  - intros Hx. exists (Z.to_nat x). split; [lia|]. apply in_seq. lia.
Qed.

Lemma sv_as_map (sv : list Cx) : sv = map (amp sv) (upto (length sv)).
Proof.
  apply list_eq_amp.
  - unfold upto. rewrite !length_map, length_seq. reflexivity.
  - intros i Hi. unfold amp at 2, arr_get, upto.
    destruct (Z.leb_spec 0 i); [|lia].
    rewrite !list_lookup_fmap, lookup_seq_lt by lia.
    cbn. rewrite Z2Nat.id by lia. reflexivity.
Qed.

Section CnotKernel.
Variables (sv : list Cx) (n c t : Z).
Hypothesis Hn : 0 <= n <= 31.
Hypothesis Hc : 0 <= c < n.
Hypothesis Ht : 0 <= t < n.
Hypothesis Hct : c <> t.
Hypothesis Hlen : Z.of_nat (length sv) = 2 ^ n.

Lemma cnot_step_store (l : list Cx) (i : Z) (a : Cx) :
  0 <= i < 2 ^ n ->
  StateVector.cnot_step c t l (i, a) = arr_set l (cnot_source c t i) a.
Proof.
  intros Hi. pose proof (pow2_index_bound n Hn) as Hp.
  unfold StateVector.cnot_step, cnot_source.
  rewrite js_bit, js_flip by lia.
  destruct (Z.testbit i c); reflexivity.
Qed.

Lemma cnot_kernel_prefix (m : nat) :
  (m <= length sv)%nat ->
  let l := fold_left (fun acc i => StateVector.cnot_step c t acc (i, amp sv i))
                     (upto m) (repeat czero (length sv)) in
  length l = length sv /\
  forall x, 0 <= x < 2 ^ n ->
    amp l x = if cnot_source c t x <? Z.of_nat m
              then amp sv (cnot_source c t x) else czero.
Proof.
  induction m as [|m IH]; intros Hm; cbv zeta.
  - split; [apply repeat_length|]. intros x Hx. cbn [upto seq map fold_left].
    rewrite amp_repeat_zero.
    pose proof (cnot_source_range c t x n Hx Hc Ht Hct).
    destruct (Z.ltb_spec (cnot_source c t x) (Z.of_nat 0)); [lia | reflexivity].
  - destruct IH as (Hl & Hamp); [lia|].
    rewrite upto_S, fold_left_app. cbn [fold_left].
    set (l := fold_left _ (upto m) _) in *.
    rewrite cnot_step_store by lia.
    split; [rewrite length_arr_set; exact Hl|].
    intros x Hx.
    pose proof (cnot_source_range c t x n Hx Hc Ht Hct) as Hsx.
    pose proof (cnot_source_range c t (Z.of_nat m) n ltac:(lia) Hc Ht Hct) as Hsm.
    destruct (Z.eq_dec x (cnot_source c t (Z.of_nat m))) as [-> | Hne].
    + rewrite amp_arr_set_eq by lia.
      rewrite cnot_source_involutive by lia.
      destruct (Z.ltb_spec (Z.of_nat m) (Z.of_nat (S m))); [reflexivity | lia].
    + rewrite amp_arr_set_ne by congruence. rewrite Hamp by lia.
      assert (Hsrc : cnot_source c t x <> Z.of_nat m).
      { intros E. apply Hne. rewrite <- E. symmetry.
        apply cnot_source_involutive; lia. }
      destruct (Z.ltb_spec (cnot_source c t x) (Z.of_nat m));
        destruct (Z.ltb_spec (cnot_source c t x) (Z.of_nat (S m))); try lia; reflexivity.
Qed.

Lemma amp_cnot_transform (x : Z) :
  0 <= x < 2 ^ n -> amp (cnot_transform sv c t) x = amp sv (cnot_source c t x).
Proof.
  intros Hx. unfold amp at 1, arr_get, cnot_transform, upto.
  destruct (Z.leb_spec 0 x); [|lia].
  rewrite !list_lookup_fmap, lookup_seq_lt by lia.
  cbn. rewrite Z2Nat.id by lia. reflexivity.
Qed.

Lemma cnot_transform_length : length (cnot_transform sv c t) = length sv.
Proof. unfold cnot_transform, upto. rewrite !length_map, length_seq. reflexivity. Qed.

Lemma cnot_kernel_transform :
  StateVector.cnot_kernel sv c t = cnot_transform sv c t.
Proof.
  unfold StateVector.cnot_kernel. rewrite indexed_upto, fold_left_over_map.
  destruct (cnot_kernel_prefix (length sv) ltac:(lia)) as (Hl & Hamp).
  cbv zeta in Hl, Hamp.
  apply list_eq_amp.
  - rewrite Hl, cnot_transform_length. reflexivity.
  - intros i Hi. rewrite Hl in Hi. rewrite Hamp, amp_cnot_transform by lia.
    pose proof (cnot_source_range c t i n ltac:(lia) Hc Ht Hct).
    destruct (Z.ltb_spec (cnot_source c t i) (Z.of_nat (length sv))); [reflexivity | lia].
Qed.

Lemma two_kernel_CNOT :
  finite_vector sv ->
  StateVector.two_kernel sv c t GATES.CNOT = Ok (cnot_transform sv c t).
Proof.
  intros Hf.
  destruct (two_kernel_amp sv n c t GATES.CNOT Hn Hc Ht Hct Hlen CNOT_square)
    as (l & Hrun & Hl & Hamp).
  rewrite Hrun. f_equal. apply list_eq_amp.
  - rewrite Hl, cnot_transform_length. reflexivity.
  - intros i Hi. rewrite Hamp, amp_cnot_transform by lia.
    apply two_partial_CNOT; (assumption || lia).
Qed.

End CnotKernel.

(** ** The norm is invariant under CNOT *)

Lemma normSquared_perm_acc (l l' : list Cx) :
  Permutation l l' ->
  forall acc,
    fold_left (fun acc a => nadd acc (ComplexNumber.magnitudeSquared a)) l acc =
    fold_left (fun acc a => nadd acc (ComplexNumber.magnitudeSquared a)) l' acc.
Proof.
  induction 1 as [| a l l' _ IH | a b l | l l' l'' _ IH1 _ IH2]; intros acc; cbn [fold_left].
  - reflexivity.
  - apply IH.
  - f_equal. rewrite <- !nadd_assoc. f_equal. apply nadd_comm.
  - rewrite IH1. apply IH2.
Qed.

Lemma normSquared_perm (l l' : list Cx) :
  Permutation l l' -> StateVector.normSquared l = StateVector.normSquared l'.
Proof. intros H. apply normSquared_perm_acc. exact H. Qed.

Lemma NoDup_map_injective {A B : Type} (f : A -> B) (l : list A) :
  (forall a b, f a = f b -> a = b) -> List.NoDup l -> List.NoDup (map f l).
Proof.
  intros Hinj Hnd. induction Hnd as [|a l Hnotin _ IH]; cbn [map]; constructor.
  - intros Hin. apply in_map_iff in Hin. destruct Hin as (b & E & Hb).
    apply Hinj in E. subst b. contradiction.
  - exact IH.
Qed.

Lemma NoDup_upto (N : nat) : List.NoDup (upto N).
Proof.
  unfold upto. apply NoDup_map_injective.
  - intros a b. apply Nat2Z.inj.
  - apply seq_NoDup.
Qed.

Lemma cnot_transform_perm (sv : list Cx) (n c t : Z) :
  0 <= c < n -> 0 <= t < n -> c <> t -> Z.of_nat (length sv) = 2 ^ n ->
  Permutation (cnot_transform sv c t) sv.
Proof.
  intros Hc Ht Hct Hlen.
  assert (E : Permutation (map (amp sv) (map (cnot_source c t) (upto (length sv))))
                          (map (amp sv) (upto (length sv)))).
  2: { rewrite <- sv_as_map, map_map in E. exact E. }
  apply Permutation_map. apply Permutation.NoDup_Permutation.
  - apply NoDup_map_injective; [|apply NoDup_upto].
    intros a b E. apply (f_equal (cnot_source c t)) in E.
    rewrite !cnot_source_involutive in E by lia. exact E.
  - apply NoDup_upto.
  - intros x. rewrite in_map_iff. setoid_rewrite in_upto. rewrite Hlen. split.
    + intros (y & <- & Hy). apply cnot_source_range; assumption.
    + intros Hx. exists (cnot_source c t x). split.
      * apply cnot_source_involutive; lia.
      * apply cnot_source_range; assumption.
Qed.

(** A vector whose squared magnitudes sum to [s] with [|s - 1| <= eps] is
    one that [normalize] leaves alone. *)
Lemma normalised_within_precision (eps s : R) (v : list Cx) :
  StateVector.normSquared v = Num s -> (Rabs (s - 1) <= eps)%R ->
  within_precision (Num eps) v.
Proof.
  intros Hs Habs. unfold within_precision. rewrite Hs. unfold Math_sqrt.
  destruct (Rle_dec 0 s) as [Hpos | _]; [|reflexivity].
  cbn. destruct (Rlt_dec eps (Rabs (sqrt s - 1))) as [Hlt | _]; [|reflexivity].
  exfalso.
  pose proof (sqrt_pos s) as Hr. pose proof (sqrt_sqrt s Hpos) as Hrr.
  set (r := sqrt s) in *.
  assert (E : (s - 1 = (r - 1) * (r + 1))%R) by (rewrite <- Hrr; ring).
  rewrite E, Rabs_mult in Habs.
  rewrite (Rabs_pos_eq (r + 1)) in Habs by lra.
  pose proof (Rabs_pos (r - 1)). nra.
Qed.

(** ** C4: the CNOT fast path and the generic 4x4 kernel *)

Lemma applyCNOT_run (this : StateVector.t) (n c t : Z) :
  0 <= n <= 31 ->
  StateVector.qubitCount this = n ->
  Z.of_nat (length (StateVector.stateVector this)) = 2 ^ n ->
  0 <= c < n -> 0 <= t < n -> c <> t ->
  StateVector.applyCNOT c t this =
    (Ok tt, after_gate this (cnot_transform (StateVector.stateVector this) c t)).
Proof.
  intros Hn Hq Hlen Hc Ht Hct.
  unfold StateVector.applyCNOT, bind.
  rewrite !validateQubitIndex_ok by lia.
  cbv beta iota delta [StateVector.invalidateProbabilityCache modify].
  destruct (Z.eqb_spec c t); [lia|].
  cbn [StateVector.stateVector StateVector.set_probabilityCache].
  rewrite (cnot_kernel_transform _ n) by assumption.
  reflexivity.
Qed.

Lemma applyTwoQubitGate_CNOT_run (this : StateVector.t) (n c t : Z) :
  0 <= n <= 31 ->
  StateVector.qubitCount this = n ->
  Z.of_nat (length (StateVector.stateVector this)) = 2 ^ n ->
  0 <= c < n -> 0 <= t < n -> c <> t ->
  finite_vector (StateVector.stateVector this) ->
  within_precision (StateVector.precision (StateVector.options this))
                   (StateVector.stateVector this) ->
  StateVector.applyTwoQubitGate c t GATES.CNOT this =
    (Ok tt, after_gate this (cnot_transform (StateVector.stateVector this) c t)).
Proof.
  intros Hn Hq Hlen Hc Ht Hct Hfin Hnorm.
  unfold StateVector.applyTwoQubitGate, bind.
  rewrite !validateQubitIndex_ok by lia.
  change (StateVector.validateGateMatrix GATES.CNOT 4 this) with (@Ok unit tt, this).
  cbv beta iota delta [StateVector.invalidateProbabilityCache modify get lift_res].
  destruct (Z.eqb_spec c t); [lia|].
  cbn [StateVector.stateVector StateVector.set_probabilityCache].
  rewrite (two_kernel_CNOT _ n) by assumption.
  rewrite normalize_within; [reflexivity|].
  cbn [StateVector.stateVector StateVector.set_stateVector StateVector.options
       StateVector.set_probabilityCache].
  unfold within_precision in *.
  rewrite (normSquared_perm _ _ (cnot_transform_perm _ n c t Hc Ht Hct Hlen)).
  exact Hnorm.
Qed.



(** ** [measureQubit] *)

Lemma indexed_range (sv : list Cx) (ia : Z * Cx) :
  In ia (StateVector.indexed sv) -> 0 <= fst ia < Z.of_nat (length sv).
Proof.
  rewrite indexed_upto, in_map_iff. intros (i & <- & Hi).
  apply in_upto in Hi. exact Hi.
Qed.

Lemma measure_probs_acc (L : list (Z * Cx)) (k : Z) (p0 p1 : number) :
  0 <= k < 31 ->
  (forall ia, In ia L -> 0 <= fst ia < 2 ^ 31) ->
  fold_left
    (fun (p : number * number) (ia : Z * Cx) =>
       let (i, a) := ia in
       let bitValue := js_and (js_sar i k) 1 in
       let prob := ComplexNumber.magnitudeSquared a in
       if bitValue =? 0 then (nadd (fst p) prob, snd p)
       else (fst p, nadd (snd p) prob)) L (p0, p1) =
  (fold_left (fun (acc : number) (ia : Z * Cx) =>
                if eqb (Z.testbit (fst ia) k) false
                then nadd acc (ComplexNumber.magnitudeSquared (snd ia)) else acc) L p0,
   fold_left (fun (acc : number) (ia : Z * Cx) =>
                if eqb (Z.testbit (fst ia) k) true
                then nadd acc (ComplexNumber.magnitudeSquared (snd ia)) else acc) L p1).
Proof.
  intros Hk. revert p0 p1. induction L as [|[i a] L IH]; intros p0 p1 HL; [reflexivity|].
  cbn [fold_left fst snd].
  rewrite js_bit by (try lia; apply (HL (i, a)); left; reflexivity).
  destruct (Z.testbit i k); cbn [Z.b2z Z.eqb eqb];
    apply IH; intros ia Hia; apply HL; right; exact Hia.
Qed.

Section Measure.
Variables (sv : list Cx) (n k : Z).
Hypothesis Hn : 0 <= n <= 31.
Hypothesis Hk : 0 <= k < n.
Hypothesis Hlen : Z.of_nat (length sv) = 2 ^ n.

Lemma measure_probs_marginal :
  StateVector.measure_probs sv k = (marginal sv k false, marginal sv k true).
Proof.
  unfold StateVector.measure_probs, marginal.
  apply measure_probs_acc; [lia|].
  intros ia Hia. apply indexed_range in Hia.
  pose proof (pow2_index_bound n Hn). lia.
Qed.

Lemma measure_project_prefix (outcome : Z) (m : nat) :
  (m <= length sv)%nat ->
  let st := fold_left
              (fun (st : list Cx * number) (i : Z) =>
                 if js_and (js_sar i k) 1 =? outcome
                 then (arr_set (fst st) i (amp sv i),
                       nadd (snd st) (ComplexNumber.magnitudeSquared (amp sv i)))
                 else st)
              (upto m) (repeat czero (length sv), Num 0) in
  length (fst st) = length sv /\
  forall x, 0 <= x < 2 ^ n ->
    amp (fst st) x =
      if (x <? Z.of_nat m) && (Z.b2z (Z.testbit x k) =? outcome)
      then amp sv x else czero.
Proof.
  pose proof (pow2_index_bound n Hn) as Hp.
  induction m as [|m IH]; intros Hm; cbv zeta.
  - split; [apply repeat_length|]. intros x Hx. cbn [upto seq map fold_left fst].
    rewrite amp_repeat_zero.
    destruct (Z.ltb_spec x (Z.of_nat 0)); [lia | reflexivity].
  - destruct IH as (Hl & Hamp); [lia|].
    rewrite upto_S, fold_left_app. cbn [fold_left].
    set (st := fold_left _ (upto m) _) in *.
    rewrite js_bit by lia.
    destruct (Z.eqb_spec (Z.b2z (Z.testbit (Z.of_nat m) k)) outcome) as [Eo | Eo];
      cbn [fst snd].
    + split; [rewrite length_arr_set; exact Hl|].
      intros x Hx. destruct (Z.eq_dec x (Z.of_nat m)) as [-> | Hne].
      * rewrite amp_arr_set_eq by lia.
        destruct (Z.ltb_spec (Z.of_nat m) (Z.of_nat (S m))); [|lia].
        destruct (Z.eqb_spec (Z.b2z (Z.testbit (Z.of_nat m) k)) outcome); [|lia].
        reflexivity.
      * rewrite amp_arr_set_ne by congruence. rewrite Hamp by lia.
        destruct (Z.ltb_spec x (Z.of_nat m));
          destruct (Z.ltb_spec x (Z.of_nat (S m))); try lia; reflexivity.
    + split; [exact Hl|].
      intros x Hx. rewrite Hamp by lia.
      destruct (Z.eq_dec x (Z.of_nat m)) as [-> | Hne].
      * destruct (Z.ltb_spec (Z.of_nat m) (Z.of_nat m)); [lia|].
        destruct (Z.eqb_spec (Z.b2z (Z.testbit (Z.of_nat m) k)) outcome); [lia|].
        rewrite !andb_false_r. reflexivity.
      * destruct (Z.ltb_spec x (Z.of_nat m));
          destruct (Z.ltb_spec x (Z.of_nat (S m))); try lia; reflexivity.
Qed.

Lemma measure_project_fold (outcome : Z) :
  StateVector.measure_project sv k outcome =
    fold_left
      (fun (st : list Cx * number) (i : Z) =>
         if js_and (js_sar i k) 1 =? outcome
         then (arr_set (fst st) i (amp sv i),
               nadd (snd st) (ComplexNumber.magnitudeSquared (amp sv i)))
         else st)
      (upto (length sv)) (repeat czero (length sv), Num 0).
Proof.
  unfold StateVector.measure_project. rewrite indexed_upto, fold_left_over_map.
  reflexivity.
Qed.

Lemma amp_measure_project (outcome x : Z) :
  0 <= x < 2 ^ n ->
  amp (fst (StateVector.measure_project sv k outcome)) x =
    if Z.b2z (Z.testbit x k) =? outcome then amp sv x else czero.
Proof.
  intros Hx. rewrite measure_project_fold.
  destruct (measure_project_prefix outcome (length sv) ltac:(lia)) as (_ & Hamp).
  cbv zeta in Hamp. rewrite Hamp by exact Hx.
  destruct (Z.ltb_spec x (Z.of_nat (length sv))); [reflexivity | lia].
Qed.

Lemma length_measure_project (outcome : Z) :
  length (fst (StateVector.measure_project sv k outcome)) = length sv.
Proof.
  rewrite measure_project_fold.
  destruct (measure_project_prefix outcome (length sv) ltac:(lia)) as (Hl & _).
  exact Hl.
Qed.

End Measure.

Lemma measure_renorm_run (v : list Cx) (normFactor : number) :
  StateVector.measure_renorm v normFactor =
    Ok (map (fun a => if ComplexNumber.isZero a then a else cnan) v).
Proof.
  induction v as [|a v IH]; [reflexivity|].
  cbn [StateVector.measure_renorm map]. rewrite IH.
  destruct (ComplexNumber.isZero a); cbn [rbind]; [reflexivity|].
  rewrite divide_by_primitive. reflexivity.
Qed.

Lemma isZero_czero : ComplexNumber.isZero czero = true.
Proof.
  unfold ComplexNumber.isZero, czero, cx. cbn.
  rewrite Rabs_R0. pose proof eps10_pos.
  destruct (Rlt_dec 0 eps10); [reflexivity | contradiction].
Qed.

Lemma collapsed_length sv k outcome : length (collapsed sv k outcome) = length sv.
Proof. unfold collapsed, upto. rewrite !length_map, length_seq. reflexivity. Qed.

Lemma amp_collapsed sv k outcome x :
  0 <= x < Z.of_nat (length sv) ->
  amp (collapsed sv k outcome) x =
    if Z.b2z (Z.testbit x k) =? outcome
    then (if ComplexNumber.isZero (amp sv x) then amp sv x else cnan)
    else czero.
Proof.
  intros Hx. unfold amp at 1, arr_get, collapsed, upto.
  destruct (Z.leb_spec 0 x); [|lia].
  rewrite !list_lookup_fmap, lookup_seq_lt by lia.
  cbn. rewrite Z2Nat.id by lia. reflexivity.
Qed.

Lemma amp_map (f : Cx -> Cx) (v : list Cx) (x : Z) :
  0 <= x < Z.of_nat (length v) -> amp (map f v) x = f (amp v x).
Proof.
  intros Hx. unfold amp, arr_get. destruct (Z.leb_spec 0 x); [|lia].
  rewrite list_lookup_fmap.
  destruct (lookup_lt_is_Some_2 v (Z.to_nat x)) as [a Ha]; [lia|].
  rewrite Ha. reflexivity.
Qed.

Lemma measureQubit_run (this : StateVector.t) (n k : Z) (u : R) :
  0 <= n <= 31 ->
  StateVector.qubitCount this = n ->
  Z.of_nat (length (StateVector.stateVector this)) = 2 ^ n ->
  0 <= k < n ->
  let outcome :=
    if nlt (Num u) (marginal (StateVector.stateVector this) k false) then 0 else 1 in
  StateVector.measureQubit u k this =
    (Ok outcome, after_measure this (collapsed (StateVector.stateVector this) k outcome)).
Proof.
  intros Hn Hq Hlen Hk outcome.
  unfold StateVector.measureQubit, bind.
  rewrite validateQubitIndex_ok by lia.
  cbv beta iota delta [StateVector.invalidateProbabilityCache modify get lift_res].
  cbn [StateVector.stateVector StateVector.set_probabilityCache].
  rewrite (measure_probs_marginal _ n) by assumption.
  fold outcome.
  destruct (StateVector.measure_project (StateVector.stateVector this) k outcome)
    as [projected normFactor] eqn:Eproj.
  rewrite measure_renorm_run.
  assert (Ev : map (fun a => if ComplexNumber.isZero a then a else cnan) projected =
               collapsed (StateVector.stateVector this) k outcome).
  { assert (Ep : projected = fst (StateVector.measure_project
                                     (StateVector.stateVector this) k outcome))
      by (rewrite Eproj; reflexivity).
    apply list_eq_amp.
    - rewrite length_map, collapsed_length, Ep.
      apply (length_measure_project _ n); assumption.
    - intros i Hi. rewrite length_map in Hi.
      rewrite amp_map by exact Hi.
      assert (Hi' : 0 <= i < 2 ^ n).
      { rewrite Ep, (length_measure_project _ n) in Hi by assumption. lia. }
      rewrite amp_collapsed by lia.
      rewrite Ep, (amp_measure_project _ n) by assumption.
      destruct (Z.b2z (Z.testbit i k) =? outcome); [reflexivity|].
      rewrite isZero_czero. reflexivity. }
  rewrite Ev. reflexivity.
Qed.

Ltac rcompute :=
  cbv -[Rplus Rmult Rminus Rdiv Rinv Ropp IZR tiny eps10
        Rlt_dec Rle_dec Req_dec_T Rabs sqrt].

(** ** C3: collapsing measurement *)

(** C3 fails on the code.  For a state vector of [2^n] amplitudes
    ([n <= 31]), a bit position [k < n] and a draw [u], [measureQubit(k)]
    returns 0 exactly when [u < p0], [p0] the sum of the squared magnitudes
    of the amplitudes whose bit [k] is 0, and 1 otherwise, and in the state
    it leaves every amplitude of the half that was not selected is zero:
    so far the claim.  But no surviving amplitude is renormalised.  The
    loop divides by the primitive [normFactor], of which
    [ComplexNumber.divide] reads the properties [real] and [imag], so
    every surviving amplitude that [isZero] does not accept becomes
    (NaN, NaN), which [equals] finds equal to no amplitude whatever the
    tolerance, where the claim has the amplitude divided by the square
    root of the probability of the outcome; and a surviving amplitude
    that [isZero] accepts (both parts below 1e-10 in absolute value) is
    skipped by the loop and stays as it was. *)
Theorem measureQubit_collapse (this : StateVector.t) (n k : Z) (u : R) :
  0 <= n <= 31 ->
  StateVector.qubitCount this = n ->
  Z.of_nat (length (StateVector.stateVector this)) = 2 ^ n ->
  0 <= k < n ->
  exists (outcome : Z) (this' : StateVector.t),
    StateVector.measureQubit u k this = (Ok outcome, this') /\
    (outcome = 0 \/ outcome = 1) /\
    (outcome = 0 <-> nlt (Num u) (marginal (StateVector.stateVector this) k false) = true) /\
    length (StateVector.stateVector this') = length (StateVector.stateVector this) /\
    forall x, 0 <= x < 2 ^ n ->
      (Z.b2z (Z.testbit x k) <> outcome ->
       amp (StateVector.stateVector this') x = czero) /\
      (Z.b2z (Z.testbit x k) = outcome ->
       ComplexNumber.isZero (amp (StateVector.stateVector this) x) = true ->
       amp (StateVector.stateVector this') x = amp (StateVector.stateVector this) x) /\
      (Z.b2z (Z.testbit x k) = outcome ->
       ComplexNumber.isZero (amp (StateVector.stateVector this) x) = false ->
       amp (StateVector.stateVector this') x = cnan /\
       (forall (other : Cx) (epsilon : number),
          ComplexNumber.equals (amp (StateVector.stateVector this') x) other epsilon
          = false) /\
       (finite_cx (amp (StateVector.stateVector this) x) ->
        forall p : R,
          marginal (StateVector.stateVector this) k (outcome =? 1) = Num p ->
          (0 < p)%R ->
          amp (StateVector.stateVector this') x <>
            renormalised (amp (StateVector.stateVector this) x) (Num p))).
Proof.
  intros Hn Hq Hlen Hk.
  pose proof (measureQubit_run this n k u Hn Hq Hlen Hk) as Hrun. cbv zeta in Hrun.
  eexists. eexists. split; [exact Hrun|].
  cbn [after_measure StateVector.stateVector].
  split; [destruct (nlt _ _); auto|].
  split; [destruct (nlt _ _); split; intros; (reflexivity || discriminate || lia)|].
  split; [apply collapsed_length|].
  intros x Hx. rewrite amp_collapsed by lia. split; [|split].
  - intros Hne. destruct (Z.eqb_spec (Z.b2z (Z.testbit x k))
                            (if nlt (Num u) (marginal (StateVector.stateVector this) k false)
                             then 0 else 1)); [contradiction | reflexivity].
  - intros He Hz. rewrite He, Z.eqb_refl, Hz. reflexivity.
  - intros He Hz. rewrite He, Z.eqb_refl, Hz. split; [reflexivity|].
    split; [intros other epsilon; reflexivity|].
    intros (a & b & Ea) p _ Hp. rewrite Ea.
    unfold renormalised, Math_sqrt, cx.
    destruct (Rle_dec 0 p) as [_ | Hneg]; [|exfalso; lra].
    cbn [ComplexNumber.real ComplexNumber.imag ndiv].
    pose proof (sqrt_lt_R0 p Hp) as Hs.
    destruct (Req_dec_T (sqrt p) 0) as [E | _]; [exfalso; lra | discriminate].
Qed.

Lemma tiny_pos : (0 < tiny)%R.
Proof. unfold tiny. apply Rinv_0_lt_compat. lra. Qed.

Lemma tiny_lt_tenth : (tiny < / 10)%R.
Proof. unfold tiny. apply Rinv_lt_contravar; lra. Qed.

Lemma tiny_lt_eps10 : (tiny < eps10)%R.
Proof. unfold tiny, eps10. apply Rinv_lt_contravar; lra. Qed.

Lemma with_tiny_marginal :
  marginal (StateVector.stateVector with_tiny_amplitude) 0 false =
    Num (0 + (tiny * tiny + 0 * 0) + (4 / 5 * (4 / 5) + 0 * 0)).
Proof. rcompute. reflexivity. Qed.

Lemma with_tiny_isZero :
  ComplexNumber.isZero (amp (StateVector.stateVector with_tiny_amplitude) 0) = true.
Proof.
  rcompute. pose proof tiny_pos. pose proof tiny_lt_eps10. pose proof eps10_pos.
  rewrite Rabs_R0, (Rabs_pos_eq tiny) by lra.
  destruct (Rlt_dec tiny eps10); [|contradiction].
  destruct (Rlt_dec 0 eps10); [reflexivity | contradiction].
Qed.

Lemma isZero_four_fifths : ComplexNumber.isZero (cx (4 / 5) 0) = false.
Proof.
  unfold ComplexNumber.isZero, cx. cbn [ComplexNumber.real Math_abs nlt].
  pose proof eps10_lt_1.
  assert (eps10 < / 10)%R by (unfold eps10; apply Rinv_lt_contravar; lra).
  rewrite (Rabs_pos_eq (4 / 5)) by lra.
  destruct (Rlt_dec (4 / 5) eps10); [lra | reflexivity].
Qed.

(** Witness of C3, and the input on which the claim fails: measuring bit
    0 of the normalised vector [(1e-11, 3/5, 4/5, 0)] with the draw 1/10
    gives the outcome 0, zeroes the amplitude at index 1, keeps the
    amplitude 1e-11 at index 0 and turns the surviving amplitude 4/5 at
    index 2 into (NaN, NaN), where the claim has 4/5 divided by the square
    root of [p0 = 1e-22 + 16/25]. *)
Lemma measureQubit_collapse_witness :
  let this := with_tiny_amplitude in
  let p0 := marginal (StateVector.stateVector this) 0 false in
  exists this' : StateVector.t,
    StateVector.measureQubit (1 / 10) 0 this = (Ok 0, this') /\
    amp (StateVector.stateVector this') 0 = cx tiny 0 /\
    amp (StateVector.stateVector this') 1 = czero /\
    amp (StateVector.stateVector this') 2 = cnan /\
    ComplexNumber.equals (amp (StateVector.stateVector this') 2)
                         (renormalised (cx (4 / 5) 0) p0) (Num eps10) = false /\
    amp (StateVector.stateVector this') 2 <> renormalised (cx (4 / 5) 0) p0.
Proof.
  intros this p0.
  destruct (measureQubit_collapse this 2 0 (1 / 10))
    as (outcome & this' & Hrun & _ & Hout & _ & Hamp).
  - lia.
  - reflexivity.
  - reflexivity.
  - lia.
  - pose proof tiny_pos as Ht. pose proof tiny_lt_tenth as Ht'.
    assert (Hp : (0 < 0 + (tiny * tiny + 0 * 0) + (4 / 5 * (4 / 5) + 0 * 0))%R) by nra.
    assert (H0 : outcome = 0).
    { apply Hout. subst this. rewrite with_tiny_marginal. cbn [nlt].
      destruct (Rlt_dec (1 / 10) _) as [_ | Hn]; [reflexivity|].
      exfalso. apply Hn. nra. }
    subst outcome. exists this'. split; [exact Hrun|].
    split.
    { apply (proj1 (proj2 (Hamp 0 ltac:(lia)))); [reflexivity|].
      subst this. exact with_tiny_isZero. }
    split.
    { apply (proj1 (Hamp 1 ltac:(lia))). intros H. discriminate H. }
    destruct (proj2 (proj2 (Hamp 2 ltac:(lia))) eq_refl isZero_four_fifths)
      as (Hnan & Heq & Hne).
    split; [exact Hnan|]. split; [apply Heq|].
    subst p0 this. rewrite with_tiny_marginal.
    apply (Hne (ex_intro _ (4 / 5)%R (ex_intro _ 0%R eq_refl))).
    + change (0 =? 1) with false. exact with_tiny_marginal.
    + exact Hp.
Defined.

(** ** C2: the normalisation invariant *)

Lemma isZero_one : ComplexNumber.isZero (cx 1 0) = false.
Proof.
  unfold ComplexNumber.isZero, cx. cbn [ComplexNumber.real Math_abs nlt].
  rewrite Rabs_R1. pose proof eps10_lt_1.
  destruct (Rlt_dec 1 eps10); [lra | reflexivity].
Qed.

(** C2 fails on the code.  (1) A fresh state vector, one allocation and one
    measurement with the draw 1/2: the outcome is 0 and the surviving
    amplitude 1 becomes (NaN, NaN), so the squared magnitudes no longer
    sum to a number.  (2) [normalize] on the vector (2, 1) of the
    repository's own unit test gives (NaN, NaN) twice instead of
    (2/sqrt 5, 1/sqrt 5). *)
Lemma normalisation_lost :
  let opts := StateVector.mkOptions (Num eps10) 32 in
  (exists sv0 sv1 sv2,
      StateVector.constructor 0 opts = Ok sv0 /\
      StateVector.expandStateVector sv0 = (Ok tt, sv1) /\
      StateVector.stateVector sv1 = [cx 1 0; cx 0 0] /\
      StateVector.measureQubit (1 / 2) 0 sv1 = (Ok 0, sv2) /\
      StateVector.stateVector sv2 = [cnan; cx 0 0] /\
      StateVector.normSquared (StateVector.stateVector sv2) = NaN /\
      ~ normalised_within eps10 (StateVector.stateVector sv2)) /\
  (let this := StateVector.mk 1 opts [cx 2 0; cx 1 0] [] (StateVector.mkMetrics 0 2 32) in
   exists this',
     StateVector.normalize this = (Ok tt, this') /\
     StateVector.stateVector this' = [cnan; cnan]).
Proof.
  intros opts. split.
  - eexists. eexists. eexists.
    split; [rcompute; reflexivity|]. split; [rcompute; reflexivity|].
    split; [reflexivity|].
    split.
    + erewrite (measureQubit_run _ 1 0) by (try reflexivity; lia).
      cbv zeta. cbn [StateVector.stateVector].
      assert (E : marginal [cx 1 0; cx 0 0] 0 false = Num (0 + (1 * 1 + 0 * 0)))
        by (rcompute; reflexivity).
      change (marginal _ 0 false) with (marginal [cx 1 0; cx 0 0] 0 false).
      rewrite E. cbn [nlt].
      destruct (Rlt_dec (1 / 2) (0 + (1 * 1 + 0 * 0))) as [_ | Hn]; [|exfalso; lra].
      reflexivity.
    + cbn [after_measure StateVector.stateVector].
      assert (Ec : collapsed [cx 1 0; cx 0 0] 0 0 = [cnan; cx 0 0]).
      { unfold collapsed. cbn [length upto seq map].
        change (amp [cx 1 0; cx 0 0] (Z.of_nat 0)) with (cx 1 0).
        change (amp [cx 1 0; cx 0 0] (Z.of_nat 1)) with (cx 0 0).
        rewrite isZero_one. reflexivity. }
      change (collapsed _ 0 0) with (collapsed [cx 1 0; cx 0 0] 0 0).
      rewrite Ec. split; [reflexivity|]. split; [reflexivity|].
      unfold normalised_within. cbn. tauto.
  - cbv zeta. eexists. rewrite normalize_run.
    cbn [StateVector.stateVector StateVector.options StateVector.precision].
    erewrite (exceeds_precision eps10 _ (sqrt 5)).
    + split; reflexivity.
    + rcompute. reflexivity.
    + rewrite sqrt_sqrt by lra. lra.
    + apply sqrt_pos.
    + assert (H2 : (2 < sqrt 5)%R).
      { replace 2%R with (sqrt 4) by (replace 4%R with (2 * 2)%R by lra; apply sqrt_square; lra).
        apply sqrt_lt_1_alt. lra. }
      rewrite Rabs_pos_eq by lra. pose proof eps10_lt_1. lra.
Qed.

(** ** The registry, the executor and the measurement engine *)

Lemma set_vm_stateVector_same (w : VM) : set_vm_stateVector (vm_stateVector w) w = w.
Proof. destruct w. reflexivity. Qed.

Lemma getQubitIndex_number (z : Z) (w : VM) :
  QubitRegistry.getQubitIndex (KNum z) w = (Throw (Error "Qubit not found"), w).
Proof. reflexivity. Qed.

Lemma getQubitIndex_live (h : string) (idx : Z) (w : VM) :
  Map_get (qubits (vm_registry w)) (KStr h) = Some idx ->
  QubitRegistry.getQubitIndex (KStr h) w = (Ok idx, w).
Proof. intros H. unfold QubitRegistry.getQubitIndex, bind, get. rewrite H. reflexivity. Qed.

Lemma getQubitIndex_unknown (h : string) (w : VM) :
  Map_get (qubits (vm_registry w)) (KStr h) = None ->
  QubitRegistry.getQubitIndex (KStr h) w = (Throw (Error "Qubit not found"), w).
Proof. intros H. unfold QubitRegistry.getQubitIndex, bind, get. rewrite H. reflexivity. Qed.

(** ** C7: SWAP *)

(** C7 fails on the code: [GateExecutor.applySWAP] resolves the two
    handles and then calls [this.stateVector.applySWAP], a method the
    [StateVector] class does not define.  For live handles the call is a
    TypeError, for an unknown handle the lookup fails; either way no
    amplitude is exchanged and the machine is left as it was. *)
Theorem applySWAP_never_swaps (w : VM) (qubitId1 qubitId2 : string) :
  snd (GateExecutor.applySWAP qubitId1 qubitId2 w) = w /\
  fst (GateExecutor.applySWAP qubitId1 qubitId2 w) =
    match Map_get (qubits (vm_registry w)) (KStr qubitId1),
          Map_get (qubits (vm_registry w)) (KStr qubitId2) with
    | Some _, Some _ => Throw (TypeError "this.stateVector.applySWAP is not a function")
    | _, _ => Throw (Error "Qubit not found")
    end.
Proof.
  unfold GateExecutor.applySWAP, bind.
  destruct (Map_get (qubits (vm_registry w)) (KStr qubitId1)) as [i1|] eqn:E1.
  - rewrite (getQubitIndex_live _ _ _ E1).
    destruct (Map_get (qubits (vm_registry w)) (KStr qubitId2)) as [i2|] eqn:E2.
    + rewrite (getQubitIndex_live _ _ _ E2). split; reflexivity.
    + rewrite (getQubitIndex_unknown _ _ E2). split; reflexivity.
  - rewrite (getQubitIndex_unknown _ _ E1). split; reflexivity.
Qed.

(** ** C8: [measureAllQubits] *)

Lemma Array_sort_length {A} (compareFn : A -> A -> M VM Z) (l l2 : list A) (s s' : VM) :
  MeasurementEngine.Array_sort compareFn l s = (Ok l2, s') -> length l2 = length l.
Proof.
  assert (Hins : forall x l l2 s s',
             MeasurementEngine.insert_sorted compareFn x l s = (Ok l2, s') ->
             length l2 = S (length l)).
  { intros x l0. induction l0 as [|y l0 IH]; intros l3 s0 s1; cbn; unfold bind, ret.
    - intros H. injection H as <- _. reflexivity.
    - destruct (compareFn x y s0) as [[c|e] s2]; [|discriminate].
      destruct (c <=? 0).
      + intros H. injection H as <- _. reflexivity.
      + destruct (MeasurementEngine.insert_sorted compareFn x l0 s2) as [[l4|e] s3] eqn:E;
          [|discriminate].
        intros H. injection H as <- _. cbn. f_equal. eapply IH. exact E. }
  revert l2 s s'. induction l as [|x l IH]; intros l2 s s'; cbn; unfold bind, ret.
  - intros H. injection H as <- _. reflexivity.
  - destruct (MeasurementEngine.Array_sort compareFn l s) as [[l3|e] s2] eqn:E; [|discriminate].
    intros H. apply Hins in H. rewrite H. f_equal. eapply IH. exact E.
Qed.

Lemma Array_sort_throws {A} (compareFn : A -> A -> M VM Z) (l : list A) (s : VM) :
  (forall a b s0, exists e, compareFn a b s0 = (Throw e, s0)) ->
  (2 <= length l)%nat ->
  exists e s', MeasurementEngine.Array_sort compareFn l s = (Throw e, s').
Proof.
  intros Hthrow Hlen. destruct l as [|x [|y l]]; cbn [length] in Hlen; try lia.
  change (MeasurementEngine.Array_sort compareFn (x :: y :: l) s)
    with (bind (MeasurementEngine.Array_sort compareFn (y :: l))
               (fun sorted => MeasurementEngine.insert_sorted compareFn x sorted) s).
  unfold bind.
  destruct (MeasurementEngine.Array_sort compareFn (y :: l) s) as [[sorted|e] s2] eqn:E.
  - apply Array_sort_length in E. destruct sorted as [|z sorted]; [discriminate|].
    cbn [MeasurementEngine.insert_sorted]. unfold bind.
    destruct (Hthrow x z s2) as [e He]. rewrite He. eauto.
  - eauto.
Qed.

Lemma Array_entries_length (ids : list string) :
  length (MeasurementEngine.Array_entries ids) = length ids.
Proof.
  unfold MeasurementEngine.Array_entries, upto.
  rewrite length_zip_with, length_map, length_seq. lia.
Qed.

(** C8 fails on the code: as soon as one handle is live,
    [measureAllQubits] throws.  The pairs it sorts are [index, handle]
    pairs of the array, so the comparator looks the array index up in the
    registry, and the final loop looks the array index up in the map of
    measurements. *)
Theorem measureAllQubits_throws (w : VM) :
  qubits (vm_registry w) <> [] ->
  exists e, fst (MeasurementEngine.measureAllQubits w) = Throw e.
Proof.
  intros Hne. unfold MeasurementEngine.measureAllQubits.
  unfold bind at 1. unfold QubitRegistry.getAllQubits at 1, bind at 1, get, ret at 1.
  unfold bind at 1.
  destruct (MeasurementEngine.measureQubits (map fst (qubits (vm_registry w))) false w)
    as [[measurements|e] w1]; [|eauto].
  set (ids := map fst (qubits (vm_registry w))).
  assert (Hlen : (1 <= length (MeasurementEngine.Array_entries ids))%nat).
  { rewrite Array_entries_length. subst ids. rewrite length_map.
    destruct (qubits (vm_registry w)); [contradiction | cbn; lia]. }
  unfold bind at 1.
  destruct (MeasurementEngine.Array_entries ids) as [|[i0 id0] [|p l]] eqn:El;
    cbn [length] in Hlen; [lia | |].
  - cbn. eauto.
  - edestruct (Array_sort_throws
                 (fun a b : Z * string =>
                    bind (QubitRegistry.getQubitIndex (KNum (fst a)))
                      (fun ia => bind (QubitRegistry.getQubitIndex (KNum (fst b)))
                                      (fun ib => ret (ia - ib))))
                 ((i0, id0) :: p :: l) w1) as (e & s' & He).
    + intros a b s0. eexists. reflexivity.
    + cbn [length]. lia.
    + rewrite He. eauto.
Qed.

Lemma initialize_default : default_vm = Ok (initial_vm 32 32).
Proof. reflexivity. Qed.

Lemma initialize_max2 : vm_max2 = Ok (initial_vm 2 2).
Proof. reflexivity. Qed.

Lemma initialize_config_max2 : vm_config_max2 = Ok (initial_vm 2 32).
Proof. reflexivity. Qed.

(** Witness of C8: one live handle. *)
Lemma measureAllQubits_throws_witness :
  qubits (vm_registry (after_allocations 1 (initial_vm 32 32))) = [("q0"%string, 0)] /\
  exists e, fst (MeasurementEngine.measureAllQubits
                   (after_allocations 1 (initial_vm 32 32))) = Throw e.
Proof.
  split; [reflexivity|].
  apply (measureAllQubits_throws (after_allocations 1 (initial_vm 32 32))).
  discriminate.
Defined.

(** ** C9: capacity *)

Lemma Map_get_set_eq {V} (m : list (string * V)) (s : string) (v : V) :
  Map_get (Map_set m s v) (KStr s) = Some v.
Proof.
  induction m as [|[s' v'] m IH]; cbn [Map_set Map_get].
  - cbn. rewrite String.eqb_refl. reflexivity.
  - destruct (String.eqb_spec s' s) as [-> | Hne]; cbn.
    + rewrite String.eqb_refl. reflexivity.
    + apply String.eqb_neq in Hne. rewrite Hne. exact IH.
Qed.

Lemma Map_get_set_ne {V} (m : list (string * V)) (s s' : string) (v : V) :
  s <> s' -> Map_get (Map_set m s v) (KStr s') = Map_get m (KStr s').
Proof.
  intros Hne. induction m as [|[s0 v0] m IH]; cbn [Map_set Map_get].
  - cbn. apply String.eqb_neq in Hne. rewrite Hne. reflexivity.
  - destruct (String.eqb_spec s0 s) as [-> | Hne0]; cbn.
    + apply String.eqb_neq in Hne. rewrite Hne. reflexivity.
    + destruct (String.eqb s0 s'); [reflexivity | exact IH].
Qed.

Lemma Map_set_length_fresh {V} (m : list (string * V)) (s : string) (v : V) :
  Map_get m (KStr s) = None -> length (Map_set m s v) = S (length m).
Proof.
  induction m as [|[s' v'] m IH]; cbn [Map_set Map_get]; [reflexivity|].
  cbn. destruct (String.eqb s' s); [discriminate|].
  intros H. cbn [length]. f_equal. apply IH. exact H.
Qed.

Lemma after_allocations_shift (n : nat) (w : VM) :
  after_allocations (S n) w = after_allocations n (snd (QubitRegistry.allocateQubit w)).
Proof.
  induction n as [|n IH]; [reflexivity|].
  change (after_allocations (S (S n)) w)
    with (snd (QubitRegistry.allocateQubit (after_allocations (S n) w))).
  rewrite IH. reflexivity.
Qed.

(** [allocateQubits] undoes nothing: when its first [k] allocations return
    and the next one throws, the machine is left as those [k + 1] calls
    of [allocateQubit] left it. *)
Lemma allocate_loop_no_rollback (k : nat) :
  forall (count : nat) (qubitIds : list string) (w : VM) (e : exn),
    (k < count)%nat ->
    (forall j, (j < k)%nat ->
               is_ok (fst (QubitRegistry.allocateQubit (after_allocations j w))) = true) ->
    fst (QubitRegistry.allocateQubit (after_allocations k w)) = Throw e ->
    QubitRegistry.allocate_loop count qubitIds w = (Throw e, after_allocations (S k) w).
Proof.
  induction k as [|k IH]; intros count qubitIds w e Hk Hok Hfail.
  - destruct count as [|count]; [lia|].
    cbn [QubitRegistry.allocate_loop after_allocations] in *. unfold bind.
    destruct (QubitRegistry.allocateQubit w) as [r w'].
    cbn [fst snd] in *. subst r. reflexivity.
  - destruct count as [|count]; [lia|].
    rewrite after_allocations_shift.
    cbn [QubitRegistry.allocate_loop]. unfold bind.
    pose proof (Hok 0%nat ltac:(lia)) as H0. cbn [after_allocations] in H0.
    destruct (QubitRegistry.allocateQubit w) as [r w'] eqn:E.
    cbn [fst snd] in *. destruct r as [qubitId|]; [|discriminate].
    apply IH; [lia | |].
    + intros j Hj. specialize (Hok (S j) ltac:(lia)).
      rewrite after_allocations_shift, E in Hok. exact Hok.
    + rewrite after_allocations_shift, E in Hfail. exact Hfail.
Qed.

(** C9 fails on the code.  A call of [allocateQubit()] made when the
    registry already holds [maxQubits] live handles is refused before
    anything is mutated, as the claim says.  But when the registry accepts
    and the state vector refuses to expand (the registry takes its limit
    from [QVM_MAX_QUBITS], the state vector from the configuration), the
    call throws after it has drawn the handle, recorded it in the handle
    map and advanced [nextQubitIndex]: the handle is live, it has no
    entanglement group, and only the amplitudes are as they were.  And
    [allocateQubits(count)] undoes nothing: when its first [k] allocations
    return and the next one throws, the machine is left as those [k + 1]
    calls of [allocateQubit] left it. *)
Theorem allocateQubit_capacity_failure (w : VM) :
  let this := vm_registry w in
  let sv := vm_stateVector w in
  let qubitId := uuidv4 (vm_sources w) (uuid_calls (vm_sources w)) in
  (registry_maxQubits this <= Z.of_nat (length (qubits this)) ->
   QubitRegistry.allocateQubit w =
     (Throw (Error "Cannot allocate more than maxQubits qubits"), w)) /\
  (Z.of_nat (length (qubits this)) < registry_maxQubits this ->
   0 <= StateVector.maxQubits (StateVector.options sv) ->
   2 ^ StateVector.maxQubits (StateVector.options sv)
   < Z.of_nat (length (StateVector.stateVector sv)) * 2 ->
   exists w',
     QubitRegistry.allocateQubit w = (Throw (Error "Cannot expand state vector"), w') /\
     StateVector.stateVector (vm_stateVector w') = StateVector.stateVector sv /\
     StateVector.qubitCount (vm_stateVector w') = StateVector.qubitCount sv /\
     QubitRegistry.getQubitIndex (KStr qubitId) w' = (Ok (nextQubitIndex this), w') /\
     nextQubitIndex (vm_registry w') = nextQubitIndex this + 1 /\
     entanglementGroups (vm_registry w') = entanglementGroups this /\
     vm_registry w' <> vm_registry w /\
     (Map_get (qubits this) (KStr qubitId) = None ->
      length (qubits (vm_registry w')) = S (length (qubits this)))) /\
  (forall (count : Z) (k : nat) (e : exn),
     Z.of_nat k < count ->
     (forall j, (j < k)%nat ->
                is_ok (fst (QubitRegistry.allocateQubit (after_allocations j w))) = true) ->
     fst (QubitRegistry.allocateQubit (after_allocations k w)) = Throw e ->
     QubitRegistry.allocateQubits count w = (Throw e, after_allocations (S k) w)).
Proof.
  intros this sv qubitId. split; [|split].
  - intros H. unfold QubitRegistry.allocateQubit, bind, get.
    destruct (Z.leb_spec (registry_maxQubits (vm_registry w))
                         (Z.of_nat (length (qubits (vm_registry w))))); [reflexivity|].
    subst this. lia.
  - intros Hsize Hmax Hcap. subst this sv qubitId.
    eexists. split.
    { unfold QubitRegistry.allocateQubit, bind, get.
      destruct (Z.leb_spec (registry_maxQubits (vm_registry w))
                           (Z.of_nat (length (qubits (vm_registry w))))); [lia|].
      unfold call_uuidv4, QubitRegistry.modify_registry, modify, on_stateVector.
      cbn [vm_stateVector vm_registry set_vm_registry set_vm_sources set_vm_stateVector
           vm_engine vm_executor vm_sources].
      unfold StateVector.expandStateVector, StateVector.invalidateProbabilityCache,
        modify, bind, get.
      cbn [StateVector.stateVector StateVector.options StateVector.set_probabilityCache].
      unfold StateVector.gt_pow2.
      destruct (Z.leb_spec 0 (StateVector.maxQubits
                                (StateVector.options (vm_stateVector w)))); [|lia].
      destruct (Z.ltb_spec (2 ^ StateVector.maxQubits
                                  (StateVector.options (vm_stateVector w)))
                           (Z.of_nat (length (StateVector.stateVector (vm_stateVector w)))
                            * 2)); [|lia].
      unfold throw. reflexivity. }
    unfold set_vm_stateVector, set_vm_registry, set_vm_sources.
    cbn [vm_stateVector vm_registry StateVector.stateVector StateVector.qubitCount
         StateVector.set_probabilityCache nextQubitIndex entanglementGroups qubits].
    split; [reflexivity|]. split; [reflexivity|].
    split.
    { unfold QubitRegistry.getQubitIndex, bind, get.
      cbn [vm_registry qubits]. rewrite Map_get_set_eq. reflexivity. }
    split; [reflexivity|]. split; [reflexivity|].
    split.
    { intros E. apply (f_equal nextQubitIndex) in E. cbn [nextQubitIndex] in E. lia. }
    intros Hfresh. apply Nat2Z.inj. rewrite Map_set_length_fresh by exact Hfresh. lia.
  - intros count k e Hk Hok Hfail. unfold QubitRegistry.allocateQubits.
    destruct (Z.leb_spec count 0); [lia|].
    apply allocate_loop_no_rollback; [lia | exact Hok | exact Hfail].
Qed.

(** Witness of C9.  With the registry's [maxQubits = 2] the third
    [allocateQubit()] is refused and leaves the machine, in particular the
    4 amplitudes, as it was.  After [initialize({maxQubits: 2})] with
    [QVM_MAX_QUBITS] unset the third [allocateQubit()] throws "Cannot
    expand state vector" with the handle ["q2"] live at position 2 and
    [nextQubitIndex] at 3.  And [allocateQubits(3)] with [maxQubits = 2]
    fails and leaves two handles and four amplitudes behind. *)
Lemma allocateQubit_capacity_failure_witness :
  (let w2 := after_allocations 2 (initial_vm 2 2) in
   length (StateVector.stateVector (vm_stateVector w2)) = 4%nat /\
   QubitRegistry.allocateQubit w2 =
     (Throw (Error "Cannot allocate more than maxQubits qubits"), w2)) /\
  (let w2 := after_allocations 2 (initial_vm 2 32) in
   qubits (vm_registry w2) = [("q0", 0); ("q1", 1)]%string /\
   exists w',
     QubitRegistry.allocateQubit w2 = (Throw (Error "Cannot expand state vector"), w') /\
     length (StateVector.stateVector (vm_stateVector w')) = 4%nat /\
     QubitRegistry.getQubitIndex (KStr "q2") w' = (Ok 2, w') /\
     qubits (vm_registry w') = [("q0", 0); ("q1", 1); ("q2", 2)]%string /\
     nextQubitIndex (vm_registry w') = 3 /\
     vm_registry w' <> vm_registry w2) /\
  (let w := initial_vm 2 2 in
   let run := QubitRegistry.allocateQubits 3 w in
   run = (Throw (Error "Cannot allocate more than maxQubits qubits"),
          after_allocations 3 w) /\
   qubits (vm_registry w) = [] /\
   qubits (vm_registry (snd run)) = [("q0", 0); ("q1", 1)]%string /\
   length (StateVector.stateVector (vm_stateVector w)) = 1%nat /\
   length (StateVector.stateVector (vm_stateVector (snd run))) = 4%nat).
Proof.
  split; [|split].
  - intros w2. split; [reflexivity|].
    apply (proj1 (allocateQubit_capacity_failure w2)). apply Z.leb_le. reflexivity.
  - intros w2. split; [reflexivity|].
    destruct (proj1 (proj2 (allocateQubit_capacity_failure w2)))
      as (w' & Hrun & _ & _ & Hidx & Hnext & _ & Hne & _).
    + apply Z.ltb_lt. reflexivity.
    + apply Z.leb_le. reflexivity.
    + apply Z.ltb_lt. reflexivity.
    + exists w'. split; [exact Hrun|].
      assert (E : w' = snd (QubitRegistry.allocateQubit w2)) by (rewrite Hrun; reflexivity).
      split; [rewrite E; reflexivity|]. split; [exact Hidx|].
      split; [rewrite E; reflexivity|]. split; [exact Hnext | exact Hne].
  - intros w run.
    assert (Hrun : run = (Throw (Error "Cannot allocate more than maxQubits qubits"),
                          after_allocations 3 w)).
    { apply (proj2 (proj2 (allocateQubit_capacity_failure w)) 3 2%nat).
      - lia.
      - intros j Hj. destruct j as [|[|j]]; [reflexivity | reflexivity | lia].
      - reflexivity. }
    split; [exact Hrun|]. rewrite Hrun. repeat split; reflexivity.
Defined.

(** ** C10: non-collapsing measurement *)

Lemma getAmplitude_vm (w : VM) (i : Z) :
  0 <= i < Z.of_nat (length (StateVector.stateVector (vm_stateVector w))) ->
  on_stateVector (StateVector.getAmplitude i) w =
    (Ok (Some (amp (StateVector.stateVector (vm_stateVector w)) i)), w).
Proof.
  intros Hi. unfold on_stateVector, StateVector.getAmplitude, bind, get, ret.
  destruct (Z.leb_spec (Z.of_nat (length (StateVector.stateVector (vm_stateVector w)))) i);
    [lia|].
  rewrite arr_get_amp by lia. rewrite set_vm_stateVector_same. reflexivity.
Qed.

Lemma getProbability_fold_pure (w : VM) (qubitIndex outcome : Z) (m : nat) :
  (m <= length (StateVector.stateVector (vm_stateVector w)))%nat ->
  exists p,
    fold_left (MeasurementEngine.getProbability_step qubitIndex outcome)
              (upto m) (ret (Num 0)) w = (Ok p, w).
Proof.
  induction m as [|m IH]; intros Hm.
  - exists (Num 0). reflexivity.
  - destruct IH as [p Hp]; [lia|].
    rewrite upto_S, fold_left_app. cbn [fold_left].
    unfold MeasurementEngine.getProbability_step at 1. unfold bind at 1. rewrite Hp.
    destruct (js_and (js_sar (Z.of_nat m) qubitIndex) 1 =? outcome).
    + unfold bind. rewrite getAmplitude_vm by lia. eexists. reflexivity.
    + eexists. reflexivity.
Qed.

Lemma getProbability_pure (w : VM) (h : string) (idx outcome : Z) :
  Map_get (qubits (vm_registry w)) (KStr h) = Some idx ->
  0 <= StateVector.qubitCount (vm_stateVector w) ->
  Z.of_nat (length (StateVector.stateVector (vm_stateVector w))) =
    2 ^ StateVector.qubitCount (vm_stateVector w) ->
  outcome = 0 \/ outcome = 1 ->
  exists p, MeasurementEngine.getProbability (KStr h) outcome w = (Ok p, w).
Proof.
  intros Hlive Hq Hlen Ho. unfold MeasurementEngine.getProbability.
  assert (Hb : negb (outcome =? 0) && negb (outcome =? 1) = false)
    by (destruct Ho as [-> | ->]; reflexivity).
  rewrite Hb. unfold bind at 1. rewrite (getQubitIndex_live _ _ _ Hlive).
  unfold bind at 1.
  assert (Eq : on_stateVector StateVector.getQubitCount w =
               (Ok (StateVector.qubitCount (vm_stateVector w)), w)).
  { unfold on_stateVector, StateVector.getQubitCount, bind, get, ret.
    rewrite set_vm_stateVector_same. reflexivity. }
  rewrite Eq. apply getProbability_fold_pure. lia.
Qed.

(** C10.  For a live handle [h], on a machine whose state vector has
    [2^qubitCount] amplitudes, [measureQubit(h, true)] returns 0 or 1 and
    leaves the state vector, the registry, the per-handle results, the
    history and the metrics of the engine as they were; the only thing
    consumed is one value of [Math.random()]. *)
Theorem measureQubit_nonCollapsing_frame (w : VM) (h : string) (idx : Z) :
  Map_get (qubits (vm_registry w)) (KStr h) = Some idx ->
  0 <= StateVector.qubitCount (vm_stateVector w) ->
  Z.of_nat (length (StateVector.stateVector (vm_stateVector w))) =
    2 ^ StateVector.qubitCount (vm_stateVector w) ->
  exists (result : Z) (w' : VM),
    MeasurementEngine.measureQubit (KStr h) true w = (Ok result, w') /\
    (result = 0 \/ result = 1) /\
    vm_stateVector w' = vm_stateVector w /\
    measurementResults (vm_engine w') = measurementResults (vm_engine w) /\
    measurementHistory (vm_engine w') = measurementHistory (vm_engine w) /\
    totalMeasurements (vm_engine w') = totalMeasurements (vm_engine w) /\
    outcomeCounts (vm_engine w') = outcomeCounts (vm_engine w) /\
    vm_registry w' = vm_registry w /\
    w' = after_random w.
Proof.
  intros Hlive Hq Hlen.
  destruct (getProbability_pure w h idx 0 Hlive Hq Hlen ltac:(left; reflexivity)) as [p0 Hp0].
  destruct (getProbability_pure w h idx 1 Hlive Hq Hlen ltac:(right; reflexivity)) as [p1 Hp1].
  unfold MeasurementEngine.measureQubit.
  unfold bind at 1. rewrite (getQubitIndex_live _ _ _ Hlive).
  unfold bind at 1. rewrite Hp0. unfold bind at 1. rewrite Hp1.
  unfold bind, call_Math_random, ret.
  eexists. eexists. split; [reflexivity|].
  split; [destruct (nlt _ p0); auto|].
  repeat split.
Qed.

(** Witness of C10: the first handle of a machine with one qubit. *)
Lemma measureQubit_nonCollapsing_frame_witness :
  exists (result : Z) (w' : VM),
    MeasurementEngine.measureQubit (KStr "q0") true
      (after_allocations 1 (initial_vm 32 32)) = (Ok result, w') /\
    (result = 0 \/ result = 1) /\
    vm_stateVector w' = vm_stateVector (after_allocations 1 (initial_vm 32 32)).
Proof.
  destruct (measureQubit_nonCollapsing_frame
              (after_allocations 1 (initial_vm 32 32)) "q0" 0)
    as (result & w' & Hrun & Hres & Hsv & _).
  - reflexivity.
  - apply Z.leb_le. reflexivity.
  - reflexivity.
  - exists result, w'. auto.
Defined.

(** ** C5: the instruction codec *)

Lemma switch_listed (op : Z) (g : QBC.group) :
  QBC.switch op = Some g ->
  bool_decide (op ∈ QBCOpcode.values) = true /\ 0 <= op < 256.
Proof.
  destruct op as [|p|p]; try discriminate.
  do 8 (try (destruct p as [p|p|]); try discriminate);
    intros _; (split; [vm_compute; reflexivity | lia]).
Qed.

Lemma listed_switch (op : Z) :
  op ∈ QBCOpcode.values -> exists g, QBC.switch op = Some g.
Proof.
  intros H. unfold QBCOpcode.values in H.
  repeat (apply elem_of_cons in H; destruct H as [-> | H]; [eexists; reflexivity|]).
  apply elem_of_nil in H. contradiction.
Qed.

Lemma combine4_le_bytes (u : Z) :
  0 <= u < 2 ^ 32 ->
  Buffer.combine4 (u mod 256) ((u / 2 ^ 8) mod 256) ((u / 2 ^ 16) mod 256)
                  ((u / 2 ^ 24) mod 256) = u.
Proof.
  intros Hu. unfold Buffer.combine4.
  change (2 ^ 8) with 256. change (2 ^ 16) with 65536. change (2 ^ 24) with 16777216.
  change (2 ^ 32) with 4294967296 in Hu.
  Z.div_mod_to_equations. lia.
Qed.

Lemma ToInt32_mod (z : Z) : - 2 ^ 31 <= z < 2 ^ 31 -> ToInt32 (z mod 2 ^ 32) = z.
Proof.
  intros Hz. unfold ToInt32. cbv zeta. rewrite Z.mod_mod by lia.
  fold (ToInt32 z). apply ToInt32_small. exact Hz.
Qed.

Ltac codec_compute :=
  cbv -[Z.modulo Z.div Z.pow Buffer.combine4 ToInt32 F32.canon QBC.switch].

Ltac invert_operands :=
  repeat match goal with
         | H : Forall2 _ (_ :: _) _ |- _ => inversion H; subst; clear H
         | H : Forall2 _ [] _ |- _ => inversion H; subst; clear H
         end;
  repeat match goal with
         | H : QBC.fits _ ?v |- _ => destruct v; cbn [QBC.fits] in H; try contradiction
         end.

Lemma encode_decode_table (i : QBC.instruction) :
  QBC.table_instruction i ->
  exists buffer,
    QBC.encodeInstruction i = Ok buffer /\
    QBC.decodeInstruction buffer 0 = Ok (i, Z.of_nat (length buffer)).
Proof.
  destruct i as [op params]. intros (g & Hs & Hf). cbn [QBC.op QBC.params] in Hs, Hf.
  destruct (switch_listed op g Hs) as [Hin Hop].
  assert (Hb : op mod 256 = op) by (apply Z.mod_small; lia).
  unfold QBC.encodeInstruction. cbn [QBC.op QBC.params]. rewrite Hin. cbn [negb].
  unfold QBC.getParameterSize. rewrite Hs.
  destruct g; cbn [QBC.operands] in Hf; invert_operands; cbn [rbind];
    unfold Buffer.writeUInt32LE, Buffer.writeInt32LE, Buffer.writeIntLE,
           Buffer.writeFloatLE;
    cbn [QBC.param nth]; cbv beta iota;
    repeat match goal with
           | H : _ /\ _ |- _ => destruct H
           | |- context [(?z <? ?a) || (?b <? ?z)] =>
               replace ((z <? a) || (b <? z)) with false
                 by (symmetry; apply orb_false_iff; split; apply Z.ltb_ge; lia)
           | H : F32.canon ?b = ?b |- context [F32.canon ?b] => rewrite H
           end;
    codec_compute;
    rewrite ?Hb;
    (eexists; split; [reflexivity|]);
    codec_compute; rewrite ?Hb, Hs;
    codec_compute;
    repeat match goal with
           | |- context [?z mod 256] => rewrite (Z.mod_small z 256) by lia
           end;
    rewrite ?combine4_le_bytes by (try apply Z.mod_pos_bound; lia);
    rewrite ?ToInt32_mod by lia;
    repeat match goal with
           | |- context [?z mod 2 ^ 32] => rewrite (Z.mod_small z (2 ^ 32)) by lia
           end;
    repeat match goal with
           | H : F32.canon ?b = ?b |- context [F32.canon ?b] => rewrite H
           end;
    reflexivity.
Qed.

Lemma switch_unlisted (op : Z) : op ∉ QBCOpcode.values -> QBC.switch op = None.
Proof.
  intros Hop. destruct (QBC.switch op) as [g|] eqn:E; [|reflexivity].
  exfalso. apply Hop. destruct (switch_listed op g E) as [Hin _].
  apply bool_decide_eq_true in Hin. exact Hin.
Qed.

Lemma encodeInstruction_unlisted (op : Z) (params : list jsval) :
  op ∉ QBCOpcode.values ->
  QBC.encodeInstruction (QBC.mkInstruction op params) = Throw (Error "Invalid opcode").
Proof.
  intros Hop. unfold QBC.encodeInstruction. cbn [QBC.op QBC.params].
  rewrite (bool_decide_eq_false_2 _ Hop). reflexivity.
Qed.

Lemma decodeInstruction_unlisted (buffer : Buffer.t) (offset b : Z) :
  Buffer.load buffer offset = Int b ->
  b ∉ QBCOpcode.values ->
  QBC.decodeInstruction buffer offset = Throw (Error "Unknown opcode").
Proof.
  intros Hload Hb. unfold QBC.decodeInstruction.
  rewrite Hload, (switch_unlisted b Hb). reflexivity.
Qed.

Lemma unlisted_0x99 : 0x99 ∉ QBCOpcode.values.
Proof.
  intros H. unfold QBCOpcode.values in H.
  repeat (apply elem_of_cons in H; destruct H as [H | H]; [discriminate H|]).
  apply elem_of_nil in H. exact H.
Qed.

(** The codec has a [case] for every row of the instruction table, with
    the operands of the row. *)
Lemma listed_instruction_handled (i : QBC.instruction) :
  QBC.listed_instruction i -> QBC.table_instruction i.
Proof.
  intros (row & Hin & Hfit). unfold QBC.instruction_table in Hin. cbn [In] in Hin.
  repeat (destruct Hin as [E | Hin];
          [injection E as Eop <-; eexists;
           split; [rewrite <- Eop; reflexivity | exact Hfit]|]).
  contradiction.
Qed.

Lemma rx_instruction_listed : QBC.listed_instruction rx_instruction.
Proof.
  exists [QBC.Byte; QBC.Angle]. split.
  - unfold QBC.instruction_table. cbn [In]. do 8 right. left. reflexivity.
  - repeat constructor; cbn [QBC.fits]; lia.
Qed.

(** C5.  The instruction table has one row for each listed opcode.
    [decodeInstruction] applied to the output of [encodeInstruction] gives
    back the instruction (same opcode, same parameter list) and reads
    exactly the bytes that were written, for every instruction of the
    table: a listed opcode with the operands of its row, where a qubit
    reference or classical address is a byte, an angle is a
    single-precision float, a jump target is an unsigned and a stored value
    a signed 32-bit integer.  For an opcode that is not listed
    [encodeInstruction] throws, and [decodeInstruction] throws on a buffer
    whose byte at the offset is not a listed opcode. *)
Theorem encode_decode_inverse :
  map fst QBC.instruction_table = QBCOpcode.values /\
  (forall i : QBC.instruction,
      QBC.listed_instruction i ->
      exists buffer,
        QBC.encodeInstruction i = Ok buffer /\
        QBC.decodeInstruction buffer 0 = Ok (i, Z.of_nat (length buffer))) /\
  (forall (op : Z) (params : list jsval),
      op ∉ QBCOpcode.values ->
      QBC.encodeInstruction (QBC.mkInstruction op params)
      = Throw (Error "Invalid opcode")) /\
  (forall (buffer : Buffer.t) (offset b : Z),
      Buffer.load buffer offset = Int b ->
      b ∉ QBCOpcode.values ->
      QBC.decodeInstruction buffer offset = Throw (Error "Unknown opcode")).
Proof.
  split; [reflexivity|].
  split; [intros i Hi; apply encode_decode_table, listed_instruction_handled, Hi|].
  split; [exact encodeInstruction_unlisted | exact decodeInstruction_unlisted].
Qed.

Lemma encode_decode_inverse_witness :
  QBC.listed_instruction rx_instruction /\
  (exists buffer,
      QBC.encodeInstruction rx_instruction = Ok buffer /\
      QBC.decodeInstruction buffer 0 = Ok (rx_instruction, Z.of_nat (length buffer))) /\
  (0x99 ∉ QBCOpcode.values) /\
  QBC.encodeInstruction (QBC.mkInstruction 0x99 [Int 0]) = Throw (Error "Invalid opcode") /\
  Buffer.load [0x99; 0] 0 = Int 0x99 /\
  QBC.decodeInstruction [0x99; 0] 0 = Throw (Error "Unknown opcode").
Proof.
  split; [exact rx_instruction_listed|].
  split; [exact (proj1 (proj2 encode_decode_inverse) rx_instruction rx_instruction_listed)|].
  split; [exact unlisted_0x99|].
  split; [exact (proj1 (proj2 (proj2 encode_decode_inverse)) 0x99 [Int 0] unlisted_0x99)|].
  split; [reflexivity|].
  exact (proj2 (proj2 (proj2 encode_decode_inverse)) [0x99; 0] 0 0x99 eq_refl unlisted_0x99).
Defined.

(** ** C6: the classical ALU of the interpreter *)

Section ClassicalALU.
Import BytecodeInterpreter.

Lemma arr_get_in_range {A} (a : list A) (i : Z) (x : A) :
  arr_get a i = Some x -> 0 <= i < Z.of_nat (length a).
Proof.
  unfold arr_get. destruct (0 <=? i) eqn:E; [|discriminate].
  intros H. apply lookup_lt_Some in H. apply Z.leb_le in E. lia.
Qed.

Lemma dispatch_operation (operation : operation) :
  dispatch (opcode operation)
  = andThen (executeClassicalOperation operation) (fun _ => update incr_classicalOps).
Proof. destruct operation; reflexivity. Qed.

Lemma round_to_double_safe (z : Z) :
  Z.abs z <= MAX_SAFE_INTEGER -> round_to_double z = z.
Proof.
  unfold MAX_SAFE_INTEGER, round_to_double. intros H.
  destruct (Z.ltb_spec (Z.abs z) (2 ^ 53)); [reflexivity | lia].
Qed.

Lemma round_to_double_bound (z : Z) : Z.abs (round_to_double z) <= 2 * Z.abs z.
Proof.
  unfold round_to_double. cbv zeta.
  destruct (Z.ltb_spec (Z.abs z) (2 ^ 53)) as [|Hm]; [lia|].
  set (m := Z.abs z) in *.
  assert (Hlog : 53 <= Z.log2 m).
  { change 53 with (Z.log2 (2 ^ 53)). apply Z.log2_le_mono. exact Hm. }
  set (e := Z.log2 m - 52).
  assert (Hpos : 0 < m) by lia.
  pose proof (Z.log2_spec m Hpos) as [Hlo _].
  assert (He : 0 < 2 ^ e) by (apply Z.pow_pos_nonneg; lia).
  assert (Hle : 2 ^ e <= m).
  { etransitivity; [|exact Hlo]. apply Z.pow_le_mono_r; lia. }
  pose proof (Z.div_mod m (2 ^ e) ltac:(lia)) as Hdm.
  pose proof (Z.mod_pos_bound m (2 ^ e) He) as Hr.
  assert (Hq : 1 <= m / 2 ^ e) by (apply Z.div_le_lower_bound; lia).
  set (q := m / 2 ^ e) in *. set (r := m mod 2 ^ e) in *.
  match goal with
  | |- context [if ?c then q + 1 else q] => set (q' := if c then q + 1 else q)
  end.
  assert (Hq' : 0 <= q' <= q + 1) by (subst q'; destruct (_ || _); lia).
  rewrite Z.abs_mul.
  assert (Hs : Z.abs (Z.sgn z) <= 1) by lia.
  rewrite (Z.abs_eq (q' * 2 ^ e)) by nia.
  nia.
Qed.

Lemma number_run (z : Z) (s : t) :
  Z.abs z < 2 ^ 1023 -> number z s = Some (Ok (round_to_double z), s).
Proof.
  intros H. unfold number. pose proof (round_to_double_bound z).
  change (2 ^ 1024) with (2 * 2 ^ 1023).
  destruct (Z.ltb_spec (Z.abs (round_to_double z)) (2 * 2 ^ 1023)); [reflexivity | lia].
Qed.

Lemma number_safe (z : Z) (s : t) :
  Z.abs z <= MAX_SAFE_INTEGER -> number z s = Some (Ok z, s).
Proof.
  intros H. rewrite number_run.
  - rewrite round_to_double_safe by exact H. reflexivity.
  - eapply Z.le_lt_trans; [exact H|]. reflexivity.
Qed.

Variables (s : t) (operation : operation) (aAddr bAddr resultAddr a b : Z).
Hypothesis Hop : arr_get (bytecode s) (pc s) = Some (opcode operation).
Hypothesis HaAddr : arr_get (bytecode s) (pc s + 1) = Some aAddr.
Hypothesis HbAddr : arr_get (bytecode s) (pc s + 2) = Some bAddr.
Hypothesis HresultAddr : arr_get (bytecode s) (pc s + 3) = Some resultAddr.
Hypothesis Ha : classicalMemory s !! Some aAddr = Some a.
Hypothesis Hb : classicalMemory s !! Some bAddr = Some b.

(** The instruction up to the [switch (operation)]: the operands are
    fetched and read, [pc] is past the instruction. *)
Lemma executeNextInstruction_operation :
  executeNextInstruction s
  = match match operation with
          | ADD => number (a + b)
          | SUB => number (a - b)
          | MUL => number (a * b)
          | DIV => if b =? 0 then raise (Error "Division by zero")
                   else if Z.abs a <=? MAX_SAFE_INTEGER then pure (a / b) else beyond
          | AND => pure (js_and a b)
          | OR => pure (js_or a b)
          | XOR => pure (js_xor a b)
          | NOT => pure (js_not a)
          end (set_pc (pc s + 4) s) with
    | Some (Ok result, s') =>
        Some (Ok tt,
              incr_instructionsExecuted
                (incr_classicalOps
                   (set_classicalMemory (<[Some resultAddr := result]> (classicalMemory s'))
                      s')))
    | Some (Throw e, s') => Some (Throw e, s')
    | None => None
    end.
Proof.
  pose proof (arr_get_in_range _ _ _ Hop) as Hpc.
  unfold executeNextInstruction.
  replace (Z.of_nat (length (bytecode s)) <=? pc s) with false
    by (symmetry; apply Z.leb_gt; lia).
  unfold andThen at 1. unfold andThen at 1. unfold fetch at 1. rewrite Hop.
  rewrite dispatch_operation.
  unfold andThen at 1. unfold executeClassicalOperation.
  unfold andThen at 1. unfold fetch at 1. cbn [pc bytecode set_pc]. rewrite HaAddr.
  unfold andThen at 1. unfold fetch at 1. cbn [pc bytecode set_pc].
  replace (pc s + 1 + 1) with (pc s + 2) by lia. rewrite HbAddr.
  unfold andThen at 1. unfold fetch at 1. cbn [pc bytecode set_pc].
  replace (pc s + 2 + 1) with (pc s + 3) by lia. rewrite HresultAddr.
  unfold andThen at 1. unfold classicalMemory_get at 1, read.
  cbn [classicalMemory set_pc]. rewrite Ha.
  unfold andThen at 1. unfold classicalMemory_get at 1, read.
  cbn [classicalMemory set_pc]. rewrite Hb.
  replace (pc s + 3 + 1) with (pc s + 4) by lia.
  unfold andThen at 1.
  change (set_pc (pc s + 4) (set_pc (pc s + 3) (set_pc (pc s + 2) (set_pc (pc s + 1) s))))
    with (set_pc (pc s + 4) s).
  destruct (match operation with
            | ADD => number (a + b) | SUB => number (a - b) | MUL => number (a * b)
            | DIV => if b =? 0 then raise (Error "Division by zero")
                   else if Z.abs a <=? MAX_SAFE_INTEGER then pure (a / b) else beyond
            | AND => pure (js_and a b) | OR => pure (js_or a b)
            | XOR => pure (js_xor a b) | NOT => pure (js_not a)
            end (set_pc (pc s + 4) s)) as [[[result|e] s']|]; reflexivity.
Qed.

End ClassicalALU.

Section ClassicalALUTheorem.
Import BytecodeInterpreter.

Lemma loop_turn (maxInstructions : Z) (turns : nat) (s : t) :
  running s = true ->
  pc s < Z.of_nat (length (bytecode s)) ->
  instructionsExecuted (metrics s) < maxInstructions ->
  loop maxInstructions (S turns) s
  = andThen executeNextInstruction (fun _ => loop maxInstructions turns) s.
Proof.
  intros Hrun Hpc Hmax. cbn [loop]. rewrite Hrun.
  apply Z.ltb_lt in Hpc, Hmax. rewrite Hpc, Hmax. reflexivity.
Qed.

(** C6, as the code has it.  At an ALU instruction whose operands hold the
    32-bit signed values [a] and [b], the interpreter stores the result
    of the JavaScript operator and moves past the instruction: [ADD] and
    [SUB] store the exact sum and difference, which are not wrapped to 32
    bits; [MUL] stores the product as a number, which is the exact product
    up to [Number.MAX_SAFE_INTEGER] and the product rounded to 53
    significant bits above, not wrapped either; [DIV] with [b <> 0] stores
    [Math.floor(a / b)], the quotient rounded toward minus infinity; [AND],
    [OR], [XOR] and [NOT] store the bitwise results on two's complement.
    [DIV] with [b = 0] throws, and the run is aborted: the loop of
    [execute] stops with the error "Division by zero" recorded, [running]
    false and the classical memory as it was. *)
Theorem classical_ALU
    (s : t) (operation : operation) (aAddr bAddr resultAddr a b maxInstructions : Z) :
  running s = true ->
  instructionsExecuted (metrics s) < maxInstructions ->
  arr_get (bytecode s) (pc s) = Some (opcode operation) ->
  arr_get (bytecode s) (pc s + 1) = Some aAddr ->
  arr_get (bytecode s) (pc s + 2) = Some bAddr ->
  arr_get (bytecode s) (pc s + 3) = Some resultAddr ->
  classicalMemory s !! Some aAddr = Some a ->
  classicalMemory s !! Some bAddr = Some b ->
  - 2 ^ 31 <= a < 2 ^ 31 ->
  - 2 ^ 31 <= b < 2 ^ 31 ->
  (if match operation with DIV => b =? 0 | _ => false end
   then try_loop maxInstructions s = Some (aborted (Error "Division by zero") s)
   else executeNextInstruction s
        = Some (Ok tt,
                stored resultAddr
                  match operation with
                  | ADD => a + b
                  | SUB => a - b
                  | MUL => round_to_double (a * b)
                  | DIV => a / b
                  | AND => Z.land a b
                  | OR => Z.lor a b
                  | XOR => Z.lxor a b
                  | NOT => Z.lnot a
                  end s)) /\
  (Z.abs (a * b) <= MAX_SAFE_INTEGER -> round_to_double (a * b) = a * b).
Proof.
  intros Hrun Hmax Hop HaAddr HbAddr HrAddr Ha Hb Hra Hrb.
  split; [|apply round_to_double_safe].
  pose proof (executeNextInstruction_operation s operation aAddr bAddr resultAddr a b
                Hop HaAddr HbAddr HrAddr Ha Hb) as Hstep.
  pose proof (arr_get_in_range _ _ _ Hop) as Hpc.
  assert (Hsafe : forall z, Z.abs z <= 2 ^ 32 -> Z.abs z <= MAX_SAFE_INTEGER)
    by (unfold MAX_SAFE_INTEGER; intros; lia).
  assert (H62 : (2 ^ 62 < 2 ^ 1023)) by reflexivity.
  destruct operation;
    try (rewrite number_safe in Hstep by (apply Hsafe; lia); exact Hstep);
    try (rewrite number_run in Hstep by nia; exact Hstep);
    try (unfold js_and, js_or, js_xor, js_not in Hstep;
         rewrite !ToInt32_small in Hstep by lia; exact Hstep).
  destruct (b =? 0) eqn:E.
  - unfold try_loop.
    replace (Z.to_nat (maxInstructions - instructionsExecuted (metrics s)))
      with (S (Z.to_nat (maxInstructions - instructionsExecuted (metrics s) - 1)))
      by lia.
    rewrite loop_turn by (assumption || lia).
    unfold andThen. rewrite Hstep. reflexivity.
  - replace (Z.abs a <=? MAX_SAFE_INTEGER) with true in Hstep
      by (symmetry; apply Z.leb_le; apply Hsafe; lia).
    exact Hstep.
Qed.

Lemma classical_ALU_witness :
  executeNextInstruction at_div = Some (Ok tt, stored 2 (-7 / 2) at_div) /\
  try_loop 100 at_div_zero = Some (aborted (Error "Division by zero") at_div_zero) /\
  executeNextInstruction at_mul = Some (Ok tt, stored 2 (round_to_double 4294967296) at_mul) /\
  round_to_double 4294967296 = 4294967296 /\
  executeNextInstruction at_mul_max
  = Some (Ok tt, stored 2 (round_to_double (2147483647 * 2147483647)) at_mul_max) /\
  2147483647 * 2147483647 = 4611686014132420609 /\
  round_to_double (2147483647 * 2147483647) = 4611686014132420608.
Proof.
  split; [|split; [|split; [|split; [|split; [|split]]]]].
  - apply (proj1 (classical_ALU at_div DIV 0 1 2 (-7) 2 100
                    eq_refl eq_refl eq_refl eq_refl eq_refl eq_refl eq_refl eq_refl
                    ltac:(lia) ltac:(lia))).
  - apply (proj1 (classical_ALU at_div_zero DIV 0 1 2 1 0 100
                    eq_refl eq_refl eq_refl eq_refl eq_refl eq_refl eq_refl eq_refl
                    ltac:(lia) ltac:(lia))).
  - apply (proj1 (classical_ALU at_mul MUL 0 1 2 65536 65536 100
                    eq_refl eq_refl eq_refl eq_refl eq_refl eq_refl eq_refl eq_refl
                    ltac:(lia) ltac:(lia))).
  - apply (proj2 (classical_ALU at_mul MUL 0 1 2 65536 65536 100
                    eq_refl eq_refl eq_refl eq_refl eq_refl eq_refl eq_refl eq_refl
                    ltac:(lia) ltac:(lia))).
    vm_compute. discriminate.
  - apply (proj1 (classical_ALU at_mul_max MUL 0 1 2 2147483647 2147483647 100
                    eq_refl eq_refl eq_refl eq_refl eq_refl eq_refl eq_refl eq_refl
                    ltac:(lia) ltac:(lia))).
  - reflexivity.
  - vm_compute. reflexivity.
Defined.

(** For [-7] and [2] the stored quotient is [-4], not [-3]; the sum of
    [2147483647] and [1] is stored as [2147483648], which is no 32-bit
    signed value. *)
Lemma classical_ALU_counterexample :
  (exists r s',
      execute (Some 100) (loaded program_div) = Some (Ok r, s') /\
      result_classicalMemory r !! Some 0 = Some (-7) /\
      result_classicalMemory r !! Some 1 = Some 2 /\
      result_classicalMemory r !! Some 2 = Some (-4) /\
      Z.quot (-7) 2 = -3) /\
  (exists r s',
      execute (Some 100) (loaded program_add) = Some (Ok r, s') /\
      result_classicalMemory r !! Some 2 = Some 2147483648 /\
      ~ (- 2 ^ 31 <= 2147483648 < 2 ^ 31)).
Proof.
  split.
  - eexists. eexists. split; [vm_compute; reflexivity|].
    repeat split; vm_compute; reflexivity.
  - eexists. eexists. split; [vm_compute; reflexivity|].
    split; [vm_compute; reflexivity | lia].
Qed.

(** The whole run of [program_div_zero]: [execute] returns with
    [success] false and the error message, the [STORE] after the [DIV] has
    not run. *)
Lemma execute_program_div_zero :
  exists r s',
    execute (Some 100) (loaded program_div_zero) = Some (Ok r, s') /\
    success r = false /\
    result_error r = Some "Division by zero"%string /\
    result_classicalMemory r !! Some 2 = None /\
    result_classicalMemory r !! Some 3 = None /\
    running s' = false.
Proof.
  eexists. eexists. split; [vm_compute; reflexivity|].
  repeat split; vm_compute; reflexivity.
Qed.

End ClassicalALUTheorem.

(** * Further properties of the code *)

(** ** [StateVector]: allocation of amplitudes *)

Lemma normSquared_app_zeros (sv : list Cx) (m : nat) :
  StateVector.normSquared (sv ++ repeat czero m) = StateVector.normSquared sv.
Proof.
  unfold StateVector.normSquared. rewrite fold_left_app.
  assert (H : forall acc : number,
             fold_left (fun acc a => nadd acc (ComplexNumber.magnitudeSquared a))
                       (repeat czero m) acc = acc).
  { induction m as [|m IH]; intros acc; cbn [repeat fold_left]; [reflexivity|].
    rewrite IH. destruct acc as [x|]; cbn; [|reflexivity]. f_equal. lra. }
  apply H.
Qed.

Lemma amp_app_l (l1 l2 : list Cx) (i : Z) :
  0 <= i < Z.of_nat (length l1) -> amp (l1 ++ l2) i = amp l1 i.
Proof.
  intros Hi. unfold amp, arr_get. destruct (Z.leb_spec 0 i); [|lia].
  rewrite lookup_app_l by lia. reflexivity.
Qed.

Lemma amp_app_zeros_r (l : list Cx) (m : nat) (i : Z) :
  Z.of_nat (length l) <= i -> amp (l ++ repeat czero m) i = czero.
Proof.
  intros Hi. unfold amp, arr_get. destruct (Z.leb_spec 0 i); [|reflexivity].
  rewrite lookup_app_r by lia.
  destruct (repeat czero m !! (Z.to_nat i - length l)%nat) as [c|] eqn:E; [|reflexivity].
  apply list_elem_of_lookup_2, list_elem_of_In, repeat_spec in E. subst c. reflexivity.
Qed.

(** [expandStateVector] keeps every amplitude at its index and appends as
    many zero amplitudes, so the sum of the squared magnitudes is the same;
    it adds one to the qubit count and empties the probability cache.
    When the doubled length would exceed [2^maxQubits] it throws and only
    the cache has been emptied. *)
Theorem expandStateVector_doubles (this : StateVector.t) :
  let sv := StateVector.stateVector this in
  let L := Z.of_nat (length sv) in
  let cap := 2 ^ StateVector.maxQubits (StateVector.options this) in
  0 <= StateVector.maxQubits (StateVector.options this) ->
  (L * 2 <= cap ->
   StateVector.expandStateVector this = (Ok tt, expanded this) /\
   StateVector.normSquared (StateVector.stateVector (expanded this))
   = StateVector.normSquared sv /\
   forall i, 0 <= i < L ->
     amp (StateVector.stateVector (expanded this)) i = amp sv i /\
     amp (StateVector.stateVector (expanded this)) (i + L) = czero) /\
  (cap < L * 2 ->
   StateVector.expandStateVector this =
     (Throw (Error "Cannot expand state vector"), StateVector.set_probabilityCache [] this)).
Proof.
  intros sv L cap Hmax. subst sv L cap.
  unfold StateVector.expandStateVector, bind, StateVector.invalidateProbabilityCache,
    modify, get.
  cbn [StateVector.stateVector StateVector.options StateVector.set_probabilityCache].
  unfold StateVector.gt_pow2.
  destruct (Z.leb_spec 0 (StateVector.maxQubits (StateVector.options this))); [|lia].
  split; intros Hcap.
  - destruct (Z.ltb_spec (2 ^ StateVector.maxQubits (StateVector.options this))
                         (Z.of_nat (length (StateVector.stateVector this)) * 2)); [lia|].
    split; [reflexivity|]. cbn [expanded StateVector.stateVector].
    split; [apply normSquared_app_zeros|].
    intros i Hi. split; [apply amp_app_l; lia | apply amp_app_zeros_r; lia].
  - destruct (Z.ltb_spec (2 ^ StateVector.maxQubits (StateVector.options this))
                         (Z.of_nat (length (StateVector.stateVector this)) * 2)); [|lia].
    reflexivity.
Qed.

Lemma expandStateVector_doubles_witness :
  StateVector.expandStateVector ket0 = (Ok tt, expanded ket0) /\
  StateVector.expandStateVector ket0_full =
    (Throw (Error "Cannot expand state vector"), StateVector.set_probabilityCache [] ket0_full).
Proof.
  split.
  - refine (proj1 (proj1 (expandStateVector_doubles ket0 _) _)).
    + cbn. lia.
    + apply Z.leb_le. reflexivity.
  - refine (proj2 (expandStateVector_doubles ket0_full _) _).
    + cbn. lia.
    + apply Z.ltb_lt. reflexivity.
Defined.

(** ** [StateVector.applyCNOT] *)

Lemma cnot_transform_twice (sv : list Cx) (n c t : Z) :
  0 <= n <= 31 -> 0 <= c < n -> 0 <= t < n -> c <> t ->
  Z.of_nat (length sv) = 2 ^ n ->
  cnot_transform (cnot_transform sv c t) c t = sv.
Proof.
  intros Hn Hc Ht Hct Hlen.
  assert (Hlen1 : Z.of_nat (length (cnot_transform sv c t)) = 2 ^ n)
    by (rewrite cnot_transform_length; exact Hlen).
  apply list_eq_amp.
  - rewrite !cnot_transform_length. reflexivity.
  - intros i Hi. rewrite !cnot_transform_length, Hlen in Hi.
    rewrite (amp_cnot_transform _ n c t) by assumption.
    rewrite (amp_cnot_transform _ n c t)
      by (try assumption; apply cnot_source_range; assumption).
    rewrite cnot_source_involutive by lia. reflexivity.
Qed.

(** [applyCNOT(c, t)] applied twice gives the state vector back: on
    [2^n] amplitudes ([n <= 31]) and for distinct bit positions below [n]
    both calls succeed, the amplitudes after the second call are the
    original ones, and two gate operations have been counted. *)
Theorem applyCNOT_twice_restores (this : StateVector.t) (n c t : Z) :
  0 <= n <= 31 ->
  StateVector.qubitCount this = n ->
  Z.of_nat (length (StateVector.stateVector this)) = 2 ^ n ->
  0 <= c < n -> 0 <= t < n -> c <> t ->
  exists this1 this2,
    StateVector.applyCNOT c t this = (Ok tt, this1) /\
    StateVector.applyCNOT c t this1 = (Ok tt, this2) /\
    StateVector.stateVector this2 = StateVector.stateVector this /\
    StateVector.gateOperations (StateVector.metrics this2)
    = StateVector.gateOperations (StateVector.metrics this) + 2.
Proof.
  intros Hn Hq Hlen Hc Ht Hct.
  eexists. eexists.
  split; [apply (applyCNOT_run this n); assumption|].
  split.
  - apply (applyCNOT_run _ n); try assumption.
    cbn [after_gate StateVector.stateVector]. rewrite cnot_transform_length. exact Hlen.
  - cbn [after_gate StateVector.stateVector StateVector.metrics StateVector.gateOperations].
    split; [apply (cnot_transform_twice _ n); assumption | lia].
Qed.

Lemma applyCNOT_twice_restores_witness :
  exists this1 this2,
    StateVector.applyCNOT 0 1 two_qubits_index1 = (Ok tt, this1) /\
    StateVector.applyCNOT 0 1 this1 = (Ok tt, this2) /\
    StateVector.stateVector this2 = StateVector.stateVector two_qubits_index1 /\
    StateVector.gateOperations (StateVector.metrics this2)
    = StateVector.gateOperations (StateVector.metrics two_qubits_index1) + 2.
Proof.
  apply (applyCNOT_twice_restores two_qubits_index1 2 0 1);
    try reflexivity; lia.
Defined.

(** [applyCNOT] only moves amplitudes: the state vector it leaves is a
    permutation of the one it found, so the sum of the squared magnitudes
    is the same, whatever that sum was (the kernel does not call
    [normalize]). *)
Theorem applyCNOT_permutes (this : StateVector.t) (n c t : Z) :
  0 <= n <= 31 ->
  StateVector.qubitCount this = n ->
  Z.of_nat (length (StateVector.stateVector this)) = 2 ^ n ->
  0 <= c < n -> 0 <= t < n -> c <> t ->
  let this' := snd (StateVector.applyCNOT c t this) in
  fst (StateVector.applyCNOT c t this) = Ok tt /\
  Permutation (StateVector.stateVector this') (StateVector.stateVector this) /\
  StateVector.normSquared (StateVector.stateVector this')
  = StateVector.normSquared (StateVector.stateVector this).
Proof.
  intros Hn Hq Hlen Hc Ht Hct this'. subst this'.
  rewrite (applyCNOT_run this n) by assumption.
  cbn [fst snd after_gate StateVector.stateVector].
  pose proof (cnot_transform_perm _ n c t Hc Ht Hct Hlen) as Hp.
  split; [reflexivity|]. split; [exact Hp | apply normSquared_perm; exact Hp].
Qed.

Lemma applyCNOT_permutes_witness :
  Permutation (StateVector.stateVector (snd (StateVector.applyCNOT 0 1 two_qubits_index1)))
              (StateVector.stateVector two_qubits_index1).
Proof.
  refine (proj1 (proj2 (applyCNOT_permutes two_qubits_index1 2 0 1 _ _ _ _ _ _)));
    try reflexivity; lia.
Defined.

(** ** [StateVector]: rejected calls *)

Lemma validateQubitIndex_out (this : StateVector.t) (k : Z) :
  k < 0 \/ StateVector.qubitCount this <= k ->
  StateVector.validateQubitIndex k this
  = (Throw (Error "Qubit index out of bounds"), this).
Proof.
  intros H. unfold StateVector.validateQubitIndex, bind, get.
  destruct (Z.ltb_spec k 0); [reflexivity|].
  destruct (Z.leb_spec (StateVector.qubitCount this) k); [reflexivity | lia].
Qed.

(** A gate or a measurement on a bit position outside
    [0 .. qubitCount - 1] throws "Qubit index out of bounds" and leaves the
    object as it was, probability cache included; for the two-qubit
    kernels this holds for the control, and for the target when the
    control is valid. *)
Theorem out_of_range_index_rejected
    (this : StateVector.t) (k other : Z) (U : matrix) (u : R) :
  k < 0 \/ StateVector.qubitCount this <= k ->
  let rejected := (Throw (Error "Qubit index out of bounds"), this) in
  StateVector.applySingleQubitGate k U this = rejected /\
  StateVector.measureQubit u k this = (Throw (Error "Qubit index out of bounds"), this) /\
  StateVector.applyCNOT k other this = rejected /\
  StateVector.applyTwoQubitGate k other U this = rejected /\
  (0 <= other < StateVector.qubitCount this ->
   StateVector.applyCNOT other k this = rejected /\
   StateVector.applyTwoQubitGate other k U this = rejected).
Proof.
  intros H rejected. subst rejected.
  unfold StateVector.applySingleQubitGate, StateVector.measureQubit,
    StateVector.applyCNOT, StateVector.applyTwoQubitGate.
  repeat split; try intros Hother; unfold bind at 1;
    rewrite ?(validateQubitIndex_ok this other) by lia;
    try (unfold bind at 1);
    rewrite (validateQubitIndex_out this k H); reflexivity.
Qed.

Lemma out_of_range_index_rejected_witness :
  StateVector.applySingleQubitGate 1 GATES.X ket0
  = (Throw (Error "Qubit index out of bounds"), ket0) /\
  StateVector.applyCNOT 0 2 two_qubits_index1
  = (Throw (Error "Qubit index out of bounds"), two_qubits_index1).
Proof.
  split.
  - refine (proj1 (out_of_range_index_rejected ket0 1 0 GATES.X 0 _)).
    right. cbn. lia.
  - refine (proj1 (proj2 (proj2 (proj2 (proj2
              (out_of_range_index_rejected two_qubits_index1 2 0 GATES.CNOT 0 _)))) _)).
    + right. cbn. lia.
    + cbn. lia.
Defined.

(** A two-qubit kernel called with the same valid bit position as control
    and target throws "Control and target qubits must be different"; the
    amplitudes are untouched, but the probability cache has been emptied
    by then. *)
Theorem same_qubit_rejected (this : StateVector.t) (c : Z) :
  0 <= c < StateVector.qubitCount this ->
  let rejected :=
    (Throw (Error "Control and target qubits must be different"),
     StateVector.set_probabilityCache [] this) in
  StateVector.applyCNOT c c this = rejected /\
  StateVector.applyTwoQubitGate c c GATES.CNOT this = rejected.
Proof.
  intros Hc rejected. subst rejected.
  unfold StateVector.applyCNOT, StateVector.applyTwoQubitGate, bind.
  rewrite !validateQubitIndex_ok by lia.
  change (StateVector.validateGateMatrix GATES.CNOT 4 this) with (@Ok unit tt, this).
  cbv beta iota delta [StateVector.invalidateProbabilityCache modify].
  rewrite Z.eqb_refl. split; reflexivity.
Qed.

Lemma same_qubit_rejected_witness :
  StateVector.applyCNOT 1 1 two_qubits_index1
  = (Throw (Error "Control and target qubits must be different"),
     StateVector.set_probabilityCache [] two_qubits_index1).
Proof.
  refine (proj1 (same_qubit_rejected two_qubits_index1 1 _)). cbn. lia.
Defined.

(** ** [StateVector]: the X gate, [setStateVector], [reset] *)

(** What [applySingleQubitGate] does when the transformed vector has a
    norm that [normalize] accepts. *)
Lemma applySingleQubitGate_run (this : StateVector.t) (n k : Z) (U00 U01 U10 U11 : Cx) :
  0 <= n <= 31 ->
  StateVector.qubitCount this = n ->
  Z.of_nat (length (StateVector.stateVector this)) = 2 ^ n ->
  0 <= k < n ->
  within_precision (StateVector.precision (StateVector.options this))
    (pair_transform (StateVector.stateVector this) k U00 U01 U10 U11) ->
  StateVector.applySingleQubitGate k (mat2 U00 U01 U10 U11) this =
    (Ok tt, after_gate this (pair_transform (StateVector.stateVector this) k U00 U01 U10 U11)).
Proof.
  intros Hn Hq Hlen Hk Hnorm.
  unfold StateVector.applySingleQubitGate, bind.
  rewrite validateQubitIndex_ok by lia.
  change (StateVector.validateGateMatrix (mat2 U00 U01 U10 U11) 2 this)
    with (@Ok unit tt, this).
  cbv beta iota delta [StateVector.invalidateProbabilityCache modify get lift_res].
  cbn [StateVector.stateVector StateVector.set_probabilityCache].
  rewrite (single_kernel_pair_transform _ n) by assumption.
  rewrite normalize_within by exact Hnorm.
  reflexivity.
Qed.

Lemma flip_transform_length (sv : list Cx) (k : Z) :
  length (flip_transform sv k) = length sv.
Proof. unfold flip_transform, upto. rewrite !length_map, length_seq. reflexivity. Qed.

Lemma amp_flip_transform (sv : list Cx) (k x : Z) :
  0 <= x < Z.of_nat (length sv) ->
  amp (flip_transform sv k) x = amp sv (Z.lxor x (2 ^ k)).
Proof.
  intros Hx. unfold flip_transform. unfold amp at 1. unfold arr_get.
  destruct (Z.leb_spec 0 x); [|lia].
  rewrite list_lookup_fmap. unfold upto. rewrite list_lookup_fmap.
  rewrite lookup_seq_lt by lia. cbn. rewrite Z2Nat.id by lia. reflexivity.
Qed.

Lemma cmul_1_l (a : Cx) : finite_cx a -> ComplexNumber.multiply (cx 1 0) a = a.
Proof. intros H. rewrite cmul_comm. apply cmul_1_r. exact H. Qed.

Lemma cmul_0_l (a : Cx) : finite_cx a -> ComplexNumber.multiply (cx 0 0) a = czero.
Proof. intros H. rewrite cmul_comm. apply cmul_0_r. exact H. Qed.

Lemma pair_transform_X (sv : list Cx) (n k : Z) :
  0 <= k < n -> Z.of_nat (length sv) = 2 ^ n -> finite_vector sv ->
  pair_transform sv k (cx 0 0) (cx 1 0) (cx 1 0) (cx 0 0) = flip_transform sv k.
Proof.
  intros Hk Hlen Hfin. apply list_eq_amp.
  - rewrite pair_transform_length, flip_transform_length. reflexivity.
  - intros i Hi. rewrite pair_transform_length in Hi.
    rewrite amp_pair_transform, amp_flip_transform by lia.
    rewrite !cmul_0_l, !cmul_1_l by (apply amp_finite; exact Hfin).
    destruct (Z.testbit i k); [apply cadd_0_r | apply cadd_0_l].
Qed.

Lemma flip_transform_perm (sv : list Cx) (n k : Z) :
  0 <= k < n -> Z.of_nat (length sv) = 2 ^ n ->
  Permutation (flip_transform sv k) sv.
Proof.
  intros Hk Hlen.
  assert (E : Permutation (map (amp sv) (map (fun x => Z.lxor x (2 ^ k)) (upto (length sv))))
                          (map (amp sv) (upto (length sv)))).
  2: { rewrite <- sv_as_map, map_map in E. exact E. }
  apply Permutation_map. apply Permutation.NoDup_Permutation.
  - apply NoDup_map_injective; [|apply NoDup_upto].
    intros a b E. apply (f_equal (fun x => Z.lxor x (2 ^ k))) in E.
    rewrite !flip_flip in E. exact E.
  - apply NoDup_upto.
  - intros x. rewrite in_map_iff. setoid_rewrite in_upto. rewrite Hlen. split.
    + intros (y & <- & Hy). apply flip_range; assumption.
    + intros Hx. exists (Z.lxor x (2 ^ k)). split.
      * apply flip_flip.
      * apply flip_range; assumption.
Qed.



(** [setStateVector(v)] checks the length against [2^qubitCount]: a vector
    of another length is refused and the object is left as it was; a
    vector of that length whose norm is within the precision of 1 is
    stored as given, and the probability cache is emptied. *)
Theorem setStateVector_checks_length (this : StateVector.t) (v : list Cx) :
  0 <= StateVector.qubitCount this ->
  (Z.of_nat (length v) <> 2 ^ StateVector.qubitCount this ->
   StateVector.setStateVector v this = (Throw (Error "Invalid state vector size"), this)) /\
  (Z.of_nat (length v) = 2 ^ StateVector.qubitCount this ->
   within_precision (StateVector.precision (StateVector.options this)) v ->
   StateVector.setStateVector v this = (Ok tt, after_set this v)).
Proof.
  intros Hq. unfold StateVector.setStateVector, bind, get. split.
  - intros Hne.
    destruct (Z.eqb_spec (Z.of_nat (length v)) (2 ^ StateVector.qubitCount this));
      [contradiction | reflexivity].
  - intros Hlen Hnorm. rewrite Hlen, Z.eqb_refl. cbn [negb].
    cbv beta iota delta [modify].
    rewrite normalize_within by exact Hnorm.
    reflexivity.
Qed.

Lemma setStateVector_checks_length_witness :
  StateVector.setStateVector [cx 1 0] ket0
  = (Throw (Error "Invalid state vector size"), ket0) /\
  StateVector.setStateVector [cx (3 / 5) 0; cx (4 / 5) 0] ket0
  = (Ok tt, after_set ket0 [cx (3 / 5) 0; cx (4 / 5) 0]).
Proof.
  split.
  - refine (proj1 (setStateVector_checks_length ket0 [cx 1 0] _) _).
    + cbn. lia.
    + cbn. lia.
  - refine (proj2 (setStateVector_checks_length ket0 [cx (3 / 5) 0; cx (4 / 5) 0] _) _ _).
    + cbn. lia.
    + reflexivity.
    + eapply within_precision_norm1.
      * vm_compute. reflexivity.
      * lra.
      * pose proof eps10_pos. lra.
Defined.

Lemma basis0_length (n : Z) : 0 <= n -> Z.of_nat (length (basis0 n)) = 2 ^ n.
Proof.
  intros Hn. unfold basis0. cbn [length]. rewrite repeat_length.
  pose proof (Z.pow_pos_nonneg 2 n ltac:(lia) Hn). lia.
Qed.

Lemma basis0_norm (n : Z) : StateVector.normSquared (basis0 n) = Num 1.
Proof.
  unfold basis0. change (cx 1 0 :: ?l) with ([cx 1 0] ++ l).
  rewrite normSquared_app_zeros. cbn. f_equal. lra.
Qed.

Lemma initializeStateVector_run (opts : StateVector.options_t) (n : Z) :
  0 <= n ->
  0 <= StateVector.maxQubits opts ->
  StateVector.initializeStateVector opts n =
    if n <=? StateVector.maxQubits opts then Ok (basis0 n)
    else Throw (Error "Cannot initialize state vector").
Proof.
  intros Hn Hmax. unfold StateVector.initializeStateVector, StateVector.gt_pow2.
  destruct (Z.leb_spec 0 (StateVector.maxQubits opts)); [|lia].
  destruct (Z.leb_spec n (StateVector.maxQubits opts)) as [Hle | Hgt].
  - pose proof (Z.pow_le_mono_r 2 n (StateVector.maxQubits opts) ltac:(lia) Hle).
    destruct (Z.ltb_spec (2 ^ StateVector.maxQubits opts) (2 ^ n)); [lia | reflexivity].
  - pose proof (Z.pow_lt_mono_r 2 (StateVector.maxQubits opts) n ltac:(lia) ltac:(lia) Hgt).
    destruct (Z.ltb_spec (2 ^ StateVector.maxQubits opts) (2 ^ n)); [reflexivity | lia].
Qed.

(** [new StateVector(n, options)] with [0 <= n <= maxQubits] and
    [n <= 31] (an array holds fewer than [2^32] elements) builds the basis
    state |0...0>: [2^n] amplitudes, the first one 1 and all others 0,
    squared magnitudes summing to 1; with [n > maxQubits] the constructor
    throws ([maxQubits <= 1023], so that [Math.pow(2, maxQubits)] is a
    finite number). *)
Theorem constructor_basis_state (n : Z) (opts : StateVector.options_t) :
  0 <= n ->
  0 <= StateVector.maxQubits opts <= 1023 ->
  (n <= StateVector.maxQubits opts -> n <= 31 ->
   exists this,
     StateVector.constructor n opts = Ok this /\
     StateVector.qubitCount this = n /\
     Z.of_nat (length (StateVector.stateVector this)) = 2 ^ n /\
     amp (StateVector.stateVector this) 0 = cx 1 0 /\
     (forall i, 0 < i -> amp (StateVector.stateVector this) i = czero) /\
     StateVector.normSquared (StateVector.stateVector this) = Num 1) /\
  (StateVector.maxQubits opts < n ->
   StateVector.constructor n opts = Throw (Error "Cannot initialize state vector")).
Proof.
  intros Hn Hmax. unfold StateVector.constructor.
  rewrite initializeStateVector_run by lia.
  split; [intros H _ | intros H].
  - destruct (Z.leb_spec n (StateVector.maxQubits opts)); [|lia].
    cbn [rbind]. eexists. split; [reflexivity|].
    cbn [StateVector.qubitCount StateVector.stateVector].
    split; [reflexivity|]. split; [apply basis0_length; exact Hn|].
    split; [reflexivity|]. split; [|apply basis0_norm].
    intros i Hi. unfold basis0.
    change (cx 1 0 :: ?l) with ([cx 1 0] ++ l).
    apply amp_app_zeros_r. cbn. lia.
  - destruct (Z.leb_spec n (StateVector.maxQubits opts)); [lia|]. reflexivity.
Qed.

Lemma constructor_basis_state_witness :
  (exists this,
      StateVector.constructor 2 (StateVector.mkOptions (Num eps10) 32) = Ok this /\
      StateVector.qubitCount this = 2 /\
      Z.of_nat (length (StateVector.stateVector this)) = 2 ^ 2 /\
      amp (StateVector.stateVector this) 0 = cx 1 0 /\
      (forall i, 0 < i -> amp (StateVector.stateVector this) i = czero) /\
      StateVector.normSquared (StateVector.stateVector this) = Num 1) /\
  StateVector.constructor 3 (StateVector.mkOptions (Num eps10) 2)
  = Throw (Error "Cannot initialize state vector").
Proof.
  split.
  - refine (proj1 (constructor_basis_state 2 (StateVector.mkOptions (Num eps10) 32) _ _) _ _);
      cbn; lia.
  - refine (proj2 (constructor_basis_state 3 (StateVector.mkOptions (Num eps10) 2) _ _) _);
      cbn; lia.
Defined.

(** [reset()] puts the basis state |0...0> back for the same number of
    qubits: the vector does not shrink, the gate counter is zeroed and
    the probability cache emptied. *)
Theorem reset_keeps_size (this : StateVector.t) :
  0 <= StateVector.qubitCount this <= StateVector.maxQubits (StateVector.options this) ->
  exists this',
    StateVector.reset this = (Ok tt, this') /\
    StateVector.qubitCount this' = StateVector.qubitCount this /\
    StateVector.stateVector this' = basis0 (StateVector.qubitCount this) /\
    Z.of_nat (length (StateVector.stateVector this')) = 2 ^ StateVector.qubitCount this /\
    StateVector.probabilityCache this' = [] /\
    StateVector.gateOperations (StateVector.metrics this') = 0.
Proof.
  intros Hq. unfold StateVector.reset, bind, get, lift_res.
  rewrite initializeStateVector_run by lia.
  destruct (Z.leb_spec (StateVector.qubitCount this)
                       (StateVector.maxQubits (StateVector.options this))); [|lia].
  eexists. split; [reflexivity|].
  cbn. split; [reflexivity|]. split; [reflexivity|].
  split; [apply basis0_length; lia|]. split; reflexivity.
Qed.

Lemma reset_keeps_size_witness :
  exists this',
    StateVector.reset ket_3_4 = (Ok tt, this') /\
    StateVector.qubitCount this' = StateVector.qubitCount ket_3_4 /\
    StateVector.stateVector this' = basis0 (StateVector.qubitCount ket_3_4) /\
    Z.of_nat (length (StateVector.stateVector this')) = 2 ^ StateVector.qubitCount ket_3_4 /\
    StateVector.probabilityCache this' = [] /\
    StateVector.gateOperations (StateVector.metrics this') = 0.
Proof.
  apply (reset_keeps_size ket_3_4). cbn. lia.
Defined.

(** ** [QubitRegistry] *)

Lemma Map_get_delete_eq {V} (m : list (string * V)) (s : string) :
  Map_get (Map_delete m s) (KStr s) = None.
Proof.
  unfold Map_delete, Map_get. induction m as [|[s' v'] m IH]; [reflexivity|].
  cbn [List.filter fst]. destruct (String.eqb_spec s' s) as [-> | Hne]; cbn [negb].
  - exact IH.
  - cbn [List.find fst]. apply String.eqb_neq in Hne. rewrite Hne. exact IH.
Qed.

Lemma Map_get_delete_ne {V} (m : list (string * V)) (s s' : string) :
  s <> s' -> Map_get (Map_delete m s) (KStr s') = Map_get m (KStr s').
Proof.
  intros Hne. unfold Map_delete, Map_get. induction m as [|[s0 v0] m IH]; [reflexivity|].
  cbn [List.filter fst]. destruct (String.eqb_spec s0 s) as [-> | Hne0]; cbn [negb].
  - cbn [List.find fst]. apply String.eqb_neq in Hne. rewrite Hne. exact IH.
  - cbn [List.find fst]. destruct (String.eqb s0 s'); [reflexivity | exact IH].
Qed.

Lemma expandStateVector_run (this : StateVector.t) :
  0 <= StateVector.maxQubits (StateVector.options this) ->
  Z.of_nat (length (StateVector.stateVector this)) * 2
  <= 2 ^ StateVector.maxQubits (StateVector.options this) ->
  StateVector.expandStateVector this = (Ok tt, expanded this).
Proof.
  intros Hmax Hcap.
  unfold StateVector.expandStateVector, bind, StateVector.invalidateProbabilityCache,
    modify, get.
  cbn [StateVector.stateVector StateVector.options StateVector.set_probabilityCache].
  unfold StateVector.gt_pow2.
  destruct (Z.leb_spec 0 (StateVector.maxQubits (StateVector.options this))); [|lia].
  destruct (Z.ltb_spec (2 ^ StateVector.maxQubits (StateVector.options this))
                       (Z.of_nat (length (StateVector.stateVector this)) * 2)); [lia|].
  reflexivity.
Qed.

Lemma allocateQubit_run (w : VM) :
  Z.of_nat (length (qubits (vm_registry w))) < registry_maxQubits (vm_registry w) ->
  0 <= StateVector.maxQubits (StateVector.options (vm_stateVector w)) ->
  Z.of_nat (length (StateVector.stateVector (vm_stateVector w))) * 2
  <= 2 ^ StateVector.maxQubits (StateVector.options (vm_stateVector w)) ->
  let this := vm_registry w in
  let src := vm_sources w in
  let qubitId := uuidv4 src (uuid_calls src) in
  QubitRegistry.allocateQubit w =
    (Ok qubitId,
     mkVM (expanded (vm_stateVector w))
          (mkRegistry (Map_set (qubits this) qubitId (nextQubitIndex this))
                      (Map_set (entanglementGroups this) qubitId (length (groupSets this)))
                      (groupSets this ++ [[qubitId]])
                      (nextQubitIndex this + 1) (registry_maxQubits this))
          (vm_engine w) (vm_executor w)
          (mkSources (uuidv4 src) (S (uuid_calls src)) (Math_random src)
                     (random_calls src) (Date_now src) (now_calls src))).
Proof.
  intros Hsize Hmax Hcap this src qubitId. subst this src qubitId.
  unfold QubitRegistry.allocateQubit, bind, get.
  destruct (Z.leb_spec (registry_maxQubits (vm_registry w))
                       (Z.of_nat (length (qubits (vm_registry w))))); [lia|].
  unfold call_uuidv4, QubitRegistry.modify_registry, modify, on_stateVector.
  cbn [vm_stateVector vm_registry set_vm_registry set_vm_sources set_vm_stateVector
       vm_engine vm_executor vm_sources].
  rewrite expandStateVector_run by assumption.
  reflexivity.
Qed.

(** A successful [allocateQubit()]: when the registry is below its limit,
    the state vector can still double and [uuidv4()] returns a handle that
    is not live, the call returns that handle, gives it the bit position
    [nextQubitIndex], leaves every other handle at its position, doubles
    the state vector (see [expandStateVector]) and puts the new handle in an
    entanglement group of its own. *)
Theorem allocateQubit_registers (w : VM) :
  let this := vm_registry w in
  let qubitId := uuidv4 (vm_sources w) (uuid_calls (vm_sources w)) in
  Z.of_nat (length (qubits this)) < registry_maxQubits this ->
  0 <= StateVector.maxQubits (StateVector.options (vm_stateVector w)) ->
  Z.of_nat (length (StateVector.stateVector (vm_stateVector w))) * 2
  <= 2 ^ StateVector.maxQubits (StateVector.options (vm_stateVector w)) ->
  Map_get (qubits this) (KStr qubitId) = None ->
  exists w',
    QubitRegistry.allocateQubit w = (Ok qubitId, w') /\
    QubitRegistry.getQubitIndex (KStr qubitId) w' = (Ok (nextQubitIndex this), w') /\
    (forall h, h <> qubitId ->
       Map_get (qubits (vm_registry w')) (KStr h) = Map_get (qubits this) (KStr h)) /\
    QubitRegistry.getQubitCount w' = (Ok (Z.of_nat (length (qubits this)) + 1), w') /\
    nextQubitIndex (vm_registry w') = nextQubitIndex this + 1 /\
    vm_stateVector w' = expanded (vm_stateVector w) /\
    QubitRegistry.areEntangled qubitId qubitId w' = (Ok true, w') /\
    QubitRegistry.getEntangledQubits qubitId w' = (Ok [], w').
Proof.
  intros this qubitId Hsize Hmax Hcap Hfresh. subst this qubitId.
  eexists. split; [apply allocateQubit_run; assumption|].
  set (qubitId := uuidv4 (vm_sources w) (uuid_calls (vm_sources w))) in *.
  split.
  { unfold QubitRegistry.getQubitIndex, bind, get.
    cbn [vm_registry qubits]. rewrite Map_get_set_eq. reflexivity. }
  split.
  { intros h Hh. cbn [vm_registry qubits]. apply Map_get_set_ne. congruence. }
  split.
  { unfold QubitRegistry.getQubitCount, bind, get, ret. cbn [vm_registry qubits].
    rewrite Map_set_length_fresh by exact Hfresh. do 2 f_equal. lia. }
  split; [reflexivity|]. split; [reflexivity|].
  split.
  - unfold QubitRegistry.areEntangled, bind, get, ret.
    cbn [vm_registry entanglementGroups]. rewrite Map_get_set_eq.
    unfold QubitRegistry.group_at. cbn [groupSets].
    rewrite lookup_app_r by lia. rewrite Nat.sub_diag. cbn.
    rewrite String.eqb_refl. reflexivity.
  - unfold QubitRegistry.getEntangledQubits, bind, get, ret.
    cbn [vm_registry entanglementGroups]. rewrite Map_get_set_eq.
    unfold QubitRegistry.group_at. cbn [groupSets].
    rewrite lookup_app_r by lia. rewrite Nat.sub_diag. cbn.
    rewrite String.eqb_refl. reflexivity.
Qed.

Lemma allocateQubit_registers_witness :
  exists w',
    QubitRegistry.allocateQubit (initial_vm 32 32) = (Ok "q0"%string, w') /\
    QubitRegistry.getQubitIndex (KStr "q0") w' = (Ok 0, w') /\
    vm_stateVector w' = expanded (vm_stateVector (initial_vm 32 32)).
Proof.
  destruct (allocateQubit_registers (initial_vm 32 32)) as (w' & H1 & H2 & _ & _ & _ & H6 & _).
  - apply Z.ltb_lt. reflexivity.
  - apply Z.leb_le. reflexivity.
  - apply Z.leb_le. reflexivity.
  - reflexivity.
  - exists w'. split; [exact H1|]. split; [exact H2 | exact H6].
Defined.

Lemma Map_get_In {V} (m : list (string * V)) (h : string) (v : V) :
  Map_get m (KStr h) = Some v -> In (h, v) m.
Proof.
  unfold Map_get. destruct (List.find _ m) as [[h' v']|] eqn:E; [|discriminate].
  cbn. intros [= ->]. apply find_some in E. destruct E as [Hin Heq].
  cbn in Heq. apply String.eqb_eq in Heq. subst h'. exact Hin.
Qed.

Lemma Set_has_delete (g : list string) (q : string) : Set_has (Set_delete g q) q = false.
Proof.
  unfold Set_has, Set_delete. induction g as [|y g IH]; [reflexivity|].
  cbn [List.filter]. destruct (String.eqb_spec y q) as [-> | Hne]; cbn [negb]; [exact IH|].
  cbn [existsb]. rewrite IH, orb_false_r. apply String.eqb_neq. congruence.
Qed.

(** After the loop of [deallocateQubit] no [Set] that an entry refers to
    holds the handle. *)
Lemma delete_from_groups_lookup (q : string) (entries : list (string * nat))
    (sets : list (list string)) (a : nat) :
  (exists h, In (h, a) entries) ->
  Set_has (default [] (QubitRegistry.delete_from_groups q entries sets !! a)) q = false.
Proof.
  unfold QubitRegistry.delete_from_groups.
  assert (Hkeep : forall (entries : list (string * nat)) (sets : list (list string)),
             Set_has (default [] (sets !! a)) q = false ->
             Set_has (default []
               (fold_left (fun (sets : list (list string)) (e : string * nat) =>
                             alter (fun group => Set_delete group q) (snd e) sets)
                          entries sets !! a)) q = false).
  { clear. induction entries as [|[h' a'] entries IH]; intros sets H; [exact H|].
    cbn [fold_left snd]. apply IH. rewrite list_lookup_alter.
    destruct (decide (a' = a)) as [-> | _]; [|exact H].
    destruct (sets !! a); cbn; [apply Set_has_delete | reflexivity]. }
  revert sets. induction entries as [|[h' a'] entries IH]; intros sets [h Hin].
  - destruct Hin.
  - cbn [fold_left snd]. destruct Hin as [[= -> ->] | Hin].
    + apply Hkeep. rewrite list_lookup_alter.
      destruct (decide (a = a)); [|congruence].
      destruct (sets !! a); cbn; [apply Set_has_delete | reflexivity].
    + apply IH. exists h. exact Hin.
Qed.

(** [deallocateQubit(q)]: for a handle that is not live the answer is
    [false] and nothing changes; for a live handle the answer is [true],
    the handle is no longer found, no entanglement group lists it, every
    other handle keeps its position, and neither the state vector nor
    [nextQubitIndex] changes, so the bit position is not handed out again;
    a handle that is live but has no entanglement group (left behind by an
    allocation that failed while expanding) makes the call a TypeError. *)
Theorem deallocateQubit_effect (w : VM) (q : string) :
  let this := vm_registry w in
  (Map_get (qubits this) (KStr q) = None ->
   QubitRegistry.deallocateQubit q w = (Ok false, w)) /\
  (forall idx group,
     Map_get (qubits this) (KStr q) = Some idx ->
     Map_get (entanglementGroups this) (KStr q) = Some group ->
     exists w',
       QubitRegistry.deallocateQubit q w = (Ok true, w') /\
       QubitRegistry.getQubitIndex (KStr q) w' = (Throw (Error "Qubit not found"), w') /\
       (forall h, h <> q ->
          Map_get (qubits (vm_registry w')) (KStr h) = Map_get (qubits this) (KStr h)) /\
       (forall h, QubitRegistry.areEntangled h q w' = (Ok false, w')) /\
       vm_stateVector w' = vm_stateVector w /\
       nextQubitIndex (vm_registry w') = nextQubitIndex this) /\
  (forall idx,
     Map_get (qubits this) (KStr q) = Some idx ->
     Map_get (entanglementGroups this) (KStr q) = None ->
     QubitRegistry.deallocateQubit q w =
       (Throw (TypeError "Cannot read properties of undefined (reading 'size')"), w)).
Proof.
  intros this. subst this. unfold QubitRegistry.deallocateQubit, bind, get.
  split; [|split].
  - intros H. rewrite H. reflexivity.
  - intros idx group Hq Hg. rewrite Hq, Hg.
    unfold QubitRegistry.modify_registry, modify, ret.
    eexists. split; [reflexivity|].
    split.
    { unfold QubitRegistry.getQubitIndex, bind, get.
      cbn [vm_registry set_vm_registry qubits]. rewrite Map_get_delete_eq. reflexivity. }
    split.
    { intros h Hh. cbn [vm_registry set_vm_registry qubits].
      apply Map_get_delete_ne. congruence. }
    split; [|split; reflexivity].
    intros h. unfold QubitRegistry.areEntangled, bind, get, ret.
    cbn [vm_registry set_vm_registry entanglementGroups].
    destruct (String.eqb_spec h q) as [-> | Hne].
    + rewrite Map_get_delete_eq. reflexivity.
    + rewrite Map_get_delete_ne by congruence.
      destruct (Map_get (entanglementGroups (vm_registry w)) (KStr h)) as [a|] eqn:Ea;
        [|reflexivity].
      unfold QubitRegistry.group_at. cbn [groupSets].
      rewrite delete_from_groups_lookup; [reflexivity|].
      exists h. apply Map_get_In. exact Ea.
  - intros idx Hq Hg. rewrite Hq, Hg. reflexivity.
Qed.

Lemma deallocateQubit_effect_witness :
  let w2 := after_allocations 2 (initial_vm 32 32) in
  QubitRegistry.deallocateQubit "zz" w2 = (Ok false, w2) /\
  (exists w',
      QubitRegistry.deallocateQubit "q0" w2 = (Ok true, w') /\
      QubitRegistry.getQubitIndex (KStr "q0") w' = (Throw (Error "Qubit not found"), w') /\
      vm_stateVector w' = vm_stateVector w2) /\
  (let w3 := after_allocations 3 (initial_vm 2 32) in
   QubitRegistry.deallocateQubit "q2" w3 =
     (Throw (TypeError "Cannot read properties of undefined (reading 'size')"), w3)).
Proof.
  intros w2. split; [|split].
  - refine (proj1 (deallocateQubit_effect w2 "zz") _). reflexivity.
  - destruct (proj1 (proj2 (deallocateQubit_effect w2 "q0")) 0 0%nat eq_refl eq_refl)
      as (w' & H1 & H2 & _ & _ & H5 & _).
    exists w'. split; [exact H1|]. split; [exact H2 | exact H5].
  - intros w3.
    refine (proj2 (proj2 (deallocateQubit_effect w3 "q2")) 2 _ _); reflexivity.
Defined.

Lemma Set_has_add (s : list string) (y x : string) :
  Set_has (Set_add s y) x = Set_has s x || String.eqb x y.
Proof.
  unfold Set_add. destruct (Set_has s y) eqn:E.
  - destruct (String.eqb_spec x y) as [-> | _]; [rewrite E; reflexivity|].
    rewrite orb_false_r. reflexivity.
  - unfold Set_has. rewrite existsb_app. cbn. rewrite orb_false_r. reflexivity.
Qed.

Lemma Set_has_from (l : list string) (x : string) :
  Set_has (Set_from l) x = existsb (String.eqb x) l.
Proof.
  unfold Set_from.
  assert (H : forall acc, Set_has (fold_left Set_add l acc) x
                          = Set_has acc x || existsb (String.eqb x) l).
  { induction l as [|y l IH]; intros acc; cbn [fold_left existsb].
    - rewrite orb_false_r. reflexivity.
    - rewrite IH, Set_has_add, orb_assoc. reflexivity. }
  rewrite H. reflexivity.
Qed.

Lemma existsb_Set_from (l : list string) (x : string) :
  existsb (String.eqb x) (Set_from l) = existsb (String.eqb x) l.
Proof. exact (Set_has_from l x). Qed.

(** The loop of [recordEntanglement]: every member of the merged group
    refers to the merged group, every other handle to the group it had. *)
Lemma Map_get_point_all {V} (l : list string) (a : V) (m : list (string * V)) (h : string) :
  Map_get (fold_left (fun groups qubitId => Map_set groups qubitId a) l m) (KStr h)
  = if existsb (String.eqb h) l then Some a else Map_get m (KStr h).
Proof.
  revert m. induction l as [|y l IH]; intros m; cbn [fold_left existsb]; [reflexivity|].
  rewrite IH. destruct (existsb (String.eqb h) l); [rewrite orb_true_r; reflexivity|].
  rewrite orb_false_r. destruct (String.eqb_spec h y) as [-> | Hne].
  - apply Map_get_set_eq.
  - apply Map_get_set_ne. congruence.
Qed.

(** [recordEntanglement(q1, q2)] for two handles that have a group and
    belong to it: a new [Set] holding the members of both groups is
    created and every member is made to refer to it, so afterwards
    [areEntangled] answers [true] between any member of the first group
    and any member of the second, in both directions; the handles'
    positions and the state vector are not touched.  When one of the two
    handles has no group the call throws and nothing changes. *)
Theorem recordEntanglement_merges (w : VM) (q1 q2 : string) :
  let this := vm_registry w in
  (forall g1 g2,
     Map_get (entanglementGroups this) (KStr q1) = Some g1 ->
     Map_get (entanglementGroups this) (KStr q2) = Some g2 ->
     exists w',
       QubitRegistry.recordEntanglement q1 q2 w = (Ok tt, w') /\
       (forall a b,
          Set_has (QubitRegistry.group_at this g1 ++ QubitRegistry.group_at this g2) a = true ->
          Set_has (QubitRegistry.group_at this g1 ++ QubitRegistry.group_at this g2) b = true ->
          QubitRegistry.areEntangled a b w' = (Ok true, w')) /\
       qubits (vm_registry w') = qubits this /\
       vm_stateVector w' = vm_stateVector w) /\
  (Map_get (entanglementGroups this) (KStr q1) = None \/
   Map_get (entanglementGroups this) (KStr q2) = None ->
   QubitRegistry.recordEntanglement q1 q2 w
   = (Throw (Error "One or both qubits not found"), w)).
Proof.
  intros this. subst this. unfold QubitRegistry.recordEntanglement, bind, get. split.
  - intros g1 g2 H1 H2. rewrite H1, H2.
    unfold QubitRegistry.modify_registry, modify.
    eexists. split; [reflexivity|]. split; [|split; reflexivity].
    intros a b Ha Hb. unfold QubitRegistry.areEntangled, bind, get, ret.
    cbn [vm_registry set_vm_registry entanglementGroups].
    unfold Set_has in Ha, Hb |- *.
    rewrite Map_get_point_all, existsb_Set_from, Ha.
    unfold QubitRegistry.group_at at 1. cbn [groupSets].
    rewrite lookup_app_r by lia. rewrite Nat.sub_diag. cbn [lookup list_lookup default].
    unfold Datatypes.id. rewrite existsb_Set_from, Hb. reflexivity.
  - intros [H | H]; rewrite H; [reflexivity|].
    destruct (Map_get (entanglementGroups (vm_registry w)) (KStr q1)); reflexivity.
Qed.

Lemma recordEntanglement_merges_witness :
  let w2 := after_allocations 2 (initial_vm 32 32) in
  (exists w',
      QubitRegistry.recordEntanglement "q0" "q1" w2 = (Ok tt, w') /\
      QubitRegistry.areEntangled "q0" "q1" w' = (Ok true, w') /\
      QubitRegistry.areEntangled "q1" "q0" w' = (Ok true, w')) /\
  QubitRegistry.areEntangled "q0" "q1" w2 = (Ok false, w2) /\
  QubitRegistry.recordEntanglement "q0" "zz" w2
  = (Throw (Error "One or both qubits not found"), w2).
Proof.
  intros w2. split; [|split].
  - destruct (proj1 (recordEntanglement_merges w2 "q0" "q1") 0%nat 1%nat eq_refl eq_refl)
      as (w' & H1 & H2 & _).
    exists w'. split; [exact H1|].
    split; apply H2; reflexivity.
  - reflexivity.
  - refine (proj2 (recordEntanglement_merges w2 "q0" "zz") _). right. reflexivity.
Defined.

(** ** [GateExecutor.applyToffoli] *)

Lemma js_mask_test (i c : Z) :
  0 <= i < 2 ^ 31 -> 0 <= c < 31 ->
  (js_and i (js_shl 1 c) =? 0) = negb (Z.testbit i c).
Proof.
  intros Hi Hc. rewrite js_shl_1 by lia. unfold js_and.
  pose proof (pow2_le_31 c Hc).
  rewrite !ToInt32_small by lia.
  destruct (Z.testbit i c) eqn:E; cbn [negb].
  - apply Z.eqb_neq. intros H0.
    assert (Hb : Z.testbit (Z.land i (2 ^ c)) c = true)
      by (rewrite Z.land_spec, E, Z.pow2_bits_true by lia; reflexivity).
    rewrite H0, Z.bits_0 in Hb. discriminate.
  - apply Z.eqb_eq. apply Z.bits_inj'. intros j Hj.
    rewrite Z.land_spec, Z.bits_0, Z.pow2_bits_eqb by lia.
    destruct (Z.eqb_spec c j) as [<- | _]; [rewrite E; reflexivity | apply andb_false_r].
Qed.

Lemma flip_other_bit (x t c : Z) :
  0 <= t -> 0 <= c -> t <> c -> Z.testbit (Z.lxor x (2 ^ t)) c = Z.testbit x c.
Proof.
  intros Ht Hc Hne. rewrite Z.lxor_spec, Z.pow2_bits_false by lia. apply xorb_false_r.
Qed.

Section ToffoliKernel.
Variables (sv : list Cx) (n c1 c2 t : Z).
Hypothesis Hn : 0 <= n <= 31.
Hypothesis Hc1 : 0 <= c1 < n.
Hypothesis Hc2 : 0 <= c2 < n.
Hypothesis Ht : 0 <= t < n.
Hypothesis Htc1 : t <> c1.
Hypothesis Htc2 : t <> c2.
Hypothesis Hlen : Z.of_nat (length sv) = 2 ^ n.

Lemma toffoli_step_effect (l : list Cx) (i : Z) :
  length l = length sv -> 0 <= i < 2 ^ n ->
  exists l',
    GateExecutor.toffoli_step c1 c2 t (Some l) i = Some l' /\
    length l' = length sv /\
    (Z.testbit i c1 && Z.testbit i c2 = true ->
     amp l' i = amp l (Z.lxor i (2 ^ t)) /\
     amp l' (Z.lxor i (2 ^ t)) = amp l i /\
     forall x, x <> i -> x <> Z.lxor i (2 ^ t) -> amp l' x = amp l x) /\
    (Z.testbit i c1 && Z.testbit i c2 = false -> l' = l).
Proof.
  intros Hl Hi.
  pose proof (pow2_index_bound n Hn) as Hp.
  pose proof (flip_range i n t Hi Ht) as Hf.
  pose proof (flip_neq i t ltac:(lia)) as Hne.
  unfold GateExecutor.toffoli_step.
  rewrite !js_mask_test, !negb_involutive by lia.
  destruct (Z.testbit i c1 && Z.testbit i c2) eqn:E.
  - rewrite js_flip by lia. unfold GateExecutor.swap_at.
    rewrite !arr_get_amp by lia.
    eexists. split; [reflexivity|].
    split; [rewrite !length_arr_set; exact Hl|].
    split; [|discriminate]. intros _. split; [|split].
    + rewrite amp_arr_set_ne by congruence. apply amp_arr_set_eq. lia.
    + apply amp_arr_set_eq. rewrite length_arr_set. lia.
    + intros x Hx1 Hx2. rewrite !amp_arr_set_ne by congruence. reflexivity.
  - exists l. split; [reflexivity|]. split; [exact Hl|]. split; [discriminate | reflexivity].
Qed.

Lemma toffoli_kernel_prefix (m : nat) :
  (m <= length sv)%nat ->
  exists l,
    fold_left (GateExecutor.toffoli_step c1 c2 t) (upto m) (Some sv) = Some l /\
    length l = length sv /\
    forall x, 0 <= x < 2 ^ n -> amp l x = toffoli_partial sv c1 c2 t (Z.of_nat m) x.
Proof.
  induction m as [|m IH]; intros Hm.
  - exists sv. split; [reflexivity|]. split; [reflexivity|].
    intros x Hx. unfold toffoli_partial.
    pose proof (flip_range x n t Hx Ht).
    destruct (Z.ltb_spec x (Z.of_nat 0)); [lia|].
    destruct (Z.ltb_spec (Z.lxor x (2 ^ t)) (Z.of_nat 0)); [lia|].
    rewrite andb_false_r. reflexivity.
  - destruct IH as (l & Hfold & Hl & Hamp); [lia|].
    rewrite upto_S, fold_left_app, Hfold. cbn [fold_left].
    destruct (toffoli_step_effect l (Z.of_nat m) Hl ltac:(lia))
      as (l' & Hstep & Hl' & Hswap & Hkeep).
    exists l'. split; [exact Hstep|]. split; [exact Hl'|].
    intros x Hx.
    pose proof (flip_range x n t Hx Ht) as Hfx.
    pose proof (flip_neq x t ltac:(lia)) as Hnx.
    pose proof (flip_range (Z.of_nat m) n t ltac:(lia) Ht) as Hfm.
    assert (Hcx : Z.testbit (Z.lxor x (2 ^ t)) c1 && Z.testbit (Z.lxor x (2 ^ t)) c2
                  = Z.testbit x c1 && Z.testbit x c2)
      by (rewrite !flip_other_bit by lia; reflexivity).
    destruct (Z.testbit (Z.of_nat m) c1 && Z.testbit (Z.of_nat m) c2) eqn:Ec.
    + destruct (Hswap eq_refl) as (Hi & Hf & Hother). clear Hswap Hkeep.
      destruct (Z.eq_dec x (Z.of_nat m)) as [-> | Hxm].
      * rewrite Hi, Hamp by lia. unfold toffoli_partial.
        rewrite flip_flip, Ec, Hcx, Ec. cbn [andb].
        destruct (Z.ltb_spec (Z.of_nat m) (Z.of_nat m)); [lia|].
        destruct (Z.ltb_spec (Z.of_nat m) (Z.of_nat (S m))); [|lia].
        destruct (Z.ltb_spec (Z.lxor (Z.of_nat m) (2 ^ t)) (Z.of_nat m));
          destruct (Z.ltb_spec (Z.lxor (Z.of_nat m) (2 ^ t)) (Z.of_nat (S m)));
          try lia; reflexivity.
      * destruct (Z.eq_dec x (Z.lxor (Z.of_nat m) (2 ^ t))) as [E | Hxf].
        -- assert (Efx : Z.lxor x (2 ^ t) = Z.of_nat m) by (rewrite E; apply flip_flip).
           rewrite E at 1. rewrite Hf, Hamp by lia. unfold toffoli_partial.
           rewrite <- Efx, flip_flip, Hcx.
           assert (Ecx : Z.testbit x c1 && Z.testbit x c2 = true)
             by (rewrite <- Hcx, Efx; exact Ec).
           rewrite Ecx. cbn [andb]. rewrite Efx.
           destruct (Z.ltb_spec (Z.of_nat m) (Z.of_nat m)); [lia|].
           destruct (Z.ltb_spec (Z.of_nat m) (Z.of_nat (S m))); [|lia].
           destruct (Z.ltb_spec x (Z.of_nat m));
             destruct (Z.ltb_spec x (Z.of_nat (S m))); try lia; reflexivity.
        -- rewrite Hother, Hamp by assumption. unfold toffoli_partial.
           assert (Hfm' : Z.lxor x (2 ^ t) <> Z.of_nat m).
           { intros E. apply Hxf. rewrite <- E. symmetry. apply flip_flip. }
           destruct (Z.ltb_spec x (Z.of_nat m));
             destruct (Z.ltb_spec x (Z.of_nat (S m))); try lia;
             destruct (Z.ltb_spec (Z.lxor x (2 ^ t)) (Z.of_nat m));
             destruct (Z.ltb_spec (Z.lxor x (2 ^ t)) (Z.of_nat (S m))); try lia;
             reflexivity.
    + rewrite (Hkeep eq_refl), Hamp by lia. unfold toffoli_partial.
      destruct (Z.testbit x c1 && Z.testbit x c2) eqn:Ex; [|reflexivity]. cbn [andb].
      assert (Hxm : x <> Z.of_nat m) by (intros ->; congruence).
      assert (Hfm' : Z.lxor x (2 ^ t) <> Z.of_nat m)
        by (intros E; rewrite <- E, Hcx in Ec; congruence).
      destruct (Z.ltb_spec x (Z.of_nat m));
        destruct (Z.ltb_spec x (Z.of_nat (S m))); try lia;
        destruct (Z.ltb_spec (Z.lxor x (2 ^ t)) (Z.of_nat m));
        destruct (Z.ltb_spec (Z.lxor x (2 ^ t)) (Z.of_nat (S m))); try lia;
        reflexivity.
Qed.

(** Every pair is exchanged twice, once from each of its indices. *)
Lemma toffoli_kernel_identity :
  GateExecutor.toffoli_kernel sv (2 ^ n) c1 c2 t = Some sv.
Proof.
  unfold GateExecutor.toffoli_kernel.
  rewrite <- Hlen, Nat2Z.id.
  destruct (toffoli_kernel_prefix (length sv) ltac:(lia)) as (l & Hfold & Hl & Hamp).
  rewrite Hfold. f_equal. apply list_eq_amp; [exact Hl|].
  intros x Hx. rewrite Hl, Hlen in Hx. rewrite Hamp by exact Hx.
  unfold toffoli_partial. pose proof (flip_range x n t Hx Ht).
  destruct (Z.ltb_spec x (Z.of_nat (length sv))); [|lia].
  destruct (Z.ltb_spec (Z.lxor x (2 ^ t)) (Z.of_nat (length sv))); [|lia].
  rewrite andb_false_r. reflexivity.
Qed.

End ToffoliKernel.

Lemma recordEntanglement_frame (w : VM) (q1 q2 : string) (g1 g2 : nat) :
  Map_get (entanglementGroups (vm_registry w)) (KStr q1) = Some g1 ->
  Map_get (entanglementGroups (vm_registry w)) (KStr q2) = Some g2 ->
  exists r',
    QubitRegistry.recordEntanglement q1 q2 w = (Ok tt, set_vm_registry r' w) /\
    qubits r' = qubits (vm_registry w) /\
    forall h a, Map_get (entanglementGroups (vm_registry w)) (KStr h) = Some a ->
                exists a', Map_get (entanglementGroups r') (KStr h) = Some a'.
Proof.
  intros H1 H2. unfold QubitRegistry.recordEntanglement, bind, get.
  rewrite H1, H2. unfold QubitRegistry.modify_registry, modify.
  eexists. split; [reflexivity|]. split; [reflexivity|].
  intros h a Ha. cbn [entanglementGroups]. rewrite Map_get_point_all.
  destruct (existsb _ _); eexists; [reflexivity | exact Ha].
Qed.

Lemma setStateVector_run (this : StateVector.t) (v : list Cx) :
  Z.of_nat (length v) = 2 ^ StateVector.qubitCount this ->
  within_precision (StateVector.precision (StateVector.options this)) v ->
  StateVector.setStateVector v this = (Ok tt, after_set this v).
Proof.
  intros Hlen Hnorm. unfold StateVector.setStateVector, bind, get.
  rewrite Hlen, Z.eqb_refl. cbn [negb]. cbv beta iota delta [modify].
  rewrite normalize_within by exact Hnorm.
  reflexivity.
Qed.

(** [applyToffoli] leaves every amplitude where it was.  The loop
    exchanges the amplitudes at [i] and [i xor 2^target] for every index
    [i] with both control bits set, and it visits both indices of each such
    pair, so every pair is exchanged twice.  For live handles with groups,
    at positions below the qubit count with the target different from both
    controls, on a state vector of [2^n] amplitudes ([n <= 31]) with norm
    within the precision of 1, the call succeeds, the state vector holds
    the same amplitudes as before, and one gate has been counted. *)
Theorem applyToffoli_changes_nothing
    (w : VM) (h1 h2 ht : string) (i1 i2 it : Z) :
  let this := vm_stateVector w in
  let n := StateVector.qubitCount this in
  Map_get (qubits (vm_registry w)) (KStr h1) = Some i1 ->
  Map_get (qubits (vm_registry w)) (KStr h2) = Some i2 ->
  Map_get (qubits (vm_registry w)) (KStr ht) = Some it ->
  (exists g, Map_get (entanglementGroups (vm_registry w)) (KStr h1) = Some g) ->
  (exists g, Map_get (entanglementGroups (vm_registry w)) (KStr h2) = Some g) ->
  (exists g, Map_get (entanglementGroups (vm_registry w)) (KStr ht) = Some g) ->
  0 <= n <= 31 ->
  Z.of_nat (length (StateVector.stateVector this)) = 2 ^ n ->
  0 <= i1 < n -> 0 <= i2 < n -> 0 <= it < n -> it <> i1 -> it <> i2 ->
  within_precision (StateVector.precision (StateVector.options this))
                   (StateVector.stateVector this) ->
  exists w',
    GateExecutor.applyToffoli h1 h2 ht w = Some (Ok tt, w') /\
    StateVector.stateVector (vm_stateVector w') = StateVector.stateVector this /\
    qubits (vm_registry w') = qubits (vm_registry w) /\
    totalGatesExecuted (vm_executor w') = totalGatesExecuted (vm_executor w) + 1.
Proof.
  intros this n Hq1 Hq2 Hqt [g1 Hg1] [g2 Hg2] [gt Hgt] Hn Hlen Hi1 Hi2 Hit Hne1 Hne2 Hnorm.
  subst this n.
  destruct (recordEntanglement_frame w h1 ht g1 gt Hg1 Hgt) as (r1 & Hrec1 & Hqr1 & Hkeep1).
  destruct (Hkeep1 h2 g2 Hg2) as [g2' Hg2'].
  destruct (Hkeep1 ht gt Hgt) as [gt' Hgt'].
  destruct (recordEntanglement_frame (set_vm_registry r1 w) h2 ht g2' gt' Hg2' Hgt')
    as (r2 & Hrec2 & Hqr2 & _).
  unfold GateExecutor.applyToffoli.
  unfold bind at 1. rewrite (getQubitIndex_live h1 i1 w Hq1).
  unfold bind at 1. rewrite (getQubitIndex_live h2 i2 w Hq2).
  unfold bind at 1. rewrite (getQubitIndex_live ht it w Hqt).
  unfold bind at 1. rewrite Hrec1.
  unfold bind at 1. rewrite Hrec2.
  unfold on_stateVector, StateVector.getQubitCount, StateVector.getStateVector.
  cbv beta iota delta [bind get ret].
  cbn [vm_stateVector set_vm_registry set_vm_stateVector].
  rewrite (toffoli_kernel_identity _ _ i1 i2 it Hn Hi1 Hi2 Hit Hne1 Hne2 Hlen).
  rewrite setStateVector_run by assumption.
  unfold GateExecutor.updateMetrics, modify.
  eexists. split; [reflexivity|].
  cbn [vm_stateVector vm_registry vm_executor set_vm_executor set_vm_stateVector
       set_vm_registry after_set StateVector.stateVector totalGatesExecuted].
  split; [reflexivity|]. split; [|reflexivity].
  cbn [vm_registry] in Hqr2. rewrite Hqr2. exact Hqr1.
Qed.

Lemma applyToffoli_changes_nothing_witness :
  exists w',
    GateExecutor.applyToffoli "q0" "q1" "q2" vm_three_qubits = Some (Ok tt, w') /\
    StateVector.stateVector (vm_stateVector w')
    = [cx 0 0; cx 0 0; cx 0 0; cx 1 0; cx 0 0; cx 0 0; cx 0 0; cx 0 0].
Proof.
  destruct (applyToffoli_changes_nothing vm_three_qubits "q0" "q1" "q2" 0 1 2)
    as (w' & H1 & H2 & _); try reflexivity; try (cbn; lia).
  - exists 0%nat. reflexivity.
  - exists 1%nat. reflexivity.
  - exists 2%nat. reflexivity.
  - eapply within_precision_norm1.
    + vm_compute. reflexivity.
    + lra.
    + pose proof eps10_pos. lra.
  - exists w'. split; [exact H1 | exact H2].
Defined.

(** ** [executeQBC] *)

Section ExecuteQBC.
Import BytecodeInterpreter.

Lemma parseQBC_magic (buffer : Buffer.t) (p : QBC.parsed) :
  QBC.parseQBC buffer = Ok p ->
  arr_get buffer 0 = Some QBCOpcode.MEASURE_ALL /\ 0 < Z.of_nat (length buffer).
Proof.
  unfold QBC.parseQBC.
  destruct (bool_decide (take 4 buffer = QBC.QBC_MAGIC)) eqn:E; [|discriminate].
  intros _. apply bool_decide_eq_true in E.
  destruct buffer as [|b0 buffer]; [discriminate E|].
  cbn in E. injection E as -> _. split; [reflexivity | cbn [length]; lia].
Qed.

(** The first turn of the loop of [execute] when the byte at [pc] is no
    opcode of the interpreter's [switch]: the error is caught. *)
Lemma try_loop_unknown_opcode (maxInstructions : Z) (s : t) (opcode : Z) :
  running s = true ->
  instructionsExecuted (metrics s) < maxInstructions ->
  arr_get (bytecode s) (pc s) = Some opcode ->
  dispatch opcode = raise (Error "Unknown opcode") ->
  try_loop maxInstructions s
  = Some (set_running false (set_error (Some (Error "Unknown opcode")) (set_pc (pc s + 1) s))).
Proof.
  intros Hrun Hmax Hop Hd.
  pose proof (arr_get_in_range _ _ _ Hop) as Hpc.
  unfold try_loop.
  replace (Z.to_nat (maxInstructions - instructionsExecuted (metrics s)))
    with (S (Z.to_nat (maxInstructions - instructionsExecuted (metrics s) - 1))) by lia.
  rewrite loop_turn by (assumption || lia).
  unfold andThen at 1. unfold executeNextInstruction.
  replace (Z.of_nat (length (bytecode s)) <=? pc s) with false
    by (symmetry; apply Z.leb_gt; lia).
  unfold andThen at 1. unfold andThen at 1. unfold fetch. rewrite Hop, Hd.
  reflexivity.
Qed.

(** [executeQBC] never runs an instruction of the image it is given.
    The whole image is loaded, header first, and the interpreter starts
    at byte 0: for an image that [parseQBC] accepts that byte is ['Q'],
    [0x51], the opcode [MEASURE_ALL], which the interpreter's [switch] does
    not handle.  So, unless parsing or the scan of jump targets throws,
    the result has [success] false and the error "Unknown opcode", no
    instruction is counted, the classical memory is empty, and in every
    case the registry, the state vector and the measurement engine are as
    they were.  (A negative [maxInstructions] is left out: with it the loop
    is not entered.) *)
Theorem executeQBC_never_runs (buffer : Buffer.t) (maxInstructions : option Z) (q : QVM) :
  (forall n, maxInstructions = Some n -> 0 <= n) ->
  match executeQBC buffer maxInstructions q with
  | Some (Ok r, q') =>
      qbc_success r = false /\
      qbc_error r = Some "Unknown opcode"%string /\
      instructionsExecuted (qbc_metrics r) = 0 /\
      qbc_classicalMemory r = ∅ /\
      qvm_vm q' = qvm_vm q
  | Some (Throw _, q') => qvm_vm q' = qvm_vm q
  | None => False
  end.
Proof.
  intros Hmax. unfold executeQBC.
  destruct (QBC.parseQBC buffer) as [p|e] eqn:P; [|reflexivity].
  destruct (parseQBC_magic buffer p P) as [Hop Hlen].
  unfold loadBytecode.
  destruct (scanJumpTargets buffer) as [[]|e]; [|reflexivity].
  unfold execute. cbn [bytecode set_bytecode set_pc set_error set_classicalMemory].
  destruct (Z.eqb_spec (Z.of_nat (length buffer)) 0) as [E0 | _]; [lia|].
  set (m := match maxInstructions with
            | Some n => if n =? 0 then MAX_SAFE_INTEGER else n
            | None => MAX_SAFE_INTEGER
            end).
  assert (Hm : 0 < m).
  { subst m. destruct maxInstructions as [n|]; [|reflexivity].
    specialize (Hmax n eq_refl). destruct (Z.eqb_spec n 0); [reflexivity | lia]. }
  erewrite (try_loop_unknown_opcode m _ QBCOpcode.MEASURE_ALL);
    [| reflexivity | exact Hm | exact Hop | reflexivity].
  cbn. repeat split; reflexivity.
Qed.

Lemma executeQBC_never_runs_witness :
  exists r q',
    executeQBC small_image (Some 100) initial_qvm = Some (Ok r, q') /\
    qbc_success r = false /\
    qbc_error r = Some "Unknown opcode"%string /\
    instructionsExecuted (qbc_metrics r) = 0.
Proof.
  pose proof (executeQBC_never_runs small_image (Some 100) initial_qvm) as H.
  destruct (executeQBC small_image (Some 100) initial_qvm) as [[[r|e] q']|] eqn:E.
  - exists r, q'. destruct H as (H1 & H2 & H3 & _).
    + intros n [= <-]. lia.
    + split; [reflexivity|]. split; [exact H1|]. split; [exact H2 | exact H3].
  - exfalso. vm_compute in E. discriminate E.
  - exfalso. apply H. intros n [= <-]. lia.
Defined.

End ExecuteQBC.

(** ** The QBC image: [createQBC] and [parseQBC] *)

Lemma arr_get_app_r {A} (pre l : list A) (k : Z) :
  0 <= k -> arr_get (pre ++ l) (Z.of_nat (length pre) + k) = arr_get l k.
Proof.
  intros Hk. unfold arr_get.
  destruct (Z.leb_spec 0 (Z.of_nat (length pre) + k)); [|lia].
  destruct (Z.leb_spec 0 k); [|lia].
  rewrite lookup_app_r by lia. f_equal. lia.
Qed.

Lemma arr_get_app_l {A} (l post : list A) (k : Z) :
  k < Z.of_nat (length l) -> arr_get (l ++ post) k = arr_get l k.
Proof.
  intros Hk. unfold arr_get. destruct (0 <=? k) eqn:E; [|reflexivity].
  apply Z.leb_le in E. apply lookup_app_l. lia.
Qed.

Lemma arr_set_app_r {A} (pre l : list A) (k : Z) (v : A) :
  0 <= k -> arr_set (pre ++ l) (Z.of_nat (length pre) + k) v = pre ++ arr_set l k v.
Proof.
  intros Hk. unfold arr_set.
  destruct (Z.leb_spec 0 (Z.of_nat (length pre) + k)); [|lia].
  destruct (Z.leb_spec 0 k); [|lia].
  rewrite insert_app_r_alt by lia. do 2 f_equal. lia.
Qed.

Lemma arr_set_app_l {A} (l post : list A) (k : Z) (v : A) :
  k < Z.of_nat (length l) -> arr_set (l ++ post) k v = arr_set l k v ++ post.
Proof.
  intros Hk. unfold arr_set. destruct (0 <=? k) eqn:E; [|reflexivity].
  apply Z.leb_le in E. apply insert_app_l. lia.
Qed.

Lemma length_arr_set_any {A} (l : list A) (i : Z) (v : A) :
  length (arr_set l i v) = length l.
Proof. unfold arr_set. destruct (0 <=? i); [apply length_insert | reflexivity]. Qed.

(** Copying [new] over a segment of the same length. *)
Lemma copy_segment (pre old new post : Buffer.t) :
  length old = length new ->
  Buffer.copy new (pre ++ old ++ post) (Z.of_nat (length pre)) = pre ++ new ++ post.
Proof.
  unfold Buffer.copy. revert pre old post.
  induction new as [|b new IH] using rev_ind; intros pre old post Hlen.
  - destruct old; [reflexivity | discriminate].
  - destruct (exists_last (l := old)) as (old' & a & ->).
    { intros ->. rewrite length_app in Hlen. cbn in Hlen. lia. }
    rewrite !length_app in Hlen. cbn [length] in Hlen.
    assert (Hlen' : length old' = length new) by lia.
    rewrite length_app. cbn [length]. rewrite Nat.add_1_r, upto_S.
    rewrite zip_with_app by (unfold upto; rewrite length_map, length_seq; reflexivity).
    rewrite fold_left_app. cbn [zip_with fold_left fst snd].
    rewrite <- !app_assoc. cbn [app].
    rewrite (IH pre old' (a :: post) Hlen').
    replace (pre ++ new ++ a :: post) with ((pre ++ new) ++ a :: post)
      by (rewrite <- app_assoc; reflexivity).
    replace (Z.of_nat (length pre) + Z.of_nat (length new))
      with (Z.of_nat (length (pre ++ new)) + 0) by (rewrite length_app; lia).
    rewrite arr_set_app_r by lia. rewrite <- app_assoc. reflexivity.
Qed.

Lemma in_bounds_segment (pre seg post : Buffer.t) (size : Z) :
  size <= Z.of_nat (length seg) ->
  Buffer.in_bounds (pre ++ seg ++ post) (Z.of_nat (length pre)) size = true.
Proof.
  intros Hs. unfold Buffer.in_bounds. rewrite !length_app.
  apply andb_true_iff. split; [apply Z.leb_le | apply Z.leb_le]; lia.
Qed.

Lemma writeUInt16LE_segment (pre post : Buffer.t) (a b value : Z) :
  0 <= value <= 65535 ->
  Buffer.writeUInt16LE (pre ++ [a; b] ++ post) value (Z.of_nat (length pre))
  = Ok (pre ++ [value mod 256; (value / 2 ^ 8) mod 256] ++ post).
Proof.
  intros Hv. unfold Buffer.writeUInt16LE.
  destruct (Z.ltb_spec value 0); [lia|]. destruct (Z.ltb_spec 65535 value); [lia|].
  cbn [orb]. rewrite in_bounds_segment by (cbn; lia). f_equal.
  rewrite <- (Z.add_0_r (Z.of_nat (length pre))) at 1.
  rewrite arr_set_app_r by lia. rewrite arr_set_app_r by lia. reflexivity.
Qed.

Lemma put4_segment (pre post : Buffer.t) (a b c d u : Z) :
  Buffer.put4 (pre ++ [a; b; c; d] ++ post) (Z.of_nat (length pre)) u
  = pre ++ Buffer.le_bytes u ++ post.
Proof.
  unfold Buffer.put4. cbv zeta.
  rewrite <- (Z.add_0_r (Z.of_nat (length pre))) at 1.
  rewrite !arr_set_app_r by lia. reflexivity.
Qed.

Lemma writeUInt32LE_segment (pre post : Buffer.t) (a b c d value : Z) :
  0 <= value < 2 ^ 32 ->
  Buffer.writeUInt32LE (pre ++ [a; b; c; d] ++ post) (Int value) (Z.of_nat (length pre))
  = Ok (pre ++ Buffer.le_bytes value ++ post).
Proof.
  intros Hv. unfold Buffer.writeUInt32LE, Buffer.writeIntLE.
  destruct (Z.ltb_spec value 0); [lia|]. destruct (Z.ltb_spec (2 ^ 32 - 1) value); [lia|].
  cbn [orb]. rewrite in_bounds_segment by (cbn; lia).
  rewrite put4_segment, Z.mod_small by lia. reflexivity.
Qed.

Lemma readUInt16LE_segment (pre post : Buffer.t) (value : Z) :
  0 <= value <= 65535 ->
  Buffer.readUInt16LE (pre ++ [value mod 256; (value / 2 ^ 8) mod 256] ++ post)
                      (Z.of_nat (length pre)) = Ok value.
Proof.
  intros Hv. unfold Buffer.readUInt16LE.
  rewrite in_bounds_segment by (cbn; lia). f_equal.
  rewrite <- (Z.add_0_r (Z.of_nat (length pre))) at 1.
  rewrite !arr_get_app_r by lia.
  change (arr_get _ 0) with (Some (value mod 256)).
  change (arr_get _ 1) with (Some ((value / 2 ^ 8) mod 256)).
  cbn [default from_option]. unfold Datatypes.id.
  change (2 ^ 8) with 256.
  rewrite (Z.mod_small (value / 256)) by (Z.div_mod_to_equations; lia).
  pose proof (Z.div_mod value 256 ltac:(lia)). lia.
Qed.

Lemma readUInt32LE_Z_segment (pre post : Buffer.t) (value : Z) :
  0 <= value < 2 ^ 32 ->
  QBC.readUInt32LE_Z (pre ++ Buffer.le_bytes value ++ post) (Z.of_nat (length pre))
  = Ok value.
Proof.
  intros Hv. unfold QBC.readUInt32LE_Z.
  rewrite in_bounds_segment by (cbn; lia). f_equal.
  unfold Buffer.get4.
  rewrite <- (Z.add_0_r (Z.of_nat (length pre))) at 1.
  rewrite !arr_get_app_r by lia. cbn [Buffer.le_bytes app arr_get].
  cbn. apply combine4_le_bytes. exact Hv.
Qed.

(** *** Decoding inside a larger buffer *)

Lemma load_app_r (pre l : Buffer.t) (k : Z) :
  0 <= k -> Buffer.load (pre ++ l) (Z.of_nat (length pre) + k) = Buffer.load l k.
Proof. intros Hk. unfold Buffer.load. rewrite arr_get_app_r by exact Hk. reflexivity. Qed.

Lemma in_bounds_app_r (pre l : Buffer.t) (k size : Z) :
  0 <= k ->
  Buffer.in_bounds (pre ++ l) (Z.of_nat (length pre) + k) size = Buffer.in_bounds l k size.
Proof.
  intros Hk. unfold Buffer.in_bounds. rewrite length_app.
  destruct (Z.leb_spec 0 (Z.of_nat (length pre) + k)); [|lia].
  destruct (Z.leb_spec 0 k); [|lia]. cbn [andb].
  destruct (Z.leb_spec (k + size) (Z.of_nat (length l)));
    destruct (Z.leb_spec (Z.of_nat (length pre) + k + size)
                         (Z.of_nat (length pre + length l))); try lia; reflexivity.
Qed.

Lemma get4_app_r (pre l : Buffer.t) (k : Z) :
  0 <= k -> Buffer.get4 (pre ++ l) (Z.of_nat (length pre) + k) = Buffer.get4 l k.
Proof.
  intros Hk. unfold Buffer.get4.
  rewrite <- !Z.add_assoc, !arr_get_app_r by lia. reflexivity.
Qed.

(** An instruction decoded at the start of [l] is decoded alike when [l]
    follows other bytes. *)
Lemma decodeInstruction_app_r (pre l : Buffer.t) (r : QBC.instruction * Z) :
  QBC.decodeInstruction l 0 = Ok r ->
  QBC.decodeInstruction (pre ++ l) (Z.of_nat (length pre)) = Ok r.
Proof.
  unfold QBC.decodeInstruction, Buffer.readFloatLE, Buffer.readUInt32LE, Buffer.readInt32LE.
  rewrite <- (Z.add_0_r (Z.of_nat (length pre))) at 1.
  rewrite !load_app_r, !in_bounds_app_r, !get4_app_r by lia.
  destruct (Buffer.load l 0) as [|op|]; try (intros H; exact H).
  destruct (QBC.switch op) as [[]|]; try (intros H; exact H);
    destruct (Buffer.in_bounds l _ 4); (discriminate || (intros H; exact H)).
Qed.

Lemma in_bounds_app_l (l post : Buffer.t) (k size : Z) :
  Buffer.in_bounds l k size = true -> Buffer.in_bounds (l ++ post) k size = true.
Proof.
  unfold Buffer.in_bounds. rewrite length_app.
  intros H. apply andb_true_iff in H. destruct H as [H1 H2].
  apply Z.leb_le in H1, H2. apply andb_true_iff. split; apply Z.leb_le; lia.
Qed.

Lemma load_app_l (l post : Buffer.t) (k : Z) :
  k < Z.of_nat (length l) -> Buffer.load (l ++ post) k = Buffer.load l k.
Proof. intros Hk. unfold Buffer.load. rewrite arr_get_app_l by exact Hk. reflexivity. Qed.

Lemma get4_app_l (l post : Buffer.t) (k : Z) :
  k + 3 < Z.of_nat (length l) -> Buffer.get4 (l ++ post) k = Buffer.get4 l k.
Proof.
  intros Hk. unfold Buffer.get4. rewrite !arr_get_app_l by lia. reflexivity.
Qed.

(** An instruction that fills the buffer [b] decodes to the same
    instruction when bytes follow it. *)
Lemma decodeInstruction_app_l (b post : Buffer.t) (i : QBC.instruction) :
  QBC.decodeInstruction b 0 = Ok (i, Z.of_nat (length b)) ->
  QBC.decodeInstruction (b ++ post) 0 = Ok (i, Z.of_nat (length b)).
Proof.
  unfold QBC.decodeInstruction.
  destruct b as [|op b]; [discriminate|].
  change (Buffer.load ((op :: b) ++ post) 0) with (Int op).
  change (Buffer.load (op :: b) 0) with (Int op).
  cbv beta iota.
  destruct (QBC.switch op) as [[]|]; try discriminate;
    unfold Buffer.readFloatLE, Buffer.readUInt32LE, Buffer.readInt32LE;
    try (destruct (Buffer.in_bounds (op :: b) _ 4) eqn:Hb; [|discriminate];
         rewrite (in_bounds_app_l _ post _ _ Hb));
    cbn [rbind]; remember (Z.of_nat (length (op :: b))) as n eqn:Hn;
    intros H; injection H as Hi Hlen;
    rewrite ?load_app_l, ?get4_app_l by lia;
    rewrite Hi, Hlen; reflexivity.
Qed.

Lemma decodeInstruction_bytesRead (b : Buffer.t) (offset n : Z) (i : QBC.instruction) :
  QBC.decodeInstruction b offset = Ok (i, n) -> 1 <= n <= 6.
Proof.
  unfold QBC.decodeInstruction.
  destruct (Buffer.load b offset) as [|op|]; try discriminate.
  destruct (QBC.switch op) as [[]|]; try discriminate;
    unfold Buffer.readFloatLE, Buffer.readUInt32LE, Buffer.readInt32LE;
    try (destruct (Buffer.in_bounds b _ 4); [|discriminate]);
    cbn [rbind]; intros [= _ <-]; lia.
Qed.

Lemma decode_all_concat (instrs : list QBC.instruction) (bufs : list Buffer.t) :
  Forall2 (fun i b => QBC.decodeInstruction b 0 = Ok (i, Z.of_nat (length b))) instrs bufs ->
  forall (pre post : Buffer.t) (acc : list QBC.instruction),
    QBC.decode_all (length instrs) (pre ++ concat bufs ++ post) (Z.of_nat (length pre)) acc
    = Ok (acc ++ instrs).
Proof.
  induction 1 as [|i b instrs bufs Hdec _ IH]; intros pre post acc.
  - cbn. rewrite app_nil_r. reflexivity.
  - cbn [length QBC.decode_all concat]. rewrite <- app_assoc.
    rewrite (decodeInstruction_app_r pre _ _ (decodeInstruction_app_l _ _ i Hdec)).
    cbn [rbind fst snd].
    replace (Z.of_nat (length pre) + Z.of_nat (length b))
      with (Z.of_nat (length (pre ++ b))) by (rewrite length_app; lia).
    rewrite (app_assoc pre b). rewrite IH, <- app_assoc. reflexivity.
Qed.

Lemma encode_all_table (instrs : list QBC.instruction) :
  Forall QBC.table_instruction instrs ->
  exists bufs,
    QBC.encode_all instrs = Ok bufs /\
    Forall2 (fun i b => QBC.decodeInstruction b 0 = Ok (i, Z.of_nat (length b))) instrs bufs.
Proof.
  induction 1 as [|i instrs Hi _ (bufs & Henc & Hall)].
  - exists []. split; [reflexivity | constructor].
  - destruct (encode_decode_table i Hi) as (b & Hb & Hdec).
    exists (b :: bufs). cbn [QBC.encode_all]. rewrite Hb, Henc. cbn [rbind].
    split; [reflexivity|]. constructor; assumption.
Qed.

Lemma concat_length_bound (instrs : list QBC.instruction) (bufs : list Buffer.t) :
  Forall2 (fun i b => QBC.decodeInstruction b 0 = Ok (i, Z.of_nat (length b))) instrs bufs ->
  Z.of_nat (length (concat bufs)) <= 6 * Z.of_nat (length instrs).
Proof.
  induction 1 as [|i b instrs bufs Hdec _ IH]; [cbn; lia|].
  apply decodeInstruction_bytesRead in Hdec.
  cbn [concat length]. rewrite length_app. lia.
Qed.

(** *** The layout [createQBC] writes *)

Lemma fold_left_length_concat (bufs : list Buffer.t) (acc : Z) :
  fold_left (fun sum (buf : Buffer.t) => sum + Z.of_nat (length buf)) bufs acc
  = acc + Z.of_nat (length (concat bufs)).
Proof.
  revert acc. induction bufs as [|b bufs IH]; intros acc; cbn [fold_left concat].
  - cbn. lia.
  - rewrite IH, length_app. lia.
Qed.

Lemma copy_all_segment (bufs : list Buffer.t) (pre post : Buffer.t) :
  QBC.copy_all bufs (pre ++ repeat 0 (length (concat bufs)) ++ post)
               (Z.of_nat (length pre))
  = (pre ++ concat bufs ++ post,
     Z.of_nat (length pre) + Z.of_nat (length (concat bufs))).
Proof.
  revert pre. induction bufs as [|b bufs IH]; intros pre; cbn [QBC.copy_all concat].
  - cbn. f_equal. lia.
  - rewrite length_app, repeat_app, <- app_assoc.
    rewrite copy_segment by apply repeat_length.
    replace (Z.of_nat (length pre) + Z.of_nat (length b))
      with (Z.of_nat (length (pre ++ b))) by (rewrite length_app; lia).
    rewrite (app_assoc pre b), IH, <- !app_assoc, length_app. f_equal. lia.
Qed.

Lemma createQBC_layout (instructions : list QBC.instruction) (bufs : list Buffer.t)
    (maxQubits : Z) (metadataBuffer : Buffer.t) :
  QBC.encode_all instructions = Ok bufs ->
  0 <= maxQubits <= 65535 ->
  Z.of_nat (length instructions) < 2 ^ 32 ->
  Z.of_nat (length (concat bufs)) < 2 ^ 32 ->
  Z.of_nat (length metadataBuffer) < 2 ^ 32 ->
  QBC.createQBC instructions maxQubits metadataBuffer =
    Ok (QBC.QBC_MAGIC
        ++ [QBC.QBC_VERSION mod 256; (QBC.QBC_VERSION / 2 ^ 8) mod 256]
        ++ [maxQubits mod 256; (maxQubits / 2 ^ 8) mod 256]
        ++ Buffer.le_bytes (Z.of_nat (length instructions))
        ++ Buffer.le_bytes (Z.of_nat (length (concat bufs)))
        ++ Buffer.le_bytes (Z.of_nat (length metadataBuffer))
        ++ concat bufs ++ metadataBuffer).
Proof.
  intros Henc Hq Hn Hd Hm.
  unfold QBC.createQBC. rewrite Henc. cbn [rbind]. cbv zeta.
  rewrite fold_left_length_concat, Z.add_0_l.
  set (d := length (concat bufs)). set (m := length metadataBuffer).
  assert (Halloc : Buffer.alloc (20 + Z.of_nat d + Z.of_nat m) =
                   [] ++ [0; 0; 0; 0] ++ [0; 0] ++ [0; 0] ++ [0; 0; 0; 0]
                   ++ [0; 0; 0; 0] ++ [0; 0; 0; 0] ++ repeat 0 d ++ repeat 0 m).
  { unfold Buffer.alloc.
    replace (Z.to_nat (20 + Z.of_nat d + Z.of_nat m)) with (20 + (d + m))%nat by lia.
    rewrite !repeat_app. reflexivity. }
  rewrite Halloc.
  rewrite (copy_segment [] [0; 0; 0; 0] QBC.QBC_MAGIC) by reflexivity.
  rewrite app_nil_l.
  rewrite (writeUInt16LE_segment QBC.QBC_MAGIC) by (unfold QBC.QBC_VERSION; lia).
  cbn [rbind].
  set (v := [QBC.QBC_VERSION mod 256; (QBC.QBC_VERSION / 2 ^ 8) mod 256]).
  rewrite (app_assoc QBC.QBC_MAGIC v).
  rewrite (writeUInt16LE_segment (QBC.QBC_MAGIC ++ v)) by exact Hq.
  cbn [rbind].
  set (q := [maxQubits mod 256; (maxQubits / 2 ^ 8) mod 256]).
  rewrite (app_assoc (QBC.QBC_MAGIC ++ v) q).
  rewrite (writeUInt32LE_segment ((QBC.QBC_MAGIC ++ v) ++ q)) by lia.
  cbn [rbind].
  set (c := Buffer.le_bytes (Z.of_nat (length instructions))).
  rewrite (app_assoc ((QBC.QBC_MAGIC ++ v) ++ q) c).
  rewrite (writeUInt32LE_segment (((QBC.QBC_MAGIC ++ v) ++ q) ++ c)) by lia.
  cbn [rbind].
  set (ds := Buffer.le_bytes (Z.of_nat d)).
  rewrite (app_assoc (((QBC.QBC_MAGIC ++ v) ++ q) ++ c) ds).
  rewrite (writeUInt32LE_segment ((((QBC.QBC_MAGIC ++ v) ++ q) ++ c) ++ ds)) by lia.
  cbn [rbind].
  set (ms := Buffer.le_bytes (Z.of_nat m)).
  rewrite (app_assoc ((((QBC.QBC_MAGIC ++ v) ++ q) ++ c) ++ ds) ms).
  set (hd := ((((QBC.QBC_MAGIC ++ v) ++ q) ++ c) ++ ds) ++ ms).
  assert (Hhd : Z.of_nat (length hd) = 20) by reflexivity.
  rewrite <- Hhd.
  unfold d at 1. rewrite copy_all_segment.
  fold d. rewrite app_assoc.
  replace (Z.of_nat (length hd) + Z.of_nat d)
    with (Z.of_nat (length (hd ++ concat bufs))) by (rewrite length_app; fold d; lia).
  rewrite <- (app_nil_r (repeat 0 m)).
  rewrite copy_segment by (rewrite repeat_length; reflexivity).
  rewrite app_nil_r. unfold hd. rewrite <- !app_assoc. reflexivity.
Qed.

(** *** Reading the image back *)

Lemma parseQBC_layout (instructions : list QBC.instruction) (bufs : list Buffer.t)
    (maxQubits : Z) (metadataBuffer : Buffer.t) :
  Forall2 (fun i b => QBC.decodeInstruction b 0 = Ok (i, Z.of_nat (length b)))
          instructions bufs ->
  0 <= maxQubits <= 65535 ->
  Z.of_nat (length instructions) < 2 ^ 32 ->
  Z.of_nat (length (concat bufs)) < 2 ^ 32 ->
  Z.of_nat (length metadataBuffer) < 2 ^ 32 ->
  QBC.parseQBC (QBC.QBC_MAGIC
        ++ [QBC.QBC_VERSION mod 256; (QBC.QBC_VERSION / 2 ^ 8) mod 256]
        ++ [maxQubits mod 256; (maxQubits / 2 ^ 8) mod 256]
        ++ Buffer.le_bytes (Z.of_nat (length instructions))
        ++ Buffer.le_bytes (Z.of_nat (length (concat bufs)))
        ++ Buffer.le_bytes (Z.of_nat (length metadataBuffer))
        ++ concat bufs ++ metadataBuffer)
  = Ok (QBC.mkParsed
          (QBC.mkHeader QBC.QBC_VERSION maxQubits (Z.of_nat (length instructions))
                        (Z.of_nat (length (concat bufs)))
                        (Z.of_nat (length metadataBuffer)))
          instructions).
Proof.
  intros Hdec Hq Hn Hd Hm.
  set (v := [QBC.QBC_VERSION mod 256; (QBC.QBC_VERSION / 2 ^ 8) mod 256]).
  set (q := [maxQubits mod 256; (maxQubits / 2 ^ 8) mod 256]).
  set (c := Buffer.le_bytes (Z.of_nat (length instructions))).
  set (ds := Buffer.le_bytes (Z.of_nat (length (concat bufs)))).
  set (ms := Buffer.le_bytes (Z.of_nat (length metadataBuffer))).
  unfold QBC.parseQBC.
  assert (Hmagic : take 4 (QBC.QBC_MAGIC ++ v ++ q ++ c ++ ds ++ ms ++ concat bufs
                           ++ metadataBuffer) = QBC.QBC_MAGIC) by reflexivity.
  rewrite (bool_decide_eq_true_2 _ Hmagic). cbn [negb].
  unfold v at 1.
  rewrite (readUInt16LE_segment QBC.QBC_MAGIC) by (unfold QBC.QBC_VERSION; lia).
  cbn [rbind]. rewrite Z.eqb_refl. cbn [negb]. fold v.
  rewrite (app_assoc QBC.QBC_MAGIC v). unfold q at 1.
  rewrite (readUInt16LE_segment (QBC.QBC_MAGIC ++ v)) by exact Hq.
  cbn [rbind]. fold q.
  rewrite (app_assoc (QBC.QBC_MAGIC ++ v) q). unfold c at 1.
  rewrite (readUInt32LE_Z_segment ((QBC.QBC_MAGIC ++ v) ++ q)) by lia.
  cbn [rbind]. fold c.
  rewrite (app_assoc ((QBC.QBC_MAGIC ++ v) ++ q) c). unfold ds at 1.
  rewrite (readUInt32LE_Z_segment (((QBC.QBC_MAGIC ++ v) ++ q) ++ c)) by lia.
  cbn [rbind]. fold ds.
  rewrite (app_assoc (((QBC.QBC_MAGIC ++ v) ++ q) ++ c) ds). unfold ms at 1.
  rewrite (readUInt32LE_Z_segment ((((QBC.QBC_MAGIC ++ v) ++ q) ++ c) ++ ds)) by lia.
  cbn [rbind]. fold ms.
  rewrite (app_assoc ((((QBC.QBC_MAGIC ++ v) ++ q) ++ c) ++ ds) ms).
  rewrite Nat2Z.id.
  set (hd := ((((QBC.QBC_MAGIC ++ v) ++ q) ++ c) ++ ds) ++ ms).
  change 20 with (Z.of_nat (length hd)).
  rewrite (decode_all_concat instructions bufs Hdec hd metadataBuffer []).
  reflexivity.
Qed.

(** The image [createQBC] builds from instructions of the table is read
    back by [parseQBC]: for a qubit count that fits sixteen bits, fewer
    than [2^32 / 6] instructions and less than [2^32] bytes of metadata,
    [createQBC] returns a buffer of [20 + dataSize + metadataSize] bytes,
    and [parseQBC] of that buffer returns the version 1, the qubit count,
    the number of instructions, both sizes, and the same instructions in
    the same order. *)
Theorem parseQBC_createQBC (instructions : list QBC.instruction) (maxQubits : Z)
    (metadataBuffer : Buffer.t) :
  Forall QBC.table_instruction instructions ->
  0 <= maxQubits <= 65535 ->
  6 * Z.of_nat (length instructions) < 2 ^ 32 ->
  Z.of_nat (length metadataBuffer) < 2 ^ 32 ->
  exists (image : Buffer.t) (dataSize : Z),
    QBC.createQBC instructions maxQubits metadataBuffer = Ok image /\
    Z.of_nat (length image) = 20 + dataSize + Z.of_nat (length metadataBuffer) /\
    QBC.parseQBC image =
      Ok (QBC.mkParsed
            (QBC.mkHeader 1 maxQubits (Z.of_nat (length instructions)) dataSize
                          (Z.of_nat (length metadataBuffer)))
            instructions).
Proof.
  intros Htable Hq Hn Hm.
  destruct (encode_all_table instructions Htable) as (bufs & Henc & Hdec).
  pose proof (concat_length_bound instructions bufs Hdec) as Hd.
  eexists. exists (Z.of_nat (length (concat bufs))).
  split; [apply (createQBC_layout instructions bufs); (assumption || lia)|].
  split.
  - rewrite !length_app. cbn [length Buffer.le_bytes QBC.QBC_MAGIC]. lia.
  - apply (parseQBC_layout instructions bufs); (assumption || lia).
Qed.

Lemma small_program_table : Forall QBC.table_instruction small_program.
Proof.
  repeat constructor.
  - exists QBC.QubitManagement. split; [reflexivity|].
    repeat constructor; cbn [QBC.fits]; lia.
  - exists QBC.NoParameters. split; [reflexivity|]. constructor.
Qed.

Lemma parseQBC_createQBC_witness :
  Forall QBC.table_instruction small_program /\
  QBC.createQBC small_program 1 empty_metadata = Ok small_image /\
  exists (image : Buffer.t) (dataSize : Z),
    QBC.createQBC small_program 1 empty_metadata = Ok image /\
    Z.of_nat (length image) = 20 + dataSize + Z.of_nat (length empty_metadata) /\
    QBC.parseQBC image =
      Ok (QBC.mkParsed
            (QBC.mkHeader 1 1 (Z.of_nat (length small_program)) dataSize
                          (Z.of_nat (length empty_metadata)))
            small_program).
Proof.
  split; [exact small_program_table|].
  split; [vm_compute; reflexivity|].
  apply (parseQBC_createQBC small_program 1 empty_metadata).
  - exact small_program_table.
  - lia.
  - cbn; lia.
  - cbn; lia.
Defined.

(** ** The interpreter and the codec *)

Section InterpreterAndCodec.
Import BytecodeInterpreter.

Lemma decodeInstruction_first_byte (buffer : Buffer.t) (i : QBC.instruction) (n : Z) :
  QBC.decodeInstruction buffer 0 = Ok (i, n) -> arr_get buffer 0 = Some (QBC.op i).
Proof.
  unfold QBC.decodeInstruction, Buffer.load.
  destruct (arr_get buffer 0) as [op|]; [|discriminate].
  destruct (QBC.switch op) as [[]|]; try discriminate;
    unfold Buffer.readFloatLE, Buffer.readUInt32LE, Buffer.readInt32LE;
    try (destruct (Buffer.in_bounds buffer _ 4); [|discriminate]);
    cbn [rbind]; intros [= <- _]; reflexivity.
Qed.

Lemma execute_unknown_opcode (maxInstructions : option Z) (s : t) (opcode : Z) :
  (forall n, maxInstructions = Some n -> 0 <= n) ->
  arr_get (bytecode s) 0 = Some opcode ->
  dispatch opcode = raise (Error "Unknown opcode") ->
  exists s',
    execute maxInstructions s
    = Some (Ok (mkResult false (Some "Unknown opcode"%string) (classicalMemory s)
                         (mkMetrics 0 0 0 0)), s') /\
    pc s' = 1 /\ running s' = false.
Proof.
  intros Hmax Hop Hd.
  pose proof (arr_get_in_range _ _ _ Hop) as Hlen.
  unfold execute.
  destruct (Z.eqb_spec (Z.of_nat (length (bytecode s))) 0) as [E0 | _]; [lia|].
  set (m := match maxInstructions with
            | Some n => if n =? 0 then MAX_SAFE_INTEGER else n
            | None => MAX_SAFE_INTEGER
            end).
  assert (Hm : 0 < m).
  { subst m. destruct maxInstructions as [n|]; [|reflexivity].
    specialize (Hmax n eq_refl). destruct (Z.eqb_spec n 0); [reflexivity | lia]. }
  erewrite (try_loop_unknown_opcode m _ opcode);
    [| reflexivity | exact Hm | exact Hop | exact Hd].
  eexists. split; [reflexivity|]. split; reflexivity.
Qed.

(** Four opcodes that [QBCOpcode] lists and the codec encodes,
    [GATE_PHASE], [GATE_ISWAP], [GATE_FREDKIN] and [MEASURE_ALL], have no
    [case] in the interpreter's [switch]: an instruction of the table with
    one of them is encoded, and a run of a bytecode that starts with the
    encoding stops at once with the error "Unknown opcode", no instruction
    counted and the classical memory as it was. *)
Theorem listed_opcodes_not_executed (i : QBC.instruction) (rest : Buffer.t)
    (maxInstructions : option Z) (s : t) :
  QBC.table_instruction i ->
  In (QBC.op i) [QBCOpcode.GATE_PHASE; QBCOpcode.GATE_ISWAP;
                 QBCOpcode.GATE_FREDKIN; QBCOpcode.MEASURE_ALL] ->
  (forall n, maxInstructions = Some n -> 0 <= n) ->
  QBC.op i ∈ QBCOpcode.values /\
  exists buffer s',
    QBC.encodeInstruction i = Ok buffer /\
    execute maxInstructions (set_bytecode (buffer ++ rest) s)
    = Some (Ok (mkResult false (Some "Unknown opcode"%string) (classicalMemory s)
                         (mkMetrics 0 0 0 0)), s') /\
    running s' = false.
Proof.
  intros Htable Hop Hmax.
  destruct (encode_decode_table i Htable) as (buffer & Henc & Hdec).
  pose proof (decodeInstruction_first_byte _ _ _ Hdec) as Hfirst.
  split.
  { destruct Htable as (g & Hg & _). apply switch_listed in Hg.
    destruct Hg as [Hg _]. apply bool_decide_eq_true in Hg. exact Hg. }
  destruct (execute_unknown_opcode maxInstructions (set_bytecode (buffer ++ rest) s)
                                   (QBC.op i) Hmax) as (s' & He & _ & Hrun).
  - cbn [bytecode set_bytecode]. rewrite arr_get_app_l; [exact Hfirst|].
    apply arr_get_in_range in Hfirst. lia.
  - cbn [In] in Hop. destruct Hop as [<- | [<- | [<- | [<- | []]]]]; reflexivity.
  - exists buffer, s'. split; [exact Henc|]. split; [exact He | exact Hrun].
Qed.

Lemma fredkin_instruction_table : QBC.table_instruction fredkin_instruction.
Proof.
  exists QBC.ThreeQubitGate. split; [reflexivity|].
  repeat constructor; cbn [QBC.fits]; lia.
Qed.

Lemma listed_opcodes_not_executed_witness :
  QBC.table_instruction fredkin_instruction /\
  QBC.op fredkin_instruction ∈ QBCOpcode.values /\
  exists buffer s',
    QBC.encodeInstruction fredkin_instruction = Ok buffer /\
    execute (Some 100) (set_bytecode (buffer ++ [QBCOpcode.END]) constructor)
    = Some (Ok (mkResult false (Some "Unknown opcode"%string) ∅ (mkMetrics 0 0 0 0)), s') /\
    running s' = false.
Proof.
  split; [exact fredkin_instruction_table|].
  apply (listed_opcodes_not_executed fredkin_instruction [QBCOpcode.END] (Some 100)
                                     constructor).
  - exact fredkin_instruction_table.
  - cbn. tauto.
  - intros n [= <-]. lia.
Defined.

End InterpreterAndCodec.

(** ** The instruction count of a run *)

Section InstructionCount.
Import BytecodeInterpreter.

Lemma andThen_count {A B} (m : Interp A) (k : A -> Interp B) :
  (forall s r s', m s = Some (r, s') ->
     instructionsExecuted (metrics s') = instructionsExecuted (metrics s) /\
     error s' = error s) ->
  (forall a s r s', k a s = Some (r, s') ->
     instructionsExecuted (metrics s') = instructionsExecuted (metrics s) /\
     error s' = error s) ->
  forall s r s', andThen m k s = Some (r, s') ->
    instructionsExecuted (metrics s') = instructionsExecuted (metrics s) /\
    error s' = error s.
Proof.
  intros Hm Hk s r s'. unfold andThen.
  destruct (m s) as [[[a|e] s1]|] eqn:E; [| |discriminate].
  - intros H. destruct (Hk _ _ _ _ H) as [-> ->]. exact (Hm _ _ _ E).
  - intros [= <- <-]. exact (Hm _ _ _ E).
Qed.

Ltac count_leaf :=
  let s := fresh "s" in let r := fresh "r" in let s' := fresh "s'" in
  let H := fresh "H" in
  intros s r s' H;
  cbv beta iota delta [pure raise beyond read update fetch readUInt32LE_pc readInt32LE_pc
                       integer number classicalMemory_get classicalMemory_set] in H;
  repeat match type of H with
         | context [match ?x with _ => _ end] => destruct x
         | context [if ?x then _ else _] => destruct x
         end;
  try discriminate H;
  injection H as _ <-; destruct s; split; reflexivity.

Ltac count_frame :=
  repeat first
    [ apply andThen_count; [| intros ?]
    | match goal with
      | |- forall s r s', (match ?x with _ => _ end) s = _ -> _ => destruct x
      | |- forall s r s', (if ?x then _ else _) s = _ -> _ => destruct x
      end
    | count_leaf ].

(** No instruction handler touches the instruction count or the recorded
    error. *)
Lemma dispatch_count (opcode : Z) (s : t) (r : res unit) (s' : t) :
  dispatch opcode s = Some (r, s') ->
  instructionsExecuted (metrics s') = instructionsExecuted (metrics s) /\
  error s' = error s.
Proof.
  revert s r s'. unfold dispatch.
  destruct opcode as [|p|p]; [count_leaf| |count_leaf].
  do 8 (try (destruct p as [p|p|]));
    unfold executeConditionalJump, executeJump, executeStoreClassical,
           executeLoadClassical, executeClassicalOperation, executeClassicalComparison;
    count_frame.
Qed.

(** An instruction that is executed without an exception adds one to the
    count; one that throws adds nothing. *)
Lemma executeNextInstruction_count (s : t) (r : res unit) (s' : t) :
  executeNextInstruction s = Some (r, s') ->
  pc s < Z.of_nat (length (bytecode s)) ->
  instructionsExecuted (metrics s') =
    instructionsExecuted (metrics s) + match r with Ok _ => 1 | Throw _ => 0 end /\
  error s' = error s.
Proof.
  intros H Hpc. unfold executeNextInstruction in H.
  destruct (Z.leb_spec (Z.of_nat (length (bytecode s))) (pc s)) as [Hle | _]; [lia|].
  unfold andThen at 1 in H. unfold fetch in H. cbv beta iota in H.
  unfold andThen in H.
  match type of H with
  | match ?m with _ => _ end = _ => destruct m as [[[a|e] s1]|] eqn:E
  end; [| |discriminate].
  - unfold update in H. injection H as <- <-.
    assert (Hc : instructionsExecuted (metrics s1) = instructionsExecuted (metrics s) /\
                 error s1 = error s).
    { destruct (arr_get (bytecode s) (pc s)) as [opcode|].
      - destruct (dispatch_count _ _ _ _ E) as [-> ->]. split; reflexivity.
      - discriminate. }
    destruct Hc as [Hc He]. destruct s1 as [? ? ? ? ? []]. cbn in *. split; [lia | exact He].
  - injection H as <- <-.
    assert (Hc : instructionsExecuted (metrics s1) = instructionsExecuted (metrics s) /\
                 error s1 = error s).
    { destruct (arr_get (bytecode s) (pc s)) as [opcode|].
      - destruct (dispatch_count _ _ _ _ E) as [-> ->]. split; reflexivity.
      - injection E as _ <-. split; reflexivity. }
    destruct Hc as [Hc He]. split; [lia | exact He].
Qed.

Lemma loop_count (maxInstructions : Z) (turns : nat) (s : t) (r : res unit) (s' : t) :
  loop maxInstructions turns s = Some (r, s') ->
  instructionsExecuted (metrics s) <= maxInstructions ->
  instructionsExecuted (metrics s) <= instructionsExecuted (metrics s') <= maxInstructions /\
  error s' = error s /\
  match r with
  | Ok _ => True
  | Throw _ => instructionsExecuted (metrics s') < maxInstructions
  end.
Proof.
  revert s. induction turns as [|turns IH]; intros s; cbn [loop].
  - destruct (running s && (pc s <? Z.of_nat (length (bytecode s)))
              && (instructionsExecuted (metrics s) <? maxInstructions));
      [discriminate|]. intros [= <- <-]. repeat split; lia.
  - destruct (running s) eqn:Hrun; cbn [andb]; [|intros [= <- <-]; repeat split; lia].
    destruct (Z.ltb_spec (pc s) (Z.of_nat (length (bytecode s)))) as [Hpc|];
      cbn [andb]; [|intros [= <- <-]; repeat split; lia].
    destruct (Z.ltb_spec (instructionsExecuted (metrics s)) maxInstructions) as [Hmax|];
      [|intros [= <- <-]; repeat split; lia].
    unfold andThen at 1.
    destruct (executeNextInstruction s) as [[[[]|e] s1]|] eqn:E; [| |discriminate].
    + destruct (executeNextInstruction_count _ _ _ E Hpc) as [Hc He]. cbv iota in Hc.
      intros H Hle. destruct (IH s1 H) as (H1 & H2 & H3); [lia|].
      split; [lia|]. split; [congruence | exact H3].
    + destruct (executeNextInstruction_count _ _ _ E Hpc) as [Hc He]. cbv iota in Hc.
      intros [= <- <-]. repeat split; (lia || exact He).
Qed.

(** The bound on the number of turns is no restriction: the loop gives
    the same result with any larger bound. *)
Lemma loop_turns_enough (maxInstructions : Z) (turns : nat) (s : t) :
  (Z.to_nat (maxInstructions - instructionsExecuted (metrics s)) <= turns)%nat ->
  loop maxInstructions (S turns) s = loop maxInstructions turns s.
Proof.
  revert s. induction turns as [|turns IH]; intros s Hturns.
  - cbn [loop].
    destruct (running s) eqn:Hrun; cbn [andb]; [|reflexivity].
    destruct (Z.ltb_spec (pc s) (Z.of_nat (length (bytecode s)))) as [Hpc|];
      cbn [andb]; [|reflexivity].
    destruct (Z.ltb_spec (instructionsExecuted (metrics s)) maxInstructions) as [Hmax|];
      [lia | reflexivity].
  - cbn [loop]. fold loop.
    destruct (running s) eqn:Hrun; cbn [andb]; [|reflexivity].
    destruct (Z.ltb_spec (pc s) (Z.of_nat (length (bytecode s)))) as [Hpc|];
      cbn [andb]; [|reflexivity].
    destruct (Z.ltb_spec (instructionsExecuted (metrics s)) maxInstructions) as [Hmax|];
      [|reflexivity].
    unfold andThen at 1 3.
    destruct (executeNextInstruction s) as [[[[]|e] s1]|] eqn:E; try reflexivity.
    destruct (executeNextInstruction_count _ _ _ E Hpc) as [Hc _]. cbv iota in Hc.
    apply (IH s1). lia.
Qed.

(** [execute] with a positive [maxInstructions] never counts more than
    that many instructions, whatever the bytecode.  A run that is cut by
    the limit is reported as a success: when the result has [success]
    false, fewer instructions than the limit were counted. *)
Theorem execute_instruction_cap (n : Z) (s : t) (r : result) (s' : t) :
  0 < n ->
  execute (Some n) s = Some (Ok r, s') ->
  0 <= instructionsExecuted (result_metrics r) <= n /\
  (success r = false -> instructionsExecuted (result_metrics r) < n).
Proof.
  intros Hn. unfold execute.
  destruct (Z.of_nat (length (bytecode s)) =? 0); [discriminate|].
  destruct (Z.eqb_spec n 0) as [E0 | _]; [lia|].
  unfold try_loop.
  match goal with
  | |- context [loop n ?turns ?s0] =>
      destruct (loop n turns s0) as [[[[]|e] s1]|] eqn:E; [| |discriminate];
      (apply loop_count in E; [|cbn; lia]); destruct E as (Hc & He & Hlt)
  end; intros [= <- <-]; cbn in Hc, He, Hlt |- *.
  - rewrite He. split; [lia | discriminate].
  - split; [lia | intros _; exact Hlt].
Qed.

Lemma execute_instruction_cap_witness :
  exists r s',
    execute (Some 100) (loaded endless_program) = Some (Ok r, s') /\
    success r = true /\
    instructionsExecuted (result_metrics r) = 100 /\
    (0 <= instructionsExecuted (result_metrics r) <= 100 /\
     (success r = false -> instructionsExecuted (result_metrics r) < 100)).
Proof.
  destruct (execute (Some 100) (loaded endless_program)) as [[[r|e] s']|] eqn:E;
    [| exfalso; vm_compute in E; discriminate E
     | exfalso; vm_compute in E; discriminate E].
  exists r, s'. split; [reflexivity|].
  pose proof (execute_instruction_cap 100 (loaded endless_program) r s' ltac:(lia) E) as H.
  vm_compute in E. injection E as <- _.
  split; [reflexivity|]. split; [reflexivity | exact H].
Defined.

End InstructionCount.

(** ** [STORE_CLASSICAL] and [NOT_CLASSICAL]: the codec and the interpreter *)

Section StoreAndNot.
Import BytecodeInterpreter.

Lemma encodeInstruction_STORE (addr value : Z) :
  0 <= addr < 256 -> - 2 ^ 31 <= value < 2 ^ 31 ->
  QBC.encodeInstruction (QBC.mkInstruction QBCOpcode.STORE_CLASSICAL [Int addr; Int value])
  = Ok (QBCOpcode.STORE_CLASSICAL :: addr :: Buffer.le_bytes (value mod 2 ^ 32)).
Proof.
  intros Ha Hv. unfold QBC.encodeInstruction. cbn [QBC.op QBC.params].
  change (bool_decide (QBCOpcode.STORE_CLASSICAL ∈ QBCOpcode.values)) with true.
  cbn [negb]. change (QBC.getParameterSize QBCOpcode.STORE_CLASSICAL) with (@Ok Z 5).
  cbn [rbind]. change (QBC.switch QBCOpcode.STORE_CLASSICAL) with (Some QBC.StoreClassical).
  cbv beta iota zeta.
  unfold Buffer.writeInt32LE, Buffer.writeIntLE. cbn [QBC.param nth].
  replace ((value <? - 2 ^ 31) || (2 ^ 31 - 1 <? value)) with false
    by (symmetry; apply orb_false_iff; split; apply Z.ltb_ge; lia).
  codec_compute. rewrite (Z.mod_small addr 256) by lia. reflexivity.
Qed.

Lemma encodeInstruction_NOT (operand resultAddr : Z) :
  0 <= operand < 256 -> 0 <= resultAddr < 256 ->
  QBC.encodeInstruction (QBC.mkInstruction QBCOpcode.NOT_CLASSICAL
                                           [Int operand; Int resultAddr])
  = Ok [QBCOpcode.NOT_CLASSICAL; operand; resultAddr].
Proof.
  intros Ha Hr. unfold QBC.encodeInstruction. cbn [QBC.op QBC.params].
  change (bool_decide (QBCOpcode.NOT_CLASSICAL ∈ QBCOpcode.values)) with true.
  cbn [negb]. change (QBC.getParameterSize QBCOpcode.NOT_CLASSICAL) with (@Ok Z 2).
  cbn [rbind]. change (QBC.switch QBCOpcode.NOT_CLASSICAL) with (Some QBC.UnaryOperation).
  cbv beta iota zeta. cbn [QBC.param nth].
  codec_compute.
  rewrite (Z.mod_small operand 256), (Z.mod_small resultAddr 256) by lia. reflexivity.
Qed.

Lemma readInt32LE_le_bytes (pre post : Buffer.t) (value : Z) :
  - 2 ^ 31 <= value < 2 ^ 31 ->
  Buffer.readInt32LE (pre ++ Buffer.le_bytes (value mod 2 ^ 32) ++ post)
                     (Z.of_nat (length pre)) = Ok (Int value).
Proof.
  intros Hv. unfold Buffer.readInt32LE.
  rewrite in_bounds_segment by (cbn; lia).
  pose proof (readUInt32LE_Z_segment pre post (value mod 2 ^ 32)
                ltac:(apply Z.mod_pos_bound; lia)) as H.
  unfold QBC.readUInt32LE_Z in H.
  rewrite in_bounds_segment in H by (cbn; lia).
  apply (f_equal (fun r => match r with Ok z => z | Throw _ => 0 end)) in H.
  cbv beta iota in H. rewrite H, ToInt32_mod by exact Hv. reflexivity.
Qed.

(** The step of the interpreter at a [STORE_CLASSICAL] instruction. *)
Lemma executeNextInstruction_STORE (s : t) (addr value : Z) :
  arr_get (bytecode s) (pc s) = Some QBCOpcode.STORE_CLASSICAL ->
  arr_get (bytecode s) (pc s + 1) = Some addr ->
  Buffer.readInt32LE (bytecode s) (pc s + 2) = Ok (Int value) ->
  executeNextInstruction s
  = Some (Ok tt,
          incr_instructionsExecuted
            (incr_classicalOps
               (set_classicalMemory (<[Some addr := value]> (classicalMemory s))
                  (set_pc (pc s + 6) s)))).
Proof.
  intros Hop Haddr Hvalue.
  pose proof (arr_get_in_range _ _ _ Hop) as Hpc.
  unfold executeNextInstruction.
  replace (Z.of_nat (length (bytecode s)) <=? pc s) with false
    by (symmetry; apply Z.leb_gt; lia).
  unfold andThen at 1. unfold andThen at 1. unfold fetch at 1. rewrite Hop.
  change (dispatch QBCOpcode.STORE_CLASSICAL)
    with (andThen executeStoreClassical (fun _ => update incr_classicalOps)).
  unfold andThen at 1. unfold executeStoreClassical.
  unfold andThen at 1. unfold fetch at 1. cbn [pc bytecode set_pc]. rewrite Haddr.
  unfold andThen at 1. unfold readInt32LE_pc. cbn [pc bytecode set_pc].
  replace (pc s + 1 + 1) with (pc s + 2) by lia. rewrite Hvalue.
  cbv beta iota delta [integer pure andThen update classicalMemory_set].
  cbn [pc bytecode set_pc classicalMemory].
  replace (pc s + 2 + 4) with (pc s + 6) by lia.
  reflexivity.
Qed.

(** The interpreter reads a [STORE_CLASSICAL] instruction as the codec
    writes it.  Let [buffer] be what [encodeInstruction] returns for an
    address that is a byte and a signed 32-bit value.  Wherever [buffer]
    stands in the bytecode, the step of the interpreter at its first byte
    stores the value at the address, moves [pc] past [buffer], and counts
    one instruction and one classical operation. *)
Theorem STORE_encoded_then_executed (addr value : Z) (buffer pre post : Buffer.t) (s : t) :
  0 <= addr < 256 -> - 2 ^ 31 <= value < 2 ^ 31 ->
  QBC.encodeInstruction
    (QBC.mkInstruction QBCOpcode.STORE_CLASSICAL [Int addr; Int value]) = Ok buffer ->
  bytecode s = pre ++ buffer ++ post ->
  pc s = Z.of_nat (length pre) ->
  executeNextInstruction s
  = Some (Ok tt,
          incr_instructionsExecuted
            (incr_classicalOps
               (set_classicalMemory (<[Some addr := value]> (classicalMemory s))
                  (set_pc (pc s + Z.of_nat (length buffer)) s)))).
Proof.
  intros Ha Hv Henc Hb Hpc. rewrite (encodeInstruction_STORE addr value Ha Hv) in Henc.
  injection Henc as <-.
  change (Z.of_nat (length (QBCOpcode.STORE_CLASSICAL :: addr
                              :: Buffer.le_bytes (value mod 2 ^ 32)))) with 6.
  apply executeNextInstruction_STORE.
  - rewrite Hb, Hpc, <- (Z.add_0_r (Z.of_nat (length pre))), arr_get_app_r by lia.
    reflexivity.
  - rewrite Hb, Hpc, arr_get_app_r by lia. reflexivity.
  - rewrite Hb, Hpc.
    change ((QBCOpcode.STORE_CLASSICAL :: addr :: Buffer.le_bytes (value mod 2 ^ 32)) ++ post)
      with ([QBCOpcode.STORE_CLASSICAL; addr] ++ Buffer.le_bytes (value mod 2 ^ 32) ++ post).
    rewrite app_assoc.
    replace (Z.of_nat (length pre) + 2)
      with (Z.of_nat (length (pre ++ [QBCOpcode.STORE_CLASSICAL; addr])))
      by (rewrite length_app; cbn [length]; lia).
    apply readInt32LE_le_bytes. exact Hv.
Qed.

Lemma STORE_encoded_then_executed_witness :
  QBC.encodeInstruction (QBC.mkInstruction QBCOpcode.STORE_CLASSICAL [Int 3; Int (-7)])
  = Ok [0x70; 3; 0xF9; 0xFF; 0xFF; 0xFF] /\
  executeNextInstruction
    (set_pc 1 (loaded ([QBCOpcode.END] ++ [0x70; 3; 0xF9; 0xFF; 0xFF; 0xFF]
                                       ++ [QBCOpcode.END])))
  = Some (Ok tt, mk 7 ([QBCOpcode.END] ++ [0x70; 3; 0xF9; 0xFF; 0xFF; 0xFF]
                                       ++ [QBCOpcode.END])
                    false None (<[Some 3 := -7]> ∅) (mkMetrics 1 1 0 0)).
Proof.
  split; [vm_compute; reflexivity|].
  rewrite (STORE_encoded_then_executed 3 (-7) [0x70; 3; 0xF9; 0xFF; 0xFF; 0xFF]
             [QBCOpcode.END] [QBCOpcode.END]);
    [reflexivity | lia | lia | vm_compute; reflexivity | reflexivity | reflexivity].
Defined.

(** The codec writes [NOT_CLASSICAL] with two operand bytes, the operand
    address and the result address, and the interpreter reads three.  So
    at an encoded [NOT] the interpreter takes the result address as the
    address of a second operand, which must hold a value, and the byte
    after the instruction, the opcode of the next one, as the result
    address: the complement is stored there and not at the encoded result
    address, and [pc] ends one byte past the next opcode. *)
Theorem NOT_encoded_is_misread (operand resultAddr next a b : Z)
    (buffer pre post : Buffer.t) (s : t) :
  0 <= operand < 256 -> 0 <= resultAddr < 256 ->
  QBC.encodeInstruction
    (QBC.mkInstruction QBCOpcode.NOT_CLASSICAL [Int operand; Int resultAddr]) = Ok buffer ->
  bytecode s = pre ++ buffer ++ next :: post ->
  pc s = Z.of_nat (length pre) ->
  classicalMemory s !! Some operand = Some a ->
  classicalMemory s !! Some resultAddr = Some b ->
  length buffer = 3%nat /\
  executeNextInstruction s
  = Some (Ok tt,
          incr_instructionsExecuted
            (incr_classicalOps
               (set_classicalMemory (<[Some next := js_not a]> (classicalMemory s))
                  (set_pc (pc s + Z.of_nat (length buffer) + 1) s)))).
Proof.
  intros Ho Hr Henc Hb Hpc Ha Hbv.
  rewrite (encodeInstruction_NOT operand resultAddr Ho Hr) in Henc.
  injection Henc as <-. split; [reflexivity|].
  change (Z.of_nat (length [QBCOpcode.NOT_CLASSICAL; operand; resultAddr])) with 3.
  rewrite (executeNextInstruction_operation s NOT operand resultAddr next a b).
  - cbv beta iota delta [pure].
    replace (pc s + 3 + 1) with (pc s + 4) by lia. reflexivity.
  - rewrite Hb, Hpc, <- (Z.add_0_r (Z.of_nat (length pre))), arr_get_app_r by lia.
    reflexivity.
  - rewrite Hb, Hpc, arr_get_app_r by lia. reflexivity.
  - rewrite Hb, Hpc, arr_get_app_r by lia. reflexivity.
  - rewrite Hb, Hpc, arr_get_app_r by lia. reflexivity.
  - exact Ha.
  - exact Hbv.
Qed.

Lemma NOT_encoded_is_misread_witness :
  QBC.encodeInstruction (QBC.mkInstruction QBCOpcode.NOT_CLASSICAL [Int 0; Int 1])
  = Ok [0x93; 0; 1] /\
  executeNextInstruction
    (mk 0 ([0x93; 0; 1] ++ [QBCOpcode.END]) true None (<[Some 1 := 9]> (<[Some 0 := 5]> ∅))
        (mkMetrics 0 0 0 0))
  = Some (Ok tt,
          mk 4 ([0x93; 0; 1] ++ [QBCOpcode.END]) true None
             (<[Some QBCOpcode.END := -6]> (<[Some 1 := 9]> (<[Some 0 := 5]> ∅)))
             (mkMetrics 1 1 0 0)).
Proof.
  split; [vm_compute; reflexivity|].
  destruct (NOT_encoded_is_misread 0 1 QBCOpcode.END 5 9 [0x93; 0; 1] [] []
              (mk 0 ([0x93; 0; 1] ++ [QBCOpcode.END]) true None
                  (<[Some 1 := 9]> (<[Some 0 := 5]> ∅)) (mkMetrics 0 0 0 0)))
    as [_ Hrun];
    [lia | lia | vm_compute; reflexivity | reflexivity | reflexivity
     | reflexivity | reflexivity |].
  exact Hrun.
Defined.

End StoreAndNot.

(** ** [MeasurementEngine.measurementsToInteger] *)

Lemma lor_bit_above (acc i : Z) :
  0 <= i -> 0 <= acc < 2 ^ i -> Z.lor acc (2 ^ i) = acc + 2 ^ i.
Proof.
  intros Hi Hacc.
  assert (Hland : Z.land acc (2 ^ i) = 0).
  { apply Z.bits_inj'. intros n Hn. rewrite Z.land_spec, Z.bits_0, Z.pow2_bits_eqb by lia.
    destruct (Z.eqb_spec i n) as [<- | _]; [|apply andb_false_r].
    rewrite andb_true_r. destruct (Z.eq_dec acc 0) as [-> | Hne]; [apply Z.bits_0|].
    apply Z.bits_above_log2; [lia|]. apply Z.log2_lt_pow2; lia. }
  rewrite <- Z.lxor_lor by exact Hland. symmetry. apply Z.add_nocarry_lxor. exact Hland.
Qed.

Lemma measurementsToInteger_step (result measurement i : Z) :
  0 <= i <= 30 -> 0 <= result < 2 ^ i -> measurement = 0 \/ measurement = 1 ->
  js_or result (js_shl measurement i) = result + measurement * 2 ^ i.
Proof.
  intros Hi Hr Hm.
  assert (Hp : 2 ^ i <= 2 ^ 30) by (apply Z.pow_le_mono_r; lia).
  unfold js_or, js_shl.
  rewrite (Z.mod_small i 32) by lia.
  rewrite (ToInt32_small measurement) by (destruct Hm as [-> | ->]; lia).
  rewrite Z.shiftl_mul_pow2 by lia.
  rewrite (ToInt32_small (measurement * 2 ^ i)) by (destruct Hm as [-> | ->]; lia).
  rewrite (ToInt32_small result) by lia.
  rewrite (ToInt32_small (measurement * 2 ^ i)) by (destruct Hm as [-> | ->]; lia).
  destruct Hm as [-> | ->].
  - rewrite Z.mul_0_l, Z.lor_0_r. lia.
  - rewrite Z.mul_1_l. apply lor_bit_above; lia.
Qed.

Lemma measurementsToInteger_loop_value (results : list (string * Z)) (qubitIds : list string) :
  forall i result : Z,
    0 <= i -> i + Z.of_nat (length qubitIds) <= 31 ->
    0 <= result < 2 ^ i ->
    Forall (fun bit => bit = 0 \/ bit = 1) (recorded results qubitIds) ->
    Forall (fun qubitId => Map_get results (KStr qubitId) <> None) qubitIds ->
    MeasurementEngine.measurementsToInteger_loop results qubitIds i result
    = Ok (result + 2 ^ i * bits_value (recorded results qubitIds)).
Proof.
  induction qubitIds as [|qubitId rest IH]; intros i result Hi Hlen Hr Hbits Hset.
  - cbn. f_equal. lia.
  - cbn [length] in Hlen.
    change (recorded results (qubitId :: rest))
      with (default 0 (Map_get results (KStr qubitId)) :: recorded results rest)
      in Hbits |- *.
    change (bits_value (default 0 (Map_get results (KStr qubitId)) :: recorded results rest))
      with (default 0 (Map_get results (KStr qubitId))
            + 2 * bits_value (recorded results rest)).
    apply Forall_cons in Hbits. destruct Hbits as [Hbit Hbits'].
    apply Forall_cons in Hset. destruct Hset as [Hq Hset'].
    cbn [MeasurementEngine.measurementsToInteger_loop].
    revert Hbit Hq.
    destruct (Map_get results (KStr qubitId)) as [measurement|]; intros Hbit Hq;
      [|contradiction].
    cbn [default from_option] in Hbit |- *. unfold Datatypes.id in Hbit |- *.
    rewrite measurementsToInteger_step by (assumption || lia).
    assert (Hp : 2 ^ (i + 1) = 2 * 2 ^ i)
      by (rewrite Z.pow_add_r by lia; change (2 ^ 1) with 2; lia).
    rewrite (IH (i + 1)); try assumption; try lia.
    apply f_equal. rewrite Hp. ring.
Qed.

(** [measurementsToInteger] of at most 31 handles whose recorded results
    are 0 or 1 returns the integer with those results as binary digits,
    the first handle being the least significant; it changes nothing.
    A handle without a recorded result makes it throw. *)
Theorem measurementsToInteger_value (qubitIds : list string) (w : VM) :
  (length qubitIds <= 31)%nat ->
  Forall (fun qubitId =>
            Map_get (measurementResults (vm_engine w)) (KStr qubitId) = Some 0 \/
            Map_get (measurementResults (vm_engine w)) (KStr qubitId) = Some 1) qubitIds ->
  MeasurementEngine.measurementsToInteger qubitIds w
  = (Ok (bits_value (recorded (measurementResults (vm_engine w)) qubitIds)), w) /\
  forall (before after : list string) (qubitId : string),
    Map_get (measurementResults (vm_engine w)) (KStr qubitId) = None ->
    (length before <= 31)%nat ->
    Forall (fun qubitId =>
              Map_get (measurementResults (vm_engine w)) (KStr qubitId) = Some 0 \/
              Map_get (measurementResults (vm_engine w)) (KStr qubitId) = Some 1) before ->
    MeasurementEngine.measurementsToInteger (before ++ qubitId :: after) w
    = (Throw (Error "Qubit has not been measured"), w).
Proof.
  intros Hlen Hall. split.
  - unfold MeasurementEngine.measurementsToInteger, bind, get, lift_res.
    rewrite measurementsToInteger_loop_value; try lia.
    + rewrite Z.pow_0_r, Z.mul_1_l, Z.add_0_l. reflexivity.
    + unfold recorded. apply Forall_map. eapply Forall_impl; [exact Hall|].
      intros q [-> | ->]; cbn; auto.
    + eapply Forall_impl; [exact Hall|]. intros q [-> | ->]; discriminate.
  - intros before after qubitId Hnone Hb Hbefore.
    unfold MeasurementEngine.measurementsToInteger, bind, get, lift_res.
    assert (H : forall i result, 0 <= i -> i + Z.of_nat (length before) <= 31 ->
                  0 <= result < 2 ^ i ->
                  MeasurementEngine.measurementsToInteger_loop
                    (measurementResults (vm_engine w)) (before ++ qubitId :: after) i result
                  = Throw (Error "Qubit has not been measured")).
    { clear Hb. induction before as [|q before IH]; intros i result Hi Hl Hr.
      - cbn [app MeasurementEngine.measurementsToInteger_loop]. rewrite Hnone.
        reflexivity.
      - apply Forall_cons in Hbefore. destruct Hbefore as [Hq Hbefore'].
        cbn [length] in Hl.
        cbn [app MeasurementEngine.measurementsToInteger_loop].
        assert (Hp : 2 ^ (i + 1) = 2 * 2 ^ i)
          by (rewrite Z.pow_add_r by lia; change (2 ^ 1) with 2; lia).
        destruct Hq as [-> | ->];
          rewrite measurementsToInteger_step by (auto || lia);
          apply IH; try assumption; lia. }
    rewrite H; [reflexivity | lia | lia | change (2 ^ 0) with 1; lia].
Qed.

Lemma measurementsToInteger_value_witness :
  MeasurementEngine.measurementsToInteger ["q0"; "q1"; "q2"]%string vm_measured
  = (Ok 5, vm_measured).
Proof.
  destruct (measurementsToInteger_value ["q0"; "q1"; "q2"]%string vm_measured) as [H _].
  - cbn. lia.
  - apply Forall_cons; split; [right; reflexivity|].
    apply Forall_cons; split; [left; reflexivity|].
    apply Forall_cons; split; [right; reflexivity|]. constructor.
  - exact H.
Defined.

(** ** The indices of the registry *)

Lemma In_Map_set {V} (m : list (string * V)) (s : string) (v : V) (e : string * V) :
  In e (Map_set m s v) -> snd e = v \/ In e m.
Proof.
  induction m as [|[s' v'] m IH]; cbn [Map_set].
  - intros [<- | []]. left. reflexivity.
  - destruct (String.eqb s' s).
    + intros [<- | H]; [left; reflexivity | right; right; exact H].
    + intros [<- | H]; [right; left; reflexivity|].
      destruct (IH H) as [Hv | Hin]; [left; exact Hv | right; right; exact Hin].
Qed.

Lemma NoDup_Map_set (m : list (string * Z)) (s : string) (v : Z) :
  List.NoDup (map snd m) -> ~ In v (map snd m) -> List.NoDup (map snd (Map_set m s v)).
Proof.
  induction m as [|[s' v'] m IH]; cbn [Map_set map snd]; intros Hnd Hv.
  - constructor; [intros [] | constructor].
  - apply List.NoDup_cons_iff in Hnd. destruct Hnd as [Hv' Hnd].
    destruct (String.eqb s' s); cbn [map snd].
    + constructor; [|exact Hnd]. intros Hin. apply Hv. right. exact Hin.
    + constructor.
      * intros Hin. apply in_map_iff in Hin. destruct Hin as (e & He & Hin).
        destruct (In_Map_set _ _ _ _ Hin) as [Hev | Hem].
        -- apply Hv. left. congruence.
        -- apply Hv'. rewrite <- He. apply in_map. exact Hem.
      * apply IH; [exact Hnd|]. intros Hin. apply Hv. right. exact Hin.
Qed.

Lemma NoDup_Map_delete (m : list (string * Z)) (s : string) :
  List.NoDup (map snd m) -> List.NoDup (map snd (Map_delete m s)).
Proof.
  unfold Map_delete. induction m as [|[s' v'] m IH]; cbn [List.filter map snd fst];
    intros Hnd; [constructor|].
  apply List.NoDup_cons_iff in Hnd. destruct Hnd as [Hv' Hnd].
  destruct (negb (String.eqb s' s)); [|exact (IH Hnd)].
  cbn [map snd]. constructor; [|exact (IH Hnd)].
  intros Hin. apply Hv'. apply in_map_iff in Hin. destruct Hin as (e & He & Hin).
  apply filter_In in Hin. destruct Hin as [Hin _]. rewrite <- He. apply in_map. exact Hin.
Qed.

Lemma indices_distinct_allocated (this : registry) (qubitId : string)
    (groups : list (string * nat)) (sets : list (list string)) :
  indices_distinct this ->
  indices_distinct
    (mkRegistry (Map_set (qubits this) qubitId (nextQubitIndex this)) groups sets
                (nextQubitIndex this + 1) (registry_maxQubits this)).
Proof.
  intros [Hnd Hlt]. split; cbn [qubits nextQubitIndex].
  - apply NoDup_Map_set; [exact Hnd|].
    intros Hin. apply in_map_iff in Hin. destruct Hin as (e & He & Hin).
    rewrite List.Forall_forall in Hlt. specialize (Hlt e Hin). lia.
  - apply List.Forall_forall. intros e Hin.
    destruct (In_Map_set _ _ _ _ Hin) as [-> | Hem]; [lia|].
    rewrite List.Forall_forall in Hlt. specialize (Hlt e Hem). lia.
Qed.

(** The registry never gives one index to two handles.  If the indices
    of the handles are pairwise different and below [nextQubitIndex], they
    still are after [allocateQubit], whether it returns or throws, after
    [deallocateQubit] of any handle, and after [reset]; and then two
    handles with the same index are the same handle. *)
Theorem handles_keep_distinct_indices (w : VM) :
  indices_distinct (vm_registry w) ->
  indices_distinct (vm_registry (snd (QubitRegistry.allocateQubit w))) /\
  (forall qubitId,
      indices_distinct (vm_registry (snd (QubitRegistry.deallocateQubit qubitId w)))) /\
  indices_distinct (vm_registry (snd (QubitRegistry.reset w))) /\
  (forall (a b : string) (i : Z),
      QubitRegistry.getQubitIndex (KStr a) w = (Ok i, w) ->
      QubitRegistry.getQubitIndex (KStr b) w = (Ok i, w) ->
      a = b).
Proof.
  intros Hinv. split; [|split; [|split]].
  - unfold QubitRegistry.allocateQubit, bind, get.
    destruct (registry_maxQubits (vm_registry w) <=? Z.of_nat (length (qubits (vm_registry w))));
      [exact Hinv|].
    unfold call_uuidv4, QubitRegistry.modify_registry, modify, on_stateVector.
    cbn [vm_stateVector vm_registry set_vm_registry set_vm_sources set_vm_stateVector
         vm_engine vm_executor vm_sources].
    destruct (StateVector.expandStateVector (vm_stateVector w)) as [[[]|e] sv'];
      cbn [snd vm_registry set_vm_registry set_vm_stateVector qubits nextQubitIndex
           registry_maxQubits entanglementGroups groupSets];
      apply indices_distinct_allocated; exact Hinv.
  - intros qubitId. unfold QubitRegistry.deallocateQubit, bind, get.
    destruct (Map_get (qubits (vm_registry w)) (KStr qubitId)); [|exact Hinv].
    destruct (Map_get (entanglementGroups (vm_registry w)) (KStr qubitId)); [|exact Hinv].
    unfold QubitRegistry.modify_registry, modify.
    cbn [snd vm_registry set_vm_registry].
    destruct Hinv as [Hnd Hlt]. split; cbn [qubits nextQubitIndex].
    + apply NoDup_Map_delete. exact Hnd.
    + apply List.Forall_forall. intros e Hin. unfold Map_delete in Hin.
      apply filter_In in Hin. destruct Hin as [Hin _].
      rewrite List.Forall_forall in Hlt. exact (Hlt e Hin).
  - split; cbn; constructor.
  - intros a b i Ha Hb.
    unfold QubitRegistry.getQubitIndex, bind, get in Ha, Hb.
    destruct (Map_get (qubits (vm_registry w)) (KStr a)) as [ia|] eqn:Ea; [|discriminate].
    destruct (Map_get (qubits (vm_registry w)) (KStr b)) as [ib|] eqn:Eb; [|discriminate].
    injection Ha as ->. injection Hb as ->.
    apply Map_get_In in Ea, Eb. destruct Hinv as [Hnd _].
    revert Hnd Ea Eb. generalize (qubits (vm_registry w)) as m.
    induction m as [|[s v] m IH]; cbn [map snd In]; [intros _ []|].
    intros Hnd Ea Eb. apply List.NoDup_cons_iff in Hnd. destruct Hnd as [Hv Hnd].
    destruct Ea as [Ea | Ea], Eb as [Eb | Eb].
    + congruence.
    + exfalso. apply Hv. injection Ea as _ ->.
      change i with (snd (b, i)). apply in_map. exact Eb.
    + exfalso. apply Hv. injection Eb as _ ->.
      change i with (snd (a, i)). apply in_map. exact Ea.
    + exact (IH Hnd Ea Eb).
Qed.

Lemma handles_keep_distinct_indices_witness :
  indices_distinct (vm_registry (after_allocations 2 (initial_vm 32 32))) /\
  indices_distinct (vm_registry (after_allocations 3 (initial_vm 32 32))) /\
  indices_distinct
    (vm_registry (snd (QubitRegistry.deallocateQubit "q0"
                         (after_allocations 2 (initial_vm 32 32))))).
Proof.
  assert (H : indices_distinct (vm_registry (after_allocations 2 (initial_vm 32 32)))).
  { split; cbn.
    - repeat constructor; cbn; intuition discriminate.
    - repeat constructor. }
  split; [exact H|].
  destruct (handles_keep_distinct_indices (after_allocations 2 (initial_vm 32 32)) H)
    as (Ha & Hd & _).
  split; [exact Ha | exact (Hd "q0"%string)].
Defined.

(** ** [GateExecutor.applyControlledGate] *)

Lemma flip_up (x t : Z) :
  0 <= t -> Z.testbit x t = false -> Z.lxor x (2 ^ t) = x + 2 ^ t.
Proof.
  intros Ht Hb. symmetry. apply Z.add_nocarry_lxor.
  apply Z.bits_inj'. intros j Hj.
  rewrite Z.land_spec, Z.bits_0, Z.pow2_bits_eqb by lia.
  destruct (Z.eqb_spec t j) as [<- | _]; [rewrite Hb; reflexivity | apply andb_false_r].
Qed.

Lemma flip_down (x t : Z) :
  0 <= t -> Z.testbit x t = true -> Z.lxor x (2 ^ t) = x - 2 ^ t.
Proof.
  intros Ht Hb.
  pose proof (flip_up (Z.lxor x (2 ^ t)) t Ht) as H.
  rewrite flip_bit, Hb, flip_flip in H by lia. specialize (H eq_refl). lia.
Qed.

Lemma amp_map_upto (f : Z -> Cx) (N : nat) (x : Z) :
  0 <= x < Z.of_nat N -> amp (map f (upto N)) x = f x.
Proof.
  intros Hx. unfold amp, arr_get, upto.
  destruct (Z.leb_spec 0 x); [|lia].
  rewrite !list_lookup_fmap, lookup_seq_lt by lia.
  cbn. rewrite Z2Nat.id by lia. reflexivity.
Qed.

Section ControlledKernel.
Variables (sv : list Cx) (n c t : Z) (g00 g01 g10 g11 : Cx).
Hypothesis Hn : 0 <= n <= 31.
Hypothesis Hc : 0 <= c < n.
Hypothesis Ht : 0 <= t < n.
Hypothesis Htc : t <> c.
Hypothesis Hlen : Z.of_nat (length sv) = 2 ^ n.

Lemma controlled_step_effect (l : list Cx) (i : Z) :
  length l = length sv -> 0 <= i < 2 ^ n ->
  exists l',
    GateExecutor.controlled_step c t (mat2 g00 g01 g10 g11) (Some l) i = Some l' /\
    length l' = length sv /\
    (Z.testbit i c = true ->
     amp l' i = ComplexNumber.multiply (amp l i) (if Z.testbit i t then g11 else g00) /\
     amp l' (Z.lxor i (2 ^ t))
     = ComplexNumber.multiply (amp l i) (if Z.testbit i t then g01 else g10) /\
     forall x, x <> i -> x <> Z.lxor i (2 ^ t) -> amp l' x = amp l x) /\
    (Z.testbit i c = false -> l' = l).
Proof.
  intros Hl Hi.
  pose proof (pow2_index_bound n Hn) as Hp.
  pose proof (flip_range i n t Hi Ht) as Hf.
  pose proof (flip_neq i t ltac:(lia)) as Hne.
  unfold GateExecutor.controlled_step.
  rewrite js_mask_test, negb_involutive by lia.
  destruct (Z.testbit i c) eqn:E.
  - rewrite js_flip, js_bit by lia. rewrite arr_get_amp by lia.
    unfold GateExecutor.store_at.
    change (mat_get (mat2 g00 g01 g10 g11) 0 0) with (Some g00).
    change (mat_get (mat2 g00 g01 g10 g11) 0 1) with (Some g01).
    change (mat_get (mat2 g00 g01 g10 g11) 1 0) with (Some g10).
    change (mat_get (mat2 g00 g01 g10 g11) 1 1) with (Some g11).
    destruct (Z.testbit i t) eqn:Eb; cbn [Z.b2z Z.eqb]; cbv beta iota zeta;
      repeat (rewrite ?length_arr_set;
              match goal with
              | |- context [(0 <=? ?a) && (?a <? ?b)] =>
                  replace ((0 <=? a) && (a <? b)) with true
                    by (symmetry; apply andb_true_iff; split;
                        [apply Z.leb_le | apply Z.ltb_lt]; lia)
              end; cbv beta iota);
      (eexists; split; [reflexivity|]);
      (split; [rewrite !length_arr_set; exact Hl|]);
      (split; [|discriminate]); intros _; (split; [|split]).
    + apply amp_arr_set_eq. rewrite length_arr_set. lia.
    + rewrite amp_arr_set_ne by congruence. apply amp_arr_set_eq. lia.
    + intros x Hx1 Hx2. rewrite !amp_arr_set_ne by congruence. reflexivity.
    + rewrite amp_arr_set_ne by congruence. apply amp_arr_set_eq. lia.
    + apply amp_arr_set_eq. rewrite length_arr_set. lia.
    + intros x Hx1 Hx2. rewrite !amp_arr_set_ne by congruence. reflexivity.
  - exists l. split; [reflexivity|]. split; [exact Hl|]. split; [discriminate | reflexivity].
Qed.

Ltac ltb_cases :=
  repeat match goal with
         | |- context [?a <? ?b] => destruct (Z.ltb_spec a b)
         end;
  try lia; try reflexivity.

Lemma controlled_kernel_prefix (m : nat) :
  (m <= length sv)%nat ->
  exists l,
    fold_left (GateExecutor.controlled_step c t (mat2 g00 g01 g10 g11)) (upto m) (Some sv)
    = Some l /\
    length l = length sv /\
    forall x, 0 <= x < 2 ^ n ->
      amp l x = controlled_partial sv c t g00 g01 g10 g11 (Z.of_nat m) x.
Proof.
  assert (Hpt : 0 < 2 ^ t) by (apply Z.pow_pos_nonneg; lia).
  induction m as [|m IH]; intros Hm.
  - exists sv. split; [reflexivity|]. split; [reflexivity|].
    intros x Hx. unfold controlled_partial.
    pose proof (flip_range x n t Hx Ht).
    destruct (Z.testbit x c); [|reflexivity].
    destruct (Z.testbit x t); cbv zeta; ltb_cases.
  - destruct IH as (l & Hfold & Hl & Hamp); [lia|].
    rewrite upto_S, fold_left_app, Hfold. cbn [fold_left].
    destruct (controlled_step_effect l (Z.of_nat m) Hl ltac:(lia))
      as (l' & Hstep & Hl' & Hset & Hkeep).
    exists l'. split; [exact Hstep|]. split; [exact Hl'|].
    intros x Hx.
    pose proof (flip_range x n t Hx Ht) as Hfx.
    pose proof (flip_range (Z.of_nat m) n t ltac:(lia) Ht) as Hfm.
    assert (HM : amp l (Z.of_nat m)
                 = controlled_partial sv c t g00 g01 g10 g11 (Z.of_nat m) (Z.of_nat m))
      by (apply Hamp; lia).
    replace (Z.of_nat (S m)) with (Z.of_nat m + 1) by lia.
    destruct (Z.testbit (Z.of_nat m) c) eqn:Ec.
    + destruct (Hset eq_refl) as (Hi & Hf & Hother). clear Hset Hkeep.
      destruct (Z.eq_dec x (Z.of_nat m)) as [-> | Hxm].
      * rewrite Hi, HM. unfold controlled_partial. rewrite Ec.
        destruct (Z.testbit (Z.of_nat m) t) eqn:Eb; cbv zeta.
        -- rewrite (flip_down (Z.of_nat m) t ltac:(lia) Eb). ltb_cases.
        -- rewrite (flip_up (Z.of_nat m) t ltac:(lia) Eb). ltb_cases.
      * destruct (Z.eq_dec x (Z.lxor (Z.of_nat m) (2 ^ t))) as [-> | Hxf].
        -- rewrite Hf, HM. unfold controlled_partial.
           rewrite flip_flip, flip_bit, flip_other_bit, Ec by lia.
           destruct (Z.testbit (Z.of_nat m) t) eqn:Eb; cbn [negb]; cbv zeta.
           ++ rewrite (flip_down (Z.of_nat m) t ltac:(lia) Eb). ltb_cases.
           ++ rewrite (flip_up (Z.of_nat m) t ltac:(lia) Eb). ltb_cases.
        -- rewrite Hother, Hamp by assumption. unfold controlled_partial.
           assert (Hfm' : Z.lxor x (2 ^ t) <> Z.of_nat m).
           { intros E. apply Hxf. rewrite <- E. symmetry. apply flip_flip. }
           destruct (Z.testbit x c); [|reflexivity].
           destruct (Z.testbit x t); cbv zeta; ltb_cases.
    + rewrite (Hkeep eq_refl), Hamp by lia. unfold controlled_partial.
      destruct (Z.testbit x c) eqn:Ex; [|reflexivity].
      assert (Hxm : x <> Z.of_nat m) by (intros ->; congruence).
      assert (Hfm' : Z.lxor x (2 ^ t) <> Z.of_nat m).
      { intros E. rewrite <- E, flip_other_bit in Ec by lia. congruence. }
      destruct (Z.testbit x t); cbv zeta; ltb_cases.
Qed.

(** Both amplitudes of a pair end up computed from the amplitude whose
    target bit is clear: the one whose target bit is set is overwritten
    before it is read. *)
Lemma controlled_kernel_image :
  GateExecutor.controlled_kernel sv (2 ^ n) c t (mat2 g00 g01 g10 g11)
  = Some (controlled_image sv c t g01 g10 g11).
Proof.
  assert (Hpt : 0 < 2 ^ t) by (apply Z.pow_pos_nonneg; lia).
  unfold GateExecutor.controlled_kernel.
  rewrite <- Hlen, Nat2Z.id.
  destruct (controlled_kernel_prefix (length sv) ltac:(lia)) as (l & Hfold & Hl & Hamp).
  rewrite Hfold. f_equal. apply list_eq_amp.
  - unfold controlled_image, upto. rewrite !length_map, length_seq. exact Hl.
  - intros x Hx. rewrite Hl, Hlen in Hx. rewrite Hamp by exact Hx.
    unfold controlled_image. rewrite amp_map_upto by lia.
    unfold controlled_partial. pose proof (flip_range x n t Hx Ht).
    destruct (Z.testbit x c); [|reflexivity].
    destruct (Z.testbit x t) eqn:Eb; cbv zeta; ltb_cases.
Qed.

End ControlledKernel.

Lemma recordEntanglement_stateVector (w : VM) (q1 q2 : string) :
  vm_stateVector (snd (QubitRegistry.recordEntanglement q1 q2 w)) = vm_stateVector w.
Proof.
  unfold QubitRegistry.recordEntanglement, bind, get.
  destruct (Map_get (entanglementGroups (vm_registry w)) (KStr q1)); [|reflexivity].
  destruct (Map_get (entanglementGroups (vm_registry w)) (KStr q2)); reflexivity.
Qed.

(** [applyControlledGate] computes both amplitudes of every pair from the
    one whose target bit is clear.  For live handles with different
    indices [c] and [t] and a 2x2 matrix [g], the vector it hands to
    [setStateVector] has, at an index [x] whose bit [c] is set,
    [(a * g10) * g01] if bit [t] of [x] is clear and [(a * g10) * g11] if
    it is set, where [a] is the old amplitude at [x] with bit [t]
    cleared; the other indices keep their amplitudes.  The entry [g00]
    and the old amplitudes at the indices with both bits set have no
    influence on the result. *)
Theorem applyControlledGate_reads_half (w : VM) (hc ht : string) (c t n : Z)
    (g00 g01 g10 g11 : Cx) :
  Map_get (qubits (vm_registry w)) (KStr hc) = Some c ->
  Map_get (qubits (vm_registry w)) (KStr ht) = Some t ->
  StateVector.qubitCount (vm_stateVector w) = n ->
  0 <= n <= 31 -> 0 <= c < n -> 0 <= t < n -> t <> c ->
  Z.of_nat (length (StateVector.stateVector (vm_stateVector w))) = 2 ^ n ->
  GateExecutor.applyControlledGate hc ht (mat2 g00 g01 g10 g11) w
  = Some ((QubitRegistry.recordEntanglement hc ht ;;
           on_stateVector
             (StateVector.setStateVector
                (controlled_image (StateVector.stateVector (vm_stateVector w))
                                  c t g01 g10 g11)) ;;
           on_stateVector StateVector.normalize ;;
           GateExecutor.updateMetrics "ControlledCustom")%js w) /\
  forall sv' : list Cx,
    length sv' = length (StateVector.stateVector (vm_stateVector w)) ->
    (forall x, 0 <= x < 2 ^ n -> Z.testbit x c && Z.testbit x t = false ->
               amp sv' x = amp (StateVector.stateVector (vm_stateVector w)) x) ->
    controlled_image sv' c t g01 g10 g11
    = controlled_image (StateVector.stateVector (vm_stateVector w)) c t g01 g10 g11.
Proof.
  intros Hqc Hqt Hq Hn Hc Ht Htc Hlen. split.
  - unfold GateExecutor.applyControlledGate.
    unfold bind at 1. rewrite (getQubitIndex_live hc c w Hqc).
    unfold bind at 1. rewrite (getQubitIndex_live ht t w Hqt).
    unfold bind at 1.
    match goal with
    | |- _ = Some ((_ ;; ?k)%js w) =>
        change ((QubitRegistry.recordEntanglement hc ht ;; k)%js w)
          with (match QubitRegistry.recordEntanglement hc ht w with
                | (Ok _, w1) => k w1
                | (Throw e, w1) => (Throw e, w1)
                end)
    end.
    pose proof (recordEntanglement_stateVector w hc ht) as Hsv.
    destruct (QubitRegistry.recordEntanglement hc ht w) as [[[]|e] w1]; [|reflexivity].
    destruct w1 as [sv1 r1 e1 x1 s1]. cbn [snd vm_stateVector] in Hsv. subst sv1.
    unfold on_stateVector at 1 2, StateVector.getQubitCount, StateVector.getStateVector.
    cbv beta iota delta [bind get ret].
    cbn [vm_stateVector set_vm_stateVector].
    rewrite Hq.
    rewrite (controlled_kernel_image _ n c t g00 g01 g10 g11 Hn Hc Ht Htc Hlen).
    reflexivity.
  - intros sv' Hl Hagree. unfold controlled_image. rewrite Hl.
    apply map_ext_in. intros x Hx. apply in_upto in Hx. rewrite Hlen in Hx.
    destruct (Z.testbit x c) eqn:Ec.
    + destruct (Z.testbit x t) eqn:Eb.
      * rewrite Hagree; [reflexivity | apply flip_range; lia |].
        rewrite flip_bit, Eb by lia. apply andb_false_r.
      * rewrite Hagree; [reflexivity | lia |]. rewrite Eb. apply andb_false_r.
    + apply Hagree; [lia | rewrite Ec; reflexivity].
Qed.

Lemma applyControlledGate_reads_half_witness :
  GateExecutor.applyControlledGate "q0" "q1" GATES.X vm_three_qubits
  = Some ((QubitRegistry.recordEntanglement "q0" "q1" ;;
           on_stateVector
             (StateVector.setStateVector
                (controlled_image (StateVector.stateVector (vm_stateVector vm_three_qubits))
                                  0 1 (cx 1 0) (cx 1 0) (cx 0 0))) ;;
           on_stateVector StateVector.normalize ;;
           GateExecutor.updateMetrics "ControlledCustom")%js vm_three_qubits).
Proof.
  apply (applyControlledGate_reads_half vm_three_qubits "q0" "q1" 0 1 3
           (cx 0 0) (cx 1 0) (cx 1 0) (cx 0 0));
    try reflexivity; lia.
Defined.

(** ** [reset] of the facade *)

(** [reset()] of the facade forgets every handle and starts numbering at
    0 again, but the state vector keeps its number of qubits, in the basis
    state |0...0>.  So the machine after a reset is not a fresh one: the
    next [allocateQubit] returns a handle with index 0 while the vector
    grows to one qubit more than before the reset. *)
Theorem QVM_reset_keeps_vector_size (q : QVM) (n : Z) :
  StateVector.qubitCount (vm_stateVector (qvm_vm q)) = n ->
  0 <= n ->
  n + 1 <= StateVector.maxQubits (StateVector.options (vm_stateVector (qvm_vm q))) ->
  0 < registry_maxQubits (vm_registry (qvm_vm q)) ->
  exists (q' : QVM) (qubitId : string) (w' : VM),
    QVM_reset q = Some (Ok tt, q') /\
    qubits (vm_registry (qvm_vm q')) = [] /\
    nextQubitIndex (vm_registry (qvm_vm q')) = 0 /\
    measurementResults (vm_engine (qvm_vm q')) = [] /\
    BytecodeInterpreter.classicalMemory (qvm_interpreter q') = ∅ /\
    StateVector.qubitCount (vm_stateVector (qvm_vm q')) = n /\
    StateVector.stateVector (vm_stateVector (qvm_vm q')) = basis0 n /\
    QubitRegistry.allocateQubit (qvm_vm q') = (Ok qubitId, w') /\
    QubitRegistry.getQubitIndex (KStr qubitId) w' = (Ok 0, w') /\
    StateVector.qubitCount (vm_stateVector w') = n + 1 /\
    Z.of_nat (length (StateVector.stateVector (vm_stateVector w'))) = 2 ^ (n + 1).
Proof.
  intros Hq Hn Hmax Hreg. destruct q as [w i]. cbn [qvm_vm qvm_interpreter] in *.
  subst n.
  unfold QVM_reset. cbn [qvm_vm qvm_interpreter].
  unfold bind at 1. unfold on_stateVector at 1.
  unfold StateVector.reset, bind at 1, get, lift_res.
  rewrite initializeStateVector_run by lia.
  destruct (Z.leb_spec (StateVector.qubitCount (vm_stateVector w))
                       (StateVector.maxQubits (StateVector.options (vm_stateVector w))));
    [|lia].
  cbv beta iota delta [bind modify StateVector.invalidateProbabilityCache
                       StateVector.updateMemoryUsage QubitRegistry.reset
                       QubitRegistry.modify_registry MeasurementEngine.reset
                       MeasurementEngine.modify_engine BytecodeInterpreter.reset].
  cbn [fst snd].
  eexists. eexists. eexists. split; [reflexivity|].
  cbn [qvm_vm qvm_interpreter vm_registry vm_engine vm_stateVector set_vm_registry
       set_vm_engine set_vm_stateVector qubits nextQubitIndex measurementResults
       BytecodeInterpreter.classicalMemory BytecodeInterpreter.set_metrics
       BytecodeInterpreter.set_classicalMemory
       StateVector.qubitCount StateVector.stateVector StateVector.set_metrics
       StateVector.set_stateVector StateVector.set_probabilityCache].
  do 6 (split; [reflexivity|]).
  split.
  { apply allocateQubit_run;
      cbn [vm_registry vm_stateVector set_vm_registry set_vm_engine set_vm_stateVector
           qubits registry_maxQubits length
           StateVector.options StateVector.stateVector StateVector.set_metrics
           StateVector.set_stateVector StateVector.set_probabilityCache].
    - lia.
    - lia.
    - rewrite basis0_length by lia.
      pose proof (Z.pow_le_mono_r 2 (StateVector.qubitCount (vm_stateVector w) + 1)
                    (StateVector.maxQubits (StateVector.options (vm_stateVector w)))
                    ltac:(lia) Hmax) as Hp.
      rewrite Z.pow_add_r in Hp by lia. change (2 ^ 1) with 2 in Hp. lia. }
  split.
  { unfold QubitRegistry.getQubitIndex, bind, get.
    cbn [vm_registry qubits set_vm_registry set_vm_engine set_vm_stateVector
         nextQubitIndex Map_set].
    unfold Map_get. cbn [List.find fst]. rewrite String.eqb_refl. reflexivity. }
  cbn [vm_stateVector expanded StateVector.qubitCount StateVector.stateVector
       set_vm_registry set_vm_engine set_vm_stateVector StateVector.set_metrics
       StateVector.set_stateVector StateVector.set_probabilityCache].
  split; [reflexivity|].
  rewrite length_app, repeat_length.
  pose proof (basis0_length _ Hn) as Hb.
  rewrite Z.pow_add_r by lia. change (2 ^ 1) with 2. lia.
Qed.

Lemma QVM_reset_keeps_vector_size_witness :
  exists (q' : QVM) (qubitId : string) (w' : VM),
    QVM_reset (mkQVM vm_three_qubits BytecodeInterpreter.constructor) = Some (Ok tt, q') /\
    qubits (vm_registry (qvm_vm q')) = [] /\
    StateVector.qubitCount (vm_stateVector (qvm_vm q')) = 3 /\
    QubitRegistry.allocateQubit (qvm_vm q') = (Ok qubitId, w') /\
    QubitRegistry.getQubitIndex (KStr qubitId) w' = (Ok 0, w') /\
    StateVector.qubitCount (vm_stateVector w') = 3 + 1.
Proof.
  destruct (QVM_reset_keeps_vector_size
              (mkQVM vm_three_qubits BytecodeInterpreter.constructor) 3)
    as (q' & qubitId & w' & H1 & H2 & _ & _ & _ & H3 & _ & H4 & H5 & H6 & _);
    [reflexivity | lia | apply Z.leb_le; reflexivity | apply Z.ltb_lt; reflexivity |].
  exists q', qubitId, w'. repeat split; assumption.
Defined.

(** ** The counters of the measurement engine *)

Section EngineCounters.

Lemma bind_keeps {A B} (m : M VM A) (k : A -> M VM B) :
  (forall w, engine_consistent (vm_engine w) -> engine_consistent (vm_engine (snd (m w)))) ->
  (forall a w, engine_consistent (vm_engine w) ->
               engine_consistent (vm_engine (snd (k a w)))) ->
  forall w, engine_consistent (vm_engine w) ->
            engine_consistent (vm_engine (snd (bind m k w))).
Proof.
  intros Hm Hk w Hw. unfold bind. specialize (Hm w Hw).
  destruct (m w) as [[a|e] w1]; cbn [snd] in *; [apply Hk; exact Hm | exact Hm].
Qed.

Lemma on_stateVector_keeps {A} (m : M StateVector.t A) (w : VM) :
  engine_consistent (vm_engine w) ->
  engine_consistent (vm_engine (snd (on_stateVector m w))).
Proof.
  intros Hw. unfold on_stateVector. destruct (m (vm_stateVector w)) as [r s]. exact Hw.
Qed.

Lemma getQubitIndex_keeps (k : key) (w : VM) :
  engine_consistent (vm_engine w) ->
  engine_consistent (vm_engine (snd (QubitRegistry.getQubitIndex k w))).
Proof.
  intros Hw. unfold QubitRegistry.getQubitIndex, bind, get.
  destruct (Map_get (qubits (vm_registry w)) k); exact Hw.
Qed.

Lemma getProbability_fold_keeps (qubitIndex outcome : Z) (l : list Z) :
  forall acc : M VM number,
    (forall w, engine_consistent (vm_engine w) ->
               engine_consistent (vm_engine (snd (acc w)))) ->
    forall w, engine_consistent (vm_engine w) ->
      engine_consistent
        (vm_engine (snd (fold_left (MeasurementEngine.getProbability_step qubitIndex outcome)
                                   l acc w))).
Proof.
  induction l as [|i l IH]; intros acc Hacc; [exact Hacc|].
  cbn [fold_left]. apply IH.
  unfold MeasurementEngine.getProbability_step.
  apply bind_keeps; [exact Hacc|]. intros probability.
  destruct (js_and (js_sar i qubitIndex) 1 =? outcome).
  - apply bind_keeps; [apply on_stateVector_keeps|].
    intros [amplitude|] w Hw; exact Hw.
  - intros w Hw. exact Hw.
Qed.

Lemma getProbability_keeps (k : key) (outcome : Z) (w : VM) :
  engine_consistent (vm_engine w) ->
  engine_consistent (vm_engine (snd (MeasurementEngine.getProbability k outcome w))).
Proof.
  revert w. unfold MeasurementEngine.getProbability.
  destruct (negb (outcome =? 0) && negb (outcome =? 1)); [intros w Hw; exact Hw|].
  apply bind_keeps; [apply getQubitIndex_keeps|]. intros qubitIndex.
  apply bind_keeps; [apply on_stateVector_keeps|]. intros qubitCount.
  apply getProbability_fold_keeps. intros w Hw. exact Hw.
Qed.

Lemma measureQubit_keeps (k : key) (nonCollapsing : bool) (w : VM) :
  engine_consistent (vm_engine w) ->
  engine_consistent (vm_engine (snd (MeasurementEngine.measureQubit k nonCollapsing w))).
Proof.
  revert w. unfold MeasurementEngine.measureQubit.
  apply bind_keeps; [apply getQubitIndex_keeps|]. intros qubitIndex.
  destruct nonCollapsing.
  - apply bind_keeps; [apply getProbability_keeps|]. intros prob0.
    apply bind_keeps; [apply getProbability_keeps|]. intros prob1.
    apply bind_keeps; intros; assumption.
  - apply bind_keeps.
    { unfold MeasurementEngine.stateVector_measureQubit.
      apply bind_keeps; [apply on_stateVector_keeps|]. intros _.
      apply bind_keeps; [intros w Hw; exact Hw|]. intros random.
      apply on_stateVector_keeps. }
    intros result.
    apply bind_keeps; [intros w Hw; exact Hw|]. intros timestamp.
    destruct k as [id|z]; [|intros w Hw; exact Hw].
    apply bind_keeps; [|intros [] w Hw; exact Hw].
    intros w [H1 H2]. unfold MeasurementEngine.modify_engine, modify.
    cbn [snd vm_engine set_vm_engine]. unfold engine_consistent.
    cbn [totalMeasurements outcomeCounts measurementHistory].
    rewrite length_app. cbn [length].
    destruct (result =? 0); cbn [fst snd]; lia.
Qed.

Lemma measureQubits_loop_keeps (qubitIds : list string) (nonCollapsing : bool) :
  forall (results : list (string * Z)) (w : VM),
    engine_consistent (vm_engine w) ->
    engine_consistent
      (vm_engine (snd (MeasurementEngine.measureQubits_loop qubitIds nonCollapsing
                                                            results w))).
Proof.
  induction qubitIds as [|qubitId rest IH]; intros results;
    cbn [MeasurementEngine.measureQubits_loop]; [intros w Hw; exact Hw|].
  apply bind_keeps; [apply measureQubit_keeps|]. intros result. apply IH.
Qed.

(** The engine keeps its books: if [totalMeasurements] is the sum of the
    two outcome counts and the length of the history, it still is after
    [measureQubit] and [measureQubits], collapsing or not, whether they
    return or throw, and after [reset]. *)
Theorem engine_counters_consistent (w : VM) :
  engine_consistent (vm_engine w) ->
  (forall (k : key) (nonCollapsing : bool),
      engine_consistent
        (vm_engine (snd (MeasurementEngine.measureQubit k nonCollapsing w)))) /\
  (forall (qubitIds : list string) (nonCollapsing : bool),
      engine_consistent
        (vm_engine (snd (MeasurementEngine.measureQubits qubitIds nonCollapsing w)))) /\
  engine_consistent (vm_engine (snd (MeasurementEngine.reset w))).
Proof.
  intros Hw. split; [|split].
  - intros k nonCollapsing. apply measureQubit_keeps. exact Hw.
  - intros qubitIds nonCollapsing. apply measureQubits_loop_keeps. exact Hw.
  - split; reflexivity.
Qed.

Lemma engine_counters_consistent_witness :
  engine_consistent (vm_engine (after_allocations 2 (initial_vm 32 32))) /\
  engine_consistent
    (vm_engine (snd (MeasurementEngine.measureQubits ["q0"; "q1"]%string false
                       (after_allocations 2 (initial_vm 32 32))))).
Proof.
  assert (H : engine_consistent (vm_engine (after_allocations 2 (initial_vm 32 32))))
    by (split; reflexivity).
  split; [exact H|].
  apply (proj1 (proj2 (engine_counters_consistent _ H))).
Defined.

End EngineCounters.

(** ** [GateExecutor.applyCNOT]: from handles to amplitudes *)

(** [applyCNOT(control, target)] of the gate executor, for two live
    handles with different indices: the amplitudes at [i] and
    [i xor 2^t] are exchanged for every [i] with bit [c] set, where [c]
    and [t] are the indices of the handles; the two handles are entangled
    afterwards; no handle changes its index; and one gate named "CNOT" is
    counted.  A control handle that is not live makes the call throw
    before anything is changed. *)
Theorem executor_applyCNOT (w : VM) (hc ht : string) (c t n : Z) (gc gt : nat) :
  Map_get (qubits (vm_registry w)) (KStr hc) = Some c ->
  Map_get (qubits (vm_registry w)) (KStr ht) = Some t ->
  Map_get (entanglementGroups (vm_registry w)) (KStr hc) = Some gc ->
  Map_get (entanglementGroups (vm_registry w)) (KStr ht) = Some gt ->
  Set_has (QubitRegistry.group_at (vm_registry w) gc) hc = true ->
  Set_has (QubitRegistry.group_at (vm_registry w) gt) ht = true ->
  StateVector.qubitCount (vm_stateVector w) = n ->
  0 <= n <= 31 -> 0 <= c < n -> 0 <= t < n -> c <> t ->
  Z.of_nat (length (StateVector.stateVector (vm_stateVector w))) = 2 ^ n ->
  (exists w',
      GateExecutor.applyCNOT hc ht w = (Ok tt, w') /\
      StateVector.stateVector (vm_stateVector w')
      = cnot_transform (StateVector.stateVector (vm_stateVector w)) c t /\
      QubitRegistry.areEntangled hc ht w' = (Ok true, w') /\
      qubits (vm_registry w') = qubits (vm_registry w) /\
      totalGatesExecuted (vm_executor w') = totalGatesExecuted (vm_executor w) + 1 /\
      Map_get (gateTypeCount (vm_executor w')) (KStr "CNOT")
      = Some (default 0 (Map_get (gateTypeCount (vm_executor w)) (KStr "CNOT")) + 1)) /\
  (forall h : string,
      Map_get (qubits (vm_registry w)) (KStr h) = None ->
      GateExecutor.applyCNOT h ht w = (Throw (Error "Qubit not found"), w)).
Proof.
  intros Hqc Hqt Hgc Hgt Hmc Hmt Hq Hn Hc Ht Hct Hlen. split.
  - unfold GateExecutor.applyCNOT.
    unfold bind at 1. rewrite (getQubitIndex_live hc c w Hqc).
    unfold bind at 1. rewrite (getQubitIndex_live ht t w Hqt).
    unfold bind at 1. unfold QubitRegistry.recordEntanglement at 1, bind at 1, get.
    rewrite Hgc, Hgt. unfold QubitRegistry.modify_registry, modify.
    unfold bind at 1. unfold GateExecutor.stateVector_call2.
    change (bool_decide ("applyCNOT"%string ∈ StateVector.methods)) with true.
    cbv beta iota. cbn [String.eqb Ascii.eqb Bool.eqb].
    unfold on_stateVector. cbn [vm_stateVector set_vm_registry].
    rewrite (applyCNOT_run (vm_stateVector w) n c t) by assumption.
    unfold GateExecutor.updateMetrics, modify.
    eexists. split; [reflexivity|].
    cbn [vm_stateVector vm_registry vm_executor set_vm_executor set_vm_stateVector
         set_vm_registry after_gate StateVector.stateVector totalGatesExecuted
         gateTypeCount qubits].
    split; [reflexivity|]. split; [|split; [reflexivity|split; [reflexivity|]]].
    + unfold QubitRegistry.areEntangled, bind, get, ret.
      cbn [vm_registry set_vm_registry set_vm_executor set_vm_stateVector
           entanglementGroups].
      rewrite Map_get_point_all, existsb_Set_from.
      unfold Set_has in Hmc, Hmt |- *.
      rewrite existsb_app, Hmc. cbn [orb].
      unfold QubitRegistry.group_at at 1. cbn [groupSets].
      rewrite lookup_app_r by lia. rewrite Nat.sub_diag. cbn [lookup list_lookup default].
      unfold Datatypes.id. rewrite existsb_Set_from, existsb_app, Hmt, orb_true_r.
      reflexivity.
    + apply Map_get_set_eq.
  - intros h Hh. unfold GateExecutor.applyCNOT.
    unfold bind at 1. rewrite (getQubitIndex_unknown h w Hh). reflexivity.
Qed.

Lemma executor_applyCNOT_witness :
  exists w',
    GateExecutor.applyCNOT "q0" "q1" (after_allocations 2 (initial_vm 32 32)) = (Ok tt, w') /\
    StateVector.stateVector (vm_stateVector w')
    = cnot_transform
        (StateVector.stateVector (vm_stateVector (after_allocations 2 (initial_vm 32 32))))
        0 1 /\
    QubitRegistry.areEntangled "q0" "q1" w' = (Ok true, w').
Proof.
  destruct (proj1 (executor_applyCNOT (after_allocations 2 (initial_vm 32 32))
                     "q0" "q1" 0 1 2 0%nat 1%nat
                     eq_refl eq_refl eq_refl eq_refl eq_refl eq_refl eq_refl
                     ltac:(lia) ltac:(lia) ltac:(lia) ltac:(lia) eq_refl))
    as (w' & H1 & H2 & H3 & _).
  exists w'. split; [exact H1|]. split; [exact H2 | exact H3].
Defined.

(** ** The sizes of the codec *)

Lemma length_store (buffer : Buffer.t) (offset : Z) (v : jsval) :
  length (Buffer.store buffer offset v) = length buffer.
Proof. apply length_arr_set_any. Qed.

Lemma length_put4 (buffer : Buffer.t) (offset u : Z) :
  length (Buffer.put4 buffer offset u) = length buffer.
Proof. unfold Buffer.put4. cbv zeta. rewrite !length_arr_set_any. reflexivity. Qed.

Lemma length_writeIntLE (min max : Z) (buffer b' : Buffer.t) (value : jsval) (offset : Z) :
  Buffer.writeIntLE min max buffer value offset = Ok b' -> length b' = length buffer.
Proof.
  unfold Buffer.writeIntLE.
  repeat match goal with
         | |- context [match ?x with _ => _ end] => destruct x
         | |- context [if ?x then _ else _] => destruct x
         end;
    try discriminate; intros [= <-]; apply length_put4.
Qed.

Lemma length_writeFloatLE (buffer b' : Buffer.t) (value : jsval) (offset : Z) :
  Buffer.writeFloatLE buffer value offset = Ok b' -> length b' = length buffer.
Proof.
  unfold Buffer.writeFloatLE. cbv zeta.
  destruct (Buffer.in_bounds buffer offset 4); [|discriminate].
  intros [= <-]. apply length_put4.
Qed.

Lemma operand_sizes_agree (op : Z) :
  op ∈ QBCOpcode.values ->
  ~ In op [QBCOpcode.GATE_PHASE; QBCOpcode.GATE_ISWAP; QBCOpcode.GATE_FREDKIN] ->
  QBC.getParameterSize op = Ok (BytecodeInterpreter.getOpcodeOperandSize op).
Proof.
  intros H Hn. unfold QBCOpcode.values in H.
  repeat (apply elem_of_cons in H;
          destruct H as [-> | H];
          [first [reflexivity | exfalso; apply Hn; cbn; tauto]|]).
  apply elem_of_nil in H. contradiction.
Qed.

(** The three places that know the size of an instruction agree.  For an
    instruction that [encodeInstruction] accepts, the buffer is one byte
    longer than [getParameterSize] says; [decodeInstruction] reports that
    same number of bytes for the opcode; and the interpreter's
    [getOpcodeOperandSize] gives the size of [getParameterSize], except
    for [GATE_PHASE], [GATE_ISWAP] and [GATE_FREDKIN], which it does not
    know. *)
Theorem codec_sizes_agree (i : QBC.instruction) (buffer : Buffer.t) :
  QBC.encodeInstruction i = Ok buffer ->
  exists p : Z,
    QBC.getParameterSize (QBC.op i) = Ok p /\
    Z.of_nat (length buffer) = 1 + p /\
    (forall (b : Buffer.t) (offset : Z) (i' : QBC.instruction) (n : Z),
        QBC.decodeInstruction b offset = Ok (i', n) -> QBC.op i' = QBC.op i -> n = 1 + p) /\
    (~ In (QBC.op i) [QBCOpcode.GATE_PHASE; QBCOpcode.GATE_ISWAP; QBCOpcode.GATE_FREDKIN] ->
     BytecodeInterpreter.getOpcodeOperandSize (QBC.op i) = p).
Proof.
  unfold QBC.encodeInstruction.
  destruct (bool_decide (QBC.op i ∈ QBCOpcode.values)) eqn:Hin; [|discriminate].
  cbn [negb]. apply bool_decide_eq_true in Hin.
  pose proof (operand_sizes_agree (QBC.op i) Hin) as Hsize.
  unfold QBC.getParameterSize in Hsize |- *.
  assert (Hdec : forall g : QBC.group,
             QBC.switch (QBC.op i) = Some g ->
             forall p : Z,
             QBC.getParameterSize (QBC.op i) = Ok p ->
             forall b offset i' n,
               QBC.decodeInstruction b offset = Ok (i', n) -> QBC.op i' = QBC.op i ->
               n = 1 + p).
  { intros g Hg p Hp b offset i' n. unfold QBC.decodeInstruction.
    destruct (Buffer.load b offset) as [|op'|]; try discriminate.
    destruct (QBC.switch op') as [g'|] eqn:Hg'; [|discriminate].
    intros H Hop.
    assert (op' = QBC.op i).
    { rewrite <- Hop. destruct g';
        unfold Buffer.readFloatLE, Buffer.readUInt32LE, Buffer.readInt32LE in H;
        try (destruct (Buffer.in_bounds b _ 4); [|discriminate H]);
        cbn [rbind] in H; injection H as <- _; reflexivity. }
    subst op'. rewrite Hg in Hg'. injection Hg' as <-.
    unfold QBC.getParameterSize in Hp. rewrite Hg in Hp.
    destruct g;
      unfold Buffer.readFloatLE, Buffer.readUInt32LE, Buffer.readInt32LE in H;
      try (destruct (Buffer.in_bounds b _ 4); [|discriminate H]);
      cbn [rbind] in H; injection H as _ <-; injection Hp as <-; reflexivity. }
  destruct (QBC.switch (QBC.op i)) as [g|] eqn:Hg; [|discriminate].
  specialize (Hdec g eq_refl).
  destruct g; cbn [rbind]; cbv zeta; intros H;
    (eexists; split; [reflexivity|]);
    (split; [|split; [apply Hdec; unfold QBC.getParameterSize; rewrite Hg; reflexivity
                     |intros Hn; specialize (Hsize Hn); congruence]]);
    try (apply length_writeFloatLE in H);
    try (apply length_writeIntLE in H);
    try (injection H as <-);
    try rewrite H;
    rewrite ?length_store; unfold Buffer.alloc; rewrite repeat_length; reflexivity.
Qed.

Lemma codec_sizes_agree_witness :
  exists p : Z,
    QBC.getParameterSize (QBC.op rx_instruction) = Ok p /\
    Z.of_nat (length [0x20; 3; 0; 0; 0x80; 0x3F]) = 1 + p /\
    BytecodeInterpreter.getOpcodeOperandSize (QBC.op rx_instruction) = p.
Proof.
  destruct (codec_sizes_agree rx_instruction [0x20; 3; 0; 0; 0x80; 0x3F])
    as (p & H1 & H2 & _ & H3); [vm_compute; reflexivity|].
  exists p. split; [exact H1|]. split; [exact H2|].
  apply H3. cbn. intros [H | [H | [H | []]]]; discriminate H.
Defined.
